(** * Simpatico: a shallow embedding of the cached Coulomb facade, the
      neighbour-list cell, the text archive and the fine Ewald solver.

    Conventions of the embedding.
    - A C++ [double] is read as a real number ([R]): arithmetic is exact, and
      [exp], [cos], [sin] are the functions of the Reals library.  Which
      waves makeWaves stores is decided by a comparison of rounded numbers;
      for that the first pass is also given in double arithmetic
      ([DoubleWaves], on the binary64 numbers of [PrimFloat]).
    - A C++ [int] is a 32-bit two's complement integer, held in [Z].  Where
      an operation can leave the range of [int] (the capacity counter of a
      cell, the capacity products of makeWaves, the length of a string),
      its result is reduced by [CInt.wrap]; loop indices and running
      indices, which are bounded by the sizes of the arrays they index, are
      written without it.
    - [assert(e)] and [UTIL_THROW(msg)] end the call with a [Failure]. *)

From Stdlib Require Import ZArith List Bool String Reals Lra Lia QArith.
From Stdlib Require PrimFloat FloatOps SpecFloat Uint63.
From stdpp Require Import base list gmap.
Import ListNotations.

#[local] Open Scope Z_scope.

(** ** Results of calls that may hit an assertion or throw *)

Inductive Failure : Type :=
| AssertionFailed (expr : string)
| Thrown (msg : string).

Inductive result (A : Type) : Type :=
| Ok (a : A)
| Fail (f : Failure).

Arguments Ok {A} a.
Arguments Fail {A} f.

Definition rbind {A B : Type} (m : result A) (k : A -> result B) : result B :=
  match m with
  | Ok a => k a
  | Fail f => Fail f
  end.

Notation "'do' x <- m ;; k" := (rbind m (fun x => k))
  (at level 10, x name, m at level 99, k at level 200).

Definition assert (b : bool) (expr : string) : result unit :=
  if b then Ok tt else Fail (AssertionFailed expr).

Abbreviation double := R (only parsing).

(** ** The C++ type [int] *)

Module CInt.

Definition max : Z := 2147483647.
Definition min : Z := -2147483648.

(** The [int] that holds an arithmetic result [z]: [z] itself when it is in
    range, and otherwise [z] reduced modulo [2^32] into the range, which is
    what two's complement hardware leaves after a signed overflow (for
    [size_t] to [int], the conversion the compilers define). *)
Definition wrap (z : Z) : Z := (z + 2147483648) mod 4294967296 - 2147483648.

Arguments wrap : simpl never.

End CInt.

(** Util::Vector, three Cartesian components. *)
Record Vector : Type := mkVector { vx : double; vy : double; vz : double }.

(** Util::Tensor, stored by rows. *)
Record Tensor : Type := mkTensor { row0 : Vector; row1 : Vector; row2 : Vector }.

(** ** Util::Setable<T> *)

Module Setable.

(** Modelled from the spec: util/misc/Setable.h is not among the sources.
    The spec describes the cached quantity as an Option-like value with an
    invalidation operation; reading a value that is not set throws. *)
Record t (A : Type) : Type := mk { value_ : A; isSet_ : bool }.

Arguments mk {A} _ _.
Arguments value_ {A} _.
Arguments isSet_ {A} _.

Definition set {A : Type} (v : A) (s : t A) : t A :=
  {| value_ := v; isSet_ := true |}.

Definition unset {A : Type} (s : t A) : t A :=
  {| value_ := value_ s; isSet_ := false |}.

Definition isSet {A : Type} (s : t A) : bool := isSet_ s.

Definition value {A : Type} (s : t A) : result A :=
  if isSet_ s then Ok (value_ s)
  else Fail (Thrown "Attempt to return unknown value.").

End Setable.

(** ** McMd::MdCoulombPotential *)

Module MdCoulombPotential.

(** The data members the base class touches in MdCoulombPotential.cpp,
    and the members [derived] that a concrete subclass adds. *)
Record t (Sub : Type) : Type := mk {
  isInitialized_ : bool;
  hasWaves_ : bool;
  kSpaceEnergy_ : Setable.t double;
  kSpaceStress_ : Setable.t Tensor;
  derived : Sub
}.

Arguments mk {Sub} _ _ _ _ _.
Arguments isInitialized_ {Sub} _.
Arguments hasWaves_ {Sub} _.
Arguments kSpaceEnergy_ {Sub} _.
Arguments kSpaceStress_ {Sub} _.
Arguments derived {Sub} _.

(** The pure virtual routines [computeEnergy()] and [computeStress()]: a
    subclass supplies them, the base class only calls them. *)
Class KSpaceRoutines (Sub : Type) : Type := {
  computeEnergy : t Sub -> t Sub;
  computeStress : t Sub -> t Sub
}.

(** What a subclass routine owes the facade: it leaves the quantity it
    computes set. *)
Definition sets_energy {Sub : Type} `{KSpaceRoutines Sub} : Prop :=
  forall o : t Sub, Setable.isSet (kSpaceEnergy_ (computeEnergy o)) = true.

Definition sets_stress {Sub : Type} `{KSpaceRoutines Sub} : Prop :=
  forall o : t Sub, Setable.isSet (kSpaceStress_ (computeStress o)) = true.

(** A call of a subclass routine, as a test double with a counter sees it. *)
Inductive Call : Type :=
| CallComputeEnergy
| CallComputeStress.

Section Methods.
Context {Sub : Type} `{KSpaceRoutines Sub}.

(** Constructor: [isInitialized_(false), hasWaves_(false)]; the two
    Setable members start unset. *)
Definition construct (e0 : double) (s0 : Tensor) (d : Sub) : t Sub :=
  {| isInitialized_ := false;
     hasWaves_ := false;
     kSpaceEnergy_ := Setable.mk e0 false;
     kSpaceStress_ := Setable.mk s0 false;
     derived := d |}.

(** [hasWaves_ = false;] *)
Definition unsetWaves (o : t Sub) : t Sub :=
  {| isInitialized_ := isInitialized_ o;
     hasWaves_ := false;
     kSpaceEnergy_ := kSpaceEnergy_ o;
     kSpaceStress_ := kSpaceStress_ o;
     derived := derived o |}.

(** [kSpaceEnergy_.unset();] *)
Definition unsetEnergy (o : t Sub) : t Sub :=
  {| isInitialized_ := isInitialized_ o;
     hasWaves_ := hasWaves_ o;
     kSpaceEnergy_ := Setable.unset (kSpaceEnergy_ o);
     kSpaceStress_ := kSpaceStress_ o;
     derived := derived o |}.

(** [kSpaceStress_.unset();] *)
Definition unsetStress (o : t Sub) : t Sub :=
  {| isInitialized_ := isInitialized_ o;
     hasWaves_ := hasWaves_ o;
     kSpaceEnergy_ := kSpaceEnergy_ o;
     kSpaceStress_ := Setable.unset (kSpaceStress_ o);
     derived := derived o |}.

(** [if (!kSpaceEnergy_.isSet()) computeEnergy(); return
    kSpaceEnergy_.value();]  The first component lists the subclass
    routines the call ran, the second is the object afterwards. *)
Definition kSpaceEnergy (o : t Sub) : list Call * t Sub * result double :=
  if negb (Setable.isSet (kSpaceEnergy_ o)) then
    let o' := computeEnergy o in
    ([CallComputeEnergy], o', Setable.value (kSpaceEnergy_ o'))
  else ([], o, Setable.value (kSpaceEnergy_ o)).

(** [if (!kSpaceStress_.isSet()) computeStress(); return
    kSpaceStress_.value();] *)
Definition kSpaceStress (o : t Sub) : list Call * t Sub * result Tensor :=
  if negb (Setable.isSet (kSpaceStress_ o)) then
    let o' := computeStress o in
    ([CallComputeStress], o', Setable.value (kSpaceStress_ o'))
  else ([], o, Setable.value (kSpaceStress_ o)).

End Methods.

(** A test subclass: it has no data of its own, its energy routine stores
    [3] and its stress routine stores the unit tensor. *)
Definition unitTensor : Tensor :=
  mkTensor (mkVector 1 0 0) (mkVector 0 1 0) (mkVector 0 0 1).

Definition zeroTensor : Tensor :=
  mkTensor (mkVector 0 0 0) (mkVector 0 0 0) (mkVector 0 0 0).

#[export] Instance testRoutines : KSpaceRoutines unit := {
  computeEnergy o :=
    {| isInitialized_ := isInitialized_ o;
       hasWaves_ := hasWaves_ o;
       kSpaceEnergy_ := Setable.set 3%R (kSpaceEnergy_ o);
       kSpaceStress_ := kSpaceStress_ o;
       derived := derived o |};
  computeStress o :=
    {| isInitialized_ := isInitialized_ o;
       hasWaves_ := hasWaves_ o;
       kSpaceEnergy_ := kSpaceEnergy_ o;
       kSpaceStress_ := Setable.set unitTensor (kSpaceStress_ o);
       derived := derived o |}
}.

(** An object whose two totals are cached and whose waves are built. *)
Definition cachedObject : t unit :=
  {| isInitialized_ := true;
     hasWaves_ := true;
     kSpaceEnergy_ := Setable.mk 3%R true;
     kSpaceStress_ := Setable.mk unitTensor true;
     derived := tt |}.

End MdCoulombPotential.

(** ** DdMd::SpCell *)

Module SpCell.

(** Addresses count SpCellAtom slots; [0] is the null pointer. *)
Definition pointer : Type := Z.

(** The array of SpCellAtom slots that the cell list owns: which Atom each
    slot points to. *)
Definition slots : Type := gmap Z Z.

Record t : Type := mk {
  begin_ : pointer;
  offsetsPtr_ : pointer;
  nextSpCellPtr_ : pointer;
  nAtom_ : Z;
  atomCapacity_ : Z;
  id_ : Z;
  isGhostSpCell_ : bool
}.

Definition setId (id : Z) (c : t) : t :=
  {| begin_ := begin_ c; offsetsPtr_ := offsetsPtr_ c;
     nextSpCellPtr_ := nextSpCellPtr_ c; nAtom_ := nAtom_ c;
     atomCapacity_ := atomCapacity_ c; id_ := id;
     isGhostSpCell_ := isGhostSpCell_ c |}.

(** [assert(begin_ == 0); ++atomCapacity_;]  No assertion bounds the
    counter, so the increment is that of an [int]. *)
Definition incrementCapacity (c : t) : result t :=
  do _ <- assert (begin_ c =? 0) "begin_ == 0" ;;
  Ok {| begin_ := begin_ c; offsetsPtr_ := offsetsPtr_ c;
        nextSpCellPtr_ := nextSpCellPtr_ c; nAtom_ := nAtom_ c;
        atomCapacity_ := CInt.wrap (atomCapacity_ c + 1); id_ := id_ c;
        isGhostSpCell_ := isGhostSpCell_ c |}.

(** [begin_ = 0; nAtom_ = 0; atomCapacity_ = 0;] *)
Definition clear (c : t) : t :=
  {| begin_ := 0; offsetsPtr_ := offsetsPtr_ c;
     nextSpCellPtr_ := nextSpCellPtr_ c; nAtom_ := 0;
     atomCapacity_ := 0; id_ := id_ c;
     isGhostSpCell_ := isGhostSpCell_ c |}.

(** [assert(begin_ == 0); assert(nAtom_ == 0); assert(atomCapacity_ >= 0);
    begin_ = begin; return (begin_ + atomCapacity_);] *)
Definition initialize (begin : pointer) (c : t) : result (pointer * t) :=
  do _ <- assert (begin_ c =? 0) "begin_ == 0" ;;
  do _ <- assert (nAtom_ c =? 0) "nAtom_ == 0" ;;
  do _ <- assert (0 <=? atomCapacity_ c) "atomCapacity_ >= 0" ;;
  let c' := {| begin_ := begin; offsetsPtr_ := offsetsPtr_ c;
               nextSpCellPtr_ := nextSpCellPtr_ c; nAtom_ := nAtom_ c;
               atomCapacity_ := atomCapacity_ c; id_ := id_ c;
               isGhostSpCell_ := isGhostSpCell_ c |} in
  Ok (begin_ c' + atomCapacity_ c', c').

(** [assert(begin_ != 0); assert(nAtom_ < atomCapacity_);
    begin_[nAtom_].setPtr(atomPtr); ++nAtom_;]  The assertion keeps
    [nAtom_ + 1] within the range of [int]. *)
Definition append (atomPtr : pointer) (s : slots * t) : result (slots * t) :=
  let '(m, c) := s in
  do _ <- assert (negb (begin_ c =? 0)) "begin_ != 0" ;;
  do _ <- assert (nAtom_ c <? atomCapacity_ c) "nAtom_ < atomCapacity_" ;;
  Ok (<[ begin_ c + nAtom_ c := atomPtr ]> m,
      {| begin_ := begin_ c; offsetsPtr_ := offsetsPtr_ c;
         nextSpCellPtr_ := nextSpCellPtr_ c; nAtom_ := nAtom_ c + 1;
         atomCapacity_ := atomCapacity_ c; id_ := id_ c;
         isGhostSpCell_ := isGhostSpCell_ c |}).

Definition id (c : t) : Z := id_ c.
Definition nAtom (c : t) : Z := nAtom_ c.
Definition atomCapacity (c : t) : Z := atomCapacity_ c.
Definition isGhostSpCell (c : t) : bool := isGhostSpCell_ c.
Definition nextSpCellPtr (c : t) : pointer := nextSpCellPtr_ c.

(** [assert(i >= 0); assert(i < nAtom_); return &begin_[i];] *)
Definition atomPtr (i : Z) (c : t) : result pointer :=
  do _ <- assert (0 <=? i) "i >= 0" ;;
  do _ <- assert (i <? nAtom_ c) "i < nAtom_" ;;
  Ok (begin_ c + i).

(** The sizing phase: [n] calls of [incrementCapacity()] in a row. *)
Fixpoint incrementCapacityTimes (n : nat) (c : t) : result t :=
  match n with
  | O => Ok c
  | S n' => do c' <- incrementCapacity c ;; incrementCapacityTimes n' c'
  end.

(** The filling phase: one [append] per Atom pointer of the list. *)
Fixpoint appendAll (atoms : list pointer) (s : slots * t) : result (slots * t) :=
  match atoms with
  | [] => Ok s
  | a :: rest => do s' <- append a s ;; appendAll rest s'
  end.

End SpCell.

(** ** std::ostream formatting state and Util::TextFileOArchive *)

Module Ios.

(** The format flags of [std::ios_base], a bit mask.  The bit values are
    those of libstdc++; the model only relies on their being distinct
    bits. *)
Definition fmtflags : Type := Z.

Definition boolalpha : fmtflags := 1.
Definition dec : fmtflags := 2.
Definition fixed : fmtflags := 4.
Definition hex : fmtflags := 8.
Definition internal : fmtflags := 16.
Definition left : fmtflags := 32.
Definition oct : fmtflags := 64.
Definition right : fmtflags := 128.
Definition scientific : fmtflags := 256.
Definition showbase : fmtflags := 512.
Definition showpoint : fmtflags := 1024.
Definition showpos : fmtflags := 2048.
Definition skipws : fmtflags := 4096.
Definition unitbuf : fmtflags := 8192.
Definition uppercase : fmtflags := 16384.
Definition floatfield : fmtflags := Z.lor scientific fixed.

(** The values the archive's [serialize] overloads hand to [pack]. *)
Inductive Value : Type :=
| VBool (b : bool)
| VChar (c : Ascii.ascii)
| VInt (z : Z)
| VFloat (x : double)
| VDouble (x : double)
| VString (s : string).

(** What a stream received: a value converted under the flags, width and
    precision in force at the insertion, or the line break of [std::endl]. *)
Inductive Item : Type :=
| Formatted (fl : fmtflags) (w : Z) (p : Z) (v : Value)
| EndOfLine.

Record ostream : Type := mkOstream {
  flags_ : fmtflags;
  width_ : Z;
  precision_ : Z;
  written : list Item
}.

(** The conversion a floating-point insertion uses, chosen from the
    [floatfield] bits: [%e] for [scientific] alone, [%f] for [fixed] alone,
    [%a] for both, [%g] for neither. *)
Inductive FloatNotation : Type :=
| General
| Fixed
| Scientific
| HexFloat.

Definition floatNotation (fl : fmtflags) : FloatNotation :=
  let ff := Z.land fl floatfield in
  if ff =? scientific then Scientific
  else if ff =? fixed then Fixed
  else if ff =? floatfield then HexFloat
  else General.

(** [setf(f)] with one argument: [flags |= f]. *)
Definition setf (f : fmtflags) (s : ostream) : ostream :=
  {| flags_ := Z.lor (flags_ s) f; width_ := width_ s;
     precision_ := precision_ s; written := written s |}.

Definition width (w : Z) (s : ostream) : ostream :=
  {| flags_ := flags_ s; width_ := w;
     precision_ := precision_ s; written := written s |}.

Definition precision (p : Z) (s : ostream) : ostream :=
  {| flags_ := flags_ s; width_ := width_ s;
     precision_ := p; written := written s |}.

(** [os << v] for a built-in value: the value is converted under the
    current settings, then the width is reset to 0; flags and precision
    stay. *)
Definition insert (v : Value) (s : ostream) : ostream :=
  {| flags_ := flags_ s; width_ := 0; precision_ := precision_ s;
     written := written s ++ [Formatted (flags_ s) (width_ s) (precision_ s) v] |}.

(** [os << std::endl]: a line break (and a flush); no setting changes. *)
Definition endl (s : ostream) : ostream :=
  {| flags_ := flags_ s; width_ := width_ s; precision_ := precision_ s;
     written := written s ++ [EndOfLine] |}.

(** A stream as it is after construction: [skipws | dec], width 0,
    precision 6, nothing written. *)
Definition fresh : ostream :=
  {| flags_ := Z.lor skipws dec; width_ := 0; precision_ := 6; written := [] |}.

(** A stream on which a caller has selected fixed notation. *)
Definition fixedStream : ostream := setf fixed fresh.

End Ios.

Module TextFileOArchive.
Import Ios.

(** The methods act on the stream [ostreamPtr_] points to. *)

Definition is_saving : bool := true.
Definition is_loading : bool := false.

(** [*ostreamPtr_ << data << std::endl;] *)
Definition pack (data : Value) (s : ostream) : ostream :=
  endl (insert data s).

(** [ostreamPtr_->setf(std::ios::scientific); ostreamPtr_->width(25);
    ostreamPtr_->precision(17); *ostreamPtr_ << data << std::endl;] *)
Definition pack_double (data : double) (s : ostream) : ostream :=
  endl (insert (VDouble data) (precision 17 (width 25 (setf scientific s)))).

(** [for (i = 0; i < n; ++i) *ostreamPtr_ << array[i] << "  ";
    *ostreamPtr_ << std::endl;]  The list holds the [n] elements. *)
Definition pack_array (array : list Value) (s : ostream) : ostream :=
  endl (fold_left (fun s v => insert (VString "  ") (insert v s)) array s).

(** The [serialize] overloads: the one for [double] resolves to the
    [pack<double>] specialisation, the one for [std::string] packs the size
    and then the text ([int size = data.size(); ar.pack(size);
    ar.pack(data);], the size narrowed to [int]), the others call the
    generic [pack]. *)
Definition serialize (data : Value) (s : ostream) : ostream :=
  match data with
  | VDouble x => pack_double x s
  | VString str =>
      pack data (pack (VInt (CInt.wrap (Z.of_nat (String.length str)))) s)
  | _ => pack data s
  end.

(** What a later writer on the same stream may do: one of the archive's
    packs, or an insertion of its own under the current settings. *)
Inductive Write : Type :=
| WPack (v : Value)
| WPackDouble (x : double)
| WPackArray (vs : list Value)
| WInsert (v : Value)
| WEndl.

Definition write (w : Write) (s : ostream) : ostream :=
  match w with
  | WPack v => pack v s
  | WPackDouble x => pack_double x s
  | WPackArray vs => pack_array vs s
  | WInsert v => insert v s
  | WEndl => endl s
  end.

Definition writes (ws : list Write) (s : ostream) : ostream :=
  fold_left (fun s w => write w s) ws s.

(** The settings a [pack<double>] leaves behind, as an invariant of the
    stream: the scientific bit is set, the precision is 17, the width is 0,
    and the fixed bit is as it was in [f0]. *)
Definition settled (f0 : fmtflags) (s : ostream) : Prop :=
  Z.land (flags_ s) scientific = scientific /\
  Z.land (flags_ s) fixed = Z.land f0 fixed /\
  precision_ s = 17 /\ width_ s = 0.

End TextFileOArchive.

(** ** Vectors, complex numbers and loops *)

Module Space.
#[local] Open Scope R_scope.

(** util/space/Vector.h and IntVector.h are not among the sources; the
    operations below are the componentwise ones that the solver calls:
    [zero], [+=], [multiply], [*=], [dot], [square], [abs] and [[j]]. *)

Definition vzero : Vector := mkVector 0 0 0.

Definition vadd (a b : Vector) : Vector :=
  mkVector (vx a + vx b) (vy a + vy b) (vz a + vz b).

(** [Vector::multiply(v, s)]: every component of [v] times [s]. *)
Definition vscale (v : Vector) (s : double) : Vector :=
  mkVector (vx v * s) (vy v * s) (vz v * s).

Definition vdot (a b : Vector) : double :=
  vx a * vx b + vy a * vy b + vz a * vz b.

Definition vsquare (a : Vector) : double := vdot a a.

Definition vabs (a : Vector) : double := sqrt (vsquare a).

(** Component [j] of a vector, [j] in 0..2. *)
Definition vget (v : Vector) (j : Z) : double :=
  if (j =? 0)%Z then vx v else if (j =? 1)%Z then vy v else vz v.

(** Util::IntVector. *)
Record IntVector : Type := mkIntVector { ix : Z; iy : Z; iz : Z }.

(** [std::complex<double>]. *)
Record DCMPLX : Type := mkDCMPLX { real : double; imag : double }.

Definition cadd (a b : DCMPLX) : DCMPLX :=
  mkDCMPLX (real a + real b) (imag a + imag b).

Definition cmul (a b : DCMPLX) : DCMPLX :=
  mkDCMPLX (real a * real b - imag a * imag b)
           (real a * imag b + imag a * real b).

(** A complex number times a double. *)
Definition cscale (a : DCMPLX) (s : double) : DCMPLX :=
  mkDCMPLX (real a * s) (imag a * s).

(** [std::exp] of a complex number. *)
Definition cexp (a : DCMPLX) : DCMPLX :=
  mkDCMPLX (exp (real a) * cos (imag a)) (exp (real a) * sin (imag a)).

(** The tests [x <= y] and [x > y] on doubles. *)
Definition Rleb (x y : double) : bool := if Rle_dec x y then true else false.
Definition Rgtb (x y : double) : bool := if Rgt_dec x y then true else false.

(** [ceil], and the conversion of its integral result to [int]. *)
Definition ceil (x : double) : Z := (- Int_part (- x))%Z.

#[local] Close Scope R_scope.

(** [for (i = lo; i <= hi; ++i) body]: the body runs for [lo], [lo+1], ...,
    [hi] in turn. *)
Fixpoint for_up {S : Type} (n : nat) (i : Z) (body : Z -> S -> S) (s : S) : S :=
  match n with
  | O => s
  | Datatypes.S n' => for_up n' (i + 1) body (body i s)
  end.

Definition for_Z {S : Type} (lo hi : Z) (body : Z -> S -> S) (s : S) : S :=
  for_up (Z.to_nat (hi + 1 - lo)) lo body s.

(** The sum of a list of doubles. *)
Definition sumR (l : list double) : double := fold_right Rplus 0%R l.

(** The indices a counting loop visits. *)
Fixpoint Zlist (n : nat) (i : Z) : list Z :=
  match n with
  | O => []
  | Datatypes.S n' => i :: Zlist n' (i + 1)
  end.

Definition Zrange (lo hi : Z) : list Z := Zlist (Z.to_nat (hi + 1 - lo)) lo.

(** The same loop with a body that may fail. *)
Fixpoint for_upM {S : Type} (n : nat) (i : Z) (body : Z -> S -> result S) (s : S)
  : result S :=
  match n with
  | O => Ok s
  | Datatypes.S n' => do s' <- body i s ;; for_upM n' (i + 1) body s'
  end.

Definition for_ZM {S : Type} (lo hi : Z) (body : Z -> S -> result S) (s : S)
  : result S :=
  for_upM (Z.to_nat (hi + 1 - lo)) lo body s.

(** A loop over the elements of a container, with a body that may fail. *)
Fixpoint foldM {A S : Type} (body : A -> S -> result S) (l : list A) (s : S)
  : result S :=
  match l with
  | [] => Ok s
  | a :: rest => do s' <- body a s ;; foldM body rest s'
  end.

(** A loop that rewrites every element of a container in place, threading
    a state through. *)
Fixpoint mapM {A S : Type} (body : S -> A -> result (S * A)) (s : S) (l : list A)
  : result (S * list A) :=
  match l with
  | [] => Ok (s, [])
  | a :: rest =>
      do r <- body s a ;;
      do r' <- mapM body (fst r) rest ;;
      Ok (fst r', snd r :: snd r')
  end.

End Space.

(** ** Util::GArray<T> *)

Module GArray.

(** Modelled from the spec: util/containers/GArray.h is not among the
    sources.  The spec's parallel arrays are growable sequences with a
    reserved capacity: [reserve] enlarges the storage to the capacity asked
    for, [clear] empties the sequence and keeps the storage, [append] adds
    at the end and enlarges a full storage (by how much plays no role here:
    the model takes the least capacity that holds the elements), [resize]
    sets the number of elements (a negative number counts as 0), and element
    access asserts that the index is in range. *)
Record t (A : Type) : Type := mk { data : list A; capacity : Z }.

Arguments mk {A} _ _.
Arguments data {A} _.
Arguments capacity {A} _.

Section Operations.
Context {A : Type}.

Definition empty : t A := mk [] 0.

Definition size (a : t A) : Z := Z.of_nat (length (data a)).

Definition reserve (n : Z) (a : t A) : t A :=
  if capacity a <? n then mk (data a) n else a.

Definition clear (a : t A) : t A := mk [] (capacity a).

Definition append (x : A) (a : t A) : t A :=
  mk (data a ++ [x]) (Z.max (capacity a) (size a + 1)).

(** [resize(n)]: the first [n] elements stay, new elements are
    default-constructed. *)
Definition resize (d : A) (n : Z) (a : t A) : t A :=
  mk (take (Z.to_nat n) (data a)
      ++ replicate (Z.to_nat n - length (data a)) d)
     (Z.max (capacity a) n).

(** [a[i]] as a value. *)
Definition get (a : t A) (i : Z) : result A :=
  do _ <- assert (0 <=? i) "i >= 0" ;;
  match data a !! Z.to_nat i with
  | Some x => Ok x
  | None => Fail (AssertionFailed "i < size_")
  end.

(** [a[i]] as the target of an assignment that turns the element into
    [f (a[i])]. *)
Definition modify (a : t A) (i : Z) (f : A -> A) : result (t A) :=
  do x <- get a i ;;
  Ok (mk (<[ Z.to_nat i := f x ]> (data a)) (capacity a)).

End Operations.

End GArray.

(** ** The wave set of the Ewald sum, in the words of the spec *)

Module WaveSet.
Import Space.

Section Waves.
Variables (b0 b1 b2 : Vector).

(** The wavevector [k·b] of an integer triple. *)
Definition kdotb (k : IntVector) : Vector :=
  vadd (vadd (vscale b0 (IZR (ix k))) (vscale b1 (IZR (iy k))))
       (vscale b2 (IZR (iz k))).

(** [ksq = |k·b|²]. *)
Definition ksqOf (k : IntVector) : double := vsquare (kdotb k).

(** Whether a triple is within the cutoff: [ksq <= kCutoffSq]. *)
Definition kept (kCutoffSq : double) (k : IntVector) : bool :=
  Rleb (ksqOf k) kCutoffSq.

End Waves.

(** The Green's-function weight [exp(-ksq/(4·alpha²))/ksq]. *)
Definition weight (alpha ksq : double) : double :=
  (exp (- ksq / (4 * (alpha * alpha))) / ksq)%R.

(** The half-space rule. *)
Definition halfSpace (k : IntVector) : Prop :=
  0 <= ix k /\ (ix k = 0 -> 0 <= iy k) /\ (ix k = 0 -> iy k = 0 -> 1 <= iz k).

(** The index box [[0,maxK0] x [-maxK1,maxK1] x [-maxK2,maxK2]]. *)
Definition inBox (maxK k : IntVector) : Prop :=
  0 <= ix k <= ix maxK /\
  - iy maxK <= iy k <= iy maxK /\
  - iz maxK <= iz k <= iz maxK.

(** The triples the three nested loops visit, in the order of the visit. *)
Definition enum2 (maxK : IntVector) (k0 k1 : Z) : list IntVector :=
  map (mkIntVector k0 k1)
      (Zrange (if (k0 =? 0) && (k1 =? 0) then 1 else - iz maxK) (iz maxK)).

Definition enum1 (maxK : IntVector) (k0 : Z) : list IntVector :=
  flat_map (enum2 maxK k0) (Zrange (if k0 =? 0 then 0 else - iy maxK) (iy maxK)).

Definition enum0 (maxK : IntVector) : list IntVector :=
  flat_map (enum1 maxK) (Zrange 0 (ix maxK)).

(** The order the second pass of makeWaves relies on: the next wave has a
    larger first index, or the same first index and a larger second index,
    or the same first two indices and the next third index. *)
Definition follows (w w' : IntVector) : Prop :=
  ix w < ix w' \/
  (ix w = ix w' /\ iy w < iy w') \/
  (ix w = ix w' /\ iy w = iy w' /\ iz w' = iz w + 1).

Fixpoint chain (l : list IntVector) : Prop :=
  match l with
  | [] => True
  | w :: l' =>
      match l' with
      | [] => True
      | w' :: _ => follows w w'
      end /\ chain l'
  end.

End WaveSet.

(** ** McMd::FineEwaldCoulombPotential *)

Module FineEwaldCoulombPotential.
Import Space.

(** The periodic boundary (its class is not among the sources), as far as
    the solver consults it: the Bravais and reciprocal basis vectors, the
    volume, and the map from Cartesian to generalized coordinates. *)
Record Boundary : Type := mkBoundary {
  bravaisBasisVector : Z -> Vector;
  reciprocalBasisVector : Z -> Vector;
  volume : double;
  transformCartToGen : Vector -> Vector
}.

(** Modelled from the spec: the Atom and AtomType classes are not among
    the sources.  A particle has a position vector, a force accumulator and
    a type identifier used to look up a shared charge value. *)
Record AtomType : Type := mkAtomType { charge : double }.

Record Atom : Type := mkAtom {
  position : Vector;
  force : Vector;
  typeId : Z
}.

(** The atoms the iterators visit: species, molecules of a species, atoms
    of a molecule. *)
Definition Molecule : Type := list Atom.
Definition System : Type := list (list Molecule).

Definition Pair : Type := (Z * Z)%type.

Record t : Type := mk {
  alpha_ : double;
  epsilon_ : double;
  kCutoff_ : double;
  boundary : Boundary;
  atomTypes : list AtomType;
  waves_ : GArray.t IntVector;
  ksq_ : GArray.t double;
  g_ : GArray.t double;
  rho_ : GArray.t DCMPLX;
  range0_ : Pair;
  range1_ : GArray.t Pair;
  range2_ : GArray.t Pair;
  fexp0_ : GArray.t DCMPLX;
  fexp1_ : GArray.t DCMPLX;
  fexp2_ : GArray.t DCMPLX;
  base0_ : Z;
  base1_ : Z;
  base2_ : Z
}.

Definition nWave (st : t) : Z := GArray.size (waves_ st).

(** The object with other wave, range and table arrays. *)
Definition withArrays (st : t)
    (waves : GArray.t IntVector) (ksq g : GArray.t double)
    (rho : GArray.t DCMPLX) (range1 range2 : GArray.t Pair)
    (fexp0 fexp1 fexp2 : GArray.t DCMPLX) : t :=
  {| alpha_ := alpha_ st; epsilon_ := epsilon_ st; kCutoff_ := kCutoff_ st;
     boundary := boundary st; atomTypes := atomTypes st;
     waves_ := waves; ksq_ := ksq; g_ := g; rho_ := rho;
     range0_ := range0_ st; range1_ := range1; range2_ := range2;
     fexp0_ := fexp0; fexp1_ := fexp1; fexp2_ := fexp2;
     base0_ := base0_ st; base1_ := base1_ st; base2_ := base2_ st |}.

Definition withRho (st : t) (rho : GArray.t DCMPLX) : t :=
  withArrays st (waves_ st) (ksq_ st) (g_ st) rho (range1_ st) (range2_ st)
    (fexp0_ st) (fexp1_ st) (fexp2_ st).

Definition withFexp (st : t) (fexp0 fexp1 fexp2 : GArray.t DCMPLX) : t :=
  withArrays st (waves_ st) (ksq_ st) (g_ st) (rho_ st) (range1_ st)
    (range2_ st) fexp0 fexp1 fexp2.

(** *** makeWaves *)

(** [maxK[j] = ceil(kCutoff_*boundaryPtr_->bravaisBasisVector(j).abs()/pi2)] *)
Definition maxKof (st : t) (j : Z) : Z :=
  ceil (kCutoff_ st * vabs (bravaisBasisVector (boundary st) j) / (2.0 * PI))%R.

Definition maxKs (st : t) : IntVector :=
  mkIntVector (maxKof st 0) (maxKof st 1) (maxKof st 2).

(** [((2*maxK[0] + 1) * (2*maxK[1] + 1) * (2*maxK[2] + 1) - 1)/2], in
    [int] arithmetic: reducing the product once is the same as reducing
    after every operation. *)
Definition waveCapacity (maxK : IntVector) : Z :=
  Z.quot
    (CInt.wrap
       ((2 * ix maxK + 1) * (2 * iy maxK + 1) * (2 * iz maxK + 1) - 1)) 2.

(** The other sizes that the first branch asks for: [maxK[0] + 1],
    [(maxK[0] + 1) * (2 * maxK[1] + 1)], [2*maxK[1] + 1] and
    [2*maxK[2] + 1]. *)
Definition planeCapacity (maxK : IntVector) : Z := CInt.wrap (ix maxK + 1).
Definition columnCapacity (maxK : IntVector) : Z :=
  CInt.wrap ((ix maxK + 1) * (2 * iy maxK + 1)).
Definition table1Capacity (maxK : IntVector) : Z := CInt.wrap (2 * iy maxK + 1).
Definition table2Capacity (maxK : IntVector) : Z := CInt.wrap (2 * iz maxK + 1).

(** The index bounds for which these sizes are computed without leaving
    the range of [int]. *)
Definition fitsInt (maxK : IntVector) : Prop :=
  0 <= ix maxK /\ 0 <= iy maxK /\ 0 <= iz maxK /\
  (2 * ix maxK + 1) * (2 * iy maxK + 1) * (2 * iz maxK + 1) <= CInt.max.

(** Lines 87 to 114: reserve the arrays when [waves_] has no storage yet,
    clear them otherwise. *)
Definition prepareArrays (maxK : IntVector) (st : t) : t :=
  if GArray.capacity (waves_ st) =? 0 then
    let capacity := waveCapacity maxK in
    withArrays st
      (GArray.reserve capacity (waves_ st))
      (GArray.reserve capacity (ksq_ st))
      (GArray.reserve capacity (g_ st))
      (GArray.reserve capacity (rho_ st))
      (GArray.reserve (planeCapacity maxK) (range1_ st))
      (GArray.reserve (columnCapacity maxK) (range2_ st))
      (GArray.reserve (planeCapacity maxK) (fexp0_ st))
      (GArray.reserve (table1Capacity maxK) (fexp1_ st))
      (GArray.reserve (table2Capacity maxK) (fexp2_ st))
  else
    withArrays st
      (GArray.clear (waves_ st))
      (GArray.clear (ksq_ st))
      (GArray.clear (g_ st))
      (GArray.clear (rho_ st))
      (GArray.clear (range1_ st))
      (GArray.clear (range2_ st))
      (GArray.clear (fexp0_ st))
      (GArray.clear (fexp1_ st))
      (GArray.clear (fexp2_ st)).

(** What the wave loops update. *)
Record Acc : Type := mkAcc {
  upper0 : Z;
  upper1 : Z;
  upper2 : Z;
  base1 : Z;
  base2 : Z;
  waves : GArray.t IntVector;
  ksqs : GArray.t double;
  gs : GArray.t double
}.

(** The body of [if (ksq <= kCutoffSq)]. *)
Definition keepWave (prefactor : double) (k : IntVector) (ksq : double) (a : Acc) : Acc :=
  {| upper0 := if upper0 a <? ix k then ix k else upper0 a;
     upper1 := if upper1 a <? iy k then iy k else upper1 a;
     upper2 := if upper2 a <? iz k then iz k else upper2 a;
     base1 := if iy k <? base1 a then iy k else base1 a;
     base2 := if iz k <? base2 a then iz k else base2 a;
     waves := GArray.append k (waves a);
     ksqs := GArray.append ksq (ksqs a);
     gs := GArray.append (exp (prefactor * ksq) / ksq)%R (gs a) |}.

Section WaveLoops.
Variables (b0 b1 b2 : Vector) (kCutoffSq prefactor : double) (maxK : IntVector).

(** The body of the loop over [k[2]]; the state is [q] and the arrays. *)
Definition loop2Body (k0 k1 k2 : Z) (s : Vector * Acc) : Vector * Acc :=
  let q := vadd (fst s) b2 in
  let ksq := vsquare q in
  (q, if Rleb ksq kCutoffSq
      then keepWave prefactor (mkIntVector k0 k1 k2) ksq (snd s)
      else snd s).

Definition mink2 (k0 k1 : Z) : Z :=
  if (k0 =? 0) && (k1 =? 0) then 1 else - iz maxK.

(** The body of the loop over [k[1]]; the state is [q1] and the arrays. *)
Definition loop1Body (k0 k1 : Z) (s : Vector * Acc) : Vector * Acc :=
  let q1 := vadd (fst s) b1 in
  let q := vadd (vscale b2 (IZR (mink2 k0 k1 - 1))) q1 in
  (q1, snd (for_Z (mink2 k0 k1) (iz maxK) (loop2Body k0 k1) (q, snd s))).

Definition mink1 (k0 : Z) : Z := if k0 =? 0 then 0 else - iy maxK.

(** The body of the loop over [k[0]]; the state is [q0] and the arrays. *)
Definition loop0Body (k0 : Z) (s : Vector * Acc) : Vector * Acc :=
  let q0 := vadd (fst s) b0 in
  let q1 := vadd (vscale b1 (IZR (mink1 k0 - 1))) q0 in
  (q0, snd (for_Z (mink1 k0) (iy maxK) (loop1Body k0) (q1, snd s))).

(** Lines 116 to 161. *)
Definition accumulateWaves (a : Acc) : Acc :=
  let q0 := vscale b0 (-1) in
  snd (for_Z 0 (ix maxK) loop0Body (q0, a)).

End WaveLoops.

(** The effect of the loops, told triple by triple: visiting the triples
    of a list in turn keeps those within the cutoff. *)
Definition visit (b0 b1 b2 : Vector) (kCutoffSq prefactor : double)
    (ks : list IntVector) (a : Acc) : Acc :=
  fold_left
    (fun a k =>
       if WaveSet.kept b0 b1 b2 kCutoffSq k
       then keepWave prefactor k (WaveSet.ksqOf b0 b1 b2 k) a
       else a)
    ks a.

(** The second pass, lines 168 to 219. *)
Record Ranges : Type := mkRanges {
  range0 : Pair;
  range1 : GArray.t Pair;
  range2 : GArray.t Pair;
  r1 : Z;
  r2 : Z
}.

Definition setLower (v : Z) (p : Pair) : Pair := (v, snd p).
Definition setUpper (v : Z) (p : Pair) : Pair := (fst p, v).

Definition rangeStep (p1 p2 : Pair) (k : IntVector) (s : Ranges) : result Ranges :=
  if snd (range0 s) <? ix k then
    let range0' := setUpper (ix k) (range0 s) in
    let range1' := GArray.append p1 (range1 s) in
    let r1' := r1 s + 1 in
    do range1' <- GArray.modify range1' r1' (setLower (iy k)) ;;
    do range1' <- GArray.modify range1' r1' (setUpper (iy k)) ;;
    let range2' := GArray.append p2 (range2 s) in
    let r2' := r2 s + 1 in
    do range2' <- GArray.modify range2' r2' (setLower (iz k)) ;;
    do range2' <- GArray.modify range2' r2' (setUpper (iz k)) ;;
    Ok (mkRanges range0' range1' range2' r1' r2')
  else
    do top <- GArray.get (range1 s) (r1 s) ;;
    if snd top <? iy k then
      do range1' <- GArray.modify (range1 s) (r1 s) (setUpper (iy k)) ;;
      let range2' := GArray.append p2 (range2 s) in
      let r2' := r2 s + 1 in
      do range2' <- GArray.modify range2' r2' (setLower (iz k)) ;;
      do range2' <- GArray.modify range2' r2' (setUpper (iz k)) ;;
      Ok (mkRanges (range0 s) range1' range2' (r1 s) r2')
    else
      do range2' <- GArray.modify (range2 s) (r2 s) (setUpper (iz k)) ;;
      Ok (mkRanges (range0 s) (range1 s) range2' (r1 s) (r2 s)).

Definition findRanges (maxK : IntVector) (ws : list IntVector)
    (range1 range2 : GArray.t Pair) : result Ranges :=
  let p1 := (iy maxK, - iy maxK) in
  let p2 := (iz maxK, - iz maxK) in
  foldM (rangeStep p1 p2) ws (mkRanges (0, -1) range1 range2 (-1) (-1)).

(** [nItems], the sum of [range2_[r2][1] - range2_[r2][0] + 1]. *)
Definition countItems (range2 : GArray.t Pair) : Z :=
  fold_left (fun n p => n + (snd p - fst p + 1)) (GArray.data range2) 0.

(** The number of indices of an interval. *)
Definition span (p : Pair) : Z := snd p - fst p + 1.

(** The state of the second pass after a wave [last], the [n]th, has been
    handled. *)
Definition after (last : IntVector) (n : Z) (s : Ranges) : Prop :=
  exists pre1 lo1 c1 pre2 lo2 c2,
    range1 s = GArray.mk (pre1 ++ [(lo1, iy last)]) c1 /\
    r1 s = Z.of_nat (length pre1) /\
    range2 s = GArray.mk (pre2 ++ [(lo2, iz last)]) c2 /\
    r2 s = Z.of_nat (length pre2) /\
    snd (range0 s) = ix last /\
    countItems (range2 s) = n.

Definition boundsMessage : string :=
  "Wave bounds incompatible with number of waves constructed.".

(** The state of the call when it reaches the bound check: the wave
    arrays, the index bounds and the ranges. *)
Definition wavesAndRanges (st : t) : result (t * Acc * Ranges) :=
  let b0 := reciprocalBasisVector (boundary st) 0 in
  let b1 := reciprocalBasisVector (boundary st) 1 in
  let b2 := reciprocalBasisVector (boundary st) 2 in
  let prefactor := (-0.25 / alpha_ st / alpha_ st)%R in
  let kCutoffSq := (kCutoff_ st * kCutoff_ st)%R in
  let maxK := maxKs st in
  let st1 := prepareArrays maxK st in
  let a0 := mkAcc (- ix maxK) (- iy maxK) (- iz maxK) (iy maxK) (iz maxK)
              (waves_ st1) (ksq_ st1) (g_ st1) in
  let a := accumulateWaves b0 b1 b2 kCutoffSq prefactor maxK a0 in
  do rs <- findRanges maxK (GArray.data (waves a)) (range1_ st1) (range2_ st1) ;;
  Ok (st1, a, rs).

Definition czero : DCMPLX := mkDCMPLX 0 0.

Definition makeWaves (st : t) : result t :=
  do w <- wavesAndRanges st ;;
  let '(st1, a, rs) := w in
  if negb (countItems (range2 rs) =? GArray.size (waves a)) then
    Fail (Thrown boundsMessage)
  else
    Ok {| alpha_ := alpha_ st1; epsilon_ := epsilon_ st1;
          kCutoff_ := kCutoff_ st1;
          boundary := boundary st1; atomTypes := atomTypes st1;
          waves_ := waves a; ksq_ := ksqs a; g_ := gs a;
          rho_ := GArray.resize czero (GArray.size (waves a)) (rho_ st1);
          range0_ := range0 rs; range1_ := range1 rs; range2_ := range2 rs;
          fexp0_ := GArray.resize czero (upper0 a - 0 + 1) (fexp0_ st1);
          fexp1_ := GArray.resize czero (upper1 a - base1 a + 1) (fexp1_ st1);
          fexp2_ := GArray.resize czero (upper2 a - base2 a + 1) (fexp2_ st1);
          base0_ := 0; base1_ := base1 a; base2_ := base2 a |}.

(** *** computeKSpaceCharge, kspaceEnergy and addKSpaceForces *)

Definition TwoPi : double := (2.0 * PI)%R.

(** The charge of the atom's type: element [typeId()] of the array behind
    [atomTypesPtr_], then [charge()]. *)
Definition chargeOf (st : t) (atom : Atom) : result double :=
  do _ <- assert (0 <=? typeId atom) "i >= 0" ;;
  match atomTypes st !! Z.to_nat (typeId atom) with
  | Some type => Ok (charge type)
  | None => Fail (AssertionFailed "i < capacity_")
  end.

(** [for (i = 0; i < rho_.size(); ++i) rho_[i] = DCMPLX(0.0, 0.0);] *)
Definition clearRho (rho : GArray.t DCMPLX) : GArray.t DCMPLX :=
  GArray.mk (map (fun _ => mkDCMPLX 0 0) (GArray.data rho)) (GArray.capacity rho).

(** The loop over waves for one atom: [rho_[i] += DCMPLX(x, y)]. *)
Definition addAtomCharge (ws : GArray.t IntVector) (rg : Vector) (q : double)
    (rho : GArray.t DCMPLX) : result (GArray.t DCMPLX) :=
  for_ZM 0 (GArray.size ws - 1)
    (fun i rho =>
       do k <- GArray.get ws i ;;
       let qv := mkVector (IZR (ix k)) (IZR (iy k)) (IZR (iz k)) in
       let dotqr := (vdot rg qv * TwoPi)%R in
       let x := (q * cos dotqr)%R in
       let y := (q * sin dotqr)%R in
       GArray.modify rho i (fun r => cadd r (mkDCMPLX x y)))
    rho.

Definition atomCharge (st : t) (atom : Atom) (rho : GArray.t DCMPLX)
  : result (GArray.t DCMPLX) :=
  let rg := transformCartToGen (boundary st) (position atom) in
  do q <- chargeOf st atom ;;
  addAtomCharge (waves_ st) rg q rho.

Definition computeKSpaceCharge (st : t) (sys : System) : result t :=
  do rho <- foldM (foldM (foldM (atomCharge st))) sys (clearRho (rho_ st)) ;;
  Ok (withRho st rho).

(** The sum [total] of the loop over waves. *)
Definition energySum (st : t) : result double :=
  for_ZM 0 (GArray.size (waves_ st) - 1)
    (fun i total =>
       do r <- GArray.get (rho_ st) i ;;
       let x := real r in
       let y := imag r in
       do gi <- GArray.get (g_ st) i ;;
       Ok (total + (x * x + y * y) * gi)%R)
    0%R.

Definition kspaceEnergy (st : t) (sys : System) : result (double * t) :=
  do st1 <- computeKSpaceCharge st sys ;;
  do total <- energySum st1 ;;
  let total := (total * (0.5 / (epsilon_ st1 * volume (boundary st1))))%R in
  Ok ((2.0 * total)%R, st1).

(** The threshold [EPS(1.0E-10)] below which an atom counts as uncharged. *)
Definition EPS : double := 1.0E-10%R.

(** [TwoPiIm = TwoPi * Constants::Im], with [Im] the imaginary unit. *)
Definition TwoPiIm : DCMPLX := mkDCMPLX (TwoPi * 0) (TwoPi * 1).

(** [fexp[0] = exp(TwoPiIm * rg[j] * double(base)); de = exp(TwoPiIm *
    rg[j]); for (i = 1; i < fexp.size(); ++i) fexp[i] = fexp[i-1] * de;] *)
Definition tabulate (rgj : double) (base : Z) (fexp : GArray.t DCMPLX)
  : result (GArray.t DCMPLX) :=
  do fexp <- GArray.modify fexp 0
               (fun _ => cexp (cscale (cscale TwoPiIm rgj) (IZR base))) ;;
  let de := cexp (cscale TwoPiIm rgj) in
  for_ZM 1 (GArray.size fexp - 1)
    (fun i fexp =>
       do prev <- GArray.get fexp (i - 1) ;;
       GArray.modify fexp i (fun _ => cmul prev de))
    fexp.

(** The running indices [r1], [r2], [i] and the generalized force [fg] of
    the loop over waves. *)
Record WaveSum : Type := mkWaveSum {
  wr1 : Z;
  wr2 : Z;
  wi : Z;
  wfg : Vector
}.

(** The body of the loop over [i2]. *)
Definition forceLoop2 (st : t) (e1 : DCMPLX) (i0 i1 i2 : Z) (s : WaveSum)
  : result WaveSum :=
  do f2 <- GArray.get (fexp2_ st) (i2 - base2_ st) ;;
  let e2 := cmul e1 f2 in
  let i := wi s + 1 in
  let df := mkVector (IZR i0) (IZR i1) (IZR i2) in
  do gi <- GArray.get (g_ st) i ;;
  do rhoi <- GArray.get (rho_ st) i ;;
  let df := vscale df (gi * (real e2 * imag rhoi - imag e2 * real rhoi))%R in
  Ok (mkWaveSum (wr1 s) (wr2 s) i (vadd (wfg s) df)).

(** The body of the loop over [i1]. *)
Definition forceLoop1 (st : t) (e0 : DCMPLX) (i0 i1 : Z) (s : WaveSum)
  : result WaveSum :=
  do f1 <- GArray.get (fexp1_ st) (i1 - base1_ st) ;;
  let e1 := cmul e0 f1 in
  let r2 := wr2 s + 1 in
  do p2 <- GArray.get (range2_ st) r2 ;;
  for_ZM (fst p2) (snd p2) (forceLoop2 st e1 i0 i1)
    (mkWaveSum (wr1 s) r2 (wi s) (wfg s)).

(** The body of the loop over [i0]. *)
Definition forceLoop0 (st : t) (i0 : Z) (s : WaveSum) : result WaveSum :=
  do e0 <- GArray.get (fexp0_ st) (i0 - base0_ st) ;;
  let r1 := wr1 s + 1 in
  do p1 <- GArray.get (range1_ st) r1 ;;
  for_ZM (fst p1) (snd p1) (forceLoop1 st e0 i0)
    (mkWaveSum r1 (wr2 s) (wi s) (wfg s)).

(** The generalized force [fg] that the loop over waves accumulates from
    the tables of [st]. *)
Definition generalizedForce (st : t) : result Vector :=
  do s <- for_ZM (fst (range0_ st)) (snd (range0_ st)) (forceLoop0 st)
            (mkWaveSum (-1) (-1) (-1) vzero) ;;
  Ok (wfg s).

(** The three tables for an atom at generalized position [rg]. *)
Definition tabulateAll (st : t) (rg : Vector) : result t :=
  do f0 <- tabulate (vget rg 0) (base0_ st) (fexp0_ st) ;;
  do f1 <- tabulate (vget rg 1) (base1_ st) (fexp1_ st) ;;
  do f2 <- tabulate (vget rg 2) (base2_ st) (fexp2_ st) ;;
  Ok (withFexp st f0 f1 f2).

(** [fg *= charge*prefactor; for (j = 0; j < Dimension; ++j) {
    df.multiply(b[j], fg[j]); atomIter->force() += df; }] *)
Definition addCartesian (b : Z -> Vector) (q prefactor : double) (fg f : Vector)
  : Vector :=
  let fg := vscale fg (q * prefactor)%R in
  vadd (vadd (vadd f (vscale (b 0) (vget fg 0)))
             (vscale (b 1) (vget fg 1)))
       (vscale (b 2) (vget fg 2)).

(** The body of the loop over atoms. *)
Definition atomForce (b : Z -> Vector) (prefactor : double) (st : t) (atom : Atom)
  : result (t * Atom) :=
  do q <- chargeOf st atom ;;
  if Rgtb (Rabs q) EPS then
    let rg := transformCartToGen (boundary st) (position atom) in
    do st' <- tabulateAll st rg ;;
    do fg <- generalizedForce st' ;;
    Ok (st', mkAtom (position atom)
                    (addCartesian b q prefactor fg (force atom))
                    (typeId atom))
  else Ok (st, atom).

Definition addKSpaceForces (st : t) (sys : System) : result (t * System) :=
  let prefactor := (-2.0 / (epsilon_ st * volume (boundary st)))%R in
  do st1 <- computeKSpaceCharge st sys ;;
  let b := reciprocalBasisVector (boundary st1) in
  mapM (mapM (mapM (atomForce b prefactor))) st1 sys.

(** The tables are all that the loop over atoms changes in the solver. *)
Definition tablesOf (st s : t) : Prop :=
  exists f0 f1 f2, s = withFexp st f0 f1 f2.

(** What addKSpaceForces does to one atom, [st] being the solver once the
    charge density is transformed: position and type stay; an atom whose
    charge magnitude exceeds [EPS] receives, on top of its force, the
    generalized force [fg] of the loop over waves (run on the tables of its
    position), scaled by [charge * (-2/(epsilon*V))] and carried to Cartesian
    coordinates by the reciprocal basis vectors; any other atom keeps its
    force. *)
Definition forceUpdated (st : t) (atom atom' : Atom) : Prop :=
  position atom' = position atom /\
  typeId atom' = typeId atom /\
  exists q,
    chargeOf st atom = Ok q /\
    ((Rabs q > EPS)%R ->
     exists f0 f1 f2 st' fg,
       tabulateAll (withFexp st f0 f1 f2)
                   (transformCartToGen (boundary st) (position atom)) = Ok st' /\
       generalizedForce st' = Ok fg /\
       let scaled :=
         vscale fg (q * (-2 / (epsilon_ st * volume (boundary st))))%R in
       let b := reciprocalBasisVector (boundary st) in
       force atom'
       = vadd (vadd (vadd (force atom) (vscale (b 0) (vx scaled)))
                    (vscale (b 1) (vy scaled)))
              (vscale (b 2) (vz scaled))) /\
    ((Rabs q <= EPS)%R -> force atom' = force atom).

(** The terms [g(k) * (Re(rho(k))^2 + Im(rho(k))^2)] of the k-space sum, one
    for each stored wave. *)
Definition energyTerms (gs : list double) (rhos : list DCMPLX) : list double :=
  zip_with (fun g r => (g * (real r * real r + imag r * imag r))%R) gs rhos.

(** The atoms whose type is one of the atom types. *)
Definition knownType (st : t) (atom : Atom) : Prop :=
  0 <= typeId atom < Z.of_nat (length (atomTypes st)).

Definition knownTypes (st : t) (sys : System) : Prop :=
  List.Forall (List.Forall (List.Forall (knownType st))) sys.

(** The arrays [g_] and [rho_] have one entry for each wave, as makeWaves
    leaves them. *)
Definition parallelArrays (st : t) : Prop :=
  length (GArray.data (g_ st)) = length (GArray.data (waves_ st)) /\
  length (GArray.data (rho_ st)) = length (GArray.data (waves_ st)).

(** The object after construction and [readParameters]: no array has
    storage yet. *)
Definition initial (alpha epsilon kCutoff : double) (b : Boundary)
    (types : list AtomType) : t :=
  {| alpha_ := alpha; epsilon_ := epsilon; kCutoff_ := kCutoff;
     boundary := b; atomTypes := types;
     waves_ := GArray.empty; ksq_ := GArray.empty; g_ := GArray.empty;
     rho_ := GArray.empty;
     range0_ := (0, 0); range1_ := GArray.empty; range2_ := GArray.empty;
     fexp0_ := GArray.empty; fexp1_ := GArray.empty; fexp2_ := GArray.empty;
     base0_ := 0; base1_ := 0; base2_ := 0 |}.

(** A change of the cutoff ([readParameters]) or of the boundary that
    [boundaryPtr_] points to, between two calls of makeWaves. *)
Definition setGeometry (kCutoff : double) (b : Boundary) (st : t) : t :=
  {| alpha_ := alpha_ st; epsilon_ := epsilon_ st; kCutoff_ := kCutoff;
     boundary := b; atomTypes := atomTypes st;
     waves_ := waves_ st; ksq_ := ksq_ st; g_ := g_ st; rho_ := rho_ st;
     range0_ := range0_ st; range1_ := range1_ st; range2_ := range2_ st;
     fexp0_ := fexp0_ st; fexp1_ := fexp1_ st; fexp2_ := fexp2_ st;
     base0_ := base0_ st; base1_ := base1_ st; base2_ := base2_ st |}.

(** The capacities of the nine arrays, in the order waves, ksq, g, rho,
    range1, range2, fexp0, fexp1, fexp2. *)
Definition capacities (st : t) : list Z :=
  [GArray.capacity (waves_ st); GArray.capacity (ksq_ st);
   GArray.capacity (g_ st); GArray.capacity (rho_ st);
   GArray.capacity (range1_ st); GArray.capacity (range2_ st);
   GArray.capacity (fexp0_ st); GArray.capacity (fexp1_ st);
   GArray.capacity (fexp2_ st)].

(** Their sizes, in the same order. *)
Definition sizes (st : t) : list Z :=
  [GArray.size (waves_ st); GArray.size (ksq_ st);
   GArray.size (g_ st); GArray.size (rho_ st);
   GArray.size (range1_ st); GArray.size (range2_ st);
   GArray.size (fexp0_ st); GArray.size (fexp1_ st);
   GArray.size (fexp2_ st)].

(** The capacities that the first branch of makeWaves asks for. *)
Definition reservedFor (maxK : IntVector) : list Z :=
  [waveCapacity maxK; waveCapacity maxK; waveCapacity maxK; waveCapacity maxK;
   planeCapacity maxK; columnCapacity maxK;
   planeCapacity maxK; table1Capacity maxK; table2Capacity maxK].

(** The place of a column among the columns of the index box, counted from
    1 in the order of the loops. *)
Definition columnRank (maxK k : IntVector) : Z :=
  ix k * (2 * iy maxK + 1) + (iy k + iy maxK) + 1.

(** The range arrays after the second pass has handled the wave [last]:
    no more planes and columns than the box has up to [last], and
    capacities that grew only where the elements did not fit. *)
Definition sized (maxK : IntVector) (c1 c2 : Z) (last : IntVector)
    (s : Ranges) : Prop :=
  GArray.size (range1 s) <= ix last + 1 /\
  GArray.size (range2 s) <= columnRank maxK last /\
  GArray.capacity (range1 s) = Z.max c1 (GArray.size (range1 s)) /\
  GArray.capacity (range2 s) = Z.max c2 (GArray.size (range2 s)).

(** As long as [waves_] has no storage, the arrays that makeWaves appends
    to are empty.  This holds after construction, and makeWaves keeps it. *)
Definition emptyWithoutStorage (st : t) : Prop :=
  GArray.capacity (waves_ st) = 0 ->
  GArray.data (waves_ st) = [] /\ GArray.data (ksq_ st) = [] /\
  GArray.data (g_ st) = [] /\
  GArray.data (range1_ st) = [] /\ GArray.data (range2_ st) = [].

(** A cubic cell of edge [2 PI]: the reciprocal basis vectors are the unit
    vectors. *)
Definition unitVector (j : Z) : Vector :=
  mkVector (if j =? 0 then 1 else 0) (if j =? 1 then 1 else 0)
           (if j =? 2 then 1 else 0).

Definition cubicCell : Boundary :=
  {| bravaisBasisVector j := vscale (unitVector j) (2 * PI);
     reciprocalBasisVector j := unitVector j;
     volume := (2 * PI) * (2 * PI) * (2 * PI);
     transformCartToGen v := vscale v (/ (2 * PI)) |}.

(** A solver on the cubic cell with [alpha_ = 1], [epsilon_ = 1] and
    [kCutoff_ = 1], and two atom types, of charge 1 and 0. *)
Definition cubicSolver : t :=
  initial 1 1 1 cubicCell [mkAtomType 1; mkAtomType 0].


(** The cubic solver after makeWaves: the three waves (0,0,1), (0,1,0) and
    (1,0,0), each with [ksq = 1]. *)
Definition cubicWaves : t :=
  {| alpha_ := 1; epsilon_ := 1; kCutoff_ := 1;
     boundary := cubicCell; atomTypes := [mkAtomType 1; mkAtomType 0];
     waves_ := GArray.mk [mkIntVector 0 0 1; mkIntVector 0 1 0;
                          mkIntVector 1 0 0] 13;
     ksq_ := GArray.mk [1%R; 1%R; 1%R] 13;
     g_ := GArray.mk [WaveSet.weight 1 1; WaveSet.weight 1 1;
                      WaveSet.weight 1 1] 13;
     rho_ := GArray.mk [czero; czero; czero] 13;
     range0_ := (0, 1);
     range1_ := GArray.mk [(0, 1); (0, 0)] 2;
     range2_ := GArray.mk [(1, 1); (0, 0); (0, 0)] 6;
     fexp0_ := GArray.mk [czero; czero] 2;
     fexp1_ := GArray.mk [czero; czero] 3;
     fexp2_ := GArray.mk [czero; czero] 3;
     base0_ := 0; base1_ := 0; base2_ := 0 |}.

(** One species with one molecule of two atoms: a charged atom of type 0
    at the origin and an uncharged atom of type 1 at (1, 2, 3), with no force
    on them yet. *)
Definition twoAtoms : System :=
  [[[mkAtom (mkVector 0 0 0) (mkVector 0 0 0) 0;
     mkAtom (mkVector 1 2 3) (mkVector 0 0 0) 1]]].

(** The cubic solver with its charge density [rho] and any tables of the
    right size. *)
Definition cubicTables (rho : GArray.t DCMPLX) (s : t) : Prop :=
  exists f0 f1 f2,
    s = withFexp (withRho cubicWaves rho) f0 f1 f2 /\
    length (GArray.data f0) = 2%nat /\ length (GArray.data f1) = 2%nat /\
    length (GArray.data f2) = 2%nat.

End FineEwaldCoulombPotential.

(** ** Double arithmetic *)

Module Binary64.
Import PrimFloat.
#[local] Open Scope float_scope.

(** The conversion of an [int] to [double]; every [int] is a double. *)
Definition ofInt (z : Z) : float :=
  if (z <? 0)%Z then - of_uint63 (Uint63.of_Z (- z))
  else of_uint63 (Uint63.of_Z z).

(** [ceil], and the conversion of its integral result to [int].  A finite
    double is [m * 2^e], with the sign apart. *)
Definition ceil (x : float) : Z :=
  match FloatOps.Prim2SF x with
  | SpecFloat.S754_finite s m e =>
      let n := if s then Z.neg m else Z.pos m in
      if (0 <=? e)%Z then (n * 2 ^ e)%Z else (- ((- n) / 2 ^ (- e)))%Z
  | _ => 0%Z
  end.

(** The exact value of a finite double, as a rational number. *)
Definition toQ (x : float) : Q :=
  match FloatOps.Prim2SF x with
  | SpecFloat.S754_finite s m e =>
      let n := if s then Z.neg m else Z.pos m in
      if (0 <=? e)%Z then inject_Z (n * 2 ^ e)
      else Qmake n (2 ^ Z.to_pos (- e))
  | _ => 0%Q
  end.

(** Util::Vector with its components in double arithmetic: [+=],
    [multiply], [square] and [abs]. *)
Record Vector : Type := mkVector { vx : float; vy : float; vz : float }.

Definition vadd (a b : Vector) : Vector :=
  mkVector (vx a + vx b) (vy a + vy b) (vz a + vz b).

Definition vscale (v : Vector) (s : float) : Vector :=
  mkVector (vx v * s) (vy v * s) (vz v * s).

Definition vsquare (a : Vector) : float :=
  vx a * vx a + vy a * vy a + vz a * vz a.

Definition vabs (a : Vector) : float := sqrt (vsquare a).

(** [Constants::Pi]. *)
Definition Pi : float := 0x1.921fb54442d18p+1.

End Binary64.

(** ** The first pass of makeWaves in double arithmetic *)

Module DoubleWaves.
Import Space WaveSet.
Import PrimFloat Binary64.
#[local] Open Scope float_scope.

(** The periodic boundary, as far as the first pass consults it. *)
Record Boundary : Type := mkBoundary {
  bravaisBasisVector : Z -> Vector;
  reciprocalBasisVector : Z -> Vector
}.

(** [maxK[j] = ceil(kCutoff_*boundaryPtr_->bravaisBasisVector(j).abs()/pi2)]
    with [pi2 = 2.0*Constants::Pi]. *)
Definition maxKof (kCutoff : float) (b : Boundary) (j : Z) : Z :=
  ceil (kCutoff * vabs (bravaisBasisVector b j) / (2 * Pi)).

Definition maxKs (kCutoff : float) (b : Boundary) : IntVector :=
  mkIntVector (maxKof kCutoff b 0) (maxKof kCutoff b 1) (maxKof kCutoff b 2).

(** What the wave loops update. *)
Record Acc : Type := mkAcc {
  upper0 : Z;
  upper1 : Z;
  upper2 : Z;
  base1 : Z;
  base2 : Z;
  waves : GArray.t IntVector;
  ksqs : GArray.t float;
  gs : GArray.t float
}.

Section WaveLoops.
(** [exp] of the C library. *)
Variable exp : float -> float.
Variables (b0 b1 b2 : Vector) (kCutoffSq prefactor : float) (maxK : IntVector).

(** The body of [if (ksq <= kCutoffSq)]. *)
Definition keepWave (k : IntVector) (ksq : float) (a : Acc) : Acc :=
  {| upper0 := if (upper0 a <? ix k)%Z then ix k else upper0 a;
     upper1 := if (upper1 a <? iy k)%Z then iy k else upper1 a;
     upper2 := if (upper2 a <? iz k)%Z then iz k else upper2 a;
     base1 := if (iy k <? base1 a)%Z then iy k else base1 a;
     base2 := if (iz k <? base2 a)%Z then iz k else base2 a;
     waves := GArray.append k (waves a);
     ksqs := GArray.append ksq (ksqs a);
     gs := GArray.append (exp (prefactor * ksq) / ksq) (gs a) |}.

(** The body of the loop over [k[2]]; the state is [q] and the arrays. *)
Definition loop2Body (k0 k1 k2 : Z) (s : Vector * Acc) : Vector * Acc :=
  let q := vadd (fst s) b2 in
  let ksq := vsquare q in
  (q, if ksq <=? kCutoffSq
      then keepWave (mkIntVector k0 k1 k2) ksq (snd s)
      else snd s).

Definition mink2 (k0 k1 : Z) : Z :=
  if ((k0 =? 0) && (k1 =? 0))%Z then 1%Z else (- iz maxK)%Z.

(** The body of the loop over [k[1]]; the state is [q1] and the arrays. *)
Definition loop1Body (k0 k1 : Z) (s : Vector * Acc) : Vector * Acc :=
  let q1 := vadd (fst s) b1 in
  let q := vadd (vscale b2 (ofInt (mink2 k0 k1 - 1))) q1 in
  (q1, snd (for_Z (mink2 k0 k1) (iz maxK) (loop2Body k0 k1) (q, snd s))).

Definition mink1 (k0 : Z) : Z := if (k0 =? 0)%Z then 0%Z else (- iy maxK)%Z.

(** The body of the loop over [k[0]]; the state is [q0] and the arrays. *)
Definition loop0Body (k0 : Z) (s : Vector * Acc) : Vector * Acc :=
  let q0 := vadd (fst s) b0 in
  let q1 := vadd (vscale b1 (ofInt (mink1 k0 - 1))) q0 in
  (q0, snd (for_Z (mink1 k0) (iy maxK) (loop1Body k0) (q1, snd s))).

(** Lines 116 to 161. *)
Definition accumulateWaves (a : Acc) : Acc :=
  let q0 := vscale b0 (ofInt (-1)) in
  snd (for_Z 0 (ix maxK) loop0Body (q0, a)).

(** The wavevector that the loops hold when they test the triple [k]:
    [b] added [n] times, one addition after the other. *)
Definition addTimes (n : nat) (b q : Vector) : Vector :=
  Nat.iter n (fun q => vadd q b) q.

Definition q0At (k0 : Z) : Vector :=
  addTimes (Z.to_nat (k0 + 1)) b0 (vscale b0 (ofInt (-1))).

Definition q1At (k0 k1 : Z) : Vector :=
  addTimes (Z.to_nat (k1 - mink1 k0 + 1)) b1
    (vadd (vscale b1 (ofInt (mink1 k0 - 1))) (q0At k0)).

Definition qAt (k : IntVector) : Vector :=
  addTimes (Z.to_nat (iz k - mink2 (ix k) (iy k) + 1)) b2
    (vadd (vscale b2 (ofInt (mink2 (ix k) (iy k) - 1))) (q1At (ix k) (iy k))).

(** The [ksq] that the program computes for the triple [k], and its test. *)
Definition ksqAt (k : IntVector) : float := vsquare (qAt k).

Definition kept (k : IntVector) : bool := ksqAt k <=? kCutoffSq.

(** The weight that the program stores for a wave with this [ksq]. *)
Definition weightAt (ksq : float) : float := exp (prefactor * ksq) / ksq.

(** The effect of the loops, told triple by triple. *)
Definition visit (ks : list IntVector) (a : Acc) : Acc :=
  fold_left (fun a k => if kept k then keepWave k (ksqAt k) a else a) ks a.

End WaveLoops.

(** The state of the loops at line 116, with the wave arrays empty as the
    reserve-or-clear step leaves them. *)
Definition start (maxK : IntVector) (w : GArray.t IntVector)
    (k g : GArray.t float) : Acc :=
  mkAcc (- ix maxK) (- iy maxK) (- iz maxK) (iy maxK) (iz maxK)
        (GArray.clear w) (GArray.clear k) (GArray.clear g).

(** Lines 70 to 72, 78 to 86 and 116 to 161: the prefactor, the squared
    cutoff, the reciprocal basis vectors, the index bounds and the loops,
    on the wave arrays of the object once they have been emptied. *)
Definition firstPass (exp : float -> float) (alpha kCutoff : float)
    (b : Boundary) (w : GArray.t IntVector) (k g : GArray.t float) : Acc :=
  let prefactor := -0.25 / alpha / alpha in
  let kCutoffSq := kCutoff * kCutoff in
  let maxK := maxKs kCutoff b in
  accumulateWaves exp (reciprocalBasisVector b 0) (reciprocalBasisVector b 1)
    (reciprocalBasisVector b 2) kCutoffSq prefactor maxK (start maxK w k g).

(** The squared magnitude [|k.b|^2] of the specification, in exact arithmetic on the
    values of the doubles. *)
Definition exactKsq (b0 b1 b2 : Vector) (k : IntVector) : Q :=
  let c (f : Vector -> float) : Q :=
    (inject_Z (ix k) * toQ (f b0) + inject_Z (iy k) * toQ (f b1)
     + inject_Z (iz k) * toQ (f b2))%Q in
  (c vx * c vx + c vy * c vy + c vz * c vz)%Q.

(** A cubic cell whose reciprocal basis vectors have length 0.3 (the
    double next to it), with its edge [2 Pi / 0.3]. *)
Definition cell03 : Boundary :=
  let b := 0x1.3333333333333p-2 in
  let a := 2 * Pi / b in
  {| bravaisBasisVector j :=
       if (j =? 0)%Z then mkVector a 0 0
       else if (j =? 1)%Z then mkVector 0 a 0 else mkVector 0 0 a;
     reciprocalBasisVector j :=
       if (j =? 0)%Z then mkVector b 0 0
       else if (j =? 1)%Z then mkVector 0 b 0 else mkVector 0 0 b |}.

(** The cutoff 0.9 (the double next to it). *)
Definition cutoff09 : float := 0x1.ccccccccccccdp-1.

End DoubleWaves.

(** ** Sequences of calls on one SpCell *)

Module SpCellCalls.
Import Space SpCell.

(** The calls a cell list makes on a cell while it is rebuilt. *)
Inductive Call : Type :=
| SetId (id : Z)
| Clear
| IncrementCapacity
| Initialize (begin : pointer)
| Append (atomPtr : pointer).

(** One call, on the slot array and the cell. *)
Definition call (k : Call) (s : slots * t) : result (slots * t) :=
  match k with
  | SetId i => Ok (fst s, setId i (snd s))
  | Clear => Ok (fst s, clear (snd s))
  | IncrementCapacity => do c <- incrementCapacity (snd s) ;; Ok (fst s, c)
  | Initialize b => do r <- initialize b (snd s) ;; Ok (fst s, snd r)
  | Append a => append a s
  end.

Definition calls (ks : list Call) (s : slots * t) : result (slots * t) :=
  foldM call ks s.

(** The number of [incrementCapacity()] calls since the last [clear()],
    counted on from [n]. *)
Definition incrementsFrom (n : Z) (ks : list Call) : Z :=
  fold_left
    (fun n k => match k with
                | Clear => 0
                | IncrementCapacity => n + 1
                | _ => n
                end) ks n.

(** The number of [append] calls since the last [clear()], counted on
    from [n]. *)
Definition appendsFrom (n : Z) (ks : list Call) : Z :=
  fold_left
    (fun n k => match k with
                | Clear => 0
                | Append _ => n + 1
                | _ => n
                end) ks n.

End SpCellCalls.

(** ** The archive's operators *)

Module TextFileOArchiveOperators.
Import Ios TextFileOArchive.

(** [operator &] and [operator <<] have the same body: [serialize] is
    called with the archive itself, the object and [version_], and the
    archive is returned, so that writes can be chained. *)
Definition save (data : Value) (s : ostream) : ostream := serialize data s.

(** [ar & v1 & v2 & ...]: the objects are written from left to right. *)
Definition saveAll (vs : list Value) (s : ostream) : ostream :=
  fold_left (fun s v => save v s) vs s.

(** The line feed character. *)
Definition newline : Ascii.ascii := Ascii.ascii_of_nat 10.

(** The line feeds among the characters of a string. *)
Fixpoint newlinesOf (str : string) : nat :=
  match str with
  | EmptyString => 0
  | String c rest =>
      ((if Ascii.eqb c newline then 1 else 0) + newlinesOf rest)%nat
  end.

(** The line feeds a value brings with it: the characters of a string and a
    [char] go to the stream as they are, a number or a [bool] is written
    without a line feed.  (Padding is by the fill character, a blank unless
    a caller changes it; the stream model has no fill character.) *)
Definition newlinesIn (v : Value) : nat :=
  match v with
  | VString str => newlinesOf str
  | VChar c => if Ascii.eqb c newline then 1 else 0
  | _ => 0
  end.

Definition itemBreaks (i : Item) : nat :=
  match i with
  | EndOfLine => 1
  | Formatted _ _ _ v => newlinesIn v
  end.

(** The number of line breaks in what a stream received: those of
    [std::endl] and the line feeds inside the values. *)
Definition lineBreaks (items : list Item) : nat :=
  list_sum (map itemBreaks items).

Definition isString (v : Value) : bool :=
  match v with
  | VString _ => true
  | _ => false
  end.

Definition isDouble (v : Value) : bool :=
  match v with
  | VDouble _ => true
  | _ => false
  end.

(** An element of an array and the two blanks written after it; [w] is the
    width in force when the element is inserted. *)
Definition element (s : ostream) (w : Z) (v : Value) : list Item :=
  [Formatted (flags_ s) w (precision_ s) v;
   Formatted (flags_ s) 0 (precision_ s) (VString "  ")].

End TextFileOArchiveOperators.

(** ** MdCoulombPotential: the totals *)

Module MdCoulombPotentialTotals.
Import MdCoulombPotential.

(** [Tensor::operator +=], component by component (util/space/Tensor.h is
    not among the sources). *)
Definition vplus (a b : Vector) : Vector :=
  mkVector (vx a + vx b) (vy a + vy b) (vz a + vz b).

Definition tplus (a b : Tensor) : Tensor :=
  mkTensor (vplus (row0 a) (row0 b)) (vplus (row1 a) (row1 b))
           (vplus (row2 a) (row2 b)).

(** [UTIL_THROW("Unimplemented virtual set method");] *)
Definition set {Sub : Type} (name : string) (value : double) (o : t Sub)
  : result (t Sub) :=
  Fail (Thrown "Unimplemented virtual set method").

(** [UTIL_THROW("Unimplemented virtual get method"); return 0.0;] *)
Definition get {Sub : Type} (name : string) (o : t Sub) : result double :=
  Fail (Thrown "Unimplemented virtual get method").

Section Totals.
Context {Sub : Type} `{KSpaceRoutines Sub}.

(** The member [rSpaceAccumulator_].  Its class is not among the sources,
    so its two reads are taken as they are called: each gets the accumulator
    and gives back the accumulator afterwards and the value read. *)
Variable Accumulator : Type.
Variable accumulatorEnergy : Accumulator -> Accumulator * double.
Variable accumulatorStress : Accumulator -> Accumulator * Tensor.

(** [return rSpaceAccumulator_.rSpaceEnergy();] *)
Definition rSpaceEnergy (acc : Accumulator) : Accumulator * double :=
  accumulatorEnergy acc.

(** [return rSpaceAccumulator_.rSpaceStress();] *)
Definition rSpaceStress (acc : Accumulator) : Accumulator * Tensor :=
  accumulatorStress acc.

(** [temp = kSpaceEnergy(); temp += rSpaceAccumulator_.rSpaceEnergy();
    return temp;]  An exception of the first read ends the call before the
    accumulator is consulted. *)
Definition energy (acc : Accumulator) (o : t Sub)
  : list Call * (Accumulator * t Sub) * result double :=
  let '(ran, o1, k) := kSpaceEnergy o in
  match k with
  | Ok temp =>
      let r := accumulatorEnergy acc in
      (ran, (fst r, o1), Ok (temp + snd r)%R)
  | Fail f => (ran, (acc, o1), Fail f)
  end.

(** [temp = kSpaceStress(); temp += rSpaceAccumulator_.rSpaceStress();
    return temp;] *)
Definition stress (acc : Accumulator) (o : t Sub)
  : list Call * (Accumulator * t Sub) * result Tensor :=
  let '(ran, o1, k) := kSpaceStress o in
  match k with
  | Ok temp =>
      let r := accumulatorStress acc in
      (ran, (fst r, o1), Ok (tplus temp (snd r)))
  | Fail f => (ran, (acc, o1), Fail f)
  end.

End Totals.

End MdCoulombPotentialTotals.

(** ** The Fourier modes of the charge density, in closed form *)

Module ChargeDensity.
Import Space FineEwaldCoulombPotential.

(** The atoms in the order in which the loops over species, molecules and
    atoms visit them. *)
Definition atomsOf (sys : System) : list Atom := concat (concat sys).

(** The charge of an atom's type (0 for a type id outside the array, where
    the code does not return). *)
Definition chargeValue (st : t) (atom : Atom) : double :=
  match atomTypes st !! Z.to_nat (typeId atom) with
  | Some type => charge type
  | None => 0%R
  end.

(** The phase [2 pi (rg . k)] of a wave at an atom's generalized
    position. *)
Definition phaseOf (st : t) (atom : Atom) (k : IntVector) : double :=
  (vdot (transformCartToGen (boundary st) (position atom))
        (mkVector (IZR (ix k)) (IZR (iy k)) (IZR (iz k))) * TwoPi)%R.

(** What one atom adds to the mode of a wave. *)
Definition atomTerm (st : t) (atom : Atom) (k : IntVector) : DCMPLX :=
  mkDCMPLX (chargeValue st atom * cos (phaseOf st atom k))
           (chargeValue st atom * sin (phaseOf st atom k)).

(** The mode of a wave: the sum of [charge * exp(i 2 pi (rg . k))] over the
    atoms, added up in the order of the visit. *)
Definition mode (st : t) (atoms : list Atom) (k : IntVector) : DCMPLX :=
  fold_left (fun r atom => cadd r (atomTerm st atom k)) atoms czero.

(** An atom and one of its periodic images: the same type, and generalized
    coordinates that differ by integers. *)
Definition image (st : t) (atom atom' : Atom) : Prop :=
  typeId atom' = typeId atom /\
  exists n0 n1 n2 : Z,
    transformCartToGen (boundary st) (position atom')
    = vadd (transformCartToGen (boundary st) (position atom))
           (mkVector (IZR n0) (IZR n1) (IZR n2)).

(** Every atom of the system has a type of charge 0. *)
Definition uncharged (st : t) (sys : System) : Prop :=
  List.Forall (List.Forall (List.Forall (fun atom => chargeOf st atom = Ok 0%R))) sys.

(** The solver with other tables of phase factors, of the same sizes and
    capacities. *)
Definition sameTables (st s : t) : Prop :=
  exists f0 f1 f2,
    s = withFexp st f0 f1 f2 /\
    (length (GArray.data f0) = length (GArray.data (fexp0_ st)) /\
     GArray.capacity f0 = GArray.capacity (fexp0_ st)) /\
    (length (GArray.data f1) = length (GArray.data (fexp1_ st)) /\
     GArray.capacity f1 = GArray.capacity (fexp1_ st)) /\
    (length (GArray.data f2) = length (GArray.data (fexp2_ st)) /\
     GArray.capacity f2 = GArray.capacity (fexp2_ st)).

End ChargeDensity.

(** ** The stored waves as a set *)

Module StoredWaves.
Import Space FineEwaldCoulombPotential.

(** The conjugate wave [-k]. *)
Definition negate (k : IntVector) : IntVector :=
  mkIntVector (- ix k) (- iy k) (- iz k).

(** The order in which waves are stored: by first index, then by second,
    then by third. *)
Definition before (w w' : IntVector) : Prop :=
  ix w < ix w' \/
  (ix w = ix w' /\ (iy w < iy w' \/ (iy w = iy w' /\ iz w < iz w'))).

End StoredWaves.

(** ** Rebuilding the waves *)

Module Rebuilds.
Import Space FineEwaldCoulombPotential.

(** A change of the cutoff or of the boundary, followed by the call of
    makeWaves that rebuilds the waves. *)
Definition rebuild (change : double * Boundary) (st : t) : result t :=
  makeWaves (setGeometry (fst change) (snd change) st).

(** The life of a solver: one rebuild after the other. *)
Definition rebuilds (changes : list (double * Boundary)) (st : t) : result t :=
  foldM rebuild changes st.

(** Two states of the second pass with the same ranges, whatever the
    capacities of their arrays. *)
Definition sameRanges (s s' : Ranges) : Prop :=
  range0 s = range0 s' /\
  GArray.data (range1 s) = GArray.data (range1 s') /\
  GArray.data (range2 s) = GArray.data (range2 s') /\
  r1 s = r1 s' /\ r2 s = r2 s'.

End Rebuilds.

(** ** The phase factors of an atom *)

Module PhaseTables.
Import Space FineEwaldCoulombPotential.

(** The phase factor [exp(i 2 pi x m)]. *)
Definition phaseFactor (x : double) (m : Z) : DCMPLX :=
  mkDCMPLX (cos (TwoPi * x * IZR m)) (sin (TwoPi * x * IZR m)).

End PhaseTables.

(** ** The stored waves as planes and columns *)

Module WaveLayout.
Import Space WaveSet FineEwaldCoulombPotential.

(** One plane of waves, that is the waves with one first index: the least
    second index of the plane and, for each second index from there on, the
    interval of third indices of that column. *)
Abbreviation Plane := (Z * list Pair)%type (only parsing).

(** The planes of first index 0, 1, 2, ... *)
Abbreviation Layout := (list Plane) (only parsing).

(** The waves of a column, of the columns of a plane from the second index
    [i1] on, and of the planes from the first index [i0] on, in the order of
    the loops of addKSpaceForces. *)
Definition columnWaves (i0 i1 : Z) (c : Pair) : list IntVector :=
  map (mkIntVector i0 i1) (Zrange (fst c) (snd c)).

Fixpoint columnsWaves (i0 i1 : Z) (cols : list Pair) : list IntVector :=
  match cols with
  | [] => []
  | c :: rest => columnWaves i0 i1 c ++ columnsWaves i0 (i1 + 1) rest
  end.

Fixpoint planesWaves (i0 : Z) (planes : Layout) : list IntVector :=
  match planes with
  | [] => []
  | p :: rest => columnsWaves i0 (fst p) (snd p) ++ planesWaves (i0 + 1) rest
  end.

(** The entry of [range1_] for a plane, and the entries of [range1_] and
    [range2_] for a layout. *)
Definition planeRange (p : Plane) : Pair :=
  (fst p, fst p + Z.of_nat (length (snd p)) - 1).

Definition layoutRange1 (l : Layout) : list Pair := map planeRange l.

Definition layoutRange2 (l : Layout) : list Pair := concat (map snd l).

(** The waves have no gap: the first one has first index 0; from one wave
    to the next the first index grows by at most 1, and within a plane the
    second index grows by at most 1. *)
Fixpoint steps (l : list IntVector) : Prop :=
  match l with
  | [] => True
  | w :: l' =>
      match l' with
      | [] => True
      | w' :: _ => ix w' <= ix w + 1 /\ (ix w' = ix w -> iy w' <= iy w + 1)
      end /\ steps l'
  end.

Definition gapless (ws : list IntVector) : Prop :=
  match ws with
  | [] => True
  | w :: _ => ix w = 0
  end /\ steps ws.

(** No column of the layout is empty, and no plane is without columns. *)
Definition fullColumns (cols : list Pair) : Prop :=
  List.Forall (fun c : Pair => fst c <= snd c) cols.

Definition wellFormed (l : Layout) : Prop :=
  List.Forall (fun p : Plane => snd p <> [] /\ fullColumns (snd p)) l.

(** The state of the second pass of makeWaves after the waves of a layout
    whose last wave is [last]. *)
Definition laidOut (last : IntVector) (prefix : list IntVector) (s : Ranges)
  : Prop :=
  exists (front : Layout) (lo1 : Z) (cols : list Pair) (lo2 c1 c2 : Z),
    wellFormed front /\ fullColumns cols /\
    planesWaves 0 (front ++ [(lo1, cols ++ [(lo2, iz last)])]) = prefix /\
    ix last = Z.of_nat (length front) /\
    iy last = lo1 + Z.of_nat (length cols) /\
    lo2 <= iz last /\
    range0 s = (0, ix last) /\
    range1 s = GArray.mk (layoutRange1 front ++ [(lo1, iy last)]) c1 /\
    range2 s = GArray.mk (layoutRange2 front ++ cols ++ [(lo2, iz last)]) c2 /\
    r1 s = Z.of_nat (length front) /\
    r2 s = Z.of_nat (length (layoutRange2 front ++ cols)).

End WaveLayout.

(** ** The generalized force as a sum over the waves *)

Module ForceSum.
Import Space WaveSet FineEwaldCoulombPotential PhaseTables.

(** An integer triple as a vector of doubles: [df[0] = double(i0)] and so
    on. *)
Definition waveVector (k : IntVector) : Vector :=
  mkVector (IZR (ix k)) (IZR (iy k)) (IZR (iz k)).

(** What one wave adds to the generalized force of an atom at generalized
    position [rg]: the triple times
    [g * (cos(phi) Im(rho) - sin(phi) Re(rho))] with [phi = 2 pi (rg . k)]. *)
Definition waveForce (rg : Vector) (k : IntVector) (g : double) (rho : DCMPLX)
  : Vector :=
  let phi := (vdot rg (waveVector k) * TwoPi)%R in
  vscale (waveVector k) (g * (cos phi * imag rho - sin phi * real rho))%R.

(** The terms of the waves, with their weights and modes, added to [fg] one
    after the other. *)
Fixpoint forceSum (rg : Vector) (ws : list IntVector) (gs : list double)
    (rhos : list DCMPLX) (fg : Vector) : Vector :=
  match ws, gs, rhos with
  | k :: ws', g :: gs', rho :: rhos' =>
      forceSum rg ws' gs' rhos' (vadd fg (waveForce rg k g rho))
  | _, _, _ => fg
  end.

(** The tables hold the phase factors of an atom at [rg] for every index of
    every wave of a list. *)
Definition tablesCover (st : t) (rg : Vector) (ws : list IntVector) : Prop :=
  forall k, In k ws ->
    GArray.get (fexp0_ st) (ix k - base0_ st) = Ok (phaseFactor (vx rg) (ix k)) /\
    GArray.get (fexp1_ st) (iy k - base1_ st) = Ok (phaseFactor (vy rg) (iy k)) /\
    GArray.get (fexp2_ st) (iz k - base2_ st) = Ok (phaseFactor (vz rg) (iz k)).

End ForceSum.

(** ** The reciprocal-space force in closed form *)

Module EwaldForce.
Import Space WaveSet FineEwaldCoulombPotential.
Import ForceSum ChargeDensity WaveLayout.

(** The reciprocal-space force on an atom, in closed form: the sum over the
    stored waves of the wave's term, with the modes of the whole system,
    scaled by [charge * (-2/(epsilon*V))] and carried to Cartesian
    coordinates. *)
Definition ewaldForce (st : t) (sys : System) (atom : Atom) : Vector :=
  let rg := transformCartToGen (boundary st) (position atom) in
  let rhos := map (mode st (atomsOf sys)) (GArray.data (waves_ st)) in
  addCartesian (reciprocalBasisVector (boundary st)) (chargeValue st atom)
    (-2.0 / (epsilon_ st * volume (boundary st)))%R
    (forceSum rg (GArray.data (waves_ st)) (GArray.data (g_ st)) rhos vzero)
    (force atom).

(** An atom after the call: the closed-form force is added when the charge
    magnitude exceeds [EPS], nothing changes otherwise. *)
Definition pushed (st : t) (sys : System) (atom atom' : Atom) : Prop :=
  atom' = mkAtom (position atom)
            (if Rgtb (Rabs (chargeValue st atom)) EPS
             then ewaldForce st sys atom else force atom)
            (typeId atom).

(** The tables of [s] have the sizes of those of [st], and nothing else
    differs. *)
Definition sameSizes (st s : t) : Prop :=
  exists f0 f1 f2,
    s = withFexp st f0 f1 f2 /\
    GArray.size f0 = GArray.size (fexp0_ st) /\
    GArray.size f1 = GArray.size (fexp1_ st) /\
    GArray.size f2 = GArray.size (fexp2_ st).

End EwaldForce.

(** ** Waves without a first plane *)

Module MissingPlane.
Import Space WaveSet FineEwaldCoulombPotential.

(** An atom whose charge is read and exceeds [EPS] in magnitude. *)
Definition charged (st : t) (atom : Atom) : Prop :=
  exists q, chargeOf st atom = Ok q /\ (Rabs q > EPS)%R.

(** A system with such an atom. *)
Definition someCharged (st : t) (sys : System) : Prop :=
  List.Exists (List.Exists (List.Exists (charged st))) sys.

(** A cell of edges [2 PI], [PI] and [PI]: the reciprocal basis vectors have
    the lengths 1, 2 and 2. *)
Definition slabCell : Boundary :=
  {| bravaisBasisVector j :=
       vscale (unitVector j) (if j =? 0 then 2 * PI else PI);
     reciprocalBasisVector j := vscale (unitVector j) (if j =? 0 then 1 else 2);
     volume := (2 * PI) * PI * PI;
     transformCartToGen v :=
       mkVector (vx v / (2 * PI)) (vy v / PI) (vz v / PI) |}.

(** A solver on this cell with [alpha_ = 1], [epsilon_ = 1] and
    [kCutoff_ = 1], and two atom types, of charge 1 and 0. *)
Definition slabSolver : t :=
  initial 1 1 1 slabCell [mkAtomType 1; mkAtomType 0].

(** The same solver after makeWaves: (1,0,0) is the one wave within the
    cutoff. *)
Definition slabWaves : t :=
  {| alpha_ := 1; epsilon_ := 1; kCutoff_ := 1;
     boundary := slabCell; atomTypes := [mkAtomType 1; mkAtomType 0];
     waves_ := GArray.mk [mkIntVector 1 0 0] 13;
     ksq_ := GArray.mk [1%R] 13;
     g_ := GArray.mk [WaveSet.weight 1 1] 13;
     rho_ := GArray.mk [czero] 13;
     range0_ := (0, 1);
     range1_ := GArray.mk [(0, 0)] 2;
     range2_ := GArray.mk [(0, 0)] 6;
     fexp0_ := GArray.mk [czero; czero] 2;
     fexp1_ := GArray.mk [czero] 3;
     fexp2_ := GArray.mk [czero] 3;
     base0_ := 0; base1_ := 0; base2_ := 0 |}.

End MissingPlane.

(** ** The reciprocal-space energy in closed form *)

Module EwaldEnergy.
Import Space WaveSet FineEwaldCoulombPotential.
Import ChargeDensity.

(** The term of one wave in the reciprocal-space energy:
    [exp(-ksq/(4 alpha^2))/ksq * |rho(k)|^2], with [ksq = |k.b|^2] and
    [rho(k)] the mode of the whole system. *)
Definition waveEnergy (st : t) (sys : System) (k : IntVector) : double :=
  let ksq := ksqOf (reciprocalBasisVector (boundary st) 0)
                   (reciprocalBasisVector (boundary st) 1)
                   (reciprocalBasisVector (boundary st) 2) k in
  let r := mode st (atomsOf sys) k in
  (weight (alpha_ st) ksq * (real r * real r + imag r * imag r))%R.

(** The reciprocal-space energy in closed form: the sum of the terms of the
    stored waves over [epsilon * V]. *)
Definition ewaldEnergy (st : t) (sys : System) : double :=
  (sumR (map (waveEnergy st sys) (GArray.data (waves_ st)))
   / (epsilon_ st * volume (boundary st)))%R.

End EwaldEnergy.

(** ** The sum of the forces *)

Module TotalForce.
Import Space WaveSet FineEwaldCoulombPotential.
Import ChargeDensity.

(** The sum of a list of vectors. *)
Definition vsum (l : list Vector) : Vector := fold_right vadd vzero l.

(** The sum of the forces on all atoms. *)
Definition totalForce (sys : System) : Vector :=
  vsum (map force (atomsOf sys)).

(** No atom has a charge that the charge density counts and the forces
    skip: every charge is 0 or exceeds [EPS] in magnitude. *)
Definition noTinyCharge (st : t) (sys : System) : Prop :=
  List.Forall
    (fun atom => chargeValue st atom = 0%R \/ (Rabs (chargeValue st atom) > EPS)%R)
    (atomsOf sys).

(** The sum over atoms of [charge * F(atom)]. *)
Definition chargeSum (st : t) (F : Atom -> Vector) (l : list Atom) : Vector :=
  fold_right (fun a acc => vadd (vscale (F a) (chargeValue st a)) acc) vzero l.

(** The sums of [charge * cos(phase)] and [charge * sin(phase)] over
    atoms. *)
Definition cosSum (st : t) (k : IntVector) (l : list Atom) : double :=
  sumR (map (fun a => (chargeValue st a * cos (phaseOf st a k))%R) l).

Definition sinSum (st : t) (k : IntVector) (l : list Atom) : double :=
  sumR (map (fun a => (chargeValue st a * sin (phaseOf st a k))%R) l).

End TotalForce.

(** ** Moving all atoms *)

Module Translation.
Import Space WaveSet FineEwaldCoulombPotential.

(** An atom moved by [d] in generalized coordinates: the same type, and
    generalized coordinates that differ by [d]. *)
Definition translated (st : t) (d : Vector) (atom atom' : Atom) : Prop :=
  typeId atom' = typeId atom /\
  transformCartToGen (boundary st) (position atom')
  = vadd (transformCartToGen (boundary st) (position atom)) d.

(** The squared magnitude of a complex number. *)
Definition norm2 (r : DCMPLX) : double := (real r * real r + imag r * imag r)%R.

End Translation.

(** * Properties *)

(** ** MdCoulombPotential *)

Module MdCoulombPotentialFacts.
Import MdCoulombPotential.

Lemma value_of_set {A : Type} (s : Setable.t A) :
  Setable.isSet s = true -> Setable.value s = Ok (Setable.value_ s).
Proof. unfold Setable.isSet, Setable.value. intros ->. reflexivity. Qed.

Lemma testRoutines_set_energy : @sets_energy unit testRoutines.
Proof. intros o. reflexivity. Qed.

Lemma testRoutines_set_stress : @sets_stress unit testRoutines.
Proof. intros o. reflexivity. Qed.

End MdCoulombPotentialFacts.

Module MdCoulombPotentialCache.
Import MdCoulombPotential.

(** C4. Each cached k-space quantity is read through a two-state cache.
    When the energy (stress) cache is unset, [kSpaceEnergy()]
    ([kSpaceStress()]) runs the subclass routine exactly once, the cache is
    set afterwards and the call returns the cached value; a read of a set
    cache runs no routine, leaves the object as it is and returns the
    cached value.  Hence two reads in a row run the routine once and return
    the same value.  The subclass routines are assumed to leave the quantity
    they compute set. *)
Theorem kSpace_reads_are_cached {Sub : Type} `{KSpaceRoutines Sub}
    (Henergy : sets_energy) (Hstress : sets_stress) (o : t Sub) :
  (Setable.isSet (kSpaceEnergy_ o) = false ->
     let o1 := computeEnergy o in
     let v := Setable.value_ (kSpaceEnergy_ o1) in
     kSpaceEnergy o = ([CallComputeEnergy], o1, Ok v) /\
     Setable.isSet (kSpaceEnergy_ o1) = true /\
     kSpaceEnergy o1 = ([], o1, Ok v)) /\
  (Setable.isSet (kSpaceEnergy_ o) = true ->
     kSpaceEnergy o = ([], o, Ok (Setable.value_ (kSpaceEnergy_ o)))) /\
  (Setable.isSet (kSpaceStress_ o) = false ->
     let o1 := computeStress o in
     let v := Setable.value_ (kSpaceStress_ o1) in
     kSpaceStress o = ([CallComputeStress], o1, Ok v) /\
     Setable.isSet (kSpaceStress_ o1) = true /\
     kSpaceStress o1 = ([], o1, Ok v)) /\
  (Setable.isSet (kSpaceStress_ o) = true ->
     kSpaceStress o = ([], o, Ok (Setable.value_ (kSpaceStress_ o)))).
Proof.
  repeat split.
  - unfold kSpaceEnergy. rewrite H0. simpl.
    rewrite (MdCoulombPotentialFacts.value_of_set _ (Henergy o)). reflexivity.
  - apply Henergy.
  - unfold kSpaceEnergy. rewrite (Henergy o). simpl.
    rewrite (MdCoulombPotentialFacts.value_of_set _ (Henergy o)). reflexivity.
  - intros Hset. unfold kSpaceEnergy. rewrite Hset. simpl.
    rewrite (MdCoulombPotentialFacts.value_of_set _ Hset). reflexivity.
  - unfold kSpaceStress. rewrite H0. simpl.
    rewrite (MdCoulombPotentialFacts.value_of_set _ (Hstress o)). reflexivity.
  - apply Hstress.
  - unfold kSpaceStress. rewrite (Hstress o). simpl.
    rewrite (MdCoulombPotentialFacts.value_of_set _ (Hstress o)). reflexivity.
  - intros Hset. unfold kSpaceStress. rewrite Hset. simpl.
    rewrite (MdCoulombPotentialFacts.value_of_set _ Hset). reflexivity.
Qed.

(** The test subclass on a freshly constructed object: the first energy
    read runs [computeEnergy] once and returns 3, the second runs nothing
    and returns 3 again; the first stress read runs [computeStress] once. *)
Lemma kSpace_reads_are_cached_witness :
  @sets_energy unit testRoutines /\ @sets_stress unit testRoutines /\
  (let o := construct 0 zeroTensor tt in
   let o1 := computeEnergy o in
   kSpaceEnergy o = ([CallComputeEnergy], o1, Ok 3%R) /\
   kSpaceEnergy o1 = ([], o1, Ok 3%R) /\
   kSpaceStress o = ([CallComputeStress], computeStress o, Ok unitTensor)).
Proof.
  split; [exact MdCoulombPotentialFacts.testRoutines_set_energy|].
  split; [exact MdCoulombPotentialFacts.testRoutines_set_stress|].
  destruct (kSpace_reads_are_cached
              MdCoulombPotentialFacts.testRoutines_set_energy
              MdCoulombPotentialFacts.testRoutines_set_stress
              (construct 0 zeroTensor tt)) as (Henergy & _ & Hstress & _).
  destruct (Henergy eq_refl) as (Hfirst & _ & Hsecond).
  destruct (Hstress eq_refl) as (Hstress1 & _ & _).
  split; [exact Hfirst|]. split; [exact Hsecond|exact Hstress1].
Defined.

(** C5, as the code has it.  [unsetWaves()] clears [hasWaves_] and nothing
    else: [isInitialized_], the members of the subclass and the cached
    energy and stress, with their value and their set flag, are as they
    were.  [unsetEnergy()] and [unsetStress()] in turn unset their own
    cache and leave every other member alone, [hasWaves_] and the other
    cache among them. *)
Theorem unsetWaves_only_clears_hasWaves {Sub : Type} (o : t Sub) :
  (hasWaves_ (unsetWaves o) = false /\
   isInitialized_ (unsetWaves o) = isInitialized_ o /\
   kSpaceEnergy_ (unsetWaves o) = kSpaceEnergy_ o /\
   kSpaceStress_ (unsetWaves o) = kSpaceStress_ o /\
   derived (unsetWaves o) = derived o) /\
  (Setable.isSet (kSpaceEnergy_ (unsetEnergy o)) = false /\
   isInitialized_ (unsetEnergy o) = isInitialized_ o /\
   hasWaves_ (unsetEnergy o) = hasWaves_ o /\
   kSpaceStress_ (unsetEnergy o) = kSpaceStress_ o /\
   derived (unsetEnergy o) = derived o) /\
  (Setable.isSet (kSpaceStress_ (unsetStress o)) = false /\
   isInitialized_ (unsetStress o) = isInitialized_ o /\
   hasWaves_ (unsetStress o) = hasWaves_ o /\
   kSpaceEnergy_ (unsetStress o) = kSpaceEnergy_ o /\
   derived (unsetStress o) = derived o).
Proof. repeat split. Qed.

(** C5 fails as stated: on an object with both totals cached,
    [unsetWaves()] leaves both of them set. *)
Lemma unsetWaves_keeps_totals_set :
  hasWaves_ (unsetWaves cachedObject) = false /\
  Setable.isSet (kSpaceEnergy_ (unsetWaves cachedObject)) = true /\
  Setable.isSet (kSpaceStress_ (unsetWaves cachedObject)) = true /\
  kSpaceEnergy (unsetWaves cachedObject) = ([], unsetWaves cachedObject, Ok 3%R).
Proof. repeat split. Qed.

End MdCoulombPotentialCache.

Module CIntFacts.

Lemma wrap_small (z : Z) : CInt.min <= z <= CInt.max -> CInt.wrap z = z.
Proof.
  unfold CInt.min, CInt.max, CInt.wrap. intros Hz.
  rewrite Z.mod_small by lia. lia.
Qed.

Lemma wrap_range (z : Z) : CInt.min <= CInt.wrap z <= CInt.max.
Proof.
  unfold CInt.min, CInt.max, CInt.wrap.
  pose proof (Z.mod_pos_bound (z + 2147483648) 4294967296 ltac:(lia)). lia.
Qed.

Lemma wrap_add (a b : Z) : CInt.wrap (CInt.wrap a + b) = CInt.wrap (a + b).
Proof.
  unfold CInt.wrap. f_equal.
  replace ((a + 2147483648) mod 4294967296 - 2147483648 + b + 2147483648)
    with ((a + 2147483648) mod 4294967296 + b) by lia.
  rewrite Zplus_mod_idemp_l. f_equal. lia.
Qed.

End CIntFacts.

(** ** SpCell *)

Module SpCellFacts.
Import SpCell CIntFacts.

(** The counter after [n] increments of an unbound cell that has counted
    [a] so far. *)
Lemma incrementCapacityTimes_unbound (n : nat) (a : Z) (c : t) :
  begin_ c = 0 -> atomCapacity_ c = CInt.wrap a ->
  exists c',
    incrementCapacityTimes n c = Ok c' /\
    begin_ c' = 0 /\ nAtom_ c' = nAtom_ c /\
    atomCapacity_ c' = CInt.wrap (a + Z.of_nat n).
Proof.
  revert a c. induction n as [|n IH]; intros a c Hb Ha.
  - exists c. simpl. repeat split; auto. rewrite Z.add_0_r. exact Ha.
  - simpl. unfold incrementCapacity. rewrite Hb. simpl.
    edestruct (IH (a + 1)) as (c' & Hrun & Hb' & Hn' & Hc');
      [| |exists c'; split; [exact Hrun|]].
    + reflexivity.
    + simpl. rewrite Ha. apply wrap_add.
    + simpl in *. repeat split; auto. rewrite Hc'. f_equal. lia.
Qed.

Lemma appendAll_within_capacity (atoms : list pointer) (m : slots) (c : t) :
  begin_ c <> 0 ->
  nAtom_ c + Z.of_nat (length atoms) <= atomCapacity_ c ->
  exists m' c',
    appendAll atoms (m, c) = Ok (m', c') /\
    begin_ c' = begin_ c /\ atomCapacity_ c' = atomCapacity_ c /\
    nAtom_ c' = nAtom_ c + Z.of_nat (length atoms).
Proof.
  revert m c. induction atoms as [|a rest IH]; intros m c Hb Hroom.
  - exists m, c. simpl. repeat split; auto. lia.
  - simpl in Hroom. simpl. unfold append.
    assert (Hnz : (begin_ c =? 0) = false) by (apply Z.eqb_neq; exact Hb).
    rewrite Hnz. simpl.
    assert (Hlt : (nAtom_ c <? atomCapacity_ c) = true) by (apply Z.ltb_lt; lia).
    rewrite Hlt. simpl.
    edestruct IH as (m' & c' & Hrun & Hb' & Hc' & Hn'); [| |exists m', c'; split; [exact Hrun|]].
    + simpl. exact Hb.
    + simpl. lia.
    + simpl in *. repeat split; auto. lia.
Qed.

(** C6, as the code has it.  From a cleared cell, [N] calls of
    [incrementCapacity()], with [N] no more than the largest [int], and then
    [initialize(begin)] with a non-null [begin] succeed; [initialize] returns
    [begin + N] and [atomCapacity()] is [N].  After that, another
    [incrementCapacity()] fails the assertion [begin_ == 0]; [N] calls of
    [append] succeed and the next one fails the assertion
    [nAtom_ < atomCapacity_]. *)
Theorem capacity_discipline (c0 : t) (N : nat) (begin : pointer)
    (atoms : list pointer) (m : slots) (extra : pointer) :
  begin <> 0 ->
  Z.of_nat N <= CInt.max ->
  length atoms = N ->
  exists cN cI mA cA,
    incrementCapacityTimes N (clear c0) = Ok cN /\
    initialize begin cN = Ok (begin + Z.of_nat N, cI) /\
    atomCapacity cI = Z.of_nat N /\
    incrementCapacity cI = Fail (AssertionFailed "begin_ == 0") /\
    appendAll atoms (m, cI) = Ok (mA, cA) /\
    nAtom cA = Z.of_nat N /\
    append extra (mA, cA) = Fail (AssertionFailed "nAtom_ < atomCapacity_").
Proof.
  intros Hbegin Hmax Hlen.
  destruct (incrementCapacityTimes_unbound N 0 (clear c0) eq_refl eq_refl)
    as (cN & HrunN & HbN & HnN & HcN).
  simpl in HnN, HcN.
  rewrite wrap_small in HcN by (unfold CInt.min, CInt.max in *; lia).
  rewrite Z.add_0_l in HcN.
  set (cI := {| begin_ := begin; offsetsPtr_ := offsetsPtr_ cN;
                nextSpCellPtr_ := nextSpCellPtr_ cN; nAtom_ := nAtom_ cN;
                atomCapacity_ := atomCapacity_ cN; id_ := id_ cN;
                isGhostSpCell_ := isGhostSpCell_ cN |}).
  assert (Hnz : (begin =? 0) = false) by (apply Z.eqb_neq; exact Hbegin).
  destruct (appendAll_within_capacity atoms m cI) as (mA & cA & HrunA & HbA & HcA & HnA).
  { exact Hbegin. }
  { simpl. lia. }
  simpl in HbA, HcA, HnA.
  exists cN, cI, mA, cA. repeat split.
  - exact HrunN.
  - unfold initialize. subst cI. destruct cN as [b o nx na cap i g].
    simpl in *. subst b na cap. simpl.
    replace (0 <=? Z.of_nat N) with true by (symmetry; apply Z.leb_le; lia).
    reflexivity.
  - unfold atomCapacity. simpl. lia.
  - unfold incrementCapacity. simpl. rewrite Hnz. reflexivity.
  - exact HrunA.
  - unfold nAtom. lia.
  - unfold append. rewrite HbA, Hnz. simpl.
    replace (nAtom_ cA <? atomCapacity_ cA) with false
      by (symmetry; apply Z.ltb_ge; lia).
    reflexivity.
Qed.

(** Two particles, storage at address 100. *)
Lemma capacity_discipline_witness :
  100 <> 0 /\ Z.of_nat 2 <= CInt.max /\ length [7; 8] = 2%nat /\
  exists cN cI mA cA,
    incrementCapacityTimes 2 (clear (mk 5 0 0 3 4 1 false)) = Ok cN /\
    initialize 100 cN = Ok (100 + Z.of_nat 2, cI) /\
    atomCapacity cI = Z.of_nat 2 /\
    incrementCapacity cI = Fail (AssertionFailed "begin_ == 0") /\
    appendAll [7; 8] (∅, cI) = Ok (mA, cA) /\
    nAtom cA = Z.of_nat 2 /\
    append 9 (mA, cA) = Fail (AssertionFailed "nAtom_ < atomCapacity_").
Proof.
  split; [lia|]. split; [unfold CInt.max; lia|]. split; [reflexivity|].
  apply (capacity_discipline (mk 5 0 0 3 4 1 false) 2 100 [7; 8] ∅ 9);
    [lia|unfold CInt.max; lia|reflexivity].
Defined.

(** C6 fails as stated, in two places.  With a null [begin] the call of
    [initialize] returns and leaves the cell unbound, so that a further
    [incrementCapacity()] passes its assertion: here [N] is 2 and the
    counter goes on to 3.  And [N] is counted in an [int]: after [2^31]
    calls of [incrementCapacity()] the counter is [-2^31], not [N], and
    [initialize] fails the assertion [atomCapacity_ >= 0]. *)
Lemma capacity_discipline_null_begin_and_overflow :
  (exists cN cI cX,
     incrementCapacityTimes 2 (clear (mk 5 0 0 3 4 1 false)) = Ok cN /\
     initialize 0 cN = Ok (0 + 2, cI) /\
     incrementCapacity cI = Ok cX /\ atomCapacity cX = 3) /\
  (exists cN,
     incrementCapacityTimes (Z.to_nat 2147483648) (clear (mk 5 0 0 3 4 1 false))
     = Ok cN /\
     atomCapacity cN = -2147483648 /\
     initialize 100 cN = Fail (AssertionFailed "atomCapacity_ >= 0")).
Proof.
  split.
  - eexists. eexists. eexists. repeat split.
  - destruct (incrementCapacityTimes_unbound (Z.to_nat 2147483648) 0
                (clear (mk 5 0 0 3 4 1 false)) eq_refl eq_refl)
      as (cN & Hrun & Hb & Hn & Hc).
    rewrite Z2Nat.id in Hc by lia.
    change (CInt.wrap (0 + 2147483648)) with (-2147483648) in Hc.
    exists cN. split; [exact Hrun|]. split; [exact Hc|].
    unfold initialize. rewrite Hb, Hn, Hc. reflexivity.
Qed.

End SpCellFacts.

(** ** TextFileOArchive *)

Module TextFileOArchiveFacts.
Import Ios TextFileOArchive.

Lemma scientific_bit_stays (f : fmtflags) :
  Z.land (Z.lor f scientific) scientific = scientific.
Proof.
  apply Z.bits_inj'. intros n _.
  rewrite Z.land_spec, Z.lor_spec.
  destruct (Z.testbit f n), (Z.testbit scientific n); reflexivity.
Qed.

Lemma floatfield_after_setf (f : fmtflags) :
  Z.land f fixed = 0 ->
  Z.land (Z.lor f scientific) floatfield = scientific.
Proof.
  intros Hfixed. apply Z.bits_inj'. intros n _.
  assert (Hbit : Z.testbit (Z.land f fixed) n = false)
    by (rewrite Hfixed; apply Z.bits_0).
  rewrite Z.land_spec in Hbit.
  unfold floatfield. rewrite Z.land_spec, !Z.lor_spec.
  destruct (Z.testbit f n), (Z.testbit scientific n), (Z.testbit fixed n);
    simpl in *; congruence.
Qed.

Lemma fixed_bit_after_setf (f : fmtflags) :
  Z.land (Z.lor f scientific) fixed = Z.land f fixed.
Proof.
  rewrite Z.land_lor_distr_l. change (Z.land scientific fixed) with 0.
  apply Z.lor_0_r.
Qed.

Lemma pack_double_settled (x : double) (s : ostream) :
  settled (flags_ s) (pack_double x s).
Proof.
  unfold settled, pack_double. simpl.
  split; [apply scientific_bit_stays|].
  split; [apply fixed_bit_after_setf|]. split; reflexivity.
Qed.

Lemma fold_insert_settled (f0 : fmtflags) (vs : list Value) (s : ostream) :
  settled f0 s ->
  settled f0 (fold_left (fun s v => insert (VString "  ") (insert v s)) vs s).
Proof.
  revert s. induction vs as [|v vs IH]; intros s Hs; simpl; [exact Hs|].
  apply IH. destruct Hs as (H1 & H2 & H3 & H4). repeat split; assumption.
Qed.

Lemma write_settled (f0 : fmtflags) (w : Write) (s : ostream) :
  settled f0 s -> settled f0 (write w s).
Proof.
  intros Hs. pose proof Hs as (H1 & H2 & H3 & H4). destruct w as [v|x|vs|v|]; simpl.
  - repeat split; assumption.
  - destruct (pack_double_settled x s) as (G1 & G2 & G3 & G4).
    repeat split; try assumption. rewrite G2. exact H2.
  - destruct (fold_insert_settled f0 vs s Hs) as (G1 & G2 & G3 & G4).
    unfold pack_array. repeat split; assumption.
  - repeat split; assumption.
  - repeat split; assumption.
Qed.

Lemma writes_settled (f0 : fmtflags) (ws : list Write) (s : ostream) :
  settled f0 s -> settled f0 (writes ws s).
Proof.
  unfold writes. revert s. induction ws as [|w ws IH]; intros s Hs; simpl.
  - exact Hs.
  - apply IH, write_settled, Hs.
Qed.

(** What [pack] of a double does on a stream whose [fixed] flag is not
    set: it appends exactly two items to what the stream received, the value
    converted in scientific notation with width 25 and precision 17, and one
    line break. *)
Lemma pack_double_without_fixed (s : ostream) (data : double) :
  Z.land (flags_ s) fixed = 0 ->
  exists fl,
    written (pack_double data s)
    = written s ++ [Formatted fl 25 17 (VDouble data); EndOfLine] /\
    floatNotation fl = Scientific.
Proof.
  intros Hfixed. exists (Z.lor (flags_ s) scientific). split.
  - unfold pack_double. simpl. rewrite <- app_assoc. reflexivity.
  - unfold floatNotation. rewrite (floatfield_after_setf _ Hfixed).
    reflexivity.
Qed.

(** C7.  [pack] of a double on a stream set to fixed notation:
    [setf(std::ios::scientific)] does not clear [fixed], so both bits are
    set when the double is converted.  The stream receives the value under
    width 25 and precision 17 and one line break, but the conversion the
    flags select is the hexadecimal one, not the scientific notation that
    the call asks for. *)
Theorem pack_double_on_fixed_stream :
  Z.land (flags_ fixedStream) floatfield = fixed /\
  exists fl,
    written (pack_double 1 fixedStream)
    = [Formatted fl 25 17 (VDouble 1); EndOfLine] /\
    Z.land fl floatfield = floatfield /\
    floatNotation fl = HexFloat.
Proof. split; [reflexivity|]. eexists. repeat split. Qed.

(** What [pack] of a double leaves behind: the scientific flag set and the
    precision at 17, neither restored; the width is back at 0 after the
    insertion.  Whatever is written later through the archive or by
    insertions under the stream's settings, a value then written by the
    generic [pack] or by a plain insertion is converted with the scientific
    flag set, precision 17 and width 0, not 25; the notation is scientific
    when the stream's [fixed] flag was not set at the start. *)
Lemma pack_double_settings
    (s : ostream) (x : double) (ws : list Write) (v : Value) :
  flags_ (pack_double x s) = Z.lor (flags_ s) scientific /\
  precision_ (pack_double x s) = 17 /\
  width_ (pack_double x s) = 0 /\
  let s1 := writes ws (pack_double x s) in
  written (pack v s1)
  = written s1 ++ [Formatted (flags_ s1) 0 17 v; EndOfLine] /\
  written (insert v s1) = written s1 ++ [Formatted (flags_ s1) 0 17 v] /\
  Z.land (flags_ s1) scientific = scientific /\
  (Z.land (flags_ s) fixed = 0 -> floatNotation (flags_ s1) = Scientific).
Proof.
  split; [reflexivity|]. split; [reflexivity|]. split; [reflexivity|].
  intros s1.
  destruct (writes_settled (flags_ s) ws (pack_double x s)
              (pack_double_settled x s)) as (H1 & H2 & H3 & H4).
  fold s1 in H1, H2, H3, H4.
  split; [|split; [|split]].
  - unfold pack. simpl. rewrite H3, H4, <- app_assoc. reflexivity.
  - simpl. rewrite H3, H4. reflexivity.
  - exact H1.
  - intros Hfixed. unfold floatNotation, floatfield.
    rewrite Z.land_lor_distr_r, H1, H2, Hfixed. reflexivity.
Qed.

(** C10.  A later value on a stream set to fixed notation: after
    [pack] of a double, the [float] that the generic [pack] writes next is
    converted with precision 17 and width 0, and with both [floatfield] bits
    set, that is with the hexadecimal conversion and not in scientific
    notation. *)
Theorem later_value_on_fixed_stream :
  exists fl,
    written (pack (VFloat 2) (pack_double 1 fixedStream))
    = [Formatted fl 25 17 (VDouble 1); EndOfLine;
       Formatted fl 0 17 (VFloat 2); EndOfLine] /\
    Z.land fl floatfield = floatfield /\
    floatNotation fl = HexFloat.
Proof. eexists. repeat split. Qed.

End TextFileOArchiveFacts.

(** ** Loops and arrays *)

Module LoopFacts.
Import Space.

Lemma for_up_fold {S : Type} (body : Z -> S -> S) (n : nat) (i : Z) (s : S) :
  for_up n i body s = fold_left (fun s i => body i s) (Zlist n i) s.
Proof.
  revert i s. induction n as [|n IH]; intros i s; simpl; [reflexivity|apply IH].
Qed.

Lemma for_Z_fold {S : Type} (body : Z -> S -> S) (lo hi : Z) (s : S) :
  for_Z lo hi body s = fold_left (fun s i => body i s) (Zrange lo hi) s.
Proof. apply for_up_fold. Qed.

Lemma for_upM_fold {S : Type} (body : Z -> S -> result S) (n : nat) (i : Z) (s : S) :
  for_upM n i body s = foldM body (Zlist n i) s.
Proof.
  revert i s. induction n as [|n IH]; intros i s; simpl; [reflexivity|].
  destruct (body i s); simpl; [apply IH|reflexivity].
Qed.

Lemma In_Zlist (n : nat) (i x : Z) :
  In x (Zlist n i) <-> i <= x < i + Z.of_nat n.
Proof.
  revert i. induction n as [|n IH]; intros i; simpl.
  - lia.
  - rewrite IH. lia.
Qed.

Lemma In_Zrange (lo hi x : Z) : In x (Zrange lo hi) <-> lo <= x <= hi.
Proof. unfold Zrange. rewrite In_Zlist. lia. Qed.

Lemma length_Zlist (n : nat) (i : Z) : length (Zlist n i) = n.
Proof. revert i. induction n as [|n IH]; intros i; simpl; [|rewrite IH]; reflexivity. Qed.

Lemma foldM_app {A S : Type} (body : A -> S -> result S) (l1 l2 : list A) (s : S) :
  foldM body (l1 ++ l2) s = (do s' <- foldM body l1 s ;; foldM body l2 s').
Proof.
  revert s. induction l1 as [|a l1 IH]; intros s; simpl; [reflexivity|].
  destruct (body a s); simpl; [apply IH|reflexivity].
Qed.

(** The invariant rule of the counting loop with a body that may fail. *)
Lemma for_upM_invariant {St : Type} (P : Z -> St -> Prop)
    (body : Z -> St -> result St) (n : nat) (lo : Z) (s : St) :
  (forall i s, lo <= i < lo + Z.of_nat n -> P i s ->
     exists s', body i s = Ok s' /\ P (i + 1) s') ->
  P lo s ->
  exists s', for_upM n lo body s = Ok s' /\ P (lo + Z.of_nat n) s'.
Proof.
  revert lo s. induction n as [|n IH]; intros lo s Hbody Hs.
  - exists s. split; [reflexivity|]. replace (lo + Z.of_nat 0) with lo by lia.
    exact Hs.
  - destruct (Hbody lo s) as (s1 & Hstep & Hs1); [lia|exact Hs|].
    destruct (IH (lo + 1) s1) as (s' & Hrun & Hs'); [|exact Hs1|].
    + intros i t Hi. apply Hbody. lia.
    + exists s'. split.
      * simpl. rewrite Hstep. simpl. exact Hrun.
      * replace (lo + Z.of_nat (S n)) with (lo + 1 + Z.of_nat n) by lia.
        exact Hs'.
Qed.

(** The invariant rule of the loop over a container. *)
Lemma foldM_invariant {A St : Type} (P : St -> Prop) (Q : A -> Prop)
    (body : A -> St -> result St) (l : list A) (s : St) :
  (forall a s, Q a -> P s -> exists s', body a s = Ok s' /\ P s') ->
  List.Forall Q l -> P s ->
  exists s', foldM body l s = Ok s' /\ P s'.
Proof.
  intros Hbody Hl. revert s. induction Hl as [|a l Ha Hl IH]; intros s Hs.
  - exists s. split; [reflexivity|exact Hs].
  - destruct (Hbody a s Ha Hs) as (s1 & Hstep & Hs1).
    destruct (IH s1 Hs1) as (s' & Hrun & Hs').
    exists s'. split; [|exact Hs']. simpl. rewrite Hstep. exact Hrun.
Qed.

(** The rule of the loop that rewrites the elements of a container: an
    invariant of the threaded state, and a relation between each element
    and what replaces it. *)
Lemma mapM_Forall2 {A St : Type} (body : St -> A -> result (St * A))
    (I : St -> Prop) (R : A -> A -> Prop) :
  (forall s a s' a', I s -> body s a = Ok (s', a') -> I s' /\ R a a') ->
  forall l s s' l',
    I s -> mapM body s l = Ok (s', l') -> I s' /\ List.Forall2 R l l'.
Proof.
  intros Hbody. induction l as [|a l IH]; intros s s' l' Hs Hrun; simpl in Hrun.
  - injection Hrun as <- <-. split; [exact Hs|constructor].
  - destruct (body s a) as [[s1 a1]|] eqn:Hstep; simpl in Hrun; [|discriminate].
    destruct (mapM body s1 l) as [[s2 l2]|] eqn:Hrest; simpl in Hrun; [|discriminate].
    injection Hrun as <- <-.
    destruct (Hbody s a s1 a1 Hs Hstep) as [Hs1 Ha].
    destruct (IH s1 s2 l2 Hs1 Hrest) as [Hs2 Hl].
    split; [exact Hs2|constructor; assumption].
Qed.

(** The same loop returns when its body does, under an invariant of the
    threaded state. *)
Lemma mapM_invariant {A St : Type} (I : St -> Prop) (Q : A -> Prop)
    (body : St -> A -> result (St * A)) (l : list A) (s : St) :
  (forall s a, I s -> Q a -> exists s' a', body s a = Ok (s', a') /\ I s') ->
  List.Forall Q l -> I s ->
  exists s' l', mapM body s l = Ok (s', l') /\ I s'.
Proof.
  intros Hbody Hl. revert s. induction Hl as [|a l Ha Hl IH]; intros s Hs.
  - exists s, []. split; [reflexivity|exact Hs].
  - destruct (Hbody s a Hs Ha) as (s1 & a1 & Hstep & Hs1).
    destruct (IH s1 Hs1) as (s' & l' & Hrun & Hs').
    exists s', (a1 :: l'). split; [|exact Hs']. simpl. rewrite Hstep. simpl.
    rewrite Hrun. reflexivity.
Qed.

End LoopFacts.

Module GArrayFacts.
Import GArray.

Lemma size_append {A : Type} (x : A) (a : t A) : size (append x a) = size a + 1.
Proof. unfold size, append. simpl. rewrite length_app. simpl. lia. Qed.

Lemma capacity_reserve {A : Type} (n : Z) (a : t A) :
  capacity (reserve n a) = Z.max (capacity a) n.
Proof. unfold reserve. destruct (Z.ltb_spec (capacity a) n); simpl; lia. Qed.

Lemma data_reserve {A : Type} (n : Z) (a : t A) : data (reserve n a) = data a.
Proof. unfold reserve. destruct (capacity a <? n); reflexivity. Qed.

Lemma get_last {A : Type} (pre : list A) (x : A) (c : Z) :
  get (mk (pre ++ [x]) c) (Z.of_nat (length pre)) = Ok x.
Proof.
  unfold get. simpl.
  replace (0 <=? Z.of_nat (length pre)) with true by (symmetry; apply Z.leb_le; lia).
  simpl. rewrite Nat2Z.id.
  rewrite lookup_app_r by lia. rewrite Nat.sub_diag. reflexivity.
Qed.

Lemma modify_last {A : Type} (pre : list A) (x : A) (c : Z) (f : A -> A) :
  modify (mk (pre ++ [x]) c) (Z.of_nat (length pre)) f = Ok (mk (pre ++ [f x]) c).
Proof.
  unfold modify. rewrite get_last. simpl. rewrite Nat2Z.id.
  rewrite insert_app_r_alt by lia. rewrite Nat.sub_diag. reflexivity.
Qed.

Lemma get_lookup {A : Type} (a : t A) (i : nat) (x : A) :
  data a !! i = Some x -> get a (Z.of_nat i) = Ok x.
Proof.
  intros H. unfold get.
  replace (0 <=? Z.of_nat i) with true by (symmetry; apply Z.leb_le; lia).
  simpl. rewrite Nat2Z.id, H. reflexivity.
Qed.

Lemma modify_lookup {A : Type} (a : t A) (i : nat) (x : A) (f : A -> A) :
  data a !! i = Some x ->
  modify a (Z.of_nat i) f = Ok (mk (<[ i := f x ]> (data a)) (capacity a)).
Proof.
  intros H. unfold modify. rewrite (get_lookup a i x H). simpl.
  rewrite Nat2Z.id. reflexivity.
Qed.

Lemma get_at {A : Type} (a : t A) (i : Z) (x : A) :
  0 <= i -> data a !! Z.to_nat i = Some x -> get a i = Ok x.
Proof.
  intros Hi H. rewrite <- (Z2Nat.id i Hi). apply get_lookup. exact H.
Qed.

Lemma modify_at {A : Type} (a : t A) (i : Z) (x : A) (f : A -> A) :
  0 <= i -> data a !! Z.to_nat i = Some x ->
  modify a i f = Ok (mk (<[ Z.to_nat i := f x ]> (data a)) (capacity a)).
Proof.
  intros Hi H. rewrite <- (Z2Nat.id i Hi) at 1. apply modify_lookup. exact H.
Qed.

End GArrayFacts.

(** ** makeWaves: the accumulation loops *)

Module AccumulateFacts.
Import Space LoopFacts WaveSet FineEwaldCoulombPotential.

Section Loops.
Variables (b0 b1 b2 : Vector) (kCutoffSq prefactor : double) (maxK : IntVector).

Abbreviation kvec := (kdotb b0 b1 b2).
Abbreviation ksq := (ksqOf b0 b1 b2).

Abbreviation kept := (WaveSet.kept b0 b1 b2 kCutoffSq).
Abbreviation visit :=
  (FineEwaldCoulombPotential.visit b0 b1 b2 kCutoffSq prefactor).

Lemma visit_app (ks1 ks2 : list IntVector) (a : Acc) :
  visit (ks1 ++ ks2) a = visit ks2 (visit ks1 a).
Proof. unfold FineEwaldCoulombPotential.visit. apply fold_left_app. Qed.

Ltac vec_eq :=
  unfold kdotb, vadd, vscale; simpl; f_equal;
  rewrite ?minus_IZR, ?plus_IZR, ?opp_IZR; simpl; ring.

Lemma kvec_next2 (k0 k1 j : Z) :
  vadd (kvec (mkIntVector k0 k1 (j - 1))) b2 = kvec (mkIntVector k0 k1 j).
Proof. vec_eq. Qed.

Lemma kvec_start2 (k0 k1 m : Z) :
  vadd (vscale b2 (IZR (m - 1))) (kvec (mkIntVector k0 k1 0))
  = kvec (mkIntVector k0 k1 (m - 1)).
Proof. vec_eq. Qed.

Lemma kvec_next1 (k0 j : Z) :
  vadd (kvec (mkIntVector k0 (j - 1) 0)) b1 = kvec (mkIntVector k0 j 0).
Proof. vec_eq. Qed.

Lemma kvec_start1 (k0 m : Z) :
  vadd (vscale b1 (IZR (m - 1))) (kvec (mkIntVector k0 0 0))
  = kvec (mkIntVector k0 (m - 1) 0).
Proof. vec_eq. Qed.

Lemma kvec_next0 (j : Z) :
  vadd (kvec (mkIntVector (j - 1) 0 0)) b0 = kvec (mkIntVector j 0 0).
Proof. vec_eq. Qed.

Lemma kvec_start0 : vscale b0 (-1) = kvec (mkIntVector (0 - 1) 0 0).
Proof. vec_eq. Qed.

Lemma loop2_visits (k0 k1 : Z) (n : nat) (j : Z) (q : Vector) (a : Acc) :
  q = kvec (mkIntVector k0 k1 (j - 1)) ->
  snd (fold_left (fun s i => loop2Body b2 kCutoffSq prefactor k0 k1 i s)
                 (Zlist n j) (q, a))
  = visit (map (mkIntVector k0 k1) (Zlist n j)) a.
Proof.
  revert j q a. induction n as [|n IH]; intros j q a Hq; simpl; [reflexivity|].
  unfold loop2Body at 2. simpl. rewrite Hq, kvec_next2.
  rewrite IH by (replace (j + 1 - 1) with j by lia; reflexivity).
  reflexivity.
Qed.

Lemma loop1Body_visits (k0 k1 : Z) (q1 : Vector) (a : Acc) :
  q1 = kvec (mkIntVector k0 (k1 - 1) 0) ->
  loop1Body b1 b2 kCutoffSq prefactor maxK k0 k1 (q1, a)
  = (kvec (mkIntVector k0 k1 0), visit (enum2 maxK k0 k1) a).
Proof.
  intros Hq. unfold loop1Body. simpl. rewrite Hq, kvec_next1. f_equal.
  rewrite for_Z_fold. unfold Zrange, enum2, Zrange.
  apply loop2_visits. unfold mink2. apply kvec_start2.
Qed.

Lemma loop1_visits (k0 : Z) (n : nat) (j : Z) (q1 : Vector) (a : Acc) :
  q1 = kvec (mkIntVector k0 (j - 1) 0) ->
  snd (fold_left (fun s i => loop1Body b1 b2 kCutoffSq prefactor maxK k0 i s)
                 (Zlist n j) (q1, a))
  = visit (flat_map (enum2 maxK k0) (Zlist n j)) a.
Proof.
  revert j q1 a. induction n as [|n IH]; intros j q1 a Hq; simpl; [reflexivity|].
  rewrite (loop1Body_visits k0 j q1 a Hq).
  rewrite IH by (replace (j + 1 - 1) with j by lia; reflexivity).
  rewrite visit_app. reflexivity.
Qed.

Lemma loop0Body_visits (k0 : Z) (q0 : Vector) (a : Acc) :
  q0 = kvec (mkIntVector (k0 - 1) 0 0) ->
  loop0Body b0 b1 b2 kCutoffSq prefactor maxK k0 (q0, a)
  = (kvec (mkIntVector k0 0 0), visit (enum1 maxK k0) a).
Proof.
  intros Hq. unfold loop0Body. simpl. rewrite Hq, kvec_next0. f_equal.
  rewrite for_Z_fold. unfold enum1, Zrange.
  apply loop1_visits. unfold mink1. apply kvec_start1.
Qed.

Lemma loop0_visits (n : nat) (j : Z) (q0 : Vector) (a : Acc) :
  q0 = kvec (mkIntVector (j - 1) 0 0) ->
  snd (fold_left (fun s i => loop0Body b0 b1 b2 kCutoffSq prefactor maxK i s)
                 (Zlist n j) (q0, a))
  = visit (flat_map (enum1 maxK) (Zlist n j)) a.
Proof.
  revert j q0 a. induction n as [|n IH]; intros j q0 a Hq; simpl; [reflexivity|].
  rewrite (loop0Body_visits j q0 a Hq).
  rewrite IH by (replace (j + 1 - 1) with j by lia; reflexivity).
  rewrite visit_app. reflexivity.
Qed.

(** The three nested loops visit the triples of [enum0] in order and keep
    those with [ksq <= kCutoffSq]. *)
Lemma accumulateWaves_visits (a : Acc) :
  accumulateWaves b0 b1 b2 kCutoffSq prefactor maxK a = visit (enum0 maxK) a.
Proof.
  unfold accumulateWaves. rewrite for_Z_fold. unfold enum0, Zrange.
  apply loop0_visits. apply kvec_start0.
Qed.

Lemma visit_waves (ks : list IntVector) (a : Acc) :
  GArray.data (waves (visit ks a)) = GArray.data (waves a) ++ List.filter kept ks.
Proof.
  revert a. induction ks as [|k ks IH]; intros a.
  - simpl. rewrite app_nil_r. reflexivity.
  - change (visit (k :: ks) a)
      with (visit ks (if kept k then keepWave prefactor k (ksq k) a else a)).
    rewrite IH. simpl. destruct (kept k) eqn:Hk.
    + simpl. rewrite <- app_assoc. reflexivity.
    + reflexivity.
Qed.

Lemma visit_ksqs (ks : list IntVector) (a : Acc) :
  GArray.data (ksqs (visit ks a))
  = GArray.data (ksqs a) ++ map ksq (List.filter kept ks).
Proof.
  revert a. induction ks as [|k ks IH]; intros a.
  - simpl. rewrite app_nil_r. reflexivity.
  - change (visit (k :: ks) a)
      with (visit ks (if kept k then keepWave prefactor k (ksq k) a else a)).
    rewrite IH. simpl. destruct (kept k) eqn:Hk.
    + simpl. rewrite <- app_assoc. reflexivity.
    + reflexivity.
Qed.

Lemma visit_gs (ks : list IntVector) (a : Acc) :
  GArray.data (gs (visit ks a))
  = GArray.data (gs a)
    ++ map (fun k => (exp (prefactor * ksq k) / ksq k)%R) (List.filter kept ks).
Proof.
  revert a. induction ks as [|k ks IH]; intros a.
  - simpl. rewrite app_nil_r. reflexivity.
  - change (visit (k :: ks) a)
      with (visit ks (if kept k then keepWave prefactor k (ksq k) a else a)).
    rewrite IH. simpl. destruct (kept k) eqn:Hk.
    + simpl. rewrite <- app_assoc. reflexivity.
    + reflexivity.
Qed.

End Loops.

(** The loops visit exactly the triples of the index box that obey the
    half-space rule. *)
Lemma In_enum2 (maxK : IntVector) (k0 k1 : Z) (k : IntVector) :
  In k (enum2 maxK k0 k1) <->
  ix k = k0 /\ iy k = k1 /\
  (if (k0 =? 0) && (k1 =? 0) then 1 else - iz maxK) <= iz k <= iz maxK.
Proof.
  unfold enum2. rewrite in_map_iff. split.
  - intros (z & <- & Hz). apply In_Zrange in Hz. simpl. auto.
  - intros (H0 & H1 & Hz). exists (iz k). split.
    + destruct k; simpl in *; subst; reflexivity.
    + apply In_Zrange. exact Hz.
Qed.

Lemma In_enum1 (maxK : IntVector) (k0 : Z) (k : IntVector) :
  In k (enum1 maxK k0) <->
  ix k = k0 /\
  (if k0 =? 0 then 0 else - iy maxK) <= iy k <= iy maxK /\
  (if (k0 =? 0) && (iy k =? 0) then 1 else - iz maxK) <= iz k <= iz maxK.
Proof.
  unfold enum1. rewrite in_flat_map. split.
  - intros (k1 & Hk1 & Hk). apply In_Zrange in Hk1. apply In_enum2 in Hk.
    destruct Hk as (H0 & H1 & Hz). subst k1. auto.
  - intros (H0 & H1 & Hz). exists (iy k). split.
    + apply In_Zrange. exact H1.
    + apply In_enum2. auto.
Qed.

Lemma In_enum0 (maxK k : IntVector) :
  In k (enum0 maxK) <-> inBox maxK k /\ halfSpace k.
Proof.
  unfold enum0. rewrite in_flat_map. unfold inBox, halfSpace. split.
  - intros (k0 & Hk0 & Hk). apply In_Zrange in Hk0. apply In_enum1 in Hk.
    destruct Hk as (H0 & H1 & Hz). subst k0.
    destruct (Z.eqb_spec (ix k) 0) as [E0|E0];
      destruct (Z.eqb_spec (iy k) 0) as [E1|E1]; simpl in Hz; lia.
  - intros ((Hx & Hy & Hz) & (G0 & G1 & G2)). exists (ix k). split.
    + apply In_Zrange. lia.
    + apply In_enum1. split; [reflexivity|].
      destruct (Z.eqb_spec (ix k) 0) as [E0|E0];
        destruct (Z.eqb_spec (iy k) 0) as [E1|E1]; simpl; lia.
Qed.

End AccumulateFacts.

(** ** makeWaves: the kept triples of one column are contiguous *)

Module ConvexFacts.
Import Space LoopFacts WaveSet FineEwaldCoulombPotential AccumulateFacts.

#[local] Open Scope R_scope.

(** [|p + t x|²] is a convex function of [t]: between two points where it
    is at most [K] it is at most [K]. *)
Lemma quadratic_between (p1 p2 p3 x1 x2 x3 a m c K : R) :
  a <= m <= c ->
  (p1 + x1 * a) * (p1 + x1 * a) + (p2 + x2 * a) * (p2 + x2 * a)
    + (p3 + x3 * a) * (p3 + x3 * a) <= K ->
  (p1 + x1 * c) * (p1 + x1 * c) + (p2 + x2 * c) * (p2 + x2 * c)
    + (p3 + x3 * c) * (p3 + x3 * c) <= K ->
  (p1 + x1 * m) * (p1 + x1 * m) + (p2 + x2 * m) * (p2 + x2 * m)
    + (p3 + x3 * m) * (p3 + x3 * m) <= K.
Proof.
  intros [Ham Hmc] Ha Hc.
  destruct (Req_dec a c) as [Heq|Hne].
  - assert (m = a) by lra. subst m. exact Ha.
  - assert (Hac : 0 < c - a) by lra.
    apply (Rmult_le_reg_l (c - a)); [exact Hac|].
    set (fa := (p1 + x1 * a) * (p1 + x1 * a) + (p2 + x2 * a) * (p2 + x2 * a)
               + (p3 + x3 * a) * (p3 + x3 * a)) in *.
    set (fc := (p1 + x1 * c) * (p1 + x1 * c) + (p2 + x2 * c) * (p2 + x2 * c)
               + (p3 + x3 * c) * (p3 + x3 * c)) in *.
    assert (Hid :
      (c - a) * ((p1 + x1 * m) * (p1 + x1 * m) + (p2 + x2 * m) * (p2 + x2 * m)
                 + (p3 + x3 * m) * (p3 + x3 * m))
      = (c - m) * fa + (m - a) * fc
        - (m - a) * (c - m) * (c - a) * (x1 * x1 + x2 * x2 + x3 * x3))
      by (unfold fa, fc; ring).
    rewrite Hid.
    assert (H1 : (c - m) * fa <= (c - m) * K)
      by (apply Rmult_le_compat_l; lra).
    assert (H2 : (m - a) * fc <= (m - a) * K)
      by (apply Rmult_le_compat_l; lra).
    assert (H3 : 0 <= (m - a) * (c - m) * (c - a)
                      * (x1 * x1 + x2 * x2 + x3 * x3)).
    { apply Rmult_le_pos; [apply Rmult_le_pos; [apply Rmult_le_pos|]|]; try lra.
      pose proof (Rle_0_sqr x1). pose proof (Rle_0_sqr x2).
      pose proof (Rle_0_sqr x3). unfold Rsqr in *. lra. }
    lra.
Qed.

#[local] Close Scope R_scope.

Section Column.
Variables (b0 b1 b2 : Vector) (kCutoffSq : double).

Abbreviation keptk := (kept b0 b1 b2 kCutoffSq).

Lemma kept_le (k : IntVector) :
  keptk k = true <-> (ksqOf b0 b1 b2 k <= kCutoffSq)%R.
Proof.
  unfold kept, Rleb. destruct (Rle_dec _ _); split; auto; discriminate.
Qed.

(** Along a column of fixed [k0], [k1] the kept values of [k2] have no
    gap. *)
Lemma kept_between (k0 k1 a m c : Z) :
  a <= m <= c ->
  keptk (mkIntVector k0 k1 a) = true ->
  keptk (mkIntVector k0 k1 c) = true ->
  keptk (mkIntVector k0 k1 m) = true.
Proof.
  intros [Ham Hmc]. rewrite !kept_le.
  unfold ksqOf, vsquare, vdot, kdotb, vadd, vscale. simpl.
  intros Ha Hc.
  apply (quadratic_between
           (vx b0 * IZR k0 + vx b1 * IZR k1)%R
           (vy b0 * IZR k0 + vy b1 * IZR k1)%R
           (vz b0 * IZR k0 + vz b1 * IZR k1)%R
           (vx b2) (vy b2) (vz b2) (IZR a) (IZR m) (IZR c)).
  - split; apply IZR_le; assumption.
  - exact Ha.
  - exact Hc.
Qed.

Lemma chain_app (l1 l2 : list IntVector) :
  chain l1 -> chain l2 ->
  (forall x y, In x l1 -> In y l2 -> follows x y) ->
  chain (l1 ++ l2).
Proof.
  induction l1 as [|w l1 IH]; intros H1 H2 Hx; simpl; [exact H2|].
  destruct H1 as [Hhead Htail]. split.
  - destruct l1 as [|w' l1']; simpl.
    + destruct l2 as [|y l2']; [exact I|]. apply Hx; simpl; auto.
    + exact Hhead.
  - apply IH; [exact Htail|exact H2|]. intros x y Hin. apply Hx. simpl. auto.
Qed.

Lemma filter_none {A : Type} (f : A -> bool) (l : list A) :
  (forall x, In x l -> f x = false) -> List.filter f l = [].
Proof.
  induction l as [|a l IH]; intros H; simpl; [reflexivity|].
  rewrite (H a) by (simpl; auto). apply IH. intros x Hin. apply H. simpl. auto.
Qed.

(** The kept triples of one column follow each other without a gap. *)
Lemma chain_column (k0 k1 : Z) (n : nat) (j : Z) :
  chain (List.filter keptk (map (mkIntVector k0 k1) (Zlist n j))).
Proof.
  revert j. induction n as [|n IH]; intros j; simpl; [exact I|].
  destruct (keptk (mkIntVector k0 k1 j)) eqn:Hj; [|apply IH].
  simpl. split; [|apply IH].
  destruct n as [|n]; simpl; [exact I|].
  destruct (keptk (mkIntVector k0 k1 (j + 1))) eqn:Hj1.
  - right. right. simpl. auto.
  - rewrite filter_none; [exact I|].
    intros x Hin. apply in_map_iff in Hin. destruct Hin as (m & <- & Hm).
    apply In_Zlist in Hm.
    destruct (keptk (mkIntVector k0 k1 m)) eqn:Hkm; [|reflexivity].
    rewrite (kept_between k0 k1 j (j + 1) m) in Hj1; [discriminate|lia|exact Hj|exact Hkm].
Qed.

Lemma chain_columns (maxK : IntVector) (k0 : Z) (n : nat) (j : Z) :
  chain (List.filter keptk (flat_map (enum2 maxK k0) (Zlist n j))).
Proof.
  revert j. induction n as [|n IH]; intros j; simpl; [exact I|].
  rewrite List.filter_app. apply chain_app.
  - apply chain_column.
  - apply IH.
  - intros x y Hx Hy. apply List.filter_In in Hx, Hy.
    destruct Hx as [Hx _]. destruct Hy as [Hy _].
    apply In_enum2 in Hx. destruct Hx as (Hx0 & Hx1 & _).
    apply in_flat_map in Hy. destruct Hy as (k1 & Hk1 & Hy).
    apply In_Zlist in Hk1. apply In_enum2 in Hy. destruct Hy as (Hy0 & Hy1 & _).
    right. left. lia.
Qed.

Lemma chain_planes (maxK : IntVector) (n : nat) (j : Z) :
  chain (List.filter keptk (flat_map (enum1 maxK) (Zlist n j))).
Proof.
  revert j. induction n as [|n IH]; intros j; simpl; [exact I|].
  rewrite List.filter_app. apply chain_app.
  - apply chain_columns.
  - apply IH.
  - intros x y Hx Hy. apply List.filter_In in Hx, Hy.
    destruct Hx as [Hx _]. destruct Hy as [Hy _].
    apply In_enum1 in Hx. destruct Hx as (Hx0 & _).
    apply in_flat_map in Hy. destruct Hy as (k0 & Hk0 & Hy).
    apply In_Zlist in Hk0. apply In_enum1 in Hy. destruct Hy as (Hy0 & _).
    left. lia.
Qed.

(** The kept waves, in the order the loops store them, form a chain. *)
Lemma chain_kept (maxK : IntVector) : chain (List.filter keptk (enum0 maxK)).
Proof. apply chain_planes. Qed.

End Column.

End ConvexFacts.

(** ** makeWaves: the second pass *)

Module RangeFacts.
Import Space LoopFacts WaveSet FineEwaldCoulombPotential.

Lemma countItems_snoc (pre : list Pair) (x : Pair) (c : Z) :
  countItems (GArray.mk (pre ++ [x]) c) = countItems (GArray.mk pre c) + span x.
Proof. unfold countItems. simpl. rewrite fold_left_app. reflexivity. Qed.

Lemma countItems_capacity (l : list Pair) (c c' : Z) :
  countItems (GArray.mk l c) = countItems (GArray.mk l c').
Proof. reflexivity. Qed.

(** [a.append(p); r += 1; a[r][0] = v; a[r][1] = v;] when [r] is the last
    index of [a]. *)
Lemma push_range {B : Type} (a : GArray.t Pair) (r : Z) (p : Pair) (v : Z)
    (rest : GArray.t Pair -> result B) :
  r = GArray.size a - 1 ->
  (do a1 <- GArray.modify (GArray.append p a) (r + 1) (setLower v) ;;
   do a2 <- GArray.modify a1 (r + 1) (setUpper v) ;;
   rest a2)
  = rest (GArray.mk (GArray.data a ++ [(v, v)])
                    (GArray.capacity (GArray.append p a))).
Proof.
  intros Hr. unfold GArray.size in Hr.
  replace (r + 1) with (Z.of_nat (length (GArray.data a))) by lia.
  unfold GArray.append at 1 2.
  rewrite GArrayFacts.modify_last. simpl.
  rewrite GArrayFacts.modify_last. reflexivity.
Qed.

Lemma rangeStep_first (p1 p2 : Pair) (k : IntVector) (rg1 rg2 : GArray.t Pair) :
  GArray.data rg1 = [] -> GArray.data rg2 = [] -> 0 <= ix k ->
  exists s',
    rangeStep p1 p2 k (mkRanges (0, -1) rg1 rg2 (-1) (-1)) = Ok s' /\
    after k 1 s'.
Proof.
  intros H1 H2 Hk. unfold rangeStep. simpl.
  replace (-1 <? ix k) with true by (symmetry; apply Z.ltb_lt; lia).
  rewrite (push_range rg1 (-1) p1 (iy k))
    by (unfold GArray.size; rewrite H1; reflexivity).
  simpl.
  rewrite (push_range rg2 (-1) p2 (iz k))
    by (unfold GArray.size; rewrite H2; reflexivity).
  simpl. eexists. split; [reflexivity|].
  rewrite H1, H2. simpl.
  exists [], (iy k), (GArray.capacity (GArray.append p1 rg1)),
         [], (iz k), (GArray.capacity (GArray.append p2 rg2)).
  simpl. repeat split. unfold countItems, span. simpl. lia.
Qed.

Lemma rangeStep_next (p1 p2 : Pair) (last k : IntVector) (n : Z) (s : Ranges) :
  after last n s -> follows last k ->
  exists s', rangeStep p1 p2 k s = Ok s' /\ after k (n + 1) s'.
Proof.
  intros (pre1 & lo1 & c1 & pre2 & lo2 & c2 & E1 & R1 & E2 & R2 & E0 & Hn) Hf.
  destruct s as [rg0 rg1 rg2 q1 q2]. simpl in *. subst rg1 rg2 q1 q2.
  unfold rangeStep. simpl. rewrite E0.
  unfold countItems in Hn. simpl in Hn. rewrite fold_left_app in Hn. simpl in Hn.
  destruct (Z.ltb_spec (ix last) (ix k)) as [Hlt|Hge].
  - (* a larger first index *)
    rewrite (push_range _ _ p1 (iy k))
      by (unfold GArray.size; simpl; rewrite length_app; simpl; lia).
    rewrite (push_range _ _ p2 (iz k))
      by (unfold GArray.size; simpl; rewrite length_app; simpl; lia).
    eexists. split; [reflexivity|].
    eexists (pre1 ++ [(lo1, iy last)]), (iy k), _,
            (pre2 ++ [(lo2, iz last)]), (iz k), _.
    simpl. unfold countItems. simpl. rewrite !length_app, !fold_left_app.
    simpl. repeat split; try reflexivity; lia.
  - assert (Hx : ix last = ix k) by (destruct Hf as [Hf|[Hf|Hf]]; lia).
    rewrite GArrayFacts.get_last. simpl.
    destruct (Z.ltb_spec (iy last) (iy k)) as [Hlt1|Hge1].
    + (* the same first index, a larger second index *)
      rewrite GArrayFacts.modify_last. simpl.
      rewrite (push_range _ _ p2 (iz k))
        by (unfold GArray.size; simpl; rewrite length_app; simpl; lia).
      eexists. split; [reflexivity|].
      eexists pre1, lo1, _, (pre2 ++ [(lo2, iz last)]), (iz k), _.
      simpl. unfold countItems. simpl. rewrite !length_app, !fold_left_app.
      simpl. repeat split; try reflexivity; lia.
    + (* the same column *)
      assert (Hy : iy last = iy k /\ iz k = iz last + 1)
        by (destruct Hf as [Hf|[Hf|Hf]]; lia).
      rewrite GArrayFacts.modify_last. simpl.
      eexists. split; [reflexivity|].
      eexists pre1, lo1, _, pre2, lo2, _.
      simpl. unfold countItems, setUpper. simpl. rewrite !fold_left_app.
      simpl. destruct Hy as [Hy Hz]. rewrite Hy.
      repeat split; try reflexivity; try lia.
      rewrite <- Hn, Hz. unfold Pair. ring.
Qed.

Lemma foldM_rangeStep_chain (p1 p2 : Pair) (ws : list IntVector)
    (last : IntVector) (n : Z) (s : Ranges) :
  after last n s -> chain (last :: ws) ->
  exists s',
    foldM (rangeStep p1 p2) ws s = Ok s' /\
    countItems (range2 s') = n + Z.of_nat (length ws).
Proof.
  revert last n s. induction ws as [|w ws IH]; intros last n s Hs Hc.
  - exists s. split; [reflexivity|].
    destruct Hs as (? & ? & ? & ? & ? & ? & _ & _ & _ & _ & _ & Hn).
    simpl. lia.
  - destruct Hc as [Hf Hc].
    destruct (rangeStep_next p1 p2 last w n s Hs Hf) as (s1 & Hstep & Hs1).
    destruct (IH w (n + 1) s1 Hs1 Hc) as (s' & Hrun & Hcount).
    exists s'. split.
    + simpl. rewrite Hstep. simpl. exact Hrun.
    + rewrite Hcount. simpl length. lia.
Qed.

(** On a chain of waves with non-negative first index, started from empty
    range arrays, the second pass succeeds and the ranges of [range2_]
    cover as many items as there are waves. *)
Lemma findRanges_counts (maxK : IntVector) (ws : list IntVector)
    (rg1 rg2 : GArray.t Pair) :
  GArray.data rg1 = [] -> GArray.data rg2 = [] ->
  chain ws -> (forall w, In w ws -> 0 <= ix w) ->
  exists rs,
    findRanges maxK ws rg1 rg2 = Ok rs /\
    countItems (range2 rs) = Z.of_nat (length ws).
Proof.
  intros H1 H2 Hc Hpos. unfold findRanges. destruct ws as [|w ws].
  - eexists. split; [reflexivity|]. simpl. unfold countItems. simpl.
    rewrite H2. reflexivity.
  - destruct (rangeStep_first (iy maxK, - iy maxK) (iz maxK, - iz maxK) w rg1 rg2
                H1 H2) as (s1 & Hstep & Hs1); [apply Hpos; simpl; auto|].
    destruct (foldM_rangeStep_chain (iy maxK, - iy maxK) (iz maxK, - iz maxK)
                ws w 1 s1 Hs1 Hc) as (s' & Hrun & Hcount).
    exists s'. split.
    + simpl. rewrite Hstep. simpl. exact Hrun.
    + rewrite Hcount. simpl length. lia.
Qed.

End RangeFacts.

(** ** makeWaves *)

Module MakeWavesFacts.
Import Space LoopFacts WaveSet FineEwaldCoulombPotential.
Import AccumulateFacts ConvexFacts RangeFacts.

Lemma prepareArrays_data (maxK : IntVector) (st : t) :
  emptyWithoutStorage st ->
  GArray.data (waves_ (prepareArrays maxK st)) = [] /\
  GArray.data (ksq_ (prepareArrays maxK st)) = [] /\
  GArray.data (g_ (prepareArrays maxK st)) = [] /\
  GArray.data (range1_ (prepareArrays maxK st)) = [] /\
  GArray.data (range2_ (prepareArrays maxK st)) = [].
Proof.
  intros Hst. unfold prepareArrays.
  destruct (Z.eqb_spec (GArray.capacity (waves_ st)) 0) as [Hc|Hc].
  - destruct (Hst Hc) as (H1 & H2 & H3 & H4 & H5). simpl.
    unfold GArray.reserve.
    repeat match goal with |- context [if ?b then _ else _] => destruct b end;
      simpl; auto.
  - simpl. auto.
Qed.

Lemma prepareArrays_parameters (maxK : IntVector) (st : t) :
  alpha_ (prepareArrays maxK st) = alpha_ st /\
  epsilon_ (prepareArrays maxK st) = epsilon_ st /\
  kCutoff_ (prepareArrays maxK st) = kCutoff_ st /\
  boundary (prepareArrays maxK st) = boundary st /\
  atomTypes (prepareArrays maxK st) = atomTypes st.
Proof.
  unfold prepareArrays. destruct (GArray.capacity (waves_ st) =? 0); simpl; auto.
Qed.

(** The arithmetic behind the stored weight. *)
Lemma prefactor_weight (alpha ksq : double) :
  (exp (-0.25 / alpha / alpha * ksq) / ksq)%R = weight alpha ksq.
Proof.
  unfold weight. f_equal. f_equal.
  unfold Rdiv. rewrite !Rinv_mult.
  replace (-0.25)%R with (- (0.25))%R by lra.
  assert (H : (0.25 = / 4)%R) by lra. rewrite H. ring.
Qed.

Section Call.
Variable st : t.

Abbreviation b0 := (reciprocalBasisVector (boundary st) 0).
Abbreviation b1 := (reciprocalBasisVector (boundary st) 1).
Abbreviation b2 := (reciprocalBasisVector (boundary st) 2).
Abbreviation kCutoffSq := (kCutoff_ st * kCutoff_ st)%R.
Abbreviation keptWaves :=
  (List.filter (kept b0 b1 b2 kCutoffSq) (enum0 (maxKs st))).

(** What makeWaves has built when it reaches the bound check. *)
Lemma wavesAndRanges_ok :
  emptyWithoutStorage st ->
  exists st1 a rs,
    wavesAndRanges st = Ok (st1, a, rs) /\
    st1 = prepareArrays (maxKs st) st /\
    GArray.data (waves a) = keptWaves /\
    GArray.data (ksqs a) = map (ksqOf b0 b1 b2) keptWaves /\
    GArray.data (gs a)
    = map (fun k => weight (alpha_ st) (ksqOf b0 b1 b2 k)) keptWaves /\
    countItems (range2 rs) = GArray.size (waves a).
Proof.
  intros Hst.
  destruct (prepareArrays_data (maxKs st) st Hst) as (D1 & D2 & D3 & D4 & D5).
  unfold wavesAndRanges.
  rewrite accumulateWaves_visits.
  set (a0 := mkAcc _ _ _ _ _ _ _ _).
  set (a := visit b0 b1 b2 kCutoffSq (-0.25 / alpha_ st / alpha_ st)%R
              (enum0 (maxKs st)) a0).
  assert (Hw : GArray.data (waves a) = keptWaves).
  { unfold a. rewrite visit_waves. unfold a0. simpl. rewrite D1. reflexivity. }
  destruct (findRanges_counts (maxKs st) (GArray.data (waves a))
              (range1_ (prepareArrays (maxKs st) st))
              (range2_ (prepareArrays (maxKs st) st)) D4 D5)
    as (rs & Hrs & Hcount).
  { rewrite Hw. apply chain_kept. }
  { rewrite Hw. intros w Hin. apply List.filter_In in Hin.
    destruct Hin as [Hin _]. apply In_enum0 in Hin.
    destruct Hin as [_ (H0 & _)]. exact H0. }
  rewrite Hrs. simpl.
  exists (prepareArrays (maxKs st) st), a, rs.
  split; [reflexivity|]. split; [reflexivity|]. split; [exact Hw|].
  split; [|split].
  - unfold a. rewrite visit_ksqs. unfold a0. simpl. rewrite D2. reflexivity.
  - unfold a. rewrite visit_gs. unfold a0. simpl. rewrite D3. simpl.
    apply map_ext. intros k. apply prefactor_weight.
  - rewrite Hcount. reflexivity.
Qed.

End Call.

Lemma initial_emptyWithoutStorage (alpha epsilon kCutoff : double)
    (b : Boundary) (types : list AtomType) :
  emptyWithoutStorage (initial alpha epsilon kCutoff b types).
Proof. intros _. simpl. auto. Qed.

(** makeWaves returns on every object whose arrays are empty as long as
    [waves_] has no storage. *)
Lemma bound_check_total (st : t) :
  emptyWithoutStorage st -> exists st', makeWaves st = Ok st'.
Proof.
  intros Hst.
  destruct (wavesAndRanges_ok st Hst)
    as (st1 & a & rs & Hrun & _ & _ & _ & _ & Hcount).
  unfold makeWaves. rewrite Hrun. simpl.
  rewrite Hcount, Z.eqb_refl. simpl. eexists. reflexivity.
Qed.

(** The cubic solver: [maxK] is (1, 1, 1). *)
Lemma ceil_one : ceil 1 = 1.
Proof.
  assert (H : Int_part (Ropp 1) = -1)
    by (symmetry; apply Int_part_spec; simpl; lra).
  unfold ceil. rewrite H. reflexivity.
Qed.

Lemma maxKs_cubicSolver : maxKs cubicSolver = mkIntVector 1 1 1.
Proof.
  assert (Hpi : (0 < PI)%R) by apply PI_RGT_0.
  assert (Hsqrt : sqrt ((2 * PI) * (2 * PI)) = (2 * PI)%R)
    by (apply sqrt_square; lra).
  assert (Htwo : (2.0 = 2)%R) by lra.
  assert (Hone : (1 * (2 * PI) / (2.0 * PI))%R = 1%R)
    by (rewrite Htwo; field; lra).
  unfold maxKs, maxKof, vabs, vsquare, vdot. simpl.
  repeat match goal with
         | |- context [sqrt ?x] =>
             replace x with ((2 * PI) * (2 * PI))%R by ring; rewrite Hsqrt
         end.
  rewrite Hone, ceil_one. reflexivity.
Qed.

Lemma visit_ext (b0 b1 b2 : Vector) (kCutoffSq prefactor : double)
    (f : IntVector -> bool) (ks : list IntVector) (a : Acc) :
  (forall k, kept b0 b1 b2 kCutoffSq k = f k) ->
  visit b0 b1 b2 kCutoffSq prefactor ks a
  = fold_left
      (fun a k => if f k then keepWave prefactor k (ksqOf b0 b1 b2 k) a else a)
      ks a.
Proof.
  intros H. unfold visit. revert a.
  induction ks as [|k ks IH]; intros a; simpl; [reflexivity|].
  rewrite H. apply IH.
Qed.

(** makeWaves on the cubic solver: the waves (0,0,1), (0,1,0), (1,0,0) with
    their ranges and bounds, in arrays of the reserved capacities. *)
Lemma makeWaves_cubicSolver : makeWaves cubicSolver = Ok cubicWaves.
Proof.
  assert (Hksq : forall x y z : Z,
            ksqOf (unitVector 0) (unitVector 1) (unitVector 2)
                  (mkIntVector x y z)
            = IZR (x * x + y * y + z * z)).
  { intros x y z.
    unfold ksqOf, kdotb, vsquare, vdot, vadd, vscale. simpl.
    rewrite !plus_IZR, !mult_IZR. ring. }
  assert (Hkept : forall k,
            kept (unitVector 0) (unitVector 1) (unitVector 2) (1 * 1) k
            = (ix k * ix k + iy k * iy k + iz k * iz k <=? 1)).
  { intros [x y z]. unfold kept. rewrite Hksq. simpl. unfold Rleb.
    destruct (Rle_dec _ _) as [H|H].
    - symmetry. apply Z.leb_le. apply le_IZR. lra.
    - symmetry. apply Z.leb_gt. apply lt_IZR. lra. }
  unfold makeWaves, wavesAndRanges.
  rewrite accumulateWaves_visits, maxKs_cubicSolver.
  rewrite (visit_ext _ _ _ _ _ _ _ _ Hkept).
  simpl. rewrite !prefactor_weight, !Hksq.
  unfold cubicWaves. f_equal.
Qed.

(** C8. When makeWaves reaches the bound check it throws the "Wave bounds
    incompatible" exception exactly when the sum of the sizes of the
    [range2_] intervals differs from the number of waves.  On an object
    whose arrays are empty as long as [waves_] has no storage the two
    numbers are equal, so the call returns and the exception is never
    thrown. *)
Theorem bound_check_never_fails (st : t) :
  (forall st1 a rs,
     wavesAndRanges st = Ok (st1, a, rs) ->
     (makeWaves st = Fail (Thrown boundsMessage) <->
      countItems (range2 rs) <> GArray.size (waves a))) /\
  (emptyWithoutStorage st ->
   exists st1 a rs st',
     wavesAndRanges st = Ok (st1, a, rs) /\
     countItems (range2 rs) = GArray.size (waves a) /\
     makeWaves st = Ok st').
Proof.
  split.
  - intros st1 a rs Hrun. unfold makeWaves. rewrite Hrun. simpl.
    destruct (Z.eqb_spec (countItems (range2 rs)) (GArray.size (waves a)))
      as [Heq|Hne]; simpl.
    + split; [discriminate|]. intros Hne. contradiction.
    + split; [intros _; exact Hne|reflexivity].
  - intros Hst.
    destruct (wavesAndRanges_ok st Hst)
      as (st1 & a & rs & Hrun & _ & _ & _ & _ & Hcount).
    exists st1, a, rs. unfold makeWaves. rewrite Hrun. simpl.
    rewrite Hcount, Z.eqb_refl. simpl.
    eexists. split; [reflexivity|]. split; reflexivity.
Qed.

Lemma bound_check_never_fails_witness :
  emptyWithoutStorage cubicSolver /\
  exists st1 a rs st',
    wavesAndRanges cubicSolver = Ok (st1, a, rs) /\
    countItems (range2 rs) = GArray.size (waves a) /\
    makeWaves cubicSolver = Ok st'.
Proof.
  split; [apply initial_emptyWithoutStorage|].
  apply (proj2 (bound_check_never_fails cubicSolver)).
  apply initial_emptyWithoutStorage.
Defined.

End MakeWavesFacts.

(** ** makeWaves: the first pass in double arithmetic *)

Module DoubleWavesFacts.
Import Space LoopFacts WaveSet AccumulateFacts.
Import PrimFloat Binary64 DoubleWaves.

Section Loops.
Variable exp : float -> float.
Variables (b0 b1 b2 : Vector) (kCutoffSq prefactor : float) (maxK : IntVector).

Abbreviation ksq := (ksqAt b0 b1 b2 maxK).
Abbreviation keptD := (DoubleWaves.kept b0 b1 b2 kCutoffSq maxK).
Abbreviation visitD := (DoubleWaves.visit exp b0 b1 b2 kCutoffSq prefactor maxK).

Lemma visitD_app (ks1 ks2 : list IntVector) (a : Acc) :
  visitD (ks1 ++ ks2) a = visitD ks2 (visitD ks1 a).
Proof. unfold DoubleWaves.visit. apply fold_left_app. Qed.

Lemma addTimes_next (lo j : Z) (b q : Vector) :
  lo <= j ->
  vadd (addTimes (Z.to_nat (j - 1 - lo + 1)) b q) b
  = addTimes (Z.to_nat (j - lo + 1)) b q.
Proof.
  intros H. replace (Z.to_nat (j - lo + 1)) with (S (Z.to_nat (j - 1 - lo + 1)))
    by lia.
  reflexivity.
Qed.

Lemma addTimes_start (lo : Z) (b q : Vector) :
  q = addTimes (Z.to_nat (lo - 1 - lo + 1)) b q.
Proof. replace (lo - 1 - lo + 1) with 0 by lia. reflexivity. Qed.

Lemma loop2_tests (k0 k1 : Z) (n : nat) (j : Z) (q : Vector) (a : Acc) :
  mink2 maxK k0 k1 <= j ->
  q = addTimes (Z.to_nat (j - 1 - mink2 maxK k0 k1 + 1)) b2
        (vadd (vscale b2 (ofInt (mink2 maxK k0 k1 - 1))) (q1At b0 b1 maxK k0 k1)) ->
  snd (fold_left (fun s i => loop2Body exp b2 kCutoffSq prefactor k0 k1 i s)
                 (Zlist n j) (q, a))
  = visitD (map (mkIntVector k0 k1) (Zlist n j)) a.
Proof.
  revert j q a. induction n as [|n IH]; intros j q a Hj Hq; simpl; [reflexivity|].
  unfold loop2Body at 2. simpl. rewrite Hq, addTimes_next by exact Hj.
  rewrite IH; [reflexivity|lia|].
  replace (j + 1 - 1) with j by lia. reflexivity.
Qed.

Lemma loop1Body_tests (k0 k1 : Z) (q1 : Vector) (a : Acc) :
  mink1 maxK k0 <= k1 ->
  q1 = q1At b0 b1 maxK k0 (k1 - 1) ->
  loop1Body exp b1 b2 kCutoffSq prefactor maxK k0 k1 (q1, a)
  = (q1At b0 b1 maxK k0 k1, visitD (enum2 maxK k0 k1) a).
Proof.
  intros Hk Hq. unfold loop1Body. simpl.
  assert (Hnext : vadd q1 b1 = q1At b0 b1 maxK k0 k1).
  { rewrite Hq. unfold q1At. apply addTimes_next. exact Hk. }
  rewrite Hnext. f_equal.
  rewrite for_Z_fold. unfold Zrange, enum2, Zrange.
  apply loop2_tests; [unfold mink2; lia|]. apply addTimes_start.
Qed.

Lemma loop1_tests (k0 : Z) (n : nat) (j : Z) (q1 : Vector) (a : Acc) :
  mink1 maxK k0 <= j ->
  q1 = q1At b0 b1 maxK k0 (j - 1) ->
  snd (fold_left (fun s i => loop1Body exp b1 b2 kCutoffSq prefactor maxK k0 i s)
                 (Zlist n j) (q1, a))
  = visitD (flat_map (enum2 maxK k0) (Zlist n j)) a.
Proof.
  revert j q1 a. induction n as [|n IH]; intros j q1 a Hj Hq; simpl; [reflexivity|].
  rewrite (loop1Body_tests k0 j q1 a Hj Hq).
  rewrite IH; [|lia|replace (j + 1 - 1) with j by lia; reflexivity].
  rewrite visitD_app. reflexivity.
Qed.

Lemma loop0Body_tests (k0 : Z) (q0 : Vector) (a : Acc) :
  0 <= k0 ->
  q0 = q0At b0 (k0 - 1) ->
  loop0Body exp b0 b1 b2 kCutoffSq prefactor maxK k0 (q0, a)
  = (q0At b0 k0, visitD (enum1 maxK k0) a).
Proof.
  intros Hk Hq. unfold loop0Body. simpl.
  assert (Hnext : vadd q0 b0 = q0At b0 k0).
  { rewrite Hq. unfold q0At.
    replace (Z.to_nat (k0 + 1)) with (S (Z.to_nat (k0 - 1 + 1))) by lia.
    reflexivity. }
  rewrite Hnext. f_equal.
  rewrite for_Z_fold. unfold enum1, Zrange.
  apply loop1_tests; [unfold mink1; lia|].
  unfold q1At. apply addTimes_start.
Qed.

Lemma loop0_tests (n : nat) (j : Z) (q0 : Vector) (a : Acc) :
  0 <= j ->
  q0 = q0At b0 (j - 1) ->
  snd (fold_left (fun s i => loop0Body exp b0 b1 b2 kCutoffSq prefactor maxK i s)
                 (Zlist n j) (q0, a))
  = visitD (flat_map (enum1 maxK) (Zlist n j)) a.
Proof.
  revert j q0 a. induction n as [|n IH]; intros j q0 a Hj Hq; simpl; [reflexivity|].
  rewrite (loop0Body_tests j q0 a Hj Hq).
  rewrite IH; [|lia|replace (j + 1 - 1) with j by lia; reflexivity].
  rewrite visitD_app. reflexivity.
Qed.

(** The three nested loops visit the triples of [enum0] in order and keep
    those whose computed [ksq] passes the test. *)
Lemma accumulateWaves_tests (a : Acc) :
  accumulateWaves exp b0 b1 b2 kCutoffSq prefactor maxK a
  = visitD (enum0 maxK) a.
Proof.
  unfold accumulateWaves. rewrite for_Z_fold. unfold enum0, Zrange.
  apply loop0_tests; [lia|]. reflexivity.
Qed.

Lemma visitD_waves (ks : list IntVector) (a : Acc) :
  GArray.data (waves (visitD ks a)) = GArray.data (waves a) ++ List.filter keptD ks.
Proof.
  revert a. induction ks as [|k ks IH]; intros a.
  - simpl. rewrite app_nil_r. reflexivity.
  - change (visitD (k :: ks) a)
      with (visitD ks (if keptD k
                       then keepWave exp prefactor k (ksq k) a else a)).
    rewrite IH. simpl. destruct (keptD k) eqn:Hk.
    + simpl. rewrite <- app_assoc. reflexivity.
    + reflexivity.
Qed.

Lemma visitD_ksqs (ks : list IntVector) (a : Acc) :
  GArray.data (ksqs (visitD ks a))
  = GArray.data (ksqs a) ++ map ksq (List.filter keptD ks).
Proof.
  revert a. induction ks as [|k ks IH]; intros a.
  - simpl. rewrite app_nil_r. reflexivity.
  - change (visitD (k :: ks) a)
      with (visitD ks (if keptD k
                       then keepWave exp prefactor k (ksq k) a else a)).
    rewrite IH. simpl. destruct (keptD k) eqn:Hk.
    + simpl. rewrite <- app_assoc. reflexivity.
    + reflexivity.
Qed.

Lemma visitD_gs (ks : list IntVector) (a : Acc) :
  GArray.data (gs (visitD ks a))
  = GArray.data (gs a)
    ++ map (fun k => weightAt exp prefactor (ksq k)) (List.filter keptD ks).
Proof.
  revert a. induction ks as [|k ks IH]; intros a.
  - simpl. rewrite app_nil_r. reflexivity.
  - change (visitD (k :: ks) a)
      with (visitD ks (if keptD k
                       then keepWave exp prefactor k (ksq k) a else a)).
    rewrite IH. simpl. destruct (keptD k) eqn:Hk.
    + simpl. rewrite <- app_assoc. reflexivity.
    + reflexivity.
Qed.

End Loops.

(** C2, as the program computes it.  On wave arrays that the
    reserve-or-clear step has emptied, the loops of lines 116 to 161 store,
    in the order of the loops, the triples [k] of the index box that obey
    the half-space rule and whose computed [ksq] passes the test
    [ksq <= kCutoffSq], with [kCutoffSq = kCutoff_*kCutoff_]; with each
    wave they store the computed [ksq] and the weight [exp(prefactor*ksq)/ksq],
    with [prefactor = -0.25/alpha_/alpha_].  The computed [ksq] is the
    square, in double arithmetic, of the wavevector that the loops have
    accumulated by repeated additions of the reciprocal basis vectors when
    they reach [k].  So every stored wave obeys the half-space rule, lies in
    the box and passes the test, and a triple of the box is stored if and
    only if it obeys the rule and passes the test. *)
Theorem stored_waves_pass_the_computed_test (exp : float -> float)
    (alpha kCutoff : float) (b : Boundary)
    (w : GArray.t IntVector) (ks g : GArray.t float) :
  let a := firstPass exp alpha kCutoff b w ks g in
  let maxK := maxKs kCutoff b in
  let kCutoffSq := (kCutoff * kCutoff)%float in
  let prefactor := (-0.25 / alpha / alpha)%float in
  let ksq := ksqAt (reciprocalBasisVector b 0) (reciprocalBasisVector b 1)
               (reciprocalBasisVector b 2) maxK in
  let stored := GArray.data (waves a) in
  stored = List.filter (fun k => (ksq k <=? kCutoffSq)%float) (enum0 maxK) /\
  GArray.data (ksqs a) = map ksq stored /\
  GArray.data (gs a)
  = map (fun k => (exp (prefactor * ksq k) / ksq k)%float) stored /\
  (forall k, In k stored ->
     halfSpace k /\ inBox maxK k /\ (ksq k <=? kCutoffSq)%float = true) /\
  (forall k, inBox maxK k ->
     (In k stored <-> halfSpace k /\ (ksq k <=? kCutoffSq)%float = true)).
Proof.
  intros a maxK kCutoffSq prefactor ksq stored.
  assert (Hstored :
    stored = List.filter (fun k => (ksq k <=? kCutoffSq)%float) (enum0 maxK)).
  { subst stored a. unfold firstPass.
    rewrite accumulateWaves_tests, visitD_waves. reflexivity. }
  split; [exact Hstored|].
  split.
  { subst stored a. unfold firstPass.
    rewrite accumulateWaves_tests, visitD_waves, visitD_ksqs. reflexivity. }
  split.
  { subst stored a. unfold firstPass.
    rewrite accumulateWaves_tests, visitD_waves, visitD_gs. reflexivity. }
  rewrite Hstored. split.
  - intros k Hin. apply List.filter_In in Hin. destruct Hin as [Hin Hkept].
    apply In_enum0 in Hin. tauto.
  - intros k Hbox. rewrite List.filter_In, In_enum0. tauto.
Qed.

(** The cell with reciprocal basis vectors of length 0.3 and the cutoff
    0.9.  The index bound is 3 on every axis.  The triple (1, 2, 2) lies in
    the box, obeys the half-space rule and has [|k.b|^2 <= kCutoff_^2] on
    the exact values of the doubles; the program, whatever its [exp],
    stores 58 waves and (1, 2, 2) is not one of them. *)
Lemma wave_within_cutoff_is_not_stored :
  maxKs cutoff09 cell03 = mkIntVector 3 3 3 /\
  inBox (mkIntVector 3 3 3) (mkIntVector 1 2 2) /\
  halfSpace (mkIntVector 1 2 2) /\
  (exactKsq (reciprocalBasisVector cell03 0) (reciprocalBasisVector cell03 1)
     (reciprocalBasisVector cell03 2) (mkIntVector 1 2 2)
   <= toQ cutoff09 * toQ cutoff09)%Q /\
  forall (exp : float -> float) (alpha : float),
    let stored :=
      GArray.data
        (waves (firstPass exp alpha cutoff09 cell03
                  GArray.empty GArray.empty GArray.empty)) in
    ~ In (mkIntVector 1 2 2) stored /\ length stored = 58%nat.
Proof.
  assert (HmaxK : maxKs cutoff09 cell03 = mkIntVector 3 3 3)
    by (vm_compute; reflexivity).
  split; [exact HmaxK|].
  split; [unfold inBox; simpl; lia|]. split; [unfold halfSpace; simpl; lia|].
  split; [vm_compute; discriminate|].
  intros exp alpha.
  unfold firstPass. rewrite HmaxK.
  rewrite accumulateWaves_tests, visitD_waves.
  vm_compute. split; [|reflexivity].
  intros H. repeat (destruct H as [H|H]; [discriminate H|]). exact H.
Qed.

End DoubleWavesFacts.

(** ** computeKSpaceCharge and kspaceEnergy *)

Module EnergyFacts.
Import Space LoopFacts WaveSet FineEwaldCoulombPotential.

Lemma sumR_snoc (l : list double) (x : double) :
  sumR (l ++ [x]) = (sumR l + x)%R.
Proof.
  induction l as [|a l IH]; simpl.
  - ring.
  - rewrite IH. ring.
Qed.

Lemma sumR_nonneg (l : list double) :
  List.Forall (fun x => (0 <= x)%R) l -> (0 <= sumR l)%R.
Proof.
  induction 1 as [|x l Hx Hl IH]; simpl; [lra|lra].
Qed.

Lemma chargeOf_known (st : t) (atom : Atom) :
  knownType st atom -> exists q, chargeOf st atom = Ok q.
Proof.
  intros [Hlo Hhi]. unfold chargeOf.
  replace (0 <=? typeId atom) with true by (symmetry; apply Z.leb_le; lia).
  simpl.
  destruct (lookup_lt_is_Some_2 (atomTypes st) (Z.to_nat (typeId atom)))
    as [type Htype]; [lia|].
  rewrite Htype. eexists. reflexivity.
Qed.

Lemma addAtomCharge_ok (ws : GArray.t IntVector) (rg : Vector) (q : double)
    (rho : GArray.t DCMPLX) :
  (length (GArray.data ws) <= length (GArray.data rho))%nat ->
  exists rho',
    addAtomCharge ws rg q rho = Ok rho' /\
    length (GArray.data rho') = length (GArray.data rho).
Proof.
  intros Hlen. unfold addAtomCharge, for_ZM.
  edestruct (for_upM_invariant
               (fun (_ : Z) (r : GArray.t DCMPLX) =>
                  length (GArray.data r) = length (GArray.data rho)))
    as (rho' & Hrun & Hrho'); [| |exists rho'; split; [exact Hrun|exact Hrho']].
  - intros i r Hi Hr. unfold GArray.size in Hi.
    destruct (lookup_lt_is_Some_2 (GArray.data ws) (Z.to_nat i)) as [k Hk]; [lia|].
    destruct (lookup_lt_is_Some_2 (GArray.data r) (Z.to_nat i)) as [x Hx]; [lia|].
    rewrite (GArrayFacts.get_at ws _ k (proj1 Hi) Hk). simpl.
    rewrite (GArrayFacts.modify_at r _ x _ (proj1 Hi) Hx).
    eexists. split; [reflexivity|]. simpl. rewrite length_insert. exact Hr.
  - reflexivity.
Qed.

Lemma atomCharge_ok (st : t) (atom : Atom) (rho : GArray.t DCMPLX) :
  knownType st atom ->
  length (GArray.data rho) = length (GArray.data (waves_ st)) ->
  exists rho',
    atomCharge st atom rho = Ok rho' /\
    length (GArray.data rho') = length (GArray.data (waves_ st)).
Proof.
  intros Hknown Hlen. unfold atomCharge.
  destruct (chargeOf_known st atom Hknown) as [q Hq]. rewrite Hq. simpl.
  destruct (addAtomCharge_ok (waves_ st)
              (transformCartToGen (boundary st) (position atom)) q rho)
    as (rho' & Hrun & Hrho'); [lia|].
  exists rho'. split; [exact Hrun|]. lia.
Qed.

(** The charge transform returns when every atom has a known type and
    [rho_] has one entry for each wave; it only changes [rho_], and not its
    size. *)
Lemma computeKSpaceCharge_ok (st : t) (sys : System) :
  knownTypes st sys ->
  length (GArray.data (rho_ st)) = length (GArray.data (waves_ st)) ->
  exists rho,
    computeKSpaceCharge st sys = Ok (withRho st rho) /\
    length (GArray.data rho) = length (GArray.data (waves_ st)).
Proof.
  intros Hknown Hlen. unfold computeKSpaceCharge.
  set (P := fun r : GArray.t DCMPLX =>
              length (GArray.data r) = length (GArray.data (waves_ st))).
  destruct (foldM_invariant P (List.Forall (List.Forall (knownType st)))
              (foldM (foldM (atomCharge st))) sys (clearRho (rho_ st)))
    as (rho & Hrun & Hrho).
  - intros species r Hspecies Hr.
    apply (foldM_invariant P (List.Forall (knownType st))); [|exact Hspecies|exact Hr].
    intros molecule r' Hmolecule Hr'.
    apply (foldM_invariant P (knownType st)); [|exact Hmolecule|exact Hr'].
    intros atom r'' Hatom Hr''. apply atomCharge_ok; assumption.
  - exact Hknown.
  - unfold P, clearRho. simpl. rewrite length_map. exact Hlen.
  - exists rho. rewrite Hrun. split; [reflexivity|exact Hrho].
Qed.

(** The loop of kspaceEnergy adds up the terms of the k-space sum. *)
Lemma energySum_ok (st : t) :
  parallelArrays st ->
  energySum st
  = Ok (sumR (energyTerms (GArray.data (g_ st)) (GArray.data (rho_ st)))).
Proof.
  intros [Hg Hrho]. unfold energySum, for_ZM.
  set (terms := energyTerms (GArray.data (g_ st)) (GArray.data (rho_ st))).
  assert (Hterms : length terms = length (GArray.data (waves_ st))).
  { unfold terms, energyTerms. rewrite length_zip_with. lia. }
  edestruct (for_upM_invariant
               (fun (i : Z) (total : double) =>
                  total = sumR (take (Z.to_nat i) terms)))
    as (total & Hrun & Htotal); [| |rewrite Hrun].
  - intros i total Hi Htotal. unfold GArray.size in Hi.
    destruct (lookup_lt_is_Some_2 (GArray.data (rho_ st)) (Z.to_nat i))
      as [r Hr]; [lia|].
    destruct (lookup_lt_is_Some_2 (GArray.data (g_ st)) (Z.to_nat i))
      as [gi Hgi]; [lia|].
    rewrite (GArrayFacts.get_at _ _ r (proj1 Hi) Hr). simpl.
    rewrite (GArrayFacts.get_at _ _ gi (proj1 Hi) Hgi). simpl.
    eexists. split; [reflexivity|].
    replace (Z.to_nat (i + 1)) with (S (Z.to_nat i)) by lia.
    assert (Hterm : terms !! Z.to_nat i
                    = Some (gi * (real r * real r + imag r * imag r))%R).
    { unfold terms, energyTerms. rewrite lookup_zip_with, Hgi, Hr. reflexivity. }
    rewrite (take_S_r _ _ _ Hterm), sumR_snoc, Htotal. ring.
  - reflexivity.
  - f_equal. rewrite Htotal. unfold GArray.size.
    rewrite take_ge; [reflexivity|]. lia.
Qed.

End EnergyFacts.

Module KspaceEnergy.
Import Space LoopFacts WaveSet FineEwaldCoulombPotential EnergyFacts.

Lemma energyTerms_nonneg (gs : list double) (rhos : list DCMPLX) :
  List.Forall (fun g => (0 <= g)%R) gs ->
  List.Forall (fun x => (0 <= x)%R) (energyTerms gs rhos).
Proof.
  intros Hgs. revert rhos. induction Hgs as [|g gs Hg Hgs IH]; intros rhos.
  - constructor.
  - destruct rhos as [|r rhos]; [constructor|].
    unfold energyTerms. simpl. constructor; [|apply IH].
    apply Rmult_le_pos; [exact Hg|].
    pose proof (Rle_0_sqr (real r)). pose proof (Rle_0_sqr (imag r)).
    unfold Rsqr in *. lra.
Qed.

(** C1. When every atom has a known type and [g_] and [rho_] have one
    entry for each wave, kspaceEnergy returns [2 * total] with
    [total = (0.5 / (epsilon * V)) * sum of g(k) * (Re(rho(k))^2 +
    Im(rho(k))^2)] over the stored waves, where [rho] is the charge
    transform of the atoms.  The value equals [(1/(epsilon*V)) * sum], and
    it is not negative when [epsilon] and [V] are positive and no weight is
    negative. *)
Theorem kspaceEnergy_is_doubled_half_sum (st : t) (sys : System) :
  knownTypes st sys -> parallelArrays st ->
  exists rho,
    let sum := sumR (energyTerms (GArray.data (g_ st)) (GArray.data rho)) in
    let total := (0.5 / (epsilon_ st * volume (boundary st)) * sum)%R in
    computeKSpaceCharge st sys = Ok (withRho st rho) /\
    length (GArray.data rho) = length (GArray.data (waves_ st)) /\
    kspaceEnergy st sys = Ok ((2 * total)%R, withRho st rho) /\
    (2 * total)%R = (1 / (epsilon_ st * volume (boundary st)) * sum)%R /\
    ((0 < epsilon_ st)%R -> (0 < volume (boundary st))%R ->
     List.Forall (fun g => (0 <= g)%R) (GArray.data (g_ st)) ->
     (0 <= 2 * total)%R).
Proof.
  intros Hknown [Hg Hrho].
  destruct (computeKSpaceCharge_ok st sys Hknown Hrho) as (rho & Hrun & Hlen).
  exists rho. simpl. split; [exact Hrun|]. split; [exact Hlen|].
  split; [|split].
  - unfold kspaceEnergy. rewrite Hrun. simpl.
    rewrite energySum_ok by (split; simpl; lia). simpl.
    f_equal. f_equal. lra.
  - lra.
  - intros Heps Hvol Hweights.
    pose proof (sumR_nonneg _ (energyTerms_nonneg _ (GArray.data rho) Hweights))
      as Hsum.
    assert (Hev : (0 < epsilon_ st * volume (boundary st))%R)
      by (apply Rmult_lt_0_compat; assumption).
    assert (Hinv : (0 < / (epsilon_ st * volume (boundary st)))%R)
      by (apply Rinv_0_lt_compat; exact Hev).
    unfold Rdiv.
    apply Rmult_le_pos; [lra|].
    apply Rmult_le_pos; [|exact Hsum].
    apply Rmult_le_pos; lra.
Qed.

Lemma weight_nonneg (alpha ksq : double) :
  (0 <= ksq)%R -> (0 <= weight alpha ksq)%R.
Proof.
  intros Hksq. unfold weight, Rdiv.
  apply Rmult_le_pos; [left; apply exp_pos|].
  destruct Hksq as [Hpos|Hzero].
  - left. apply Rinv_0_lt_compat. exact Hpos.
  - rewrite <- Hzero, Rinv_0. lra.
Qed.

Lemma ksqOf_nonneg (b0 b1 b2 : Vector) (k : IntVector) :
  (0 <= ksqOf b0 b1 b2 k)%R.
Proof.
  unfold ksqOf, vsquare, vdot.
  pose proof (Rle_0_sqr (vx (kdotb b0 b1 b2 k))).
  pose proof (Rle_0_sqr (vy (kdotb b0 b1 b2 k))).
  pose proof (Rle_0_sqr (vz (kdotb b0 b1 b2 k))).
  unfold Rsqr in *. lra.
Qed.

(** makeWaves leaves what kspaceEnergy relies on: one weight and one
    Fourier mode for each wave, and no negative weight. *)
Lemma makeWaves_prepares_energy (st st' : t) :
  emptyWithoutStorage st -> makeWaves st = Ok st' ->
  parallelArrays st' /\
  List.Forall (fun g => (0 <= g)%R) (GArray.data (g_ st')).
Proof.
  intros Hst Hrun.
  destruct (MakeWavesFacts.wavesAndRanges_ok st Hst)
    as (st1 & a & rs & Hpre & Hst1 & Hw & Hk & Hg & Hcount).
  unfold makeWaves in Hrun. rewrite Hpre in Hrun. simpl in Hrun.
  rewrite Hcount, Z.eqb_refl in Hrun. simpl in Hrun.
  injection Hrun as <-. unfold parallelArrays. simpl. split; [split|].
  - rewrite Hg, Hw, length_map. reflexivity.
  - rewrite length_app, length_take, length_replicate.
    unfold GArray.size. lia.
  - rewrite Hg. apply List.Forall_forall. intros g Hin.
    apply in_map_iff in Hin. destruct Hin as (k & <- & _).
    apply weight_nonneg, ksqOf_nonneg.
Qed.

(** The energy of two unit charges in the cubic solver is not negative. *)
Lemma kspaceEnergy_is_doubled_half_sum_witness :
  knownTypes cubicWaves twoAtoms /\ parallelArrays cubicWaves /\
  exists energy st1,
    kspaceEnergy cubicWaves twoAtoms = Ok (energy, st1) /\
    (0 <= energy)%R.
Proof.
  assert (Hknown : knownTypes cubicWaves twoAtoms)
    by (repeat constructor; simpl; lia).
  assert (Hparallel : parallelArrays cubicWaves) by (split; reflexivity).
  split; [exact Hknown|]. split; [exact Hparallel|].
  destruct (kspaceEnergy_is_doubled_half_sum cubicWaves twoAtoms Hknown Hparallel)
    as (rho & _ & _ & Henergy & _ & Hsign).
  eexists. eexists. split; [exact Henergy|]. apply Hsign.
  - simpl. lra.
  - simpl. pose proof PI_RGT_0.
    assert (H2pi : (0 < 2 * PI)%R) by lra.
    apply Rmult_lt_0_compat; [apply Rmult_lt_0_compat|]; exact H2pi.
  - simpl. repeat (apply List.Forall_cons; [apply weight_nonneg; lra|]).
    apply List.Forall_nil.
Defined.

End KspaceEnergy.

(** ** addKSpaceForces *)

Module ForceFacts.
Import Space LoopFacts WaveSet FineEwaldCoulombPotential EnergyFacts.

Lemma Rgtb_true (x y : double) : Rgtb x y = true <-> (x > y)%R.
Proof. unfold Rgtb. destruct (Rgt_dec x y); split; auto; discriminate. Qed.

Lemma Rgtb_false (x y : double) : Rgtb x y = false <-> (x <= y)%R.
Proof.
  unfold Rgtb. destruct (Rgt_dec x y) as [H|H]; split; auto; try discriminate.
  - intros Hle. lra.
  - intros _. lra.
Qed.

Lemma tabulateAll_tablesOf (st s s' : t) (rg : Vector) :
  tablesOf st s -> tabulateAll s rg = Ok s' -> tablesOf st s'.
Proof.
  intros (f0 & f1 & f2 & ->) Hrun. unfold tabulateAll in Hrun.
  destruct (tabulate _ _ _) as [g0|]; simpl in Hrun; [|discriminate].
  destruct (tabulate _ _ _) as [g1|]; simpl in Hrun; [|discriminate].
  destruct (tabulate _ _ _) as [g2|]; simpl in Hrun; [|discriminate].
  injection Hrun as <-. exists g0, g1, g2. reflexivity.
Qed.

Lemma atomForce_forceUpdated (st s s' : t) (atom atom' : Atom) :
  tablesOf st s ->
  atomForce (reciprocalBasisVector (boundary st))
            (-2.0 / (epsilon_ st * volume (boundary st)))%R s atom
  = Ok (s', atom') ->
  tablesOf st s' /\ forceUpdated st atom atom'.
Proof.
  intros Hs Hrun. pose proof Hs as (f0 & f1 & f2 & Es).
  unfold atomForce in Hrun.
  assert (Hcharge : chargeOf s atom = chargeOf st atom) by (rewrite Es; reflexivity).
  rewrite Hcharge in Hrun.
  destruct (chargeOf st atom) as [q|] eqn:Hq; simpl in Hrun; [|discriminate].
  destruct (Rgtb (Rabs q) EPS) eqn:Hbig.
  - destruct (tabulateAll s _) as [s1|] eqn:Htab; simpl in Hrun; [|discriminate].
    destruct (generalizedForce s1) as [fg|] eqn:Hfg; simpl in Hrun; [|discriminate].
    injection Hrun as <- <-.
    split; [exact (tabulateAll_tablesOf st s s1 _ Hs Htab)|].
    unfold forceUpdated. simpl. split; [reflexivity|]. split; [reflexivity|].
    exists q. split; [exact Hq|]. split.
    + intros _. exists f0, f1, f2, s1, fg.
      rewrite Es in Htab. simpl in Htab.
      split; [exact Htab|]. split; [exact Hfg|].
      unfold addCartesian, vget. simpl.
      replace (-2.0)%R with (-2)%R by lra. reflexivity.
    + intros Hsmall. apply Rgtb_true in Hbig. lra.
  - injection Hrun as <- <-. split; [exact Hs|].
    unfold forceUpdated. split; [reflexivity|]. split; [reflexivity|].
    exists q. split; [exact Hq|]. split.
    + intros Hlarge. apply Rgtb_false in Hbig. lra.
    + intros _. reflexivity.
Qed.

(** The tables of an atom can be filled as soon as they have an entry. *)
Lemma tabulate_ok (rgj : double) (base : Z) (fexp : GArray.t DCMPLX) :
  (1 <= length (GArray.data fexp))%nat ->
  exists fexp',
    tabulate rgj base fexp = Ok fexp' /\
    length (GArray.data fexp') = length (GArray.data fexp).
Proof.
  intros Hlen. unfold tabulate.
  destruct (lookup_lt_is_Some_2 (GArray.data fexp) 0) as [x Hx]; [lia|].
  rewrite (GArrayFacts.modify_at fexp 0 x _ (Z.le_refl 0) Hx). simpl.
  unfold for_ZM.
  edestruct (for_upM_invariant
               (fun (_ : Z) (f : GArray.t DCMPLX) =>
                  length (GArray.data f) = length (GArray.data fexp)))
    as (f' & Hrun & Hf'); [| |exists f'; split; [exact Hrun|exact Hf']].
  - intros i f Hi Hf. unfold GArray.size in Hi. simpl in Hi.
    rewrite length_insert in Hi.
    destruct (lookup_lt_is_Some_2 (GArray.data f) (Z.to_nat (i - 1)))
      as [prev Hprev]; [lia|].
    destruct (lookup_lt_is_Some_2 (GArray.data f) (Z.to_nat i))
      as [old Hold]; [lia|].
    rewrite (GArrayFacts.get_at f _ prev) by (lia || exact Hprev). simpl.
    rewrite (GArrayFacts.modify_at f _ old) by (lia || exact Hold).
    eexists. split; [reflexivity|]. simpl. rewrite length_insert. exact Hf.
  - simpl. rewrite length_insert. reflexivity.
Qed.

(** C3. When addKSpaceForces returns, every atom keeps its position and
    type; for every atom whose charge magnitude exceeds 1e-10 the
    generalized force accumulated over the waves is scaled by
    [charge * (-2/(epsilon*V))], carried to Cartesian coordinates by the
    reciprocal basis vectors and added to the atom's force; every atom
    whose charge magnitude is at most 1e-10 keeps its force. *)
Theorem addKSpaceForces_scales_and_skips (st st' : t) (sys sys' : System) :
  addKSpaceForces st sys = Ok (st', sys') ->
  exists rho,
    computeKSpaceCharge st sys = Ok (withRho st rho) /\
    List.Forall2 (List.Forall2 (List.Forall2 (forceUpdated (withRho st rho))))
                 sys sys'.
Proof.
  intros Hrun. unfold addKSpaceForces in Hrun.
  destruct (computeKSpaceCharge st sys) as [st1|] eqn:Hcharge; simpl in Hrun;
    [|discriminate].
  assert (Hst1 : exists rho, st1 = withRho st rho).
  { unfold computeKSpaceCharge in Hcharge.
    destruct (foldM (foldM (foldM (atomCharge st))) sys (clearRho (rho_ st)))
      as [rho|]; simpl in Hcharge; [|discriminate].
    injection Hcharge as <-. exists rho. reflexivity. }
  destruct Hst1 as [rho ->]. exists rho. split; [reflexivity|].
  set (st1 := withRho st rho) in *.
  change (-2.0 / (epsilon_ st * volume (boundary st)))%R
    with (-2.0 / (epsilon_ st1 * volume (boundary st1)))%R in Hrun.
  apply (mapM_Forall2 _ (tablesOf st1)
           (List.Forall2 (List.Forall2 (forceUpdated st1)))) in Hrun.
  - exact (proj2 Hrun).
  - intros s species s1 species1 Hs Hspecies.
    apply (mapM_Forall2 _ (tablesOf st1)
             (List.Forall2 (forceUpdated st1))) in Hspecies; [exact Hspecies| |exact Hs].
    intros t molecule t1 molecule1 Ht Hmolecule.
    apply (mapM_Forall2 _ (tablesOf st1) (forceUpdated st1)) in Hmolecule;
      [exact Hmolecule| |exact Ht].
    intros u atom u1 atom1 Hu Hatom.
    exact (atomForce_forceUpdated st1 u u1 atom atom1 Hu Hatom).
  - exists (fexp0_ st1), (fexp1_ st1), (fexp2_ st1).
    destruct st1. reflexivity.
Qed.

(** On the cubic solver with its three waves the call returns, whatever
    the atoms are, as long as their types are known. *)
Lemma atomForce_cubic (b : Z -> Vector) (prefactor : double)
    (r0 r1 r2 : DCMPLX) (c : Z) (s : t) (atom : Atom) :
  cubicTables (GArray.mk [r0; r1; r2] c) s ->
  knownType cubicWaves atom ->
  exists s' atom',
    atomForce b prefactor s atom = Ok (s', atom') /\
    cubicTables (GArray.mk [r0; r1; r2] c) s'.
Proof.
  intros (f0 & f1 & f2 & -> & L0 & L1 & L2) Hknown.
  unfold atomForce.
  destruct (chargeOf_known cubicWaves atom Hknown) as [q Hq].
  change (chargeOf (withFexp (withRho cubicWaves (GArray.mk [r0; r1; r2] c)) f0 f1 f2) atom)
    with (chargeOf cubicWaves atom).
  rewrite Hq. simpl rbind.
  destruct (Rgtb (Rabs q) EPS).
  - unfold tabulateAll. simpl.
    set (rg := vscale (position atom) (/ (2 * PI))).
    destruct (tabulate_ok (vget rg 0) 0 f0) as (g0 & H0 & G0); [lia|].
    destruct (tabulate_ok (vget rg 1) 0 f1) as (g1 & H1 & G1); [lia|].
    destruct (tabulate_ok (vget rg 2) 0 f2) as (g2 & H2 & G2); [lia|].
    rewrite H0. simpl. rewrite H1. simpl. rewrite H2. simpl.
    rewrite L0 in G0. rewrite L1 in G1. rewrite L2 in G2.
    assert (Htables : cubicTables (GArray.mk [r0; r1; r2] c)
              (withFexp (withRho cubicWaves (GArray.mk [r0; r1; r2] c)) g0 g1 g2))
      by (exists g0, g1, g2; auto).
    destruct g0 as [[|a0 [|a1 [|a2 rest0]]] c0]; try discriminate G0.
    destruct g1 as [[|b0 [|b1 [|b2 rest1]]] c1]; try discriminate G1.
    destruct g2 as [[|d0 [|d1 [|d2 rest2]]] c2]; try discriminate G2.
    unfold generalizedForce, for_ZM. simpl.
    unfold forceLoop0, for_ZM. simpl.
    unfold forceLoop1, for_ZM. simpl.
    unfold forceLoop2. simpl.
    eexists. eexists. split; [reflexivity|exact Htables].
  - eexists. eexists. split; [reflexivity|]. exists f0, f1, f2. auto.
Qed.

Lemma addKSpaceForces_cubicWaves (sys : System) :
  knownTypes cubicWaves sys ->
  exists st' sys', addKSpaceForces cubicWaves sys = Ok (st', sys').
Proof.
  intros Hknown.
  destruct (computeKSpaceCharge_ok cubicWaves sys Hknown eq_refl)
    as (rho & Hrho & Hlen).
  unfold addKSpaceForces. rewrite Hrho. simpl rbind.
  destruct rho as [[|r0 [|r1 [|r2 [|r3 rest]]]] c]; try discriminate Hlen.
  set (I := cubicTables (GArray.mk [r0; r1; r2] c)).
  destruct (mapM_invariant I (List.Forall (List.Forall (knownType cubicWaves)))
              (mapM (mapM (atomForce
                 (reciprocalBasisVector
                    (boundary (withRho cubicWaves (GArray.mk [r0; r1; r2] c))))
                 (-2.0 / (epsilon_ cubicWaves * volume (boundary cubicWaves)))%R)))
              sys (withRho cubicWaves (GArray.mk [r0; r1; r2] c)))
    as (st' & sys' & Hrun & _).
  - intros s species Hs Hspecies.
    apply (mapM_invariant I (List.Forall (knownType cubicWaves)));
      [|exact Hspecies|exact Hs].
    intros s1 molecule Hs1 Hmolecule.
    apply (mapM_invariant I (knownType cubicWaves)); [|exact Hmolecule|exact Hs1].
    intros s2 atom Hs2 Hatom. apply atomForce_cubic; assumption.
  - exact Hknown.
  - exists (GArray.mk [czero; czero] 2), (GArray.mk [czero; czero] 3),
           (GArray.mk [czero; czero] 3). repeat split.
  - exists st', sys'. exact Hrun.
Qed.

(** The two atoms of [twoAtoms] on the cubic solver: the call returns; the
    atom of charge 1 receives the scaled generalized force along the three
    reciprocal basis vectors, the atom of charge 0 keeps its force. *)
Lemma addKSpaceForces_scales_and_skips_witness :
  exists st' a0 a1,
    addKSpaceForces cubicWaves twoAtoms = Ok (st', [[[a0; a1]]]) /\
    (exists fg,
       let scaled :=
         vscale fg (1 * (-2 / (1 * (2 * PI * (2 * PI) * (2 * PI)))))%R in
       force a0
       = vadd (vadd (vadd (mkVector 0 0 0) (vscale (unitVector 0) (vx scaled)))
                    (vscale (unitVector 1) (vy scaled)))
              (vscale (unitVector 2) (vz scaled))) /\
    force a1 = mkVector 0 0 0.
Proof.
  assert (Hknown : knownTypes cubicWaves twoAtoms)
    by (repeat constructor; simpl; lia).
  destruct (addKSpaceForces_cubicWaves twoAtoms Hknown) as (st' & sys' & Hrun).
  destruct (addKSpaceForces_scales_and_skips cubicWaves st' twoAtoms sys' Hrun)
    as (rho & _ & Hsys).
  unfold twoAtoms in Hsys.
  apply Forall2_cons_inv_l in Hsys.
  destruct Hsys as (species' & rest1 & Hspecies & Hnil1 & ->).
  apply Forall2_nil_inv_l in Hnil1. subst rest1.
  apply Forall2_cons_inv_l in Hspecies.
  destruct Hspecies as (molecule' & rest2 & Hmolecule & Hnil2 & ->).
  apply Forall2_nil_inv_l in Hnil2. subst rest2.
  apply Forall2_cons_inv_l in Hmolecule.
  destruct Hmolecule as (a0 & rest3 & H0 & Hrest & ->).
  apply Forall2_cons_inv_l in Hrest.
  destruct Hrest as (a1 & rest4 & H1 & Hnil3 & ->).
  apply Forall2_nil_inv_l in Hnil3. subst rest4.
  exists st', a0, a1. split; [exact Hrun|]. split.
  - destruct H0 as (_ & _ & q & Hq & Hcharged & _).
    injection Hq as <-.
    destruct Hcharged as (f0 & f1 & f2 & s & fg & _ & _ & Hforce).
    { rewrite Rabs_R1. unfold EPS. lra. }
    exists fg. exact Hforce.
  - destruct H1 as (_ & _ & q & Hq & _ & Hskipped).
    injection Hq as <-.
    apply Hskipped. rewrite Rabs_R0. unfold EPS. lra.
Defined.

End ForceFacts.

(** ** makeWaves: the reserved capacities *)

Module CapacityFacts.
Import Space LoopFacts WaveSet FineEwaldCoulombPotential AccumulateFacts.
Import RangeFacts.

Lemma length_Zrange (lo hi : Z) :
  Z.of_nat (length (Zrange lo hi)) = Z.max 0 (hi + 1 - lo).
Proof. unfold Zrange. rewrite length_Zlist. lia. Qed.

Lemma length_flat_map_same {A B : Type} (f : A -> list B) (l : list A) (c : Z) :
  (forall x, In x l -> Z.of_nat (length (f x)) = c) ->
  Z.of_nat (length (flat_map f l)) = Z.of_nat (length l) * c.
Proof.
  induction l as [|a l IH]; intros H; simpl; [lia|].
  rewrite length_app, Nat2Z.inj_add.
  rewrite IH by (intros x Hx; apply H; simpl; auto).
  rewrite (H a) by (simpl; auto). lia.
Qed.

Lemma length_enum2 (maxK : IntVector) (k0 k1 : Z) :
  0 <= iz maxK ->
  Z.of_nat (length (enum2 maxK k0 k1))
  = if (k0 =? 0) && (k1 =? 0) then iz maxK else 2 * iz maxK + 1.
Proof.
  intros Hz. unfold enum2. rewrite length_map, length_Zrange.
  destruct ((k0 =? 0) && (k1 =? 0)); lia.
Qed.

Lemma Zrange_cons (lo hi : Z) :
  lo <= hi -> Zrange lo hi = lo :: Zlist (Z.to_nat (hi - lo)) (lo + 1).
Proof.
  intros H. unfold Zrange.
  replace (Z.to_nat (hi + 1 - lo)) with (S (Z.to_nat (hi - lo))) by lia.
  reflexivity.
Qed.

Lemma length_enum1_zero (maxK : IntVector) :
  0 <= iy maxK -> 0 <= iz maxK ->
  Z.of_nat (length (enum1 maxK 0))
  = iz maxK + iy maxK * (2 * iz maxK + 1).
Proof.
  intros Hy Hz. unfold enum1. cbv beta iota delta [Z.eqb].
  rewrite (Zrange_cons 0 (iy maxK) Hy). simpl flat_map.
  rewrite length_app, Nat2Z.inj_add, length_enum2 by exact Hz. simpl.
  rewrite (length_flat_map_same _ _ (2 * iz maxK + 1)).
  - rewrite length_Zlist. lia.
  - intros k1 Hk1. apply In_Zlist in Hk1. rewrite length_enum2 by exact Hz.
    replace (k1 =? 0) with false by (symmetry; apply Z.eqb_neq; lia).
    reflexivity.
Qed.

Lemma length_enum1_positive (maxK : IntVector) (k0 : Z) :
  0 < k0 -> 0 <= iy maxK -> 0 <= iz maxK ->
  Z.of_nat (length (enum1 maxK k0))
  = (2 * iy maxK + 1) * (2 * iz maxK + 1).
Proof.
  intros Hk Hy Hz. unfold enum1.
  replace (k0 =? 0) with false by (symmetry; apply Z.eqb_neq; lia).
  rewrite (length_flat_map_same _ _ (2 * iz maxK + 1)).
  - rewrite length_Zrange. lia.
  - intros k1 _. rewrite length_enum2 by exact Hz.
    replace (k0 =? 0) with false by (symmetry; apply Z.eqb_neq; lia).
    reflexivity.
Qed.

(** The number of triples the loops visit. *)
Lemma length_enum0 (maxK : IntVector) :
  0 <= ix maxK -> 0 <= iy maxK -> 0 <= iz maxK ->
  Z.of_nat (length (enum0 maxK))
  = Z.quot ((2 * ix maxK + 1) * (2 * iy maxK + 1) * (2 * iz maxK + 1) - 1) 2.
Proof.
  intros Hx Hy Hz. unfold enum0.
  rewrite (Zrange_cons 0 (ix maxK) Hx). simpl flat_map.
  rewrite length_app, Nat2Z.inj_add, length_enum1_zero by assumption.
  rewrite (length_flat_map_same _ _ ((2 * iy maxK + 1) * (2 * iz maxK + 1))).
  - rewrite length_Zlist.
    replace ((2 * ix maxK + 1) * (2 * iy maxK + 1) * (2 * iz maxK + 1) - 1)
      with ((iz maxK + iy maxK * (2 * iz maxK + 1)
             + Z.of_nat (Z.to_nat (ix maxK - 0))
               * ((2 * iy maxK + 1) * (2 * iz maxK + 1))) * 2)
      by (rewrite Z2Nat.id by lia; ring).
    rewrite Z.quot_mul by lia. reflexivity.
  - intros k0 Hk0. apply In_Zlist in Hk0.
    apply length_enum1_positive; [lia|assumption|assumption].
Qed.

(** Within the range of [int] the sizes asked for are the products
    themselves, and the first of them is the number of triples the loops
    visit. *)
Lemma sizes_fit (maxK : IntVector) :
  fitsInt maxK ->
  waveCapacity maxK = Z.of_nat (length (enum0 maxK)) /\
  planeCapacity maxK = ix maxK + 1 /\
  columnCapacity maxK = (ix maxK + 1) * (2 * iy maxK + 1) /\
  table1Capacity maxK = 2 * iy maxK + 1 /\
  table2Capacity maxK = 2 * iz maxK + 1.
Proof.
  intros (Hx & Hy & Hz & Hfit).
  assert (H1 : 1 <= 2 * ix maxK + 1) by lia.
  assert (H2 : 1 <= 2 * iy maxK + 1) by lia.
  assert (H3 : 1 <= 2 * iz maxK + 1) by lia.
  assert (Hxy : (2 * ix maxK + 1) * (2 * iy maxK + 1)
                <= (2 * ix maxK + 1) * (2 * iy maxK + 1) * (2 * iz maxK + 1))
    by nia.
  assert (Hcol : (ix maxK + 1) * (2 * iy maxK + 1)
                 <= (2 * ix maxK + 1) * (2 * iy maxK + 1)) by nia.
  assert (Hy' : 2 * iy maxK + 1 <= (2 * ix maxK + 1) * (2 * iy maxK + 1)) by nia.
  assert (Hx' : 2 * ix maxK + 1 <= (2 * ix maxK + 1) * (2 * iy maxK + 1)) by nia.
  assert (Hz' : 2 * iz maxK + 1
                <= (2 * ix maxK + 1) * (2 * iy maxK + 1) * (2 * iz maxK + 1))
    by nia.
  assert (Hpos : 0 <= (ix maxK + 1) * (2 * iy maxK + 1)) by nia.
  unfold waveCapacity, planeCapacity, columnCapacity, table1Capacity,
    table2Capacity.
  rewrite !CIntFacts.wrap_small by (unfold CInt.min, CInt.max in *; lia).
  rewrite length_enum0 by assumption. repeat split.
Qed.

Lemma length_filter_le {A : Type} (f : A -> bool) (l : list A) :
  (length (List.filter f l) <= length l)%nat.
Proof.
  induction l as [|a l IH]; simpl; [lia|]. destruct (f a); simpl; lia.
Qed.

Section Visit.
Variables (b0 b1 b2 : Vector) (kCutoffSq prefactor : double).

(** Appending within the reserved capacity keeps the capacity. *)
Lemma visit_capacity (ks : list IntVector) (a : Acc) :
  GArray.size (waves a) + Z.of_nat (length ks) <= GArray.capacity (waves a) ->
  GArray.size (ksqs a) + Z.of_nat (length ks) <= GArray.capacity (ksqs a) ->
  GArray.size (gs a) + Z.of_nat (length ks) <= GArray.capacity (gs a) ->
  GArray.capacity (waves (visit b0 b1 b2 kCutoffSq prefactor ks a))
  = GArray.capacity (waves a) /\
  GArray.capacity (ksqs (visit b0 b1 b2 kCutoffSq prefactor ks a))
  = GArray.capacity (ksqs a) /\
  GArray.capacity (gs (visit b0 b1 b2 kCutoffSq prefactor ks a))
  = GArray.capacity (gs a).
Proof.
  revert a. induction ks as [|k ks IH]; intros a Hw Hk Hg; [simpl; auto|].
  simpl length in Hw, Hk, Hg.
  change (visit b0 b1 b2 kCutoffSq prefactor (k :: ks) a)
    with (visit b0 b1 b2 kCutoffSq prefactor ks
            (if kept b0 b1 b2 kCutoffSq k
             then keepWave prefactor k (ksqOf b0 b1 b2 k) a else a)).
  destruct (kept b0 b1 b2 kCutoffSq k).
  - destruct (IH (keepWave prefactor k (ksqOf b0 b1 b2 k) a)) as (E1 & E2 & E3).
    + simpl. rewrite GArrayFacts.size_append. unfold GArray.append. simpl. lia.
    + simpl. rewrite GArrayFacts.size_append. unfold GArray.append. simpl. lia.
    + simpl. rewrite GArrayFacts.size_append. unfold GArray.append. simpl. lia.
    + rewrite E1, E2, E3. simpl. unfold GArray.append. simpl.
      repeat split; lia.
  - apply IH; lia.
Qed.

End Visit.

Lemma wavesAndRanges_inv (st st1 : t) (a : Acc) (rs : Ranges) :
  wavesAndRanges st = Ok (st1, a, rs) ->
  st1 = prepareArrays (maxKs st) st /\
  a = accumulateWaves (reciprocalBasisVector (boundary st) 0)
        (reciprocalBasisVector (boundary st) 1)
        (reciprocalBasisVector (boundary st) 2)
        (kCutoff_ st * kCutoff_ st)%R (-0.25 / alpha_ st / alpha_ st)%R
        (maxKs st)
        (mkAcc (- ix (maxKs st)) (- iy (maxKs st)) (- iz (maxKs st))
               (iy (maxKs st)) (iz (maxKs st))
               (waves_ st1) (ksq_ st1) (g_ st1)).
Proof.
  unfold wavesAndRanges. intros Hrun.
  destruct (findRanges _ _ _ _) as [rs'|]; simpl in Hrun; [|discriminate].
  injection Hrun as <- <- <-. split; reflexivity.
Qed.

(** The reserve-or-clear step of makeWaves.  When [waves_] has no storage,
    each of the nine arrays is reserved for the size computed, in [int]
    arithmetic, from the [maxK] of this call, and keeps its elements.
    Otherwise each array is cleared and keeps the capacity it had, whatever
    the [maxK] of this call. *)
Lemma prepareArrays_reserves_or_clears (maxK : IntVector) (st : t) :
  (GArray.capacity (waves_ st) = 0 ->
   capacities (prepareArrays maxK st)
   = zip_with Z.max (capacities st) (reservedFor maxK) /\
   sizes (prepareArrays maxK st) = sizes st) /\
  (GArray.capacity (waves_ st) <> 0 ->
   capacities (prepareArrays maxK st) = capacities st /\
   sizes (prepareArrays maxK st) = [0; 0; 0; 0; 0; 0; 0; 0; 0]).
Proof.
  split.
  - intros Hcap. unfold prepareArrays. rewrite Hcap. simpl.
    unfold capacities, sizes, reservedFor, GArray.size. simpl.
    rewrite !GArrayFacts.capacity_reserve, !GArrayFacts.data_reserve.
    split; reflexivity.
  - intros Hcap. unfold prepareArrays.
    replace (GArray.capacity (waves_ st) =? 0) with false
      by (symmetry; apply Z.eqb_neq; exact Hcap).
    split; reflexivity.
Qed.

Lemma rangeStep_sized (maxK : IntVector) (c1 c2 : Z) (p1 p2 : Pair)
    (last k : IntVector) (n : Z) (s : Ranges) :
  after last n s -> follows last k ->
  inBox maxK last -> inBox maxK k -> sized maxK c1 c2 last s ->
  exists s',
    rangeStep p1 p2 k s = Ok s' /\ after k (n + 1) s' /\ sized maxK c1 c2 k s'.
Proof.
  intros Hafter Hf Hlast Hk Hsized.
  destruct (rangeStep_next p1 p2 last k n s Hafter Hf) as (s' & Hstep & Hs').
  exists s'. split; [exact Hstep|]. split; [exact Hs'|].
  destruct Hafter as (pre1 & lo1 & d1 & pre2 & lo2 & d2 & E1 & R1 & E2 & R2 & E0 & Hn).
  destruct Hsized as (S1 & S2 & C1 & C2).
  destruct s as [rg0 rg1 rg2 q1 q2]. simpl in *. subst rg1 rg2 q1 q2.
  unfold GArray.size in *. simpl in *. rewrite length_app in *. simpl in *.
  destruct Hlast as (Lx & Ly & Lz), Hk as (Kx & Ky & Kz).
  unfold rangeStep in Hstep. simpl in Hstep. rewrite E0 in Hstep.
  unfold sized, columnRank, GArray.size.
  unfold columnRank in S2.
  assert (HM : 0 < 2 * iy maxK + 1) by lia.
  remember (2 * iy maxK + 1) as M eqn:EM.
  destruct (Z.ltb_spec (ix last) (ix k)) as [Hlt|Hge].
  - rewrite (push_range _ _ p1 (iy k)) in Hstep
      by (unfold GArray.size; simpl; rewrite length_app; simpl; lia).
    rewrite (push_range _ _ p2 (iz k)) in Hstep
      by (unfold GArray.size; simpl; rewrite length_app; simpl; lia).
    injection Hstep as <-. simpl. unfold GArray.size. simpl.
    rewrite !length_app. simpl.
    assert (ix last * M + M <= ix k * M) by nia. clear Hs'. unfold Pair in *.
    repeat split; lia.
  - assert (Hx : ix last = ix k) by (destruct Hf as [Hf|[Hf|Hf]]; lia).
    rewrite GArrayFacts.get_last in Hstep. simpl in Hstep.
    destruct (Z.ltb_spec (iy last) (iy k)) as [Hlt1|Hge1].
    + rewrite GArrayFacts.modify_last in Hstep. simpl in Hstep.
      rewrite (push_range _ _ p2 (iz k)) in Hstep
        by (unfold GArray.size; simpl; rewrite length_app; simpl; lia).
      injection Hstep as <-. simpl. unfold GArray.size. simpl.
      rewrite !length_app. simpl. rewrite <- Hx. clear Hs'. unfold Pair in *.
      repeat split; lia.
    + assert (Hy : iy last = iy k) by (destruct Hf as [Hf|[Hf|Hf]]; lia).
      rewrite GArrayFacts.modify_last in Hstep. simpl in Hstep.
      injection Hstep as <-. simpl. rewrite !length_app. simpl.
      rewrite <- Hx, <- Hy. clear Hs'. unfold Pair in *. repeat split; lia.
Qed.


Lemma rangeStep_first_sized (maxK : IntVector) (p1 p2 : Pair) (k : IntVector)
    (rg1 rg2 : GArray.t Pair) :
  GArray.data rg1 = [] -> GArray.data rg2 = [] -> inBox maxK k ->
  exists s',
    rangeStep p1 p2 k (mkRanges (0, -1) rg1 rg2 (-1) (-1)) = Ok s' /\
    after k 1 s' /\
    sized maxK (GArray.capacity rg1) (GArray.capacity rg2) k s'.
Proof.
  intros H1 H2 (Kx & Ky & Kz).
  destruct (rangeStep_first p1 p2 k rg1 rg2 H1 H2) as (s' & Hstep & Hs');
    [lia|].
  exists s'. split; [exact Hstep|]. split; [exact Hs'|].
  unfold rangeStep in Hstep. simpl in Hstep.
  replace (-1 <? ix k) with true in Hstep by (symmetry; apply Z.ltb_lt; lia).
  rewrite (push_range rg1 (-1) p1 (iy k)) in Hstep
    by (unfold GArray.size; rewrite H1; reflexivity).
  simpl in Hstep.
  rewrite (push_range rg2 (-1) p2 (iz k)) in Hstep
    by (unfold GArray.size; rewrite H2; reflexivity).
  simpl in Hstep. injection Hstep as <-.
  unfold sized, columnRank, GArray.size. simpl. rewrite H1, H2. simpl.
  clear Hs'. assert (0 <= ix k * (2 * iy maxK + 1)) by nia.
  repeat split; lia.
Qed.

Lemma foldM_rangeStep_sized (maxK : IntVector) (c1 c2 : Z) (p1 p2 : Pair)
    (ws : list IntVector) (last : IntVector) (n : Z) (s s' : Ranges) :
  after last n s -> sized maxK c1 c2 last s ->
  chain (last :: ws) -> inBox maxK last -> (forall w, In w ws -> inBox maxK w) ->
  foldM (rangeStep p1 p2) ws s = Ok s' ->
  exists last', inBox maxK last' /\ sized maxK c1 c2 last' s'.
Proof.
  revert last n s. induction ws as [|w ws IH]; intros last n s Hs Hz Hc Hl Hb Hrun.
  - injection Hrun as <-. exists last. split; assumption.
  - destruct Hc as [Hf Hc].
    destruct (rangeStep_sized maxK c1 c2 p1 p2 last w n s Hs Hf Hl
                (Hb w (or_introl eq_refl)) Hz) as (s1 & Hstep & Hs1 & Hz1).
    simpl in Hrun. rewrite Hstep in Hrun. simpl in Hrun.
    apply (IH w (n + 1) s1 Hs1 Hz1 Hc (Hb w (or_introl eq_refl))).
    + intros x Hx. apply Hb. right. exact Hx.
    + exact Hrun.
Qed.

(** The second pass appends at most one plane for each first index and one
    column for each pair of first and second indices of the box: range
    arrays reserved for these numbers keep their capacity. *)
Lemma findRanges_capacity (maxK : IntVector) (ws : list IntVector)
    (rg1 rg2 : GArray.t Pair) (rs : Ranges) :
  GArray.data rg1 = [] -> GArray.data rg2 = [] ->
  chain ws -> (forall w, In w ws -> inBox maxK w) ->
  0 <= ix maxK -> 0 <= iy maxK ->
  ix maxK + 1 <= GArray.capacity rg1 ->
  (ix maxK + 1) * (2 * iy maxK + 1) <= GArray.capacity rg2 ->
  findRanges maxK ws rg1 rg2 = Ok rs ->
  GArray.capacity (range1 rs) = GArray.capacity rg1 /\
  GArray.capacity (range2 rs) = GArray.capacity rg2.
Proof.
  intros H1 H2 Hc Hb Hx Hy C1 C2 Hrun. unfold findRanges in Hrun.
  destruct ws as [|w ws].
  - injection Hrun as <-. split; reflexivity.
  - destruct (rangeStep_first_sized maxK (iy maxK, - iy maxK)
                (iz maxK, - iz maxK) w rg1 rg2 H1 H2 (Hb w (or_introl eq_refl)))
      as (s1 & Hstep & Hs1 & Hz1).
    simpl in Hrun. rewrite Hstep in Hrun. simpl in Hrun.
    destruct (foldM_rangeStep_sized maxK _ _ _ _ ws w 1 s1 rs Hs1 Hz1 Hc
                (Hb w (or_introl eq_refl))
                (fun x Hx => Hb x (or_intror Hx)) Hrun)
      as (last & (Lx & Ly & Lz) & (S1 & S2 & E1 & E2)).
    unfold columnRank in S2.
    assert (ix last * (2 * iy maxK + 1) <= ix maxK * (2 * iy maxK + 1)) by nia.
    split; lia.
Qed.

Section Bounds.
Variables (b0 b1 b2 : Vector) (kCutoffSq prefactor : double).

(** The index bounds that the first pass tracks stay within the box. *)
Lemma visit_within_box (maxK : IntVector) (ks : list IntVector) (a : Acc) :
  (forall k, In k ks -> inBox maxK k) ->
  upper0 a <= ix maxK -> upper1 a <= iy maxK -> upper2 a <= iz maxK ->
  - iy maxK <= base1 a -> - iz maxK <= base2 a ->
  let a' := visit b0 b1 b2 kCutoffSq prefactor ks a in
  upper0 a' <= ix maxK /\ upper1 a' <= iy maxK /\ upper2 a' <= iz maxK /\
  - iy maxK <= base1 a' /\ - iz maxK <= base2 a'.
Proof.
  revert a. induction ks as [|k ks IH]; intros a Hb U0 U1 U2 B1 B2; [simpl; auto|].
  change (visit b0 b1 b2 kCutoffSq prefactor (k :: ks) a)
    with (visit b0 b1 b2 kCutoffSq prefactor ks
            (if kept b0 b1 b2 kCutoffSq k
             then keepWave prefactor k (ksqOf b0 b1 b2 k) a else a)).
  destruct (Hb k (or_introl eq_refl)) as (Kx & Ky & Kz).
  destruct (kept b0 b1 b2 kCutoffSq k).
  - apply IH; [intros x Hx; apply Hb; right; exact Hx| | | | |]; simpl.
    + destruct (upper0 a <? ix k); lia.
    + destruct (upper1 a <? iy k); lia.
    + destruct (upper2 a <? iz k); lia.
    + destruct (iy k <? base1 a); lia.
    + destruct (iz k <? base2 a); lia.
  - apply IH; [intros x Hx; apply Hb; right; exact Hx| | | | |]; assumption.
Qed.

End Bounds.

(** Within the range of [int], the first call on a constructed object leaves
    each of the nine arrays with the capacity it reserved: the loops append
    no more waves, planes and columns than were reserved, and the tables are
    resized to no more than their reserved sizes. *)
Lemma first_call_capacities (alpha epsilon kCutoff : double) (b : Boundary)
    (types : list AtomType) (st1 : t) :
  let st0 := initial alpha epsilon kCutoff b types in
  fitsInt (maxKs st0) ->
  makeWaves st0 = Ok st1 ->
  capacities st1 = reservedFor (maxKs st0).
Proof.
  intros st0 Hfit Hrun.
  destruct (sizes_fit (maxKs st0) Hfit) as (Ew & Ep & Ec & E1 & E2).
  destruct Hfit as (Hx & Hy & Hz & Hfit).
  assert (Hst : emptyWithoutStorage st0)
    by apply MakeWavesFacts.initial_emptyWithoutStorage.
  destruct (MakeWavesFacts.wavesAndRanges_ok st0 Hst)
    as (s1 & a & rs & Hpre & Hs1 & Hw & _ & _ & _).
  pose proof Hpre as Hinv. apply wavesAndRanges_inv in Hinv.
  destruct Hinv as [_ Ha]. rewrite accumulateWaves_visits in Ha.
  unfold makeWaves in Hrun. rewrite Hpre in Hrun. simpl in Hrun.
  destruct (negb _); [discriminate|]. injection Hrun as <-.
  (* the arrays after the reserve step *)
  assert (Hres : forall (A : Type) (n : Z), 0 <= n ->
            GArray.reserve n (@GArray.empty A) = GArray.mk [] n).
  { intros A n Hn. unfold GArray.reserve, GArray.empty. simpl.
    destruct (Z.ltb_spec 0 n); [reflexivity|]. f_equal. lia. }
  assert (Hwn : 0 <= waveCapacity (maxKs st0)) by lia.
  assert (Hpn : 0 <= planeCapacity (maxKs st0)) by lia.
  assert (Hcn : 0 <= columnCapacity (maxKs st0)) by nia.
  assert (H1n : 0 <= table1Capacity (maxKs st0)) by lia.
  assert (H2n : 0 <= table2Capacity (maxKs st0)) by lia.
  assert (Hprep : prepareArrays (maxKs st0) st0
    = withArrays st0 (GArray.mk [] (waveCapacity (maxKs st0)))
        (GArray.mk [] (waveCapacity (maxKs st0)))
        (GArray.mk [] (waveCapacity (maxKs st0)))
        (GArray.mk [] (waveCapacity (maxKs st0)))
        (GArray.mk [] (planeCapacity (maxKs st0)))
        (GArray.mk [] (columnCapacity (maxKs st0)))
        (GArray.mk [] (planeCapacity (maxKs st0)))
        (GArray.mk [] (table1Capacity (maxKs st0)))
        (GArray.mk [] (table2Capacity (maxKs st0)))).
  { unfold prepareArrays. simpl.
    rewrite !Hres by assumption. reflexivity. }
  pose proof Hs1 as Hs1p. rewrite Hprep in Hs1.
  assert (Hin : forall w, In w (GArray.data (waves a)) -> inBox (maxKs st0) w).
  { intros w Hw'. rewrite Hw in Hw'. apply List.filter_In in Hw'.
    destruct Hw' as [Hw' _]. apply In_enum0 in Hw'. tauto. }
  assert (Hlen : GArray.size (waves a) <= waveCapacity (maxKs st0)).
  { unfold GArray.size. rewrite Hw, Ew.
    pose proof (length_filter_le
                  (kept (reciprocalBasisVector (boundary st0) 0)
                     (reciprocalBasisVector (boundary st0) 1)
                     (reciprocalBasisVector (boundary st0) 2)
                     (kCutoff_ st0 * kCutoff_ st0)%R) (enum0 (maxKs st0))).
    lia. }
  assert (Hchain : chain (GArray.data (waves a)))
    by (rewrite Hw; apply ConvexFacts.chain_kept).
  (* the wave arrays *)
  match type of Ha with
  | a = visit ?c0 ?c1 ?c2 ?cut ?pre ?ks ?a0 =>
      destruct (visit_capacity c0 c1 c2 cut pre ks a0) as (Cw & Ck & Cg);
      [ | | | destruct (visit_within_box c0 c1 c2 cut pre (maxKs st0) ks a0)
                as (U0 & U1 & U2 & B1 & B2) ]
  end.
  1-3: rewrite Hs1; simpl; unfold GArray.size; simpl; lia.
  { intros k Hk. apply In_enum0 in Hk. tauto. }
  1-5: cbn [upper0 upper1 upper2 base1 base2]; lia.
  rewrite <- Ha in Cw, Ck, Cg, U0, U1, U2, B1, B2.
  rewrite Hs1 in Cw, Ck, Cg. simpl in Cw, Ck, Cg.
  (* the range arrays *)
  unfold wavesAndRanges in Hpre. rewrite accumulateWaves_visits in Hpre.
  rewrite <- Hs1p, <- Ha in Hpre.
  destruct (findRanges (maxKs st0) (GArray.data (waves a)) _ _) as [rs'|] eqn:Hfind;
    simpl in Hpre; [|discriminate].
  injection Hpre as <-.
  rewrite Hs1 in Hfind. cbn [range1_ range2_ withArrays] in Hfind.
  assert (Hp1 : ix (maxKs st0) + 1
                <= GArray.capacity (GArray.mk (@nil Pair) (planeCapacity (maxKs st0))))
    by (cbn [GArray.capacity]; lia).
  assert (Hc1 : (ix (maxKs st0) + 1) * (2 * iy (maxKs st0) + 1)
                <= GArray.capacity (GArray.mk (@nil Pair) (columnCapacity (maxKs st0))))
    by (cbn [GArray.capacity]; lia).
  destruct (findRanges_capacity (maxKs st0) (GArray.data (waves a))
              (GArray.mk [] (planeCapacity (maxKs st0)))
              (GArray.mk [] (columnCapacity (maxKs st0))) rs' eq_refl eq_refl
              Hchain Hin Hx Hy Hp1 Hc1 Hfind) as (R1 & R2).
  cbn [GArray.capacity] in R1, R2.
  unfold capacities, reservedFor. rewrite Hs1.
  cbn [waves_ ksq_ g_ rho_ range1_ range2_ fexp0_ fexp1_ fexp2_ withArrays].
  rewrite Cw, Ck, Cg, R1, R2. unfold GArray.resize. cbn [GArray.capacity].
  repeat f_equal; lia.
Qed.

(** Hence, when the box of the first call holds at least one triple, every
    later call finds [waves_] with storage and takes the clearing branch:
    whatever cutoff and boundary it is given, the arrays are empty and have
    the capacities of the first call when its loops start. *)
Lemma later_calls_keep_the_first_capacities
    (alpha epsilon kCutoff : double) (b : Boundary) (types : list AtomType)
    (st1 : t) (kCutoff' : double) (b' : Boundary) :
  let st0 := initial alpha epsilon kCutoff b types in
  let st2 := setGeometry kCutoff' b' st1 in
  fitsInt (maxKs st0) -> 0 < waveCapacity (maxKs st0) ->
  makeWaves st0 = Ok st1 ->
  capacities (prepareArrays (maxKs st2) st2) = reservedFor (maxKs st0) /\
  sizes (prepareArrays (maxKs st2) st2) = [0; 0; 0; 0; 0; 0; 0; 0; 0].
Proof.
  intros st0 st2 Hfit Hpos Hrun.
  pose proof (first_call_capacities alpha epsilon kCutoff b types st1 Hfit Hrun)
    as Hcap.
  fold st0 in Hcap.
  assert (Hw : GArray.capacity (waves_ st2) <> 0).
  { unfold capacities, reservedFor in Hcap. injection Hcap as Hw _.
    unfold st2. simpl. lia. }
  destruct (proj2 (prepareArrays_reserves_or_clears (maxKs st2) st2) Hw)
    as [Hkeep Hsizes].
  split; [|exact Hsizes]. rewrite Hkeep, <- Hcap. reflexivity.
Qed.




End CapacityFacts.

(** ** SpCell: the slots of a cell *)

Module SpCellStorage.
Import Space SpCell SpCellCalls.

(** What a run of [append] calls that returns has written: nothing outside
    the part of the cell's segment that was free. *)
Lemma appendAll_frame (atoms : list pointer) (m m' : slots) (c c' : t) :
  appendAll atoms (m, c) = Ok (m', c') ->
  begin_ c' = begin_ c /\ atomCapacity_ c' = atomCapacity_ c /\
  nAtom_ c' = nAtom_ c + Z.of_nat (length atoms) /\
  nAtom_ c' <= Z.max (nAtom_ c) (atomCapacity_ c) /\
  (forall (i : nat) a, atoms !! i = Some a ->
     m' !! (begin_ c + nAtom_ c + Z.of_nat i) = Some a) /\
  (forall p, p < begin_ c + nAtom_ c \/ begin_ c + nAtom_ c' <= p ->
     m' !! p = m !! p).
Proof.
  revert m c. induction atoms as [|a rest IH]; intros m c Hrun; simpl in Hrun.
  - injection Hrun as <- <-. simpl. repeat split; auto; try lia.
    intros i x Hx. rewrite lookup_nil in Hx. discriminate.
  - unfold append in Hrun.
    destruct (Z.eqb_spec (begin_ c) 0) as [Hz|Hnz]; simpl in Hrun; [discriminate|].
    destruct (Z.ltb_spec (nAtom_ c) (atomCapacity_ c)) as [Hlt|Hge];
      simpl in Hrun; [|discriminate].
    destruct (IH _ _ Hrun) as (Hb' & Hc' & Hn' & Hle & Hin & Hout).
    simpl in *. split; [exact Hb'|]. split; [exact Hc'|]. split; [lia|].
    split; [lia|]. split.
    + intros [|i] x Hx; simpl in Hx.
      * injection Hx as <-. rewrite Hout by lia.
        replace (begin_ c + nAtom_ c + Z.of_nat 0) with (begin_ c + nAtom_ c) by lia.
        apply lookup_insert_eq.
      * replace (begin_ c + nAtom_ c + Z.of_nat (S i))
          with (begin_ c + (nAtom_ c + 1) + Z.of_nat i) by lia.
        apply Hin. exact Hx.
    + intros p Hp. rewrite Hout by lia. apply lookup_insert_ne. lia.
Qed.


(** X1. An initialized cell with room for the atoms: after one [append] per
    atom, [nAtom()] is their number, [atomPtr(i)] is the address [begin_ + i]
    and the slot there points to atom [i]; [atomPtr] fails for any other
    index; and no slot outside the addresses [begin_ .. begin_ + nAtom() - 1]
    has changed. *)
Theorem appended_atoms_are_stored (atoms : list pointer) (m : slots) (c : t) :
  begin_ c <> 0 -> nAtom_ c = 0 ->
  Z.of_nat (length atoms) <= atomCapacity_ c ->
  exists m' c',
    appendAll atoms (m, c) = Ok (m', c') /\
    nAtom c' = Z.of_nat (length atoms) /\
    (forall (i : nat) a, atoms !! i = Some a ->
       atomPtr (Z.of_nat i) c' = Ok (begin_ c + Z.of_nat i) /\
       m' !! (begin_ c + Z.of_nat i) = Some a) /\
    (forall i, i < 0 \/ Z.of_nat (length atoms) <= i ->
       exists f, atomPtr i c' = Fail f) /\
    (forall p, p < begin_ c \/ begin_ c + Z.of_nat (length atoms) <= p ->
       m' !! p = m !! p).
Proof.
  intros Hb Hn Hroom.
  destruct (SpCellFacts.appendAll_within_capacity atoms m c Hb)
    as (m' & c' & Hrun & _); [lia|].
  destruct (appendAll_frame _ _ _ _ _ Hrun) as (Hb' & Hc' & Hn' & _ & Hin & Hout).
  rewrite Hn in Hn', Hin, Hout. rewrite Z.add_0_l in Hn'.
  exists m', c'. split; [exact Hrun|]. split; [exact Hn'|]. split; [|split].
  - intros i a Ha. split.
    + pose proof (lookup_lt_Some _ _ _ Ha) as Hi. unfold atomPtr.
      replace (0 <=? Z.of_nat i) with true by (symmetry; apply Z.leb_le; lia).
      replace (Z.of_nat i <? nAtom_ c') with true by (symmetry; apply Z.ltb_lt; lia).
      simpl. rewrite Hb'. reflexivity.
    + rewrite <- (Hin i a Ha). f_equal. lia.
  - intros i Hi. unfold atomPtr.
    destruct (Z.leb_spec 0 i) as [Hlo|Hlo]; simpl; [|eexists; reflexivity].
    replace (i <? nAtom_ c') with false by (symmetry; apply Z.ltb_ge; lia).
    simpl. eexists. reflexivity.
  - intros p Hp. apply Hout. lia.
Qed.

(** Three atoms in a cell of capacity 4 whose segment starts at 100. *)
Lemma appended_atoms_are_stored_witness :
  exists m' c',
    appendAll [7; 8; 9] (∅, mk 100 0 0 0 4 1 false) = Ok (m', c') /\
    nAtom c' = 3 /\
    atomPtr 1 c' = Ok 101 /\ m' !! 101 = Some 8 /\ m' !! 103 = None.
Proof.
  destruct (appended_atoms_are_stored [7; 8; 9] ∅ (mk 100 0 0 0 4 1 false))
    as (m' & c' & Hrun & Hn & Hin & _ & Hout); [simpl; lia|reflexivity|simpl; lia|].
  exists m', c'. split; [exact Hrun|]. split; [exact Hn|].
  destruct (Hin 1%nat 8 eq_refl) as [Hptr Hslot]. simpl in Hptr, Hslot.
  split; [exact Hptr|]. split; [exact Hslot|].
  rewrite (Hout 103) by (simpl; lia). reflexivity.
Defined.

(** X2. Two cells laid out one after the other: the second is initialized at
    the address that [initialize] returned for the first.  Each address is
    the previous one plus the capacity, and whichever cell is filled first,
    the atoms of the first cell are in the slots from [begin] on and those of
    the second in the slots from the returned address on: filling one cell
    never overwrites a slot of the other. *)
Theorem neighbouring_cells_keep_their_atoms
    (begin e e2 : pointer) (c1 c2 c1' c2' : t) (atoms1 atoms2 : list pointer) :
  initialize begin c1 = Ok (e, c1') ->
  initialize e c2 = Ok (e2, c2') ->
  e = begin + atomCapacity c1' /\ e2 = e + atomCapacity c2' /\
  (forall m m1 m2 d1 d2,
     appendAll atoms1 (m, c1') = Ok (m1, d1) ->
     appendAll atoms2 (m1, c2') = Ok (m2, d2) ->
     (forall (i : nat) a, atoms1 !! i = Some a -> m2 !! (begin + Z.of_nat i) = Some a) /\
     (forall (i : nat) a, atoms2 !! i = Some a -> m2 !! (e + Z.of_nat i) = Some a)) /\
  (forall m m1 m2 d1 d2,
     appendAll atoms2 (m, c2') = Ok (m1, d2) ->
     appendAll atoms1 (m1, c1') = Ok (m2, d1) ->
     (forall (i : nat) a, atoms1 !! i = Some a -> m2 !! (begin + Z.of_nat i) = Some a) /\
     (forall (i : nat) a, atoms2 !! i = Some a -> m2 !! (e + Z.of_nat i) = Some a)).
Proof.
  intros Hinit1 Hinit2.
  assert (H1 : e = begin + atomCapacity_ c1' /\ begin_ c1' = begin /\
               nAtom_ c1' = 0 /\ 0 <= atomCapacity_ c1').
  { unfold initialize in Hinit1.
    destruct (begin_ c1 =? 0); simpl in Hinit1; [|discriminate].
    destruct (Z.eqb_spec (nAtom_ c1) 0); simpl in Hinit1; [|discriminate].
    destruct (Z.leb_spec 0 (atomCapacity_ c1)); simpl in Hinit1; [|discriminate].
    injection Hinit1 as <- <-. simpl. auto. }
  assert (H2 : e2 = e + atomCapacity_ c2' /\ begin_ c2' = e /\
               nAtom_ c2' = 0 /\ 0 <= atomCapacity_ c2').
  { unfold initialize in Hinit2.
    destruct (begin_ c2 =? 0); simpl in Hinit2; [|discriminate].
    destruct (Z.eqb_spec (nAtom_ c2) 0); simpl in Hinit2; [|discriminate].
    destruct (Z.leb_spec 0 (atomCapacity_ c2)); simpl in Hinit2; [|discriminate].
    injection Hinit2 as <- <-. simpl. auto. }
  destruct H1 as (He & Hb1 & Hn1 & Hc1). destruct H2 as (He2 & Hb2 & Hn2 & Hc2).
  split; [exact He|]. split; [exact He2|]. split.
  - intros m m1 m2 d1 d2 Hrun1 Hrun2.
    destruct (appendAll_frame _ _ _ _ _ Hrun1) as (_ & _ & Hd1 & Hle1 & Hin1 & _).
    destruct (appendAll_frame _ _ _ _ _ Hrun2) as (_ & _ & _ & _ & Hin2 & Hout2).
    rewrite Hb1, Hn1 in Hin1. rewrite Hb2, Hn2 in Hin2, Hout2. split.
    + intros i a Ha. pose proof (lookup_lt_Some _ _ _ Ha) as Hi.
      rewrite Hout2 by lia. rewrite <- (Hin1 i a Ha). f_equal. lia.
    + intros i a Ha. rewrite <- (Hin2 i a Ha). f_equal. lia.
  - intros m m1 m2 d1 d2 Hrun2 Hrun1.
    destruct (appendAll_frame _ _ _ _ _ Hrun2) as (_ & _ & _ & _ & Hin2 & _).
    destruct (appendAll_frame _ _ _ _ _ Hrun1) as (_ & _ & Hd1 & Hle1 & Hin1 & Hout1).
    rewrite Hb1, Hn1 in Hin1, Hout1. rewrite Hb2, Hn2 in Hin2. split.
    + intros i a Ha. rewrite <- (Hin1 i a Ha). f_equal. lia.
    + intros i a Ha. rewrite Hout1 by lia. rewrite <- (Hin2 i a Ha). f_equal. lia.
Qed.

(** A cell of capacity 2 at address 100 and a cell of capacity 1 after it. *)
Lemma neighbouring_cells_keep_their_atoms_witness :
  initialize 100 (mk 0 0 0 0 2 1 false) = Ok (102, mk 100 0 0 0 2 1 false) /\
  initialize 102 (mk 0 0 0 0 1 2 false) = Ok (103, mk 102 0 0 0 1 2 false) /\
  forall m m1 m2 d1 d2,
    appendAll [7; 8] (m, mk 100 0 0 0 2 1 false) = Ok (m1, d1) ->
    appendAll [9] (m1, mk 102 0 0 0 1 2 false) = Ok (m2, d2) ->
    m2 !! 101 = Some 8 /\ m2 !! 102 = Some 9.
Proof.
  split; [reflexivity|]. split; [reflexivity|].
  intros m m1 m2 d1 d2 Hrun1 Hrun2.
  destruct (neighbouring_cells_keep_their_atoms 100 102 103
              (mk 0 0 0 0 2 1 false) (mk 0 0 0 0 1 2 false)
              (mk 100 0 0 0 2 1 false) (mk 102 0 0 0 1 2 false)
              [7; 8] [9] eq_refl eq_refl) as (_ & _ & Hfirst & _).
  destruct (Hfirst m m1 m2 d1 d2 Hrun1 Hrun2) as [Hin1 Hin2].
  split; [exact (Hin1 1%nat 8 eq_refl)|exact (Hin2 0%nat 9 eq_refl)].
Defined.

Lemma calls_counts (ks : list Call) (n : Z) (m m' : slots) (c c' : t) :
  calls ks (m, c) = Ok (m', c') ->
  atomCapacity_ c = CInt.wrap n ->
  0 <= nAtom_ c ->
  (begin_ c <> 0 -> nAtom_ c <= atomCapacity_ c) ->
  (begin_ c = 0 -> nAtom_ c = 0) ->
  atomCapacity_ c' = CInt.wrap (incrementsFrom n ks) /\
  nAtom_ c' = appendsFrom (nAtom_ c) ks /\
  0 <= nAtom_ c' /\
  (begin_ c' <> 0 -> nAtom_ c' <= atomCapacity_ c') /\
  (begin_ c' = 0 -> nAtom_ c' = 0).
Proof.
  unfold calls. revert n m c.
  induction ks as [|k ks IH]; intros n m c Hrun Hcap Hpos Hle Hnull;
    simpl in Hrun.
  - injection Hrun as <- <-. simpl. auto.
  - destruct (call k (m, c)) as [[m1 c1]|] eqn:Hcall; simpl in Hrun; [|discriminate].
    simpl.
    destruct k as [i| | |b|a]; simpl in Hcall.
    + injection Hcall as <- <-. apply (IH n _ _ Hrun); assumption.
    + injection Hcall as <- <-.
      apply (IH 0 _ _ Hrun); simpl; [reflexivity|lia|lia|reflexivity].
    + unfold incrementCapacity in Hcall.
      destruct (Z.eqb_spec (begin_ c) 0) as [Hz|Hnz]; simpl in Hcall; [|discriminate].
      injection Hcall as <- <-.
      apply (IH (n + 1) _ _ Hrun); simpl.
      * rewrite Hcap. apply CIntFacts.wrap_add.
      * exact Hpos.
      * intros Hnz. contradiction.
      * intros _. auto.
    + unfold initialize in Hcall.
      destruct (begin_ c =? 0); simpl in Hcall; [|discriminate].
      destruct (Z.eqb_spec (nAtom_ c) 0) as [Hz|Hnz]; simpl in Hcall; [|discriminate].
      destruct (Z.leb_spec 0 (atomCapacity_ c)); simpl in Hcall; [|discriminate].
      injection Hcall as <- <-.
      apply (IH n _ _ Hrun); simpl; [exact Hcap|lia|intros _; lia|intros _; exact Hz].
    + unfold append in Hcall.
      destruct (Z.eqb_spec (begin_ c) 0) as [Hz|Hnz]; simpl in Hcall; [discriminate|].
      destruct (Z.ltb_spec (nAtom_ c) (atomCapacity_ c)); simpl in Hcall; [|discriminate].
      injection Hcall as <- <-.
      apply (IH n _ _ Hrun); simpl; [exact Hcap|lia|intros _; lia|].
      intros Hz. contradiction.
Qed.

Lemma incrementsFrom_nonneg (ks : list Call) (n : Z) :
  0 <= n -> 0 <= incrementsFrom n ks.
Proof.
  revert n. induction ks as [|k ks IH]; intros n Hn; simpl; [exact Hn|].
  destruct k; apply IH; lia.
Qed.

(** X3. Whatever sequence of [setId], [clear], [incrementCapacity],
    [initialize] and [append] calls is made on a cleared cell, if no
    assertion fails then [nAtom()] is the number of [append] calls since the
    last [clear()], a bound cell holds no more atoms than [atomCapacity()]
    and a cell without storage holds none, and [atomCapacity()] is the
    number of [incrementCapacity()] calls since the last [clear()] as that
    number fits an [int]: the number itself while it is at most the largest
    [int], and the number reduced into the range of [int] beyond. *)
Theorem capacity_counts_increments (ks : list Call) (m m' : slots) (c0 c' : t) :
  calls ks (m, clear c0) = Ok (m', c') ->
  atomCapacity c' = CInt.wrap (incrementsFrom 0 ks) /\
  nAtom c' = appendsFrom 0 ks /\
  0 <= nAtom c' /\
  (begin_ c' <> 0 -> nAtom c' <= atomCapacity c') /\
  (begin_ c' = 0 -> nAtom c' = 0) /\
  (incrementsFrom 0 ks <= CInt.max ->
   atomCapacity c' = incrementsFrom 0 ks /\ nAtom c' <= atomCapacity c').
Proof.
  intros Hrun.
  destruct (calls_counts ks 0 m m' (clear c0) c' Hrun)
    as (Hcap & Hn & Hpos & Hbound & Hnull); simpl; try reflexivity; try lia.
  unfold atomCapacity, nAtom. repeat (split; [assumption|]).
  intros Hmax. pose proof (incrementsFrom_nonneg ks 0 (Z.le_refl 0)) as Hinc.
  rewrite CIntFacts.wrap_small in Hcap by (unfold CInt.min, CInt.max in *; lia).
  split; [exact Hcap|].
  destruct (Z.eq_dec (begin_ c') 0) as [Hz|Hnz].
  - rewrite (Hnull Hz), Hcap. exact Hinc.
  - apply Hbound. exact Hnz.
Qed.

(** A cell is sized for two atoms and receives one, is cleared, and is
    sized again for one atom. *)
Lemma capacity_counts_increments_witness :
  calls [IncrementCapacity; IncrementCapacity; Initialize 100; Append 7;
         Clear; SetId 4; IncrementCapacity]
        (∅, clear (mk 5 0 0 3 4 1 false))
  = Ok (<[100 := 7]> ∅, mk 0 0 0 0 1 4 false) /\
  atomCapacity (mk 0 0 0 0 1 4 false) = 1 /\ nAtom (mk 0 0 0 0 1 4 false) = 0.
Proof.
  assert (Hrun : calls [IncrementCapacity; IncrementCapacity; Initialize 100;
                        Append 7; Clear; SetId 4; IncrementCapacity]
                       (∅, clear (mk 5 0 0 3 4 1 false))
                 = Ok (<[100 := 7]> ∅, mk 0 0 0 0 1 4 false))
    by (unfold calls; simpl; reflexivity).
  split; [exact Hrun|].
  destruct (capacity_counts_increments _ _ _ _ _ Hrun) as (Hcap & Hn & _).
  split; [exact Hcap|exact Hn].
Defined.

End SpCellStorage.

(** ** TextFileOArchive: lines and formats *)

Module TextFileOArchiveLines.
Import Ios TextFileOArchive TextFileOArchiveOperators.

Lemma lineBreaks_app (l1 l2 : list Item) :
  lineBreaks (l1 ++ l2) = (lineBreaks l1 + lineBreaks l2)%nat.
Proof. unfold lineBreaks. rewrite map_app, list_sum_app. reflexivity. Qed.

Lemma save_lineBreaks (v : Value) (s : ostream) :
  lineBreaks (written (save v s))
  = (lineBreaks (written s) + 1 + (if isString v then 1 else 0)
     + newlinesIn v)%nat.
Proof.
  destruct v; unfold save, serialize, pack, pack_double; simpl;
    rewrite ?lineBreaks_app; unfold lineBreaks; simpl; lia.
Qed.

(** X4. Saving a string writes its length, narrowed to [int] and converted
    under the settings in force, and a line break, and then its characters
    as they are, with width 0, and a line break.  A chain of saved objects
    brings one line break for each object, one more for each string among
    them, and the line feeds that the saved strings and characters hold: a
    string without a line feed takes two lines. *)
Theorem string_is_saved_as_length_and_text (str : string) (vs : list Value)
    (s : ostream) :
  written (save (VString str) s)
  = written s
    ++ [Formatted (flags_ s) (width_ s) (precision_ s)
          (VInt (CInt.wrap (Z.of_nat (String.length str))));
        EndOfLine;
        Formatted (flags_ s) 0 (precision_ s) (VString str);
        EndOfLine] /\
  lineBreaks (written (save (VString str) s))
  = (lineBreaks (written s) + 2 + newlinesOf str)%nat /\
  lineBreaks (written (saveAll vs s))
  = (lineBreaks (written s) + length vs
     + length (List.filter isString vs) + list_sum (map newlinesIn vs))%nat.
Proof.
  split; [|split].
  - unfold save, serialize, pack. simpl. rewrite <- !app_assoc. reflexivity.
  - rewrite save_lineBreaks. simpl. lia.
  - unfold saveAll. revert s. induction vs as [|v vs IH]; intros s; simpl.
    + lia.
    + rewrite IH, save_lineBreaks. destruct (isString v); simpl; lia.
Qed.

Lemma fold_insert_array (vs : list Value) (s : ostream) :
  let s' := fold_left (fun s v => insert (VString "  ") (insert v s)) vs s in
  flags_ s' = flags_ s /\ precision_ s' = precision_ s /\
  width_ s' = match vs with [] => width_ s | _ :: _ => 0 end /\
  written s'
  = written s
    ++ match vs with
       | [] => []
       | v :: rest => element s (width_ s) v ++ flat_map (element s 0) rest
       end.
Proof.
  revert s. induction vs as [|v vs IH]; intros s; simpl.
  - rewrite app_nil_r. auto.
  - destruct (IH (insert (VString "  ") (insert v s))) as (Hf & Hp & Hw & Hitems).
    simpl in Hf, Hp, Hw, Hitems.
    split; [exact Hf|]. split; [exact Hp|]. split.
    + rewrite Hw. destruct vs; reflexivity.
    + rewrite Hitems. rewrite <- !app_assoc. simpl. f_equal. f_equal. f_equal.
      destruct vs as [|v' vs]; reflexivity.
Qed.

(** X5. [pack] of an array writes every element followed by two blanks, the
    last one too, and then one line break.  A width set beforehand applies
    to the first element only; flags and precision stay as they are.  For an
    array without elements only the line break is written and the width is
    not consumed. *)
Theorem pack_array_layout (array : list Value) (s : ostream) :
  written (pack_array array s)
  = written s
    ++ match array with
       | [] => []
       | v :: rest => element s (width_ s) v ++ flat_map (element s 0) rest
       end
    ++ [EndOfLine] /\
  flags_ (pack_array array s) = flags_ s /\
  precision_ (pack_array array s) = precision_ s /\
  width_ (pack_array array s)
  = match array with [] => width_ s | _ :: _ => 0 end.
Proof.
  destruct (fold_insert_array array s) as (Hf & Hp & Hw & Hitems).
  unfold pack_array. simpl. rewrite Hitems, <- app_assoc. auto.
Qed.

Lemma save_other_settings (v : Value) (s : ostream) :
  isDouble v = false ->
  flags_ (save v s) = flags_ s /\ precision_ (save v s) = precision_ s /\
  exists items,
    written (save v s) = written s ++ items /\
    forall fl w p x, In (Formatted fl w p x) items ->
      fl = flags_ s /\ p = precision_ s.
Proof.
  intros Hv.
  assert (Hone : forall x, exists items,
             written (pack x s) = written s ++ items /\
             forall fl w p y, In (Formatted fl w p y) items ->
               fl = flags_ s /\ p = precision_ s).
  { intros x. exists [Formatted (flags_ s) (width_ s) (precision_ s) x; EndOfLine].
    split; [unfold pack; simpl; rewrite <- app_assoc; reflexivity|].
    intros fl w p y [H|[H|[]]]; [|discriminate]. injection H as <- _ <- _. auto. }
  destruct v as [b|c|z|x|x|str]; try discriminate Hv;
    try (split; [reflexivity|]; split; [reflexivity|]; apply Hone).
  split; [reflexivity|]. split; [reflexivity|].
  eexists. split.
  - unfold save, serialize, pack. simpl. rewrite <- !app_assoc. reflexivity.
  - intros fl w p y Hin. simpl in Hin.
    destruct Hin as [H|[H|[H|[H|[]]]]]; try discriminate;
      injection H as <- _ <- _; auto.
Qed.

(** X6. As long as no double is among them, saved objects leave the flags and
    the precision of the stream as they were, and every one of them is
    converted under those flags and that precision. *)
Theorem only_doubles_change_the_format (vs : list Value) (s : ostream) :
  List.Forall (fun v => isDouble v = false) vs ->
  flags_ (saveAll vs s) = flags_ s /\
  precision_ (saveAll vs s) = precision_ s /\
  exists items,
    written (saveAll vs s) = written s ++ items /\
    forall fl w p x, In (Formatted fl w p x) items ->
      fl = flags_ s /\ p = precision_ s.
Proof.
  intros Hvs. revert s. induction Hvs as [|v vs Hv Hvs IH]; intros s.
  - split; [reflexivity|]. split; [reflexivity|]. exists [].
    split; [simpl; rewrite app_nil_r; reflexivity|]. intros fl w p x [].
  - destruct (save_other_settings v s Hv) as (Hf1 & Hp1 & items1 & Hw1 & Hin1).
    destruct (IH (save v s)) as (Hf & Hp & items & Hw & Hin).
    unfold saveAll in *. simpl.
    split; [rewrite Hf; exact Hf1|]. split; [rewrite Hp; exact Hp1|].
    exists (items1 ++ items). split.
    + rewrite Hw, Hw1, <- app_assoc. reflexivity.
    + intros fl w p x Hx. apply in_app_or in Hx. destruct Hx as [Hx|Hx].
      * apply (Hin1 _ _ _ _ Hx).
      * rewrite <- Hf1, <- Hp1. apply (Hin _ _ _ _ Hx).
Qed.

(** On a fresh stream, a boolean, an integer, a float and a string are all
    converted with the default flags and precision 6. *)
Lemma only_doubles_change_the_format_witness :
  flags_ (saveAll [VBool true; VInt 3; VFloat 1; VString "ab"] fresh)
  = flags_ fresh /\
  precision_ (saveAll [VBool true; VInt 3; VFloat 1; VString "ab"] fresh) = 6.
Proof.
  destruct (only_doubles_change_the_format
              [VBool true; VInt 3; VFloat 1; VString "ab"] fresh)
    as (Hf & Hp & _).
  - repeat constructor.
  - split; [exact Hf|exact Hp].
Defined.

Lemma lor_scientific_twice (f : fmtflags) :
  Z.lor (Z.lor f scientific) scientific = Z.lor f scientific.
Proof. rewrite <- Z.lor_assoc, Z.lor_diag. reflexivity. Qed.

Lemma save_doubles_alike (f0 : fmtflags) (v : Value) (s : ostream) :
  flags_ s = f0 \/ flags_ s = Z.lor f0 scientific ->
  (flags_ (save v s) = f0 \/ flags_ (save v s) = Z.lor f0 scientific) /\
  exists items,
    written (save v s) = written s ++ items /\
    forall fl w p x, In (Formatted fl w p (VDouble x)) items ->
      fl = Z.lor f0 scientific /\ w = 25 /\ p = 17.
Proof.
  intros Hs.
  assert (Hsci : Z.lor (flags_ s) scientific = Z.lor f0 scientific).
  { destruct Hs as [->| ->]; [reflexivity|apply lor_scientific_twice]. }
  destruct v as [b|c|z|x|x|str];
    try (split; [exact Hs|];
         eexists; split;
         [unfold save, serialize, pack; simpl; rewrite <- ?app_assoc; reflexivity|];
         intros fl w p y Hin; simpl in Hin;
         repeat (destruct Hin as [Hin|Hin]; [discriminate|]); destruct Hin).
  split; [right; exact Hsci|].
  eexists. split.
  - unfold save, serialize, pack_double. simpl. rewrite <- app_assoc. reflexivity.
  - intros fl w p y [H|[H|[]]]; [|discriminate].
    injection H as <- <- <- _. auto.
Qed.

(** X7. Every double saved through the archive is converted alike, wherever it
    stands in the chain and whatever is saved around it: with the flags the
    stream had at the start plus [scientific], width 25 and precision 17. *)
Theorem doubles_are_saved_alike (vs : list Value) (s : ostream) :
  exists items,
    written (saveAll vs s) = written s ++ items /\
    forall fl w p x, In (Formatted fl w p (VDouble x)) items ->
      fl = Z.lor (flags_ s) scientific /\ w = 25 /\ p = 17.
Proof.
  assert (H : forall f0 s,
             flags_ s = f0 \/ flags_ s = Z.lor f0 scientific ->
             exists items,
               written (saveAll vs s) = written s ++ items /\
               forall fl w p x, In (Formatted fl w p (VDouble x)) items ->
                 fl = Z.lor f0 scientific /\ w = 25 /\ p = 17).
  { intros f0. induction vs as [|v vs IH]; intros s0 Hs0.
    - exists []. split; [simpl; rewrite app_nil_r; reflexivity|].
      intros fl w p x [].
    - destruct (save_doubles_alike f0 v s0 Hs0) as (Hs1 & items1 & Hw1 & Hin1).
      destruct (IH (save v s0) Hs1) as (items & Hw & Hin).
      exists (items1 ++ items). split.
      + unfold saveAll in *. simpl. rewrite Hw, Hw1, <- app_assoc. reflexivity.
      + intros fl w p x Hx. apply in_app_or in Hx. destruct Hx as [Hx|Hx].
        * apply (Hin1 _ _ _ _ Hx).
        * apply (Hin _ _ _ _ Hx). }
  apply (H (flags_ s) s). left. reflexivity.
Qed.

End TextFileOArchiveLines.

(** ** MdCoulombPotential: the totals *)

Module MdCoulombPotentialTotalsFacts.
Import MdCoulombPotential MdCoulombPotentialTotals.

Section Totals.
Context {Sub : Type} `{KSpaceRoutines Sub}.
Variable Accumulator : Type.
Variable accumulatorEnergy : Accumulator -> Accumulator * double.
Variable accumulatorStress : Accumulator -> Accumulator * Tensor.

(** X8. [energy()] returns the k-space energy plus what the real-space
    accumulator reports, and [stress()] the k-space stress plus the
    accumulator's.  The k-space part is computed by the subclass routine when
    its cache is unset and only then, the accumulator is consulted once, and
    neither total runs the other quantity's routine.  The subclass routines
    are assumed to leave the quantity they compute set. *)
Theorem totals_add_the_cached_part
    (Henergy : sets_energy) (Hstress : sets_stress)
    (acc : Accumulator) (o : t Sub) :
  (let o1 := if Setable.isSet (kSpaceEnergy_ o) then o else computeEnergy o in
   energy Accumulator accumulatorEnergy acc o
   = (if Setable.isSet (kSpaceEnergy_ o) then [] else [CallComputeEnergy],
      (fst (accumulatorEnergy acc), o1),
      Ok (Setable.value_ (kSpaceEnergy_ o1) + snd (accumulatorEnergy acc))%R) /\
   fst (fst (energy Accumulator accumulatorEnergy acc o1)) = []) /\
  (let o1 := if Setable.isSet (kSpaceStress_ o) then o else computeStress o in
   stress Accumulator accumulatorStress acc o
   = (if Setable.isSet (kSpaceStress_ o) then [] else [CallComputeStress],
      (fst (accumulatorStress acc), o1),
      Ok (tplus (Setable.value_ (kSpaceStress_ o1))
                (snd (accumulatorStress acc)))) /\
   fst (fst (stress Accumulator accumulatorStress acc o1)) = []).
Proof.
  split.
  - unfold energy, kSpaceEnergy.
    destruct (Setable.isSet (kSpaceEnergy_ o)) eqn:Hset; simpl.
    + rewrite Hset. simpl.
      rewrite (MdCoulombPotentialFacts.value_of_set _ Hset). auto.
    + rewrite (Henergy o). simpl.
      rewrite (MdCoulombPotentialFacts.value_of_set _ (Henergy o)). auto.
  - unfold stress, kSpaceStress.
    destruct (Setable.isSet (kSpaceStress_ o)) eqn:Hset; simpl.
    + rewrite Hset. simpl.
      rewrite (MdCoulombPotentialFacts.value_of_set _ Hset). auto.
    + rewrite (Hstress o). simpl.
      rewrite (MdCoulombPotentialFacts.value_of_set _ (Hstress o)). auto.
Qed.

End Totals.

(** The test subclass and an accumulator that reports the energy 2 and
    counts its reads: the first [energy()] runs [computeEnergy] and returns
    3 + 2. *)
Lemma totals_add_the_cached_part_witness :
  energy nat (fun n => (S n, 2%R)) 0%nat (construct 0 zeroTensor tt)
  = ([CallComputeEnergy], (1%nat, computeEnergy (construct 0 zeroTensor tt)),
     Ok (3 + 2)%R).
Proof.
  exact (proj1 (proj1 (totals_add_the_cached_part nat
                         (fun n => (S n, 2%R)) (fun n => (S n, unitTensor))
                         MdCoulombPotentialFacts.testRoutines_set_energy
                         MdCoulombPotentialFacts.testRoutines_set_stress
                         0%nat (construct 0 zeroTensor tt)))).
Defined.

End MdCoulombPotentialTotalsFacts.

(** ** computeKSpaceCharge: the charge transform *)

Module ChargeDensityFacts.
Import Space LoopFacts WaveSet FineEwaldCoulombPotential EnergyFacts ChargeDensity.

Lemma lookup_map {A B : Type} (f : A -> B) (l : list A) (i : nat) :
  map f l !! i = option_map f (l !! i).
Proof.
  revert i. induction l as [|x l IH]; intros [|i]; simpl; auto.
Qed.

(** The loops over species, molecules and atoms are one loop over the
    atoms. *)
Lemma foldM_concat {A St : Type} (body : A -> St -> result St)
    (ls : list (list A)) (s : St) :
  foldM (foldM body) ls s = foldM body (concat ls) s.
Proof.
  revert s. induction ls as [|l ls IH]; intros s; simpl; [reflexivity|].
  rewrite foldM_app. destruct (foldM body l s); simpl; [apply IH|reflexivity].
Qed.

Lemma foldM_atoms {St : Type} (body : Atom -> St -> result St)
    (sys : System) (s : St) :
  foldM (foldM (foldM body)) sys s = foldM body (atomsOf sys) s.
Proof. unfold atomsOf. rewrite !foldM_concat. reflexivity. Qed.

Lemma foldM_ext {A St : Type} (body body' : A -> St -> result St)
    (l : list A) (s : St) :
  (forall a s, In a l -> body a s = body' a s) ->
  foldM body l s = foldM body' l s.
Proof.
  revert s. induction l as [|a l IH]; intros s H; simpl; [reflexivity|].
  rewrite (H a s) by (left; reflexivity).
  destruct (body' a s); simpl; [|reflexivity].
  apply IH. intros b t Hb. apply H. right. exact Hb.
Qed.

(** What a loop that returns keeps, when every step that returns keeps
    it. *)
Lemma foldM_preserves {A St : Type} (P : St -> Prop)
    (body : A -> St -> result St) (l : list A) (s s' : St) :
  (forall a s s', body a s = Ok s' -> P s -> P s') ->
  foldM body l s = Ok s' -> P s -> P s'.
Proof.
  intros Hbody. revert s. induction l as [|a l IH]; intros s Hrun Hs; simpl in Hrun.
  - injection Hrun as <-. exact Hs.
  - destruct (body a s) as [s1|] eqn:Hstep; simpl in Hrun; [|discriminate].
    apply (IH s1 Hrun). exact (Hbody a s s1 Hstep Hs).
Qed.

Lemma knownTypes_atomsOf (st : t) (sys : System) :
  knownTypes st sys -> List.Forall (knownType st) (atomsOf sys).
Proof.
  intros H. unfold atomsOf.
  apply List.Forall_forall. intros a Ha.
  apply in_concat in Ha. destruct Ha as (molecule & Hm & Ha).
  apply in_concat in Hm. destruct Hm as (species & Hs & Hm).
  pose proof (proj1 (List.Forall_forall _ _) H species Hs) as H1.
  pose proof (proj1 (List.Forall_forall _ _) H1 molecule Hm) as H2.
  exact (proj1 (List.Forall_forall _ _) H2 a Ha).
Qed.

Lemma chargeOf_chargeValue (st : t) (atom : Atom) :
  knownType st atom -> chargeOf st atom = Ok (chargeValue st atom).
Proof.
  intros [Hlo Hhi]. unfold chargeOf, chargeValue.
  replace (0 <=? typeId atom) with true by (symmetry; apply Z.leb_le; lia).
  simpl.
  destruct (lookup_lt_is_Some_2 (atomTypes st) (Z.to_nat (typeId atom)))
    as [type Htype]; [lia|].
  rewrite Htype. reflexivity.
Qed.

(** The loop over waves for one atom, on modes given by a function of the
    wave. *)
Lemma addAtomCharge_map (ws : GArray.t IntVector) (rg : Vector) (q : double)
    (f : IntVector -> DCMPLX) (c : Z) :
  addAtomCharge ws rg q (GArray.mk (map f (GArray.data ws)) c)
  = Ok (GArray.mk
          (map (fun k =>
                  cadd (f k)
                    (mkDCMPLX
                       (q * cos (vdot rg (mkVector (IZR (ix k)) (IZR (iy k))
                                                    (IZR (iz k))) * TwoPi))
                       (q * sin (vdot rg (mkVector (IZR (ix k)) (IZR (iy k))
                                                    (IZR (iz k))) * TwoPi))))
               (GArray.data ws)) c).
Proof.
  set (g := fun k : IntVector => cadd (f k) _).
  unfold addAtomCharge, for_ZM.
  match goal with
  | |- for_upM ?n ?lo ?body ?s = _ =>
      destruct (for_upM_invariant
                  (fun (i : Z) (r : GArray.t DCMPLX) =>
                     GArray.capacity r = c /\
                     length (GArray.data r) = length (GArray.data ws) /\
                     forall (j : nat) k, GArray.data ws !! j = Some k ->
                       GArray.data r !! j
                       = Some (if Z.of_nat j <? i then g k else f k))
                  body n lo s)
        as (r & Hrun & Hc & Hlen & Hr)
  end.
  - intros i r Hi (Hc & Hlen & Hr). unfold GArray.size in Hi.
    destruct (lookup_lt_is_Some_2 (GArray.data ws) (Z.to_nat i)) as [k Hk]; [lia|].
    rewrite (GArrayFacts.get_at ws _ k (proj1 Hi) Hk). simpl.
    pose proof (Hr _ _ Hk) as Hx.
    replace (Z.of_nat (Z.to_nat i) <? i) with false in Hx
      by (symmetry; apply Z.ltb_ge; lia).
    rewrite (GArrayFacts.modify_at r _ _ _ (proj1 Hi) Hx).
    eexists. split; [reflexivity|]. simpl.
    split; [exact Hc|]. split; [rewrite length_insert; exact Hlen|].
    intros j k' Hk'. destruct (Nat.eq_dec j (Z.to_nat i)) as [->|Hne].
    + rewrite list_lookup_insert_eq by lia.
      replace (Z.of_nat (Z.to_nat i) <? i + 1) with true
        by (symmetry; apply Z.ltb_lt; lia).
      rewrite Hk in Hk'. injection Hk' as <-. reflexivity.
    + rewrite list_lookup_insert_ne by auto. rewrite (Hr _ _ Hk').
      destruct (Z.ltb_spec (Z.of_nat j) i), (Z.ltb_spec (Z.of_nat j) (i + 1));
        try reflexivity; lia.
  - simpl. split; [reflexivity|]. split; [apply length_map|].
    intros j k Hk. rewrite lookup_map, Hk. simpl.
    replace (Z.of_nat j <? 0) with false by (symmetry; apply Z.ltb_ge; lia).
    reflexivity.
  - rewrite Hrun. f_equal. destruct r as [d c']. simpl in *. subst c'. f_equal.
    apply list_eq. intros j. rewrite lookup_map.
    destruct (GArray.data ws !! j) as [k|] eqn:Hk; simpl.
    + rewrite (Hr _ _ Hk).
      pose proof (lookup_lt_Some _ _ _ Hk) as Hj. unfold GArray.size.
      replace (Z.of_nat j <? 0 + Z.of_nat (Z.to_nat (Z.of_nat (length (GArray.data ws)) - 1 + 1 - 0)))
        with true by (symmetry; apply Z.ltb_lt; lia).
      reflexivity.
    + apply lookup_ge_None. apply lookup_ge_None in Hk. lia.
Qed.

Lemma foldM_atomCharge (st : t) (atoms : list Atom) (f : IntVector -> DCMPLX)
    (c : Z) :
  List.Forall (knownType st) atoms ->
  foldM (atomCharge st) atoms (GArray.mk (map f (GArray.data (waves_ st))) c)
  = Ok (GArray.mk
          (map (fun k => fold_left (fun r atom => cadd r (atomTerm st atom k))
                                   atoms (f k))
               (GArray.data (waves_ st))) c).
Proof.
  intros Hatoms. revert f. induction Hatoms as [|a atoms Ha Hatoms IH]; intros f.
  - reflexivity.
  - simpl. unfold atomCharge at 1. rewrite (chargeOf_chargeValue st a Ha). simpl.
    rewrite addAtomCharge_map. simpl. rewrite IH. reflexivity.
Qed.

Lemma map_constant {A B C : Type} (x : C) (l : list A) (l' : list B) :
  length l = length l' -> map (fun _ => x) l = map (fun _ => x) l'.
Proof.
  revert l'. induction l as [|a l IH]; intros [|b l'] H; try discriminate H.
  - reflexivity.
  - simpl. f_equal. apply IH. simpl in H. lia.
Qed.

(** The charge transform in closed form. *)
Lemma computeKSpaceCharge_modes (st : t) (sys : System) :
  knownTypes st sys ->
  length (GArray.data (rho_ st)) = length (GArray.data (waves_ st)) ->
  computeKSpaceCharge st sys
  = Ok (withRho st
          (GArray.mk (map (mode st (atomsOf sys)) (GArray.data (waves_ st)))
                     (GArray.capacity (rho_ st)))).
Proof.
  intros Hknown Hlen. unfold computeKSpaceCharge.
  rewrite foldM_atoms. unfold clearRho.
  rewrite (map_constant _ _ (GArray.data (waves_ st)) Hlen).
  rewrite (foldM_atomCharge st (atomsOf sys) (fun _ => mkDCMPLX 0 0)
             _ (knownTypes_atomsOf st sys Hknown)).
  reflexivity.
Qed.


(** X9. The charge transform in closed form.  When every atom has a known type
    and [rho_] has one entry for each wave, computeKSpaceCharge returns, and
    entry [i] of [rho_] is then the sum over all atoms of
    [charge * (cos(2 pi (rg . k)), sin(2 pi (rg . k)))] for the wave [k]
    stored at [i], with [rg] the atom's generalized position.  Nothing but
    the entries of [rho_] changes. *)
Theorem charge_transform_in_closed_form (st : t) (sys : System) :
  knownTypes st sys ->
  length (GArray.data (rho_ st)) = length (GArray.data (waves_ st)) ->
  exists rho,
    computeKSpaceCharge st sys = Ok (withRho st rho) /\
    GArray.capacity rho = GArray.capacity (rho_ st) /\
    GArray.data rho = map (mode st (atomsOf sys)) (GArray.data (waves_ st)) /\
    forall (i : nat) k, GArray.data (waves_ st) !! i = Some k ->
      GArray.get rho (Z.of_nat i) = Ok (mode st (atomsOf sys) k).
Proof.
  intros Hknown Hlen. eexists. split; [apply computeKSpaceCharge_modes; assumption|].
  simpl. split; [reflexivity|]. split; [reflexivity|].
  intros i k Hk. apply GArrayFacts.get_lookup. simpl.
  rewrite lookup_map, Hk. reflexivity.
Qed.

(** The two atoms on the cubic solver: the mode of the wave (1, 0, 0) is
    the sum of the two atoms' terms. *)
Lemma charge_transform_in_closed_form_witness :
  exists rho,
    computeKSpaceCharge cubicWaves twoAtoms = Ok (withRho cubicWaves rho) /\
    GArray.get rho 2 = Ok (mode cubicWaves (atomsOf twoAtoms) (mkIntVector 1 0 0)).
Proof.
  destruct (charge_transform_in_closed_form cubicWaves twoAtoms)
    as (rho & Hrun & _ & _ & Hget).
  - repeat constructor; simpl; lia.
  - reflexivity.
  - exists rho. split; [exact Hrun|]. exact (Hget 2%nat (mkIntVector 1 0 0) eq_refl).
Defined.

Lemma modify_shape {A : Type} (a a' : GArray.t A) (i : Z) (f : A -> A) :
  GArray.modify a i f = Ok a' ->
  length (GArray.data a') = length (GArray.data a) /\
  GArray.capacity a' = GArray.capacity a.
Proof.
  unfold GArray.modify. destruct (GArray.get a i); simpl; [|discriminate].
  intros H. injection H as <-. simpl. rewrite length_insert. auto.
Qed.

Lemma atomCharge_shape (st : t) (atom : Atom) (rho rho' : GArray.t DCMPLX) :
  atomCharge st atom rho = Ok rho' ->
  length (GArray.data rho') = length (GArray.data rho) /\
  GArray.capacity rho' = GArray.capacity rho.
Proof.
  unfold atomCharge. destruct (chargeOf st atom) as [q|]; simpl; [|discriminate].
  unfold addAtomCharge, for_ZM. rewrite for_upM_fold. intros Hrun.
  apply (foldM_preserves
           (fun r => length (GArray.data r) = length (GArray.data rho) /\
                     GArray.capacity r = GArray.capacity rho) _ _ _ _) in Hrun;
    [exact Hrun| |auto].
  intros i r r' Hstep [Hl Hc].
  destruct (GArray.get (waves_ st) i); simpl in Hstep; [|discriminate].
  apply modify_shape in Hstep. destruct Hstep as [Hl' Hc']. split; congruence.
Qed.

Lemma computeKSpaceCharge_shape (st st1 : t) (sys : System) :
  computeKSpaceCharge st sys = Ok st1 ->
  exists rho,
    st1 = withRho st rho /\
    length (GArray.data rho) = length (GArray.data (rho_ st)) /\
    GArray.capacity rho = GArray.capacity (rho_ st).
Proof.
  unfold computeKSpaceCharge. rewrite foldM_atoms.
  destruct (foldM (atomCharge st) (atomsOf sys) (clearRho (rho_ st)))
    as [rho|] eqn:Hrun; simpl; [|discriminate].
  intros H. injection H as <-. exists rho. split; [reflexivity|].
  apply (foldM_preserves
           (fun r => length (GArray.data r) = length (GArray.data (rho_ st)) /\
                     GArray.capacity r = GArray.capacity (rho_ st)) _ _ _ _) in Hrun.
  - exact Hrun.
  - intros a r r' Hstep [Hl Hc]. apply atomCharge_shape in Hstep.
    destruct Hstep as [Hl' Hc']. split; congruence.
  - unfold clearRho. simpl. rewrite length_map. auto.
Qed.

Lemma clearRho_shape (rho rho' : GArray.t DCMPLX) :
  length (GArray.data rho') = length (GArray.data rho) ->
  GArray.capacity rho' = GArray.capacity rho ->
  clearRho rho' = clearRho rho.
Proof.
  intros Hl Hc. unfold clearRho. rewrite Hc. f_equal. apply map_constant. exact Hl.
Qed.

(** X10. computeKSpaceCharge clears [rho_] before it adds the atoms up, so what
    [rho_] held beforehand plays no role: with any other contents of the
    same size the charge transform and the energy are the same.  In
    particular a call of kspaceEnergy that is repeated returns the same
    energy and leaves the solver as the first call left it. *)
Theorem stale_modes_are_discarded (st : t) (sys : System) :
  (forall rho0,
     length (GArray.data rho0) = length (GArray.data (rho_ st)) ->
     GArray.capacity rho0 = GArray.capacity (rho_ st) ->
     computeKSpaceCharge (withRho st rho0) sys = computeKSpaceCharge st sys /\
     kspaceEnergy (withRho st rho0) sys = kspaceEnergy st sys) /\
  (forall energy st1,
     kspaceEnergy st sys = Ok (energy, st1) ->
     kspaceEnergy st1 sys = Ok (energy, st1)).
Proof.
  assert (Hstale : forall rho0,
            length (GArray.data rho0) = length (GArray.data (rho_ st)) ->
            GArray.capacity rho0 = GArray.capacity (rho_ st) ->
            computeKSpaceCharge (withRho st rho0) sys = computeKSpaceCharge st sys).
  { intros rho0 Hl Hc. unfold computeKSpaceCharge. simpl.
    rewrite (clearRho_shape _ _ Hl Hc). reflexivity. }
  split.
  - intros rho0 Hl Hc. split; [apply Hstale; assumption|].
    unfold kspaceEnergy. rewrite (Hstale rho0 Hl Hc). reflexivity.
  - intros energy st1 Hrun. unfold kspaceEnergy in Hrun |- *.
    destruct (computeKSpaceCharge st sys) as [st2|] eqn:Hcharge; simpl in Hrun;
      [|discriminate].
    destruct (computeKSpaceCharge_shape _ _ _ Hcharge) as (rho & -> & Hl & Hc).
    destruct (energySum (withRho st rho)) as [total|] eqn:Hsum; simpl in Hrun;
      [|discriminate].
    injection Hrun as <- <-.
    rewrite (Hstale rho Hl Hc). simpl. rewrite Hsum. reflexivity.
Qed.

(** On the cubic solver, modes left over from an earlier configuration do
    not change the transform of the two atoms. *)
Lemma stale_modes_are_discarded_witness :
  computeKSpaceCharge
    (withRho cubicWaves
       (GArray.mk [mkDCMPLX 1 2; mkDCMPLX 3 4; mkDCMPLX 5 6] 13)) twoAtoms
  = computeKSpaceCharge cubicWaves twoAtoms.
Proof.
  exact (proj1 (proj1 (stale_modes_are_discarded cubicWaves twoAtoms)
                  (GArray.mk [mkDCMPLX 1 2; mkDCMPLX 3 4; mkDCMPLX 5 6] 13)
                  eq_refl eq_refl)).
Defined.

Lemma cos_period_Z (x : R) (m : Z) : cos (x + 2 * IZR m * PI) = cos x.
Proof.
  destruct (Z_le_gt_dec 0 m) as [Hm|Hm].
  - rewrite <- (Z2Nat.id m Hm), <- INR_IZR_INZ. apply cos_period.
  - rewrite <- (cos_period (x + 2 * IZR m * PI) (Z.to_nat (- m))).
    rewrite INR_IZR_INZ, Z2Nat.id by lia. rewrite opp_IZR. f_equal. ring.
Qed.

Lemma sin_period_Z (x : R) (m : Z) : sin (x + 2 * IZR m * PI) = sin x.
Proof.
  destruct (Z_le_gt_dec 0 m) as [Hm|Hm].
  - rewrite <- (Z2Nat.id m Hm), <- INR_IZR_INZ. apply sin_period.
  - rewrite <- (sin_period (x + 2 * IZR m * PI) (Z.to_nat (- m))).
    rewrite INR_IZR_INZ, Z2Nat.id by lia. rewrite opp_IZR. f_equal. ring.
Qed.

Lemma phase_shift (rg : Vector) (n0 n1 n2 : Z) (k : IntVector) :
  (vdot (vadd rg (mkVector (IZR n0) (IZR n1) (IZR n2)))
        (mkVector (IZR (ix k)) (IZR (iy k)) (IZR (iz k))) * TwoPi
   = vdot rg (mkVector (IZR (ix k)) (IZR (iy k)) (IZR (iz k))) * TwoPi
     + 2 * IZR (n0 * ix k + n1 * iy k + n2 * iz k) * PI)%R.
Proof.
  assert (Htwo : (2.0 = 2)%R) by lra.
  unfold vdot, vadd, TwoPi. simpl. rewrite Htwo, !plus_IZR, !mult_IZR. ring.
Qed.

Lemma atomCharge_image (st : t) (atom atom' : Atom) (rho : GArray.t DCMPLX) :
  image st atom atom' -> atomCharge st atom' rho = atomCharge st atom rho.
Proof.
  intros (Htype & n0 & n1 & n2 & Hrg). unfold atomCharge.
  assert (Hq : chargeOf st atom' = chargeOf st atom)
    by (unfold chargeOf; rewrite Htype; reflexivity).
  rewrite Hq, Hrg. destruct (chargeOf st atom) as [q|]; simpl; [|reflexivity].
  unfold addAtomCharge, for_ZM. rewrite !for_upM_fold.
  apply foldM_ext. intros i r _.
  destruct (GArray.get (waves_ st) i) as [k|]; simpl; [|reflexivity].
  rewrite phase_shift, cos_period_Z, sin_period_Z. reflexivity.
Qed.

Lemma foldM_images (st : t) (atoms atoms' : list Atom) (rho : GArray.t DCMPLX) :
  List.Forall2 (image st) atoms atoms' ->
  foldM (atomCharge st) atoms' rho = foldM (atomCharge st) atoms rho.
Proof.
  intros H. revert rho. induction H as [|a a' l l' Ha Hl IH]; intros rho; simpl.
  - reflexivity.
  - rewrite (atomCharge_image st a a' rho Ha).
    destruct (atomCharge st a rho); simpl; [apply IH|reflexivity].
Qed.

Lemma Forall2_concat {A B : Type} (R : A -> B -> Prop)
    (ls : list (list A)) (ls' : list (list B)) :
  List.Forall2 (List.Forall2 R) ls ls' -> List.Forall2 R (concat ls) (concat ls').
Proof.
  induction 1 as [|l l' ls ls' Hl Hls IH]; simpl.
  - constructor.
  - apply List.Forall2_app; assumption.
Qed.

(** X11. Periodicity.  Replacing atoms by periodic images, whose generalized
    coordinates differ from theirs by integers, changes neither the charge
    transform nor the k-space energy. *)
Theorem periodic_images_have_the_same_energy (st : t) (sys sys' : System) :
  List.Forall2 (List.Forall2 (List.Forall2 (image st))) sys sys' ->
  computeKSpaceCharge st sys' = computeKSpaceCharge st sys /\
  kspaceEnergy st sys' = kspaceEnergy st sys.
Proof.
  intros Himages.
  assert (Hcharge : computeKSpaceCharge st sys' = computeKSpaceCharge st sys).
  { unfold computeKSpaceCharge. rewrite !foldM_atoms.
    rewrite (foldM_images st (atomsOf sys) (atomsOf sys')); [reflexivity|].
    unfold atomsOf. apply Forall2_concat, Forall2_concat. exact Himages. }
  split; [exact Hcharge|]. unfold kspaceEnergy. rewrite Hcharge. reflexivity.
Qed.

(** The cubic cell of edge [2 PI]: moving the charged atom from the origin
    by one edge along the first axis leaves the energy as it is. *)
Lemma periodic_images_have_the_same_energy_witness :
  kspaceEnergy cubicWaves
    [[[mkAtom (mkVector (2 * PI) 0 0) (mkVector 0 0 0) 0;
       mkAtom (mkVector 1 2 3) (mkVector 0 0 0) 1]]]
  = kspaceEnergy cubicWaves twoAtoms.
Proof.
  apply (periodic_images_have_the_same_energy cubicWaves twoAtoms).
  assert (Hpi : (0 < PI)%R) by apply PI_RGT_0.
  constructor; [|constructor]. constructor; [|constructor].
  constructor; [|constructor; [|constructor]].
  - split; [reflexivity|]. exists 1, 0, 0.
    simpl. unfold vadd, vscale. simpl. f_equal; field; lra.
  - split; [reflexivity|]. exists 0, 0, 0.
    simpl. unfold vadd, vscale. simpl. f_equal; ring.
Defined.


Lemma atomCharge_uncharged (st : t) (atom : Atom) (c : Z) :
  chargeOf st atom = Ok 0%R ->
  atomCharge st atom
    (GArray.mk (map (fun _ => mkDCMPLX 0 0) (GArray.data (waves_ st))) c)
  = Ok (GArray.mk (map (fun _ => mkDCMPLX 0 0) (GArray.data (waves_ st))) c).
Proof.
  intros Hq. unfold atomCharge. rewrite Hq. simpl.
  rewrite (addAtomCharge_map (waves_ st) _ 0 (fun _ => mkDCMPLX 0 0) c).
  f_equal. f_equal. apply map_ext. intros k. unfold cadd. simpl.
  f_equal; ring.
Qed.

Lemma sumR_energyTerms_zero (gs : list double) (n : list IntVector) :
  sumR (energyTerms gs (map (fun _ => mkDCMPLX 0 0) n)) = 0%R.
Proof.
  revert n. induction gs as [|g gs IH]; intros [|k n]; simpl; try reflexivity.
  unfold energyTerms in IH. rewrite IH. ring.
Qed.

(** A loop that rewrites the elements leaves the container as it is when
    its body leaves every element as it is. *)
Lemma mapM_unchanged {A St : Type} (Q : A -> Prop)
    (body : St -> A -> result (St * A)) (l : list A) (s : St) :
  (forall a, Q a -> body s a = Ok (s, a)) ->
  List.Forall Q l -> mapM body s l = Ok (s, l).
Proof.
  intros Hbody Hl. induction Hl as [|a l Ha Hl IH]; simpl; [reflexivity|].
  rewrite (Hbody a Ha). simpl. rewrite IH. reflexivity.
Qed.

(** X12. A system without charge.  When the type of every atom has charge 0 (in
    particular when there is no atom), and [g_] and [rho_] have one entry for
    each wave, all Fourier modes are 0 after the charge transform,
    kspaceEnergy returns 0, and addKSpaceForces returns the atoms exactly as
    they were, without touching the tables of phase factors. *)
Theorem uncharged_system_is_left_alone (st : t) (sys : System) :
  uncharged st sys -> parallelArrays st ->
  kspaceEnergy st sys = Ok (0%R, withRho st (clearRho (rho_ st))) /\
  addKSpaceForces st sys = Ok (withRho st (clearRho (rho_ st)), sys).
Proof.
  intros Hsys [Hg Hrho].
  assert (Hcharge : computeKSpaceCharge st sys
                    = Ok (withRho st (clearRho (rho_ st)))).
  { unfold computeKSpaceCharge. rewrite foldM_atoms. unfold clearRho.
    rewrite (map_constant _ _ (GArray.data (waves_ st)) Hrho).
    assert (Hatoms : List.Forall (fun atom => chargeOf st atom = Ok 0%R)
                       (atomsOf sys)).
    { unfold atomsOf. apply List.Forall_forall. intros a Ha.
      apply in_concat in Ha. destruct Ha as (molecule & Hm & Ha).
      apply in_concat in Hm. destruct Hm as (species & Hs & Hm).
      pose proof (proj1 (List.Forall_forall _ _) Hsys species Hs) as H1.
      pose proof (proj1 (List.Forall_forall _ _) H1 molecule Hm) as H2.
      exact (proj1 (List.Forall_forall _ _) H2 a Ha). }
    induction Hatoms as [|a atoms Ha Hatoms IH]; [reflexivity|].
    simpl. rewrite (atomCharge_uncharged st a _ Ha). simpl. exact IH. }
  split.
  - unfold kspaceEnergy. rewrite Hcharge. simpl rbind.
    rewrite energySum_ok.
    + simpl. unfold clearRho. simpl.
      rewrite (map_constant _ _ (GArray.data (waves_ st)) Hrho).
      rewrite sumR_energyTerms_zero. f_equal. f_equal.
      rewrite Rmult_0_l, Rmult_0_r. reflexivity.
    + split; simpl; [exact Hg|]. rewrite length_map. exact Hrho.
  - unfold addKSpaceForces. rewrite Hcharge. simpl rbind.
    apply (mapM_unchanged (List.Forall (List.Forall
                             (fun atom => chargeOf st atom = Ok 0%R))));
      [|exact Hsys].
    intros species Hspecies.
    apply (mapM_unchanged (List.Forall (fun atom => chargeOf st atom = Ok 0%R)));
      [|exact Hspecies].
    intros molecule Hmolecule.
    apply (mapM_unchanged (fun atom => chargeOf st atom = Ok 0%R));
      [|exact Hmolecule].
    intros atom Hatom. unfold atomForce.
    change (chargeOf (withRho st (clearRho (rho_ st))) atom)
      with (chargeOf st atom).
    rewrite Hatom. simpl.
    replace (Rgtb (Rabs 0) EPS) with false; [reflexivity|].
    symmetry. apply ForceFacts.Rgtb_false. rewrite Rabs_R0. unfold EPS. lra.
Qed.

(** Two atoms of the uncharged type on the cubic solver. *)
Lemma uncharged_system_is_left_alone_witness :
  let sys := [[[mkAtom (mkVector 0 0 0) (mkVector 1 1 1) 1;
                mkAtom (mkVector 1 2 3) (mkVector 0 0 0) 1]]] in
  kspaceEnergy cubicWaves sys
  = Ok (0%R, withRho cubicWaves (clearRho (rho_ cubicWaves))) /\
  addKSpaceForces cubicWaves sys
  = Ok (withRho cubicWaves (clearRho (rho_ cubicWaves)), sys).
Proof.
  apply (uncharged_system_is_left_alone cubicWaves).
  - repeat constructor.
  - split; reflexivity.
Defined.

Lemma tabulate_shape (rgj : double) (base : Z) (fexp fexp' : GArray.t DCMPLX) :
  tabulate rgj base fexp = Ok fexp' ->
  length (GArray.data fexp') = length (GArray.data fexp) /\
  GArray.capacity fexp' = GArray.capacity fexp.
Proof.
  unfold tabulate.
  destruct (GArray.modify fexp 0 _) as [f1|] eqn:Hfirst; simpl; [|discriminate].
  apply modify_shape in Hfirst. destruct Hfirst as [Hl1 Hc1].
  unfold for_ZM. rewrite for_upM_fold. intros Hrun.
  apply (foldM_preserves
           (fun f => length (GArray.data f) = length (GArray.data fexp) /\
                     GArray.capacity f = GArray.capacity fexp) _ _ _ _) in Hrun;
    [exact Hrun| |auto].
  intros i f f' Hstep [Hl Hc].
  destruct (GArray.get f (i - 1)); simpl in Hstep; [|discriminate].
  apply modify_shape in Hstep. destruct Hstep as [Hl' Hc']. split; congruence.
Qed.

Lemma atomForce_sameTables (st s s' : t) (b : Z -> Vector) (prefactor : double)
    (atom atom' : Atom) :
  sameTables st s -> atomForce b prefactor s atom = Ok (s', atom') ->
  sameTables st s'.
Proof.
  intros (f0 & f1 & f2 & -> & H0 & H1 & H2) Hrun. unfold atomForce in Hrun.
  destruct (chargeOf _ atom) as [q|]; simpl in Hrun; [|discriminate].
  destruct (Rgtb (Rabs q) EPS).
  - unfold tabulateAll in Hrun. simpl in Hrun.
    destruct (tabulate _ _ f0) as [g0|] eqn:T0; simpl in Hrun; [|discriminate].
    destruct (tabulate _ _ f1) as [g1|] eqn:T1; simpl in Hrun; [|discriminate].
    destruct (tabulate _ _ f2) as [g2|] eqn:T2; simpl in Hrun; [|discriminate].
    destruct (generalizedForce _); simpl in Hrun; [|discriminate].
    injection Hrun as <- _.
    apply tabulate_shape in T0, T1, T2.
    exists g0, g1, g2. split; [reflexivity|].
    destruct T0, T1, T2, H0, H1, H2. repeat split; congruence.
  - injection Hrun as <- _. exists f0, f1, f2. auto.
Qed.

(** X13. kspaceEnergy and addKSpaceForces never change the waves, their squared
    lengths, their weights, the ranges, the bases or the parameters:
    kspaceEnergy rewrites the entries of [rho_], addKSpaceForces those of
    [rho_] and of the three tables of phase factors, and all four arrays keep
    their size and capacity. *)
Theorem energy_and_forces_keep_the_waves (st st' : t) (sys sys' : System)
    (energy : double) :
  (kspaceEnergy st sys = Ok (energy, st') ->
   exists rho,
     st' = withRho st rho /\
     length (GArray.data rho) = length (GArray.data (rho_ st)) /\
     GArray.capacity rho = GArray.capacity (rho_ st)) /\
  (addKSpaceForces st sys = Ok (st', sys') ->
   exists rho,
     sameTables (withRho st rho) st' /\
     length (GArray.data rho) = length (GArray.data (rho_ st)) /\
     GArray.capacity rho = GArray.capacity (rho_ st)).
Proof.
  split.
  - unfold kspaceEnergy. intros Hrun.
    destruct (computeKSpaceCharge st sys) as [st1|] eqn:Hcharge; simpl in Hrun;
      [|discriminate].
    destruct (energySum st1); simpl in Hrun; [|discriminate].
    injection Hrun as _ <-. exact (computeKSpaceCharge_shape _ _ _ Hcharge).
  - unfold addKSpaceForces. intros Hrun.
    destruct (computeKSpaceCharge st sys) as [st1|] eqn:Hcharge; simpl in Hrun;
      [|discriminate].
    destruct (computeKSpaceCharge_shape _ _ _ Hcharge) as (rho & -> & Hl & Hc).
    exists rho. split; [|split; assumption].
    set (st1 := withRho st rho) in *.
    apply (mapM_Forall2 _ (sameTables st1) (fun _ _ => True)) in Hrun.
    + exact (proj1 Hrun).
    + intros s species s1 species1 Hs Hspecies. split; [|exact I].
      apply (mapM_Forall2 _ (sameTables st1) (fun _ _ => True)) in Hspecies;
        [exact (proj1 Hspecies)| |exact Hs].
      intros u molecule u1 molecule1 Hu Hmolecule. split; [|exact I].
      apply (mapM_Forall2 _ (sameTables st1) (fun _ _ => True)) in Hmolecule;
        [exact (proj1 Hmolecule)| |exact Hu].
      intros v atom v1 atom1 Hv Hatom. split; [|exact I].
      exact (atomForce_sameTables st1 v v1 _ _ atom atom1 Hv Hatom).
    + exists (fexp0_ st1), (fexp1_ st1), (fexp2_ st1).
      split; [destruct st1; reflexivity|auto].
Qed.

(** The two atoms on the cubic solver: the forces return, and the object
    they leave has the waves, weights and ranges of the cubic solver. *)
Lemma energy_and_forces_keep_the_waves_witness :
  exists st' sys',
    addKSpaceForces cubicWaves twoAtoms = Ok (st', sys') /\
    waves_ st' = waves_ cubicWaves /\ g_ st' = g_ cubicWaves /\
    range1_ st' = range1_ cubicWaves /\ range2_ st' = range2_ cubicWaves.
Proof.
  assert (Hknown : knownTypes cubicWaves twoAtoms)
    by (repeat constructor; simpl; lia).
  destruct (ForceFacts.addKSpaceForces_cubicWaves twoAtoms Hknown)
    as (st' & sys' & Hrun).
  exists st', sys'. split; [exact Hrun|].
  destruct (proj2 (energy_and_forces_keep_the_waves cubicWaves st' twoAtoms
                     sys' 0%R) Hrun)
    as (rho & (f0 & f1 & f2 & -> & _) & _).
  repeat split.
Defined.

End ChargeDensityFacts.

(** ** makeWaves: one wave of each conjugate pair *)

Module ConjugatePairsFacts.
Import Space LoopFacts WaveSet FineEwaldCoulombPotential.
Import AccumulateFacts ConvexFacts StoredWaves.

(** The waves makeWaves stores are the kept triples of the enumeration. *)
Lemma stored_waves (st st' : t) :
  emptyWithoutStorage st -> makeWaves st = Ok st' ->
  GArray.data (waves_ st')
  = List.filter (kept (reciprocalBasisVector (boundary st) 0)
                      (reciprocalBasisVector (boundary st) 1)
                      (reciprocalBasisVector (boundary st) 2)
                      (kCutoff_ st * kCutoff_ st)%R)
                (enum0 (maxKs st)).
Proof.
  intros Hst Hrun.
  destruct (MakeWavesFacts.wavesAndRanges_ok st Hst)
    as (st1 & a & rs & Hpre & _ & Hw & _ & _ & Hcount).
  unfold makeWaves in Hrun. rewrite Hpre in Hrun. simpl in Hrun.
  rewrite Hcount, Z.eqb_refl in Hrun. simpl in Hrun.
  injection Hrun as <-. simpl. exact Hw.
Qed.

Lemma halfSpace_not_negate (k : IntVector) :
  halfSpace k ->
  (ix k <> 0 \/ iy k <> 0 \/ iz k <> 0) /\ ~ halfSpace (negate k).
Proof. unfold halfSpace, negate. simpl. lia. Qed.

(** X14. Only half of the waves are stored.  Every wave that makeWaves stores
    obeys the half-space rule, so it is not the triple 0 and its conjugate
    [-k] is not stored.  This follows from the bounds of the loops alone,
    whichever triples the cutoff test keeps: it holds of makeWaves in exact
    arithmetic and of the first pass in double arithmetic. *)
Theorem conjugate_waves_are_not_both_stored :
  (forall (st st' : t) (k : IntVector),
     emptyWithoutStorage st -> makeWaves st = Ok st' ->
     In k (GArray.data (waves_ st')) ->
     halfSpace k /\ (ix k <> 0 \/ iy k <> 0 \/ iz k <> 0) /\
     ~ In (negate k) (GArray.data (waves_ st'))) /\
  (forall (exp : PrimFloat.float -> PrimFloat.float)
          (alpha kCutoff : PrimFloat.float) (b : DoubleWaves.Boundary)
          (w : GArray.t IntVector) (ks g : GArray.t PrimFloat.float)
          (k : IntVector),
     let stored :=
       GArray.data
         (DoubleWaves.waves (DoubleWaves.firstPass exp alpha kCutoff b w ks g)) in
     In k stored ->
     halfSpace k /\ (ix k <> 0 \/ iy k <> 0 \/ iz k <> 0) /\
     ~ In (negate k) stored).
Proof.
  split.
  - intros st st' k Hst Hrun. rewrite (stored_waves st st' Hst Hrun).
    rewrite !List.filter_In, !In_enum0. intros [[_ Hh] _].
    destruct (halfSpace_not_negate k Hh) as [Hnz Hneg]. tauto.
  - intros exp alpha kCutoff b w ks g k stored. subst stored.
    unfold DoubleWaves.firstPass.
    rewrite DoubleWavesFacts.accumulateWaves_tests, DoubleWavesFacts.visitD_waves.
    simpl. rewrite !List.filter_In, !In_enum0. intros [[_ Hh] _].
    destruct (halfSpace_not_negate k Hh) as [Hnz Hneg]. tauto.
Qed.

(** The cubic solver: the wave (0, 1, 0) is stored and its conjugate
    (0, -1, 0) is not. *)
Lemma conjugate_waves_are_not_both_stored_witness :
  In (mkIntVector 0 1 0) (GArray.data (waves_ cubicWaves)) /\
  ~ In (mkIntVector 0 (-1) 0) (GArray.data (waves_ cubicWaves)).
Proof.
  assert (Hin : In (mkIntVector 0 1 0) (GArray.data (waves_ cubicWaves)))
    by (simpl; auto).
  split; [exact Hin|].
  exact (proj2 (proj2 (proj1 conjugate_waves_are_not_both_stored
                         cubicSolver cubicWaves (mkIntVector 0 1 0)
                         (MakeWavesFacts.initial_emptyWithoutStorage _ _ _ _ _)
                         MakeWavesFacts.makeWaves_cubicSolver Hin))).
Defined.

End ConjugatePairsFacts.

(** ** makeWaves: the order of the waves and the sizes of the tables *)

Module StoredOrderFacts.
Import Space LoopFacts WaveSet FineEwaldCoulombPotential.
Import AccumulateFacts ConvexFacts StoredWaves ConjugatePairsFacts.

Lemma follows_before (w w' : IntVector) : follows w w' -> before w w'.
Proof. unfold follows, before. lia. Qed.

Lemma before_trans (u v w : IntVector) : before u v -> before v w -> before u w.
Proof. unfold before. lia. Qed.

Lemma chain_before (w : IntVector) (l : list IntVector) :
  chain (w :: l) -> forall x, In x l -> before w x.
Proof.
  revert w. induction l as [|v l IH]; intros w Hc x Hx; [destruct Hx|].
  destruct Hc as [Hf Hc]. destruct Hx as [<-|Hx].
  - apply follows_before. exact Hf.
  - apply (before_trans w v x); [apply follows_before; exact Hf|].
    apply (IH v Hc x Hx).
Qed.

Lemma chain_tail (w : IntVector) (l : list IntVector) : chain (w :: l) -> chain l.
Proof. intros [_ H]. exact H. Qed.

Lemma chain_increasing (l : list IntVector) :
  chain l ->
  forall (i j : nat) w w', (i < j)%nat ->
    l !! i = Some w -> l !! j = Some w' -> before w w'.
Proof.
  induction l as [|v l IH]; intros Hc i j w w' Hij Hi Hj.
  - rewrite lookup_nil in Hi. discriminate.
  - destruct j as [|j]; [lia|]. simpl in Hj. destruct i as [|i].
    + simpl in Hi. injection Hi as <-.
      apply (chain_before v l Hc). apply (list_elem_of_lookup_2 l j) in Hj.
      apply list_elem_of_In. exact Hj.
    + simpl in Hi. apply (IH (chain_tail v l Hc) i j); [lia|assumption|assumption].
Qed.

Lemma chain_NoDup (l : list IntVector) : chain l -> List.NoDup l.
Proof.
  induction l as [|v l IH]; intros Hc; constructor.
  - intros Hin. pose proof (chain_before v l Hc v Hin) as H.
    unfold before in H. lia.
  - apply IH. exact (chain_tail v l Hc).
Qed.

(** X15. The waves are stored in increasing order of their first index, then of
    their second, then of their third; in particular no wave is stored
    twice. *)
Theorem waves_are_stored_in_increasing_order (st st' : t) :
  emptyWithoutStorage st -> makeWaves st = Ok st' ->
  let stored := GArray.data (waves_ st') in
  (forall (i j : nat) w w', (i < j)%nat ->
     stored !! i = Some w -> stored !! j = Some w' -> before w w') /\
  List.NoDup stored.
Proof.
  intros Hst Hrun stored. unfold stored.
  rewrite (stored_waves st st' Hst Hrun). split.
  - apply chain_increasing, chain_kept.
  - apply chain_NoDup, chain_kept.
Qed.

Lemma waves_are_stored_in_increasing_order_witness :
  before (mkIntVector 0 0 1) (mkIntVector 0 1 0) /\
  before (mkIntVector 0 1 0) (mkIntVector 1 0 0) /\
  List.NoDup (GArray.data (waves_ cubicWaves)).
Proof.
  destruct (waves_are_stored_in_increasing_order cubicSolver cubicWaves
              (MakeWavesFacts.initial_emptyWithoutStorage _ _ _ _ _)
              MakeWavesFacts.makeWaves_cubicSolver) as [Horder Hnodup].
  split; [exact (Horder 0%nat 1%nat _ _ ltac:(lia) eq_refl eq_refl)|].
  split; [exact (Horder 1%nat 2%nat _ _ ltac:(lia) eq_refl eq_refl)|exact Hnodup].
Defined.

Section Bounds.
Variables (b0 b1 b2 : Vector) (kCutoffSq prefactor : double).

(** The bounds that the loops of makeWaves keep up to date enclose every
    kept triple. *)
Lemma visit_bounds (ks : list IntVector) (a : Acc) :
  let a' := visit b0 b1 b2 kCutoffSq prefactor ks a in
  (upper0 a <= upper0 a' /\ upper1 a <= upper1 a' /\ upper2 a <= upper2 a' /\
   base1 a' <= base1 a /\ base2 a' <= base2 a) /\
  forall k, In k (List.filter (kept b0 b1 b2 kCutoffSq) ks) ->
    ix k <= upper0 a' /\ base1 a' <= iy k <= upper1 a' /\
    base2 a' <= iz k <= upper2 a'.
Proof.
  revert a. induction ks as [|k ks IH]; intros a; simpl.
  - split; [lia|]. intros k [].
  - change (visit b0 b1 b2 kCutoffSq prefactor (k :: ks) a)
      with (visit b0 b1 b2 kCutoffSq prefactor ks
              (if kept b0 b1 b2 kCutoffSq k
               then keepWave prefactor k (ksqOf b0 b1 b2 k) a else a)).
    destruct (kept b0 b1 b2 kCutoffSq k) eqn:Hk.
    + destruct (IH (keepWave prefactor k (ksqOf b0 b1 b2 k) a)) as [Hmono Hin].
      simpl in Hmono.
      destruct (Z.ltb_spec (upper0 a) (ix k)), (Z.ltb_spec (upper1 a) (iy k)),
        (Z.ltb_spec (upper2 a) (iz k)), (Z.ltb_spec (iy k) (base1 a)),
        (Z.ltb_spec (iz k) (base2 a));
        (split; [lia|]; intros x [<-|Hx]; [lia|apply Hin; exact Hx]).
    + apply IH.
Qed.

End Bounds.

Lemma size_resize {A : Type} (d : A) (n : Z) (a : GArray.t A) :
  GArray.size (GArray.resize d n a) = Z.max 0 n.
Proof.
  unfold GArray.size, GArray.resize. simpl.
  rewrite length_app, length_take, length_replicate. lia.
Qed.

(** The parallel arrays makeWaves leaves have one entry for each wave. *)
Lemma makeWaves_parallel (st st' : t) :
  emptyWithoutStorage st -> makeWaves st = Ok st' ->
  GArray.size (ksq_ st') = nWave st' /\
  GArray.size (g_ st') = nWave st' /\
  GArray.size (rho_ st') = nWave st'.
Proof.
  intros Hst Hrun.
  destruct (MakeWavesFacts.wavesAndRanges_ok st Hst)
    as (st1 & a & rs & Hpre & Hst1 & Hw & Hk & Hg & Hcount).
  unfold makeWaves in Hrun. rewrite Hpre in Hrun. simpl in Hrun.
  rewrite Hcount, Z.eqb_refl in Hrun. simpl in Hrun.
  injection Hrun as <-. unfold nWave. simpl.
  rewrite !size_resize. unfold GArray.size.
  rewrite Hk, Hg, Hw, !length_map.
  split; [reflexivity|]. split; [reflexivity|lia].
Qed.

(** The tables makeWaves leaves reach from the bases to the largest indices
    of the stored waves. *)
Lemma makeWaves_reach (st st' : t) (k : IntVector) :
  emptyWithoutStorage st -> makeWaves st = Ok st' ->
  In k (GArray.data (waves_ st')) ->
  0 <= ix k - base0_ st' < GArray.size (fexp0_ st') /\
  0 <= iy k - base1_ st' < GArray.size (fexp1_ st') /\
  0 <= iz k - base2_ st' < GArray.size (fexp2_ st').
Proof.
  intros Hst Hrun.
  destruct (MakeWavesFacts.wavesAndRanges_ok st Hst)
    as (st1 & a & rs & Hpre & Hst1 & Hw & Hk & Hg & Hcount).
  pose proof Hpre as Hinv. apply CapacityFacts.wavesAndRanges_inv in Hinv.
  destruct Hinv as [_ Ha]. rewrite accumulateWaves_visits in Ha.
  unfold makeWaves in Hrun. rewrite Hpre in Hrun. simpl in Hrun.
  rewrite Hcount, Z.eqb_refl in Hrun. simpl in Hrun.
  injection Hrun as <-. simpl.
  rewrite !size_resize, Hw.
  intros Hin.
  match type of Ha with
  | a = visit ?c0 ?c1 ?c2 ?cut ?pre ?ks ?a0 =>
      destruct (visit_bounds c0 c1 c2 cut pre ks a0) as [_ Hbounds];
      rewrite <- Ha in Hbounds
  end.
  destruct (Hbounds k Hin) as (H0 & H1 & H2).
  apply List.filter_In in Hin. destruct Hin as [Hin _].
  apply In_enum0 in Hin. destruct Hin as [_ (Hh & _)]. lia.
Qed.

(** X16. After makeWaves the parallel arrays have one entry for each wave, and
    the three tables of phase factors have an entry for every index of every
    stored wave, counted from [base0_], [base1_] and [base2_]. *)
Theorem stored_waves_fit_the_tables (st st' : t) :
  emptyWithoutStorage st -> makeWaves st = Ok st' ->
  GArray.size (ksq_ st') = nWave st' /\
  GArray.size (g_ st') = nWave st' /\
  GArray.size (rho_ st') = nWave st' /\
  forall k, In k (GArray.data (waves_ st')) ->
    0 <= ix k - base0_ st' < GArray.size (fexp0_ st') /\
    0 <= iy k - base1_ st' < GArray.size (fexp1_ st') /\
    0 <= iz k - base2_ st' < GArray.size (fexp2_ st').
Proof.
  intros Hst Hrun.
  destruct (makeWaves_parallel st st' Hst Hrun) as (Hksq & Hg & Hrho).
  split; [exact Hksq|]. split; [exact Hg|]. split; [exact Hrho|].
  intros k Hin. exact (makeWaves_reach st st' k Hst Hrun Hin).
Qed.

Lemma stored_waves_fit_the_tables_witness :
  GArray.size (g_ cubicWaves) = 3 /\
  0 <= 1 - base0_ cubicWaves < GArray.size (fexp0_ cubicWaves).
Proof.
  destruct (stored_waves_fit_the_tables cubicSolver cubicWaves
              (MakeWavesFacts.initial_emptyWithoutStorage _ _ _ _ _)
              MakeWavesFacts.makeWaves_cubicSolver) as (_ & Hg & _ & Hfit).
  split; [exact Hg|].
  exact (proj1 (Hfit (mkIntVector 1 0 0) ltac:(simpl; auto))).
Defined.

End StoredOrderFacts.

(** ** makeWaves: rebuilding *)

Module RebuildFacts.
Import Space LoopFacts WaveSet FineEwaldCoulombPotential.
Import AccumulateFacts ConvexFacts Rebuilds ConjugatePairsFacts StoredOrderFacts.

Section Visit.
Variables (b0 b1 b2 : Vector) (kCutoffSq prefactor : double).

Abbreviation visit' := (visit b0 b1 b2 kCutoffSq prefactor).
Abbreviation kept' := (kept b0 b1 b2 kCutoffSq).

Lemma visit_cons (k : IntVector) (ks : list IntVector) (a : Acc) :
  visit' (k :: ks) a
  = visit' ks (if kept' k then keepWave prefactor k (ksqOf b0 b1 b2 k) a else a).
Proof. reflexivity. Qed.

(** Once a wave is kept, [waves_] has storage. *)
Lemma visit_storage (ks : list IntVector) (a : Acc) :
  GArray.capacity (waves a) <= GArray.capacity (waves (visit' ks a)) /\
  (List.filter kept' ks <> [] -> 1 <= GArray.capacity (waves (visit' ks a))).
Proof.
  revert a. induction ks as [|k ks IH]; intros a.
  - simpl. split; [lia|]. intros H. contradiction.
  - rewrite visit_cons. simpl. destruct (kept' k) eqn:Hk.
    + destruct (IH (keepWave prefactor k (ksqOf b0 b1 b2 k) a)) as [Hmono _].
      simpl in Hmono. unfold GArray.append in Hmono. simpl in Hmono.
      unfold GArray.size in Hmono. split; [lia|]. intros _. lia.
    + apply IH.
Qed.

(** The index bounds that the loops compute do not depend on the
    arrays. *)
Lemma visit_bounds_ext (ks : list IntVector) (a a' : Acc) :
  upper0 a = upper0 a' -> upper1 a = upper1 a' -> upper2 a = upper2 a' ->
  base1 a = base1 a' -> base2 a = base2 a' ->
  upper0 (visit' ks a) = upper0 (visit' ks a') /\
  upper1 (visit' ks a) = upper1 (visit' ks a') /\
  upper2 (visit' ks a) = upper2 (visit' ks a') /\
  base1 (visit' ks a) = base1 (visit' ks a') /\
  base2 (visit' ks a) = base2 (visit' ks a').
Proof.
  revert a a'. induction ks as [|k ks IH]; intros a a' H0 H1 H2 H3 H4.
  - simpl. auto.
  - rewrite !visit_cons. destruct (kept' k).
    + apply IH; simpl; rewrite ?H0, ?H1, ?H2, ?H3, ?H4; reflexivity.
    + apply IH; assumption.
Qed.

End Visit.

Lemma get_data {A : Type} (a a' : GArray.t A) (i : Z) :
  GArray.data a = GArray.data a' -> GArray.get a i = GArray.get a' i.
Proof. intros H. unfold GArray.get. rewrite H. reflexivity. Qed.

Lemma modify_data {A : Type} (a a' b : GArray.t A) (i : Z) (f : A -> A) :
  GArray.data a = GArray.data a' -> GArray.modify a i f = Ok b ->
  exists b', GArray.modify a' i f = Ok b' /\ GArray.data b = GArray.data b'.
Proof.
  intros H. unfold GArray.modify. rewrite (get_data a a' i H).
  destruct (GArray.get a' i); simpl; [|discriminate].
  intros Hb. injection Hb as <-. eexists. split; [reflexivity|].
  simpl. rewrite H. reflexivity.
Qed.

Lemma append_data {A : Type} (a a' : GArray.t A) (x : A) :
  GArray.data a = GArray.data a' ->
  GArray.data (GArray.append x a) = GArray.data (GArray.append x a').
Proof. intros H. unfold GArray.append. simpl. rewrite H. reflexivity. Qed.

(** The second pass reads and writes elements only, so its ranges do not
    depend on the capacities. *)
Lemma rangeStep_sameRanges (p1 p2 : Pair) (k : IntVector) (s s' t : Ranges) :
  sameRanges s s' -> rangeStep p1 p2 k s = Ok t ->
  exists t', rangeStep p1 p2 k s' = Ok t' /\ sameRanges t t'.
Proof.
  intros (E0 & E1 & E2 & R1 & R2). unfold rangeStep.
  rewrite <- E0, <- R1, <- R2.
  destruct (snd (range0 s) <? ix k).
  - intros Hrun.
    destruct (GArray.modify (GArray.append p1 (range1 s)) _ _)
      as [x1|] eqn:M1; simpl in Hrun; [|discriminate].
    destruct (modify_data _ (GArray.append p1 (range1 s')) _ _ _
                (append_data _ _ p1 E1) M1) as (x1' & M1' & D1).
    rewrite M1'. simpl.
    destruct (GArray.modify x1 _ _) as [y1|] eqn:M2; simpl in Hrun; [|discriminate].
    destruct (modify_data _ x1' _ _ _ D1 M2) as (y1' & M2' & D2).
    rewrite M2'. simpl.
    destruct (GArray.modify (GArray.append p2 (range2 s)) _ _)
      as [x2|] eqn:M3; simpl in Hrun; [|discriminate].
    destruct (modify_data _ (GArray.append p2 (range2 s')) _ _ _
                (append_data _ _ p2 E2) M3) as (x2' & M3' & D3).
    rewrite M3'. simpl.
    destruct (GArray.modify x2 _ _) as [y2|] eqn:M4; simpl in Hrun; [|discriminate].
    destruct (modify_data _ x2' _ _ _ D3 M4) as (y2' & M4' & D4).
    rewrite M4'. simpl.
    injection Hrun as <-. eexists. split; [reflexivity|].
    repeat split; simpl; auto.
  - rewrite <- (get_data _ _ _ E1).
    destruct (GArray.get (range1 s) (r1 s)) as [top|]; simpl; [|discriminate].
    destruct (snd top <? iy k).
    + intros Hrun.
      destruct (GArray.modify (range1 s) _ _) as [x1|] eqn:M1; simpl in Hrun;
        [|discriminate].
      destruct (modify_data _ (range1 s') _ _ _ E1 M1) as (x1' & M1' & D1).
      rewrite M1'. simpl.
      destruct (GArray.modify (GArray.append p2 (range2 s)) _ _)
        as [x2|] eqn:M3; simpl in Hrun; [|discriminate].
      destruct (modify_data _ (GArray.append p2 (range2 s')) _ _ _
                  (append_data _ _ p2 E2) M3) as (x2' & M3' & D3).
      rewrite M3'. simpl.
      destruct (GArray.modify x2 _ _) as [y2|] eqn:M4; simpl in Hrun; [|discriminate].
      destruct (modify_data _ x2' _ _ _ D3 M4) as (y2' & M4' & D4).
      rewrite M4'. simpl.
      injection Hrun as <-. eexists. split; [reflexivity|].
      repeat split; simpl; auto.
    + intros Hrun.
      destruct (GArray.modify (range2 s) _ _) as [x2|] eqn:M3; simpl in Hrun;
        [|discriminate].
      destruct (modify_data _ (range2 s') _ _ _ E2 M3) as (x2' & M3' & D3).
      rewrite M3'. simpl.
      injection Hrun as <-. eexists. split; [reflexivity|].
      repeat split; simpl; auto.
Qed.

Lemma findRanges_sameRanges (maxK : IntVector) (ws : list IntVector)
    (x1 x2 y1 y2 : GArray.t Pair) (rs : Ranges) :
  GArray.data x1 = GArray.data y1 -> GArray.data x2 = GArray.data y2 ->
  findRanges maxK ws x1 x2 = Ok rs ->
  exists rs', findRanges maxK ws y1 y2 = Ok rs' /\ sameRanges rs rs'.
Proof.
  intros D1 D2. unfold findRanges.
  assert (Hstart : sameRanges (mkRanges (0, -1) x1 x2 (-1) (-1))
                              (mkRanges (0, -1) y1 y2 (-1) (-1)))
    by (repeat split; assumption).
  revert Hstart. generalize (mkRanges (0, -1) x1 x2 (-1) (-1)).
  generalize (mkRanges (0, -1) y1 y2 (-1) (-1)).
  induction ws as [|w ws IH]; intros s' s Hs Hrun; simpl in Hrun |- *.
  - injection Hrun as <-. exists s'. split; [reflexivity|exact Hs].
  - destruct (rangeStep _ _ w s) as [t|] eqn:Hstep; simpl in Hrun; [|discriminate].
    destruct (rangeStep_sameRanges _ _ w s s' t Hs Hstep) as (t' & Hstep' & Ht).
    rewrite Hstep'. simpl. exact (IH t' t Ht Hrun).
Qed.


(** makeWaves keeps the parameters. *)
Lemma makeWaves_parameters (st st' : t) :
  makeWaves st = Ok st' ->
  alpha_ st' = alpha_ st /\ epsilon_ st' = epsilon_ st /\
  kCutoff_ st' = kCutoff_ st /\ boundary st' = boundary st /\
  atomTypes st' = atomTypes st.
Proof.
  unfold makeWaves. intros Hrun.
  destruct (wavesAndRanges st) as [[[st1 a] rs]|] eqn:Hpre; simpl in Hrun;
    [|discriminate].
  destruct (negb _); [discriminate|]. injection Hrun as <-. simpl.
  apply CapacityFacts.wavesAndRanges_inv in Hpre. destruct Hpre as [-> _].
  apply MakeWavesFacts.prepareArrays_parameters.
Qed.

(** makeWaves leaves an object on which it can be called again. *)
Lemma makeWaves_emptyWithoutStorage (st st' : t) :
  emptyWithoutStorage st -> makeWaves st = Ok st' -> emptyWithoutStorage st'.
Proof.
  intros Hst Hrun.
  destruct (MakeWavesFacts.wavesAndRanges_ok st Hst)
    as (st1 & a & rs & Hpre & Hst1 & Hw & Hk & Hg & Hcount).
  pose proof Hpre as Hinv. apply CapacityFacts.wavesAndRanges_inv in Hinv.
  destruct Hinv as [_ Ha]. rewrite accumulateWaves_visits in Ha.
  destruct (MakeWavesFacts.prepareArrays_data (maxKs st) st Hst)
    as (_ & _ & _ & D4 & D5).
  unfold makeWaves in Hrun. rewrite Hpre in Hrun. simpl in Hrun.
  rewrite Hcount, Z.eqb_refl in Hrun. simpl in Hrun.
  injection Hrun as <-. intros Hcap. simpl in Hcap |- *.
  assert (Hnone : GArray.data (waves a) = []).
  { destruct (GArray.data (waves a)) as [|w ws] eqn:Hdata; [reflexivity|].
    exfalso.
    match type of Ha with
    | a = visit ?c0 ?c1 ?c2 ?cut ?pre ?ks ?a0 =>
        destruct (visit_storage c0 c1 c2 cut pre ks a0) as [_ Hpos]
    end.
    rewrite <- Ha in Hpos. rewrite <- Hw in Hpos.
    specialize (Hpos ltac:(discriminate)). lia. }
  rewrite Hk, Hg. rewrite <- Hw, Hnone. simpl.
  unfold wavesAndRanges in Hpre. rewrite <- Hst1 in Hpre.
  rewrite accumulateWaves_visits, <- Ha, Hnone in Hpre. simpl in Hpre.
  injection Hpre as <-. simpl. rewrite Hst1. auto.
Qed.

Lemma setGeometry_emptyWithoutStorage (kCutoff : double) (b : Boundary) (st : t) :
  emptyWithoutStorage st -> emptyWithoutStorage (setGeometry kCutoff b st).
Proof. intros H. exact H. Qed.

Lemma rebuilds_keep (cs : list (double * Boundary)) (st st' : t) :
  emptyWithoutStorage st -> rebuilds cs st = Ok st' ->
  emptyWithoutStorage st' /\ alpha_ st' = alpha_ st.
Proof.
  revert st. induction cs as [|c cs IH]; intros st Hst Hrun.
  - injection Hrun as <-. split; [exact Hst|reflexivity].
  - unfold rebuilds in Hrun. simpl in Hrun.
    destruct (rebuild c st) as [s1|] eqn:Hstep; simpl in Hrun; [|discriminate].
    unfold rebuild in Hstep.
    pose proof (setGeometry_emptyWithoutStorage (fst c) (snd c) st Hst) as Hst'.
    pose proof (makeWaves_emptyWithoutStorage _ _ Hst' Hstep) as Hs1.
    destruct (makeWaves_parameters _ _ Hstep) as (Ha & _).
    destruct (IH s1 Hs1 Hrun) as [He Ha']. split; [exact He|].
    rewrite Ha', Ha. reflexivity.
Qed.

(** What makeWaves builds depends on [alpha_], the cutoff and the boundary
    only, not on what the arrays held or on their capacities. *)
Lemma makeWaves_same_geometry (s s' r r' : t) :
  emptyWithoutStorage s -> emptyWithoutStorage s' ->
  alpha_ s' = alpha_ s -> kCutoff_ s' = kCutoff_ s -> boundary s' = boundary s ->
  makeWaves s = Ok r -> makeWaves s' = Ok r' ->
  GArray.data (waves_ r') = GArray.data (waves_ r) /\
  GArray.data (ksq_ r') = GArray.data (ksq_ r) /\
  GArray.data (g_ r') = GArray.data (g_ r) /\
  range0_ r' = range0_ r /\
  GArray.data (range1_ r') = GArray.data (range1_ r) /\
  GArray.data (range2_ r') = GArray.data (range2_ r) /\
  (base0_ r', base1_ r', base2_ r') = (base0_ r, base1_ r, base2_ r) /\
  GArray.size (rho_ r') = GArray.size (rho_ r) /\
  GArray.size (fexp0_ r') = GArray.size (fexp0_ r) /\
  GArray.size (fexp1_ r') = GArray.size (fexp1_ r) /\
  GArray.size (fexp2_ r') = GArray.size (fexp2_ r).
Proof.
  intros Hst Hst' Ha Hkc Hb Hrun Hrun'.
  assert (HmaxK : maxKs s' = maxKs s).
  { unfold maxKs, maxKof. rewrite Hkc, Hb. reflexivity. }
  destruct (MakeWavesFacts.wavesAndRanges_ok s Hst)
    as (s1 & a1 & rs1 & Hpre1 & Hs1 & Hw1 & Hk1 & Hg1 & Hcount1).
  destruct (MakeWavesFacts.wavesAndRanges_ok s' Hst')
    as (s2 & a2 & rs2 & Hpre2 & Hs2 & Hw2 & Hk2 & Hg2 & Hcount2).
  rewrite Hkc, Hb, HmaxK in Hw2, Hk2. rewrite Hkc, Hb, HmaxK, Ha in Hg2.
  rewrite HmaxK in Hs2.
  pose proof Hpre1 as Hinv1. apply CapacityFacts.wavesAndRanges_inv in Hinv1.
  destruct Hinv1 as [_ Ha1]. rewrite accumulateWaves_visits in Ha1.
  pose proof Hpre2 as Hinv2. apply CapacityFacts.wavesAndRanges_inv in Hinv2.
  destruct Hinv2 as [_ Ha2]. rewrite accumulateWaves_visits in Ha2.
  rewrite Hkc, Hb, HmaxK, Ha in Ha2.
  assert (Hbounds : upper0 a2 = upper0 a1 /\ upper1 a2 = upper1 a1 /\
                    upper2 a2 = upper2 a1 /\ base1 a2 = base1 a1 /\
                    base2 a2 = base2 a1).
  { rewrite Ha1, Ha2. apply visit_bounds_ext; reflexivity. }
  destruct Hbounds as (U0 & U1 & U2 & B1 & B2).
  destruct (MakeWavesFacts.prepareArrays_data (maxKs s) s Hst)
    as (_ & _ & _ & D4 & D5).
  destruct (MakeWavesFacts.prepareArrays_data (maxKs s') s' Hst')
    as (_ & _ & _ & D4' & D5').
  rewrite HmaxK in D4', D5'.
  assert (Hranges : sameRanges rs1 rs2).
  { unfold wavesAndRanges in Hpre1, Hpre2.
    rewrite accumulateWaves_visits in Hpre1, Hpre2.
    rewrite <- Hs1, <- Ha1 in Hpre1.
    rewrite Hkc, Hb, HmaxK, Ha, <- Hs2, <- Ha2 in Hpre2.
    destruct (findRanges (maxKs s) (GArray.data (waves a1)) _ _)
      as [x1|] eqn:F1; simpl in Hpre1; [|discriminate].
    destruct (findRanges (maxKs s) (GArray.data (waves a2)) _ _)
      as [x2|] eqn:F2; simpl in Hpre2; [|discriminate].
    injection Hpre1 as <-. injection Hpre2 as <-.
    rewrite Hw2, <- Hw1 in F2.
    assert (E1 : GArray.data (range1_ s1) = GArray.data (range1_ s2))
      by (rewrite Hs1, Hs2, D4, D4'; reflexivity).
    assert (E2 : GArray.data (range2_ s1) = GArray.data (range2_ s2))
      by (rewrite Hs1, Hs2, D5, D5'; reflexivity).
    destruct (findRanges_sameRanges _ _ _ _ _ _ _ E1 E2 F1)
      as (x2' & F2' & Hsame).
    rewrite F2 in F2'. injection F2' as <-. exact Hsame. }
  destruct Hranges as (E0 & E1 & E2 & _ & _).
  unfold makeWaves in Hrun, Hrun'. rewrite Hpre1 in Hrun. rewrite Hpre2 in Hrun'.
  simpl in Hrun, Hrun'. rewrite Hcount1, Z.eqb_refl in Hrun.
  rewrite Hcount2, Z.eqb_refl in Hrun'. simpl in Hrun, Hrun'.
  injection Hrun as <-. injection Hrun' as <-. simpl.
  rewrite !size_resize. unfold GArray.size.
  rewrite Hw1, Hw2, Hk1, Hk2, Hg1, Hg2, E0, E1, E2, U0, U1, U2, B1, B2.
  repeat split; reflexivity.
Qed.

(** X17. Rebuilt waves forget the earlier geometries.  Take a newly constructed
    solver and any sequence of changes of the cutoff and the boundary, each
    followed by makeWaves.  When these calls return, the solver holds the
    cutoff and the boundary of the last change, and its waves, squared
    lengths, weights, ranges and bases, and the sizes of [rho_] and of the
    three tables, are those that one call of makeWaves builds on a newly
    constructed solver with the last cutoff and boundary: nothing is left
    over from the earlier geometries. *)
Theorem rebuilt_waves_forget_earlier_geometries
    (alpha epsilon kCutoff : double) (b : Boundary) (types : list AtomType)
    (cs : list (double * Boundary)) (kc : double) (b' : Boundary)
    (st' fresh : t) :
  rebuilds (cs ++ [(kc, b')]) (initial alpha epsilon kCutoff b types) = Ok st' ->
  makeWaves (initial alpha epsilon kc b' types) = Ok fresh ->
  kCutoff_ st' = kc /\ boundary st' = b' /\
  GArray.data (waves_ st') = GArray.data (waves_ fresh) /\
  GArray.data (ksq_ st') = GArray.data (ksq_ fresh) /\
  GArray.data (g_ st') = GArray.data (g_ fresh) /\
  range0_ st' = range0_ fresh /\
  GArray.data (range1_ st') = GArray.data (range1_ fresh) /\
  GArray.data (range2_ st') = GArray.data (range2_ fresh) /\
  (base0_ st', base1_ st', base2_ st')
  = (base0_ fresh, base1_ fresh, base2_ fresh) /\
  GArray.size (rho_ st') = GArray.size (rho_ fresh) /\
  GArray.size (fexp0_ st') = GArray.size (fexp0_ fresh) /\
  GArray.size (fexp1_ st') = GArray.size (fexp1_ fresh) /\
  GArray.size (fexp2_ st') = GArray.size (fexp2_ fresh).
Proof.
  intros Hrun Hfresh.
  unfold rebuilds in Hrun. rewrite foldM_app in Hrun.
  destruct (foldM rebuild cs (initial alpha epsilon kCutoff b types))
    as [st1|] eqn:Hrun1; simpl in Hrun; [|discriminate].
  destruct (rebuilds_keep cs _ st1
              (MakeWavesFacts.initial_emptyWithoutStorage _ _ _ _ _) Hrun1)
    as [Hst1 Ha1].
  unfold rebuild in Hrun. simpl in Hrun.
  destruct (makeWaves (setGeometry kc b' st1)) as [st2|] eqn:Hlast;
    simpl in Hrun; [|discriminate].
  injection Hrun as ->.
  destruct (makeWaves_parameters _ _ Hlast) as (_ & _ & Hkc & Hb' & _).
  simpl in Hkc, Hb'. split; [exact Hkc|]. split; [exact Hb'|].
  apply (makeWaves_same_geometry (initial alpha epsilon kc b' types)
           (setGeometry kc b' st1) fresh st').
  - apply MakeWavesFacts.initial_emptyWithoutStorage.
  - apply setGeometry_emptyWithoutStorage. exact Hst1.
  - simpl. exact Ha1.
  - reflexivity.
  - reflexivity.
  - exact Hfresh.
  - exact Hlast.
Qed.

(** The cubic solver, rebuilt twice with its own cutoff and boundary: it
    holds the three waves of one call. *)
Lemma rebuilt_waves_forget_earlier_geometries_witness :
  exists st',
    rebuilds ([(1%R, cubicCell)] ++ [(1%R, cubicCell)]) cubicSolver = Ok st' /\
    GArray.data (waves_ st')
    = [mkIntVector 0 0 1; mkIntVector 0 1 0; mkIntVector 1 0 0] /\
    GArray.data (range2_ st') = [(1, 1); (0, 0); (0, 0)].
Proof.
  destruct (MakeWavesFacts.bound_check_total cubicWaves) as [st' Hsecond].
  { intros Hcap. discriminate Hcap. }
  assert (Hrun :
    rebuilds ([(1%R, cubicCell)] ++ [(1%R, cubicCell)]) cubicSolver = Ok st').
  { unfold rebuilds. simpl. unfold rebuild at 1. simpl.
    change (setGeometry 1 cubicCell cubicSolver) with cubicSolver.
    rewrite MakeWavesFacts.makeWaves_cubicSolver. simpl.
    unfold rebuild. simpl.
    change (makeWaves (setGeometry 1 cubicCell cubicWaves))
      with (makeWaves cubicWaves).
    rewrite Hsecond. reflexivity. }
  exists st'. split; [exact Hrun|].
  destruct (rebuilt_waves_forget_earlier_geometries 1%R 1%R 1%R cubicCell
              [mkAtomType 1; mkAtomType 0] [(1%R, cubicCell)] 1%R cubicCell
              st' cubicWaves Hrun MakeWavesFacts.makeWaves_cubicSolver)
    as (_ & _ & Hw & _ & _ & _ & _ & H2 & _).
  split; [exact Hw|exact H2].
Defined.

(** X18. Rebuilding without a change.  A second call of makeWaves, with the
    cutoff and the boundary as they were, returns and builds the same waves,
    squared lengths and weights, the same ranges and bases, and tables of the
    same sizes. *)
Theorem rebuilding_gives_the_same_waves (st st' : t) :
  emptyWithoutStorage st -> makeWaves st = Ok st' ->
  exists st'',
    makeWaves st' = Ok st'' /\
    GArray.data (waves_ st'') = GArray.data (waves_ st') /\
    GArray.data (ksq_ st'') = GArray.data (ksq_ st') /\
    GArray.data (g_ st'') = GArray.data (g_ st') /\
    range0_ st'' = range0_ st' /\
    GArray.data (range1_ st'') = GArray.data (range1_ st') /\
    GArray.data (range2_ st'') = GArray.data (range2_ st') /\
    (base0_ st'', base1_ st'', base2_ st'') = (base0_ st', base1_ st', base2_ st') /\
    GArray.size (rho_ st'') = GArray.size (rho_ st') /\
    GArray.size (fexp0_ st'') = GArray.size (fexp0_ st') /\
    GArray.size (fexp1_ st'') = GArray.size (fexp1_ st') /\
    GArray.size (fexp2_ st'') = GArray.size (fexp2_ st').
Proof.
  intros Hst Hrun.
  pose proof (makeWaves_emptyWithoutStorage st st' Hst Hrun) as Hst'.
  destruct (makeWaves_parameters st st' Hrun) as (Ha & _ & Hkc & Hb & _).
  assert (HmaxK : maxKs st' = maxKs st).
  { unfold maxKs, maxKof. rewrite Hkc, Hb. reflexivity. }
  destruct (MakeWavesFacts.wavesAndRanges_ok st Hst)
    as (s1 & a1 & rs1 & Hpre1 & Hs1 & Hw1 & Hk1 & Hg1 & Hcount1).
  destruct (MakeWavesFacts.wavesAndRanges_ok st' Hst')
    as (s2 & a2 & rs2 & Hpre2 & Hs2 & Hw2 & Hk2 & Hg2 & Hcount2).
  rewrite Hkc, Hb, HmaxK in Hw2, Hk2. rewrite Hkc, Hb, HmaxK, Ha in Hg2.
  rewrite HmaxK in Hs2.
  pose proof Hpre1 as Hinv1. apply CapacityFacts.wavesAndRanges_inv in Hinv1.
  destruct Hinv1 as [_ Ha1]. rewrite accumulateWaves_visits in Ha1.
  pose proof Hpre2 as Hinv2. apply CapacityFacts.wavesAndRanges_inv in Hinv2.
  destruct Hinv2 as [_ Ha2]. rewrite accumulateWaves_visits in Ha2.
  rewrite Hkc, Hb, HmaxK, Ha in Ha2.
  assert (Hbounds : upper0 a2 = upper0 a1 /\ upper1 a2 = upper1 a1 /\
                    upper2 a2 = upper2 a1 /\ base1 a2 = base1 a1 /\
                    base2 a2 = base2 a1).
  { rewrite Ha1, Ha2. apply visit_bounds_ext; reflexivity. }
  destruct Hbounds as (U0 & U1 & U2 & B1 & B2).
  destruct (MakeWavesFacts.prepareArrays_data (maxKs st) st Hst)
    as (_ & _ & _ & D4 & D5).
  destruct (MakeWavesFacts.prepareArrays_data (maxKs st') st' Hst')
    as (_ & _ & _ & D4' & D5').
  rewrite HmaxK in D4', D5'.
  assert (Hranges : sameRanges rs1 rs2).
  { unfold wavesAndRanges in Hpre1, Hpre2.
    rewrite accumulateWaves_visits in Hpre1, Hpre2.
    rewrite <- Hs1, <- Ha1 in Hpre1.
    rewrite Hkc, Hb, HmaxK, Ha, <- Hs2, <- Ha2 in Hpre2.
    destruct (findRanges (maxKs st) (GArray.data (waves a1)) _ _)
      as [r1|] eqn:F1; simpl in Hpre1; [|discriminate].
    destruct (findRanges (maxKs st) (GArray.data (waves a2)) _ _)
      as [r2|] eqn:F2; simpl in Hpre2; [|discriminate].
    injection Hpre1 as <-. injection Hpre2 as <-.
    rewrite Hw2, <- Hw1 in F2.
    assert (E1 : GArray.data (range1_ s1) = GArray.data (range1_ s2))
      by (rewrite Hs1, Hs2, D4, D4'; reflexivity).
    assert (E2 : GArray.data (range2_ s1) = GArray.data (range2_ s2))
      by (rewrite Hs1, Hs2, D5, D5'; reflexivity).
    destruct (findRanges_sameRanges _ _ _ _ _ _ _ E1 E2 F1)
      as (r2' & F2' & Hsame).
    rewrite F2 in F2'. injection F2' as <-. exact Hsame. }
  destruct Hranges as (E0 & E1 & E2 & _ & _).
  unfold makeWaves in Hrun |- *. rewrite Hpre1 in Hrun. rewrite Hpre2.
  simpl in Hrun |- *. rewrite Hcount1, Z.eqb_refl in Hrun.
  rewrite Hcount2, Z.eqb_refl. simpl in Hrun |- *.
  injection Hrun as <-. eexists. split; [reflexivity|]. simpl.
  rewrite !size_resize. unfold GArray.size.
  rewrite Hw1, Hw2, Hk1, Hk2, Hg1, Hg2, E0, E1, E2, U0, U1, U2, B1, B2.
  repeat split; reflexivity.
Qed.

Lemma rebuilding_gives_the_same_waves_witness :
  exists st'',
    makeWaves cubicWaves = Ok st'' /\
    GArray.data (waves_ st'')
    = [mkIntVector 0 0 1; mkIntVector 0 1 0; mkIntVector 1 0 0] /\
    GArray.data (range2_ st'') = [(1, 1); (0, 0); (0, 0)].
Proof.
  destruct (rebuilding_gives_the_same_waves cubicSolver cubicWaves
              (MakeWavesFacts.initial_emptyWithoutStorage _ _ _ _ _)
              MakeWavesFacts.makeWaves_cubicSolver)
    as (st'' & Hrun & Hw & _ & _ & _ & _ & H2 & _).
  exists st''. split; [exact Hrun|]. split; [exact Hw|exact H2].
Defined.

End RebuildFacts.

(** ** addKSpaceForces: the tables of phase factors *)

Module PhaseTableFacts.
Import Space LoopFacts WaveSet FineEwaldCoulombPotential PhaseTables.

Lemma first_phaseFactor (x : double) (base : Z) :
  cexp (cscale (cscale TwoPiIm x) (IZR base)) = phaseFactor x base.
Proof.
  unfold cexp, cscale, TwoPiIm, phaseFactor. simpl.
  replace (TwoPi * 0 * x * IZR base)%R with 0%R by ring.
  rewrite exp_0.
  replace (TwoPi * 1 * x * IZR base)%R with (TwoPi * x * IZR base)%R by ring.
  f_equal; ring.
Qed.

Lemma next_phaseFactor (x : double) (m : Z) :
  cmul (phaseFactor x (m - 1)) (cexp (cscale TwoPiIm x)) = phaseFactor x m.
Proof.
  unfold cmul, cexp, cscale, TwoPiIm, phaseFactor. simpl.
  replace (TwoPi * 0 * x)%R with 0%R by ring. rewrite exp_0.
  replace (TwoPi * x * IZR m)%R
    with (TwoPi * x * IZR (m - 1) + TwoPi * 1 * x)%R
    by (rewrite minus_IZR; ring).
  rewrite cos_plus, sin_plus. f_equal; ring.
Qed.

(** On a table with at least one entry the tabulation returns and keeps
    the size, and entry [m] is then the factor of [base + m]. *)
Lemma tabulate_phaseFactors (rgj : double) (base : Z) (fexp : GArray.t DCMPLX) :
  1 <= GArray.size fexp ->
  exists fexp',
    tabulate rgj base fexp = Ok fexp' /\
    GArray.size fexp' = GArray.size fexp /\
    GArray.capacity fexp' = GArray.capacity fexp /\
    forall m, 0 <= m < GArray.size fexp ->
      GArray.get fexp' m = Ok (phaseFactor rgj (base + m)).
Proof.
  intros Hsize. unfold GArray.size in Hsize. unfold tabulate.
  destruct (lookup_lt_is_Some_2 (GArray.data fexp) 0) as [x Hx]; [lia|].
  rewrite (GArrayFacts.modify_at fexp 0 x _ (Z.le_refl 0) Hx). simpl.
  rewrite first_phaseFactor. unfold for_ZM.
  match goal with
  | |- context [for_upM ?n ?lo ?body ?s] =>
      destruct (for_upM_invariant
                  (fun (i : Z) (f : GArray.t DCMPLX) =>
                     GArray.capacity f = GArray.capacity fexp /\
                     length (GArray.data f) = length (GArray.data fexp) /\
                     forall j : nat, Z.of_nat j < i ->
                       GArray.data f !! j
                       = Some (phaseFactor rgj (base + Z.of_nat j)))
                  body n lo s)
        as (f' & Hrun & Hc & Hlen & Hf')
  end.
  - intros i f Hi (Hc & Hlen & Hf). unfold GArray.size in Hi. simpl in Hi.
    rewrite length_insert in Hi.
    assert (Hprev : GArray.data f !! Z.to_nat (i - 1)
                    = Some (phaseFactor rgj (base + (i - 1)))).
    { rewrite (Hf (Z.to_nat (i - 1))) by lia. do 2 f_equal. lia. }
    destruct (lookup_lt_is_Some_2 (GArray.data f) (Z.to_nat i))
      as [old Hold]; [lia|].
    rewrite (GArrayFacts.get_at f (i - 1) _ ltac:(lia) Hprev). simpl.
    rewrite (GArrayFacts.modify_at f i old _ ltac:(lia) Hold).
    eexists. split; [reflexivity|]. simpl.
    split; [exact Hc|]. split; [rewrite length_insert; exact Hlen|].
    intros j Hj. destruct (Nat.eq_dec j (Z.to_nat i)) as [->|Hne].
    + rewrite list_lookup_insert_eq by lia. f_equal.
      replace (base + (i - 1)) with (base + Z.of_nat (Z.to_nat i) - 1) by lia.
      apply next_phaseFactor.
    + rewrite list_lookup_insert_ne by auto. apply Hf. lia.
  - simpl. split; [reflexivity|]. split; [apply length_insert|].
    intros j Hj. assert (j = 0%nat) by lia. subst j.
    rewrite list_lookup_insert_eq by lia. do 2 f_equal. simpl. lia.
  - exists f'. split; [exact Hrun|]. unfold GArray.size.
    split; [rewrite Hlen; reflexivity|]. split; [exact Hc|].
    intros m Hm. apply GArrayFacts.get_at; [lia|].
    rewrite (Hf' (Z.to_nat m)).
    + do 2 f_equal. lia.
    + unfold GArray.size. simpl. rewrite length_insert. lia.
Qed.

(** X19. The table of phase factors of one axis.  On a table with at least one
    entry the tabulation returns, keeps the size, and entry [m] is then
    [exp(i 2 pi rg (base + m))]; on a table without entries the first
    assignment is out of range. *)
Theorem tabulate_fills_the_phase_factors (rgj : double) (base : Z)
    (fexp : GArray.t DCMPLX) :
  (GArray.data fexp = [] ->
   tabulate rgj base fexp = Fail (AssertionFailed "i < size_")) /\
  (1 <= GArray.size fexp ->
   exists fexp',
     tabulate rgj base fexp = Ok fexp' /\
     GArray.size fexp' = GArray.size fexp /\
     GArray.capacity fexp' = GArray.capacity fexp /\
     forall m, 0 <= m < GArray.size fexp ->
       GArray.get fexp' m = Ok (phaseFactor rgj (base + m))).
Proof.
  split.
  - intros Hempty. unfold tabulate, GArray.modify, GArray.get.
    rewrite Hempty. reflexivity.
  - apply tabulate_phaseFactors.
Qed.

(** A table of three entries with base -1 holds the factors of -1, 0
    and 1. *)
Lemma tabulate_fills_the_phase_factors_witness :
  exists fexp',
    tabulate 0.25 (-1) (GArray.mk [czero; czero; czero] 3) = Ok fexp' /\
    GArray.get fexp' 2 = Ok (phaseFactor 0.25 1).
Proof.
  destruct (proj2 (tabulate_fills_the_phase_factors 0.25 (-1)
                     (GArray.mk [czero; czero; czero] 3)))
    as (fexp' & Hrun & _ & _ & Hget); [unfold GArray.size; simpl; lia|].
  exists fexp'. split; [exact Hrun|].
  apply (Hget 2). unfold GArray.size. simpl. lia.
Defined.

End PhaseTableFacts.

(** ** makeWaves: the ranges of the stored waves *)

Module WaveLayoutFacts.
Import Space LoopFacts WaveSet FineEwaldCoulombPotential.
Import WaveLayout.

Lemma columnsWaves_app (i0 i1 : Z) (cols cols' : list Pair) :
  columnsWaves i0 i1 (cols ++ cols')
  = columnsWaves i0 i1 cols ++ columnsWaves i0 (i1 + Z.of_nat (length cols)) cols'.
Proof.
  revert i1. induction cols as [|c cols IH]; intros i1; simpl.
  - f_equal. lia.
  - rewrite IH, <- app_assoc. do 3 f_equal. lia.
Qed.

Lemma planesWaves_app (i0 : Z) (l l' : Layout) :
  planesWaves i0 (l ++ l')
  = planesWaves i0 l ++ planesWaves (i0 + Z.of_nat (length l)) l'.
Proof.
  revert i0. induction l as [|p l IH]; intros i0; simpl.
  - f_equal. lia.
  - rewrite IH, <- app_assoc. do 3 f_equal. lia.
Qed.

Lemma Zlist_snoc (n : nat) (i : Z) :
  Zlist (S n) i = Zlist n i ++ [i + Z.of_nat n].
Proof.
  revert i. induction n as [|n IH]; intros i.
  - simpl. f_equal. lia.
  - change (Zlist (S (S n)) i) with (i :: Zlist (S n) (i + 1)).
    rewrite IH. simpl. do 3 f_equal. lia.
Qed.

Lemma columnWaves_next (i0 i1 lo hi : Z) :
  lo <= hi + 1 ->
  columnWaves i0 i1 (lo, hi + 1)
  = columnWaves i0 i1 (lo, hi) ++ [mkIntVector i0 i1 (hi + 1)].
Proof.
  intros H. unfold columnWaves, Zrange. simpl.
  replace (Z.to_nat (hi + 1 + 1 - lo)) with (S (Z.to_nat (hi + 1 - lo))) by lia.
  rewrite Zlist_snoc, map_app. simpl. do 3 f_equal. lia.
Qed.

Lemma columnWaves_one (i0 i1 i2 : Z) :
  columnWaves i0 i1 (i2, i2) = [mkIntVector i0 i1 i2].
Proof.
  unfold columnWaves, Zrange. simpl.
  replace (Z.to_nat (i2 + 1 - i2)) with 1%nat by lia. reflexivity.
Qed.

Lemma layoutRange1_app (l l' : Layout) :
  layoutRange1 (l ++ l') = layoutRange1 l ++ layoutRange1 l'.
Proof. apply map_app. Qed.

Lemma layoutRange2_app (l l' : Layout) :
  layoutRange2 (l ++ l') = layoutRange2 l ++ layoutRange2 l'.
Proof. unfold layoutRange2. rewrite map_app. apply concat_app. Qed.

Lemma layoutRange1_snoc (l : Layout) (p : Plane) :
  layoutRange1 (l ++ [p]) = layoutRange1 l ++ [planeRange p].
Proof. apply layoutRange1_app. Qed.

Lemma layoutRange2_snoc (l : Layout) (p : Plane) :
  layoutRange2 (l ++ [p]) = layoutRange2 l ++ snd p.
Proof.
  rewrite layoutRange2_app. unfold layoutRange2 at 2. simpl.
  rewrite app_nil_r. reflexivity.
Qed.

Lemma length_layoutRange1 (l : Layout) : length (layoutRange1 l) = length l.
Proof. apply length_map. Qed.

(** The first wave opens the first plane. *)
Lemma rangeStep_opens (p1 p2 : Pair) (k : IntVector) (rg1 rg2 : GArray.t Pair) :
  GArray.data rg1 = [] -> GArray.data rg2 = [] -> ix k = 0 ->
  exists s',
    rangeStep p1 p2 k (mkRanges (0, -1) rg1 rg2 (-1) (-1)) = Ok s' /\
    laidOut k [k] s'.
Proof.
  intros H1 H2 Hk. unfold rangeStep. simpl.
  replace (-1 <? ix k) with true by (symmetry; apply Z.ltb_lt; lia).
  rewrite (RangeFacts.push_range rg1 (-1) p1 (iy k))
    by (unfold GArray.size; rewrite H1; reflexivity).
  simpl.
  rewrite (RangeFacts.push_range rg2 (-1) p2 (iz k))
    by (unfold GArray.size; rewrite H2; reflexivity).
  simpl. eexists. split; [reflexivity|].
  rewrite H1, H2. simpl.
  exists [], (iy k), [], (iz k), (GArray.capacity (GArray.append p1 rg1)),
         (GArray.capacity (GArray.append p2 rg2)).
  simpl. rewrite columnWaves_one, Hk. simpl.
  replace (iy k + 0) with (iy k) by lia.
  split; [constructor|]. split; [constructor|].
  repeat split; try reflexivity; try lia.
  destruct k as [x y z]. simpl in *. subst x. reflexivity.
Qed.


Ltac sizes :=
  unfold GArray.size, layoutRange1, Pair in *; simpl;
  rewrite ?length_app, ?length_map; simpl; rewrite ?length_app; simpl; lia.

(** The next wave extends the last column, opens a column in the last
    plane, or opens a plane. *)
Lemma rangeStep_extends (p1 p2 : Pair) (last k : IntVector)
    (prefix : list IntVector) (s : Ranges) :
  laidOut last prefix s -> follows last k ->
  ix k <= ix last + 1 -> (ix k = ix last -> iy k <= iy last + 1) ->
  exists s', rangeStep p1 p2 k s = Ok s' /\ laidOut k (prefix ++ [k]) s'.
Proof.
  intros (front & lo1 & cols & lo2 & c1 & c2 & Wf & Wc & Hw & Hx & Hy & Hz & E0
          & E1 & E2 & R1 & R2) Hf Hgx Hgy.
  destruct s as [rg0 rg1 rg2 q1 q2]. simpl in *. subst rg0 rg1 rg2 q1 q2.
  unfold rangeStep. simpl.
  rewrite planesWaves_app in Hw. simpl in Hw. rewrite app_nil_r in Hw.
  rewrite columnsWaves_app in Hw. simpl in Hw. rewrite app_nil_r in Hw.
  assert (Hk : k = mkIntVector (ix k) (iy k) (iz k)) by (destruct k; reflexivity).
  destruct (Z.ltb_spec (ix last) (ix k)) as [Hlt|Hge].
  - (* a new plane *)
    rewrite (RangeFacts.push_range _ _ p1 (iy k)) by sizes.
    rewrite (RangeFacts.push_range _ _ p2 (iz k)) by sizes.
    eexists. split; [reflexivity|].
    exists (front ++ [(lo1, cols ++ [(lo2, iz last)])]), (iy k), [], (iz k).
    eexists. eexists. cbn [range0 range1 range2 r1 r2 GArray.data].
    split; [|split; [constructor|]].
    { apply List.Forall_app. split; [exact Wf|]. constructor; [|constructor].
      simpl. split; [destruct cols; discriminate|].
      apply List.Forall_app. split; [exact Wc|]. constructor; [exact Hz|constructor]. }
    split; [|split; [|split; [|split; [|split; [|split; [|split; [|split]]]]]]].
    + rewrite planesWaves_app. cbn [planesWaves fst snd]. rewrite app_nil_r.
      rewrite planesWaves_app. cbn [planesWaves fst snd]. rewrite app_nil_r.
      rewrite columnsWaves_app. cbn [columnsWaves app]. rewrite !app_nil_r.
      rewrite columnWaves_one. cbn [length]. rewrite Hw.
      f_equal. f_equal. clear Hk. destruct k as [x y z]. simpl in *.
      f_equal. rewrite length_app. simpl. lia.
    + rewrite length_app. simpl. lia.
    + simpl. lia.
    + lia.
    + reflexivity.
    + rewrite layoutRange1_snoc. unfold planeRange. simpl.
      rewrite length_app. simpl.
      replace (lo1 + Z.of_nat (length cols + 1) - 1) with (iy last) by lia.
      reflexivity.
    + rewrite layoutRange2_snoc. simpl. rewrite <- !app_assoc. reflexivity.
    + rewrite length_app. simpl. lia.
    + rewrite layoutRange2_snoc. simpl. rewrite app_nil_r, !length_app. simpl.
      unfold Pair in *. lia.
  - assert (Hxk : ix last = ix k) by (destruct Hf as [Hf|[Hf|Hf]]; lia).
    replace (Z.of_nat (length front))
      with (Z.of_nat (length (layoutRange1 front)))
      by (rewrite length_layoutRange1; reflexivity).
    rewrite GArrayFacts.get_last. simpl.
    destruct (Z.ltb_spec (iy last) (iy k)) as [Hlt1|Hge1].
    + (* a new column of the last plane *)
      rewrite GArrayFacts.modify_last. simpl.
      rewrite (RangeFacts.push_range _ _ p2 (iz k)) by sizes.
      eexists. split; [reflexivity|].
      exists front, lo1, (cols ++ [(lo2, iz last)]), (iz k).
      eexists. eexists. cbn [range0 range1 range2 r1 r2 GArray.data].
      split; [exact Wf|]. split.
      { apply List.Forall_app. split; [exact Wc|].
        constructor; [exact Hz|constructor]. }
      split; [|split; [|split; [|split; [|split; [|split; [|split; [|split]]]]]]].
      * rewrite planesWaves_app. cbn [planesWaves fst snd]. rewrite app_nil_r.
        rewrite !columnsWaves_app. cbn [columnsWaves app]. rewrite !app_nil_r.
        rewrite columnWaves_one. cbn [length].
        rewrite app_assoc, Hw.
        f_equal. f_equal. clear Hk. destruct k as [x y z]. simpl in *.
        f_equal; [lia|]. rewrite length_app. simpl. lia.
      * lia.
      * rewrite length_app. simpl. lia.
      * lia.
      * rewrite Hxk. reflexivity.
      * unfold setUpper. simpl. reflexivity.
      * rewrite <- !app_assoc. reflexivity.
      * rewrite length_layoutRange1. reflexivity.
      * rewrite !length_app. simpl. unfold Pair in *. lia.
    + (* the same column *)
      assert (Hyz : iy last = iy k /\ iz k = iz last + 1)
        by (destruct Hf as [Hf|[Hf|Hf]]; lia).
      destruct Hyz as [Hyk Hzk].
      rewrite (app_assoc (layoutRange2 front) cols).
      rewrite GArrayFacts.modify_last. simpl.
      eexists. split; [reflexivity|].
      exists front, lo1, cols, lo2.
      eexists. eexists. cbn [range0 range1 range2 r1 r2 GArray.data].
      split; [exact Wf|]. split; [exact Wc|].
      split; [|split; [|split; [|split; [|split; [|split; [|split; [|split]]]]]]].
      * rewrite planesWaves_app. cbn [planesWaves fst snd]. rewrite app_nil_r.
        rewrite !columnsWaves_app. cbn [columnsWaves app]. rewrite !app_nil_r.
        rewrite Hzk, columnWaves_next by lia.
        rewrite !app_assoc. rewrite <- (app_assoc (planesWaves 0 front)), Hw.
        f_equal. f_equal. clear Hk. destruct k as [x y z]. simpl in *.
        f_equal; lia.
      * lia.
      * lia.
      * lia.
      * rewrite Hxk. reflexivity.
      * rewrite Hyk. reflexivity.
      * unfold setUpper. simpl. rewrite <- app_assoc. reflexivity.
      * rewrite length_layoutRange1. reflexivity.
      * reflexivity.
Qed.


Lemma foldM_rangeStep_layout (p1 p2 : Pair) (ws prefix : list IntVector)
    (last : IntVector) (s : Ranges) :
  laidOut last prefix s -> chain (last :: ws) -> steps (last :: ws) ->
  exists s' last',
    foldM (rangeStep p1 p2) ws s = Ok s' /\ laidOut last' (prefix ++ ws) s'.
Proof.
  revert prefix last s. induction ws as [|w ws IH]; intros prefix last s Hs Hc Hg.
  - exists s, last. rewrite app_nil_r. split; [reflexivity|exact Hs].
  - destruct Hc as [Hf Hc]. destruct Hg as [[Hgx Hgy] Hg].
    destruct (rangeStep_extends p1 p2 last w prefix s Hs Hf Hgx Hgy)
      as (s1 & Hstep & Hs1).
    destruct (IH (prefix ++ [w]) w s1 Hs1 Hc Hg) as (s' & last' & Hrun & Hs').
    exists s', last'. split.
    + simpl. rewrite Hstep. simpl. exact Hrun.
    + rewrite <- app_assoc in Hs'. exact Hs'.
Qed.

(** On a gapless chain of waves the second pass returns, and its ranges
    are those of a layout of these waves. *)
Lemma findRanges_layout (maxK : IntVector) (ws : list IntVector)
    (rg1 rg2 : GArray.t Pair) :
  GArray.data rg1 = [] -> GArray.data rg2 = [] ->
  ws <> [] -> chain ws -> gapless ws ->
  exists rs last, findRanges maxK ws rg1 rg2 = Ok rs /\ laidOut last ws rs.
Proof.
  intros H1 H2 Hne Hc [Hfirst Hg]. unfold findRanges.
  destruct ws as [|w ws]; [contradiction|].
  destruct (rangeStep_opens (iy maxK, - iy maxK) (iz maxK, - iz maxK) w rg1 rg2
              H1 H2 Hfirst) as (s1 & Hstep & Hs1).
  destruct (foldM_rangeStep_layout (iy maxK, - iy maxK) (iz maxK, - iz maxK)
              ws [w] w s1 Hs1 Hc Hg) as (s' & last' & Hrun & Hs').
  exists s', last'. split; [|exact Hs'].
  simpl. rewrite Hstep. simpl. exact Hrun.
Qed.

End WaveLayoutFacts.

(** ** addKSpaceForces: the loop over waves *)

Module ForceSumFacts.
Import Space LoopFacts WaveSet FineEwaldCoulombPotential WaveLayout WaveLayoutFacts PhaseTables.
Import ForceSum.

Lemma forceSum_app (rg : Vector) (l1 l2 : list IntVector) (gs : list double)
    (rhos : list DCMPLX) (fg : Vector) :
  (length l1 <= length gs)%nat -> (length l1 <= length rhos)%nat ->
  forceSum rg (l1 ++ l2) gs rhos fg
  = forceSum rg l2 (drop (length l1) gs) (drop (length l1) rhos)
             (forceSum rg l1 gs rhos fg).
Proof.
  revert gs rhos fg. induction l1 as [|k l1 IH]; intros gs rhos fg Hg Hr.
  - reflexivity.
  - destruct gs as [|g gs]; [simpl in Hg; lia|].
    destruct rhos as [|r rhos]; [simpl in Hr; lia|].
    simpl. apply IH; simpl in *; lia.
Qed.

Lemma product_of_phases (a b : R) :
  cmul (mkDCMPLX (cos a) (sin a)) (mkDCMPLX (cos b) (sin b))
  = mkDCMPLX (cos (a + b)) (sin (a + b)).
Proof. unfold cmul. simpl. rewrite cos_plus, sin_plus. f_equal; ring. Qed.

Lemma drop_head {A : Type} (l : list A) (n : nat) (x : A) (rest : list A) :
  drop n l = x :: rest -> l !! n = Some x /\ drop (S n) l = rest.
Proof.
  revert n. induction l as [|y l IH]; intros [|n] H; simpl in *;
    try discriminate.
  - injection H as <- <-. auto.
  - apply IH. exact H.
Qed.

Section Loops.
Variables (st : t) (rg : Vector).

Abbreviation gsFrom i := (drop (Z.to_nat (i + 1)) (GArray.data (g_ st))).
Abbreviation rhosFrom i := (drop (Z.to_nat (i + 1)) (GArray.data (rho_ st))).

(** The loop over [i2]: one column. *)
Lemma column_sum (i0 i1 : Z) (a : R) (n : nat) (lo : Z) (s : WaveSum) :
  -1 <= wi s ->
  (n <= length (gsFrom (wi s)))%nat -> (n <= length (rhosFrom (wi s)))%nat ->
  (forall i2, lo <= i2 < lo + Z.of_nat n ->
     GArray.get (fexp2_ st) (i2 - base2_ st) = Ok (phaseFactor (vz rg) i2)) ->
  a = (TwoPi * vx rg * IZR i0 + TwoPi * vy rg * IZR i1)%R ->
  for_upM n lo (forceLoop2 st (mkDCMPLX (cos a) (sin a)) i0 i1) s
  = Ok (mkWaveSum (wr1 s) (wr2 s) (wi s + Z.of_nat n)
          (forceSum rg (map (mkIntVector i0 i1) (Zlist n lo))
                    (gsFrom (wi s)) (rhosFrom (wi s)) (wfg s))).
Proof.
  intros Hi Hg Hr Ht Ha. revert lo s Hi Hg Hr Ht.
  induction n as [|n IH]; intros lo s Hi Hg Hr Ht.
  - simpl. destruct s. simpl. do 2 f_equal. lia.
  - simpl for_upM. unfold forceLoop2 at 1.
    rewrite (Ht lo) by lia. simpl rbind.
    destruct (gsFrom (wi s)) as [|g gs] eqn:Hgs; [simpl in Hg; lia|].
    destruct (rhosFrom (wi s)) as [|r rhos] eqn:Hrs; [simpl in Hr; lia|].
    destruct (drop_head _ _ _ _ Hgs) as [Hg0 Hgs'].
    destruct (drop_head _ _ _ _ Hrs) as [Hr0 Hrs'].
    rewrite (GArrayFacts.get_at (g_ st) (wi s + 1) g ltac:(lia) Hg0). simpl rbind.
    rewrite (GArrayFacts.get_at (rho_ st) (wi s + 1) r ltac:(lia) Hr0). simpl rbind.
    rewrite IH.
    + simpl. f_equal. f_equal; [lia|].
      replace (Z.to_nat (wi s + 1 + 1)) with (S (Z.to_nat (wi s + 1))) by lia.
      rewrite Hgs', Hrs'. f_equal. f_equal.
      set (b := (TwoPi * vz rg * IZR lo)%R).
      assert (Hc : (cos a * cos b - sin a * sin b = cos (a + b))%R)
        by (rewrite cos_plus; reflexivity).
      assert (Hs : (cos a * sin b + sin a * cos b = sin (a + b))%R)
        by (rewrite sin_plus; ring).
      rewrite Hc, Hs. unfold b.
      assert (Hphi : (a + TwoPi * vz rg * IZR lo
                      = vdot rg (mkVector (IZR i0) (IZR i1) (IZR lo)) * TwoPi)%R)
        by (rewrite Ha; unfold vdot; simpl; ring).
      rewrite Hphi. reflexivity.
    + simpl. lia.
    + simpl. replace (Z.to_nat (wi s + 1 + 1)) with (S (Z.to_nat (wi s + 1))) by lia.
      rewrite Hgs'. simpl in Hg. lia.
    + simpl. replace (Z.to_nat (wi s + 1 + 1)) with (S (Z.to_nat (wi s + 1))) by lia.
      rewrite Hrs'. simpl in Hr. lia.
    + intros i2 Hi2. apply Ht. lia.
Qed.


Lemma length_columnWaves (i0 i1 : Z) (c : Pair) :
  length (columnWaves i0 i1 c) = Z.to_nat (snd c + 1 - fst c).
Proof. unfold columnWaves, Zrange. rewrite length_map, length_Zlist. reflexivity. Qed.

Lemma gsFrom_next {A : Type} (l : list A) (i : Z) (n : nat) :
  -1 <= i ->
  drop (Z.to_nat (i + Z.of_nat n + 1)) l = drop n (drop (Z.to_nat (i + 1)) l).
Proof.
  intros Hi. rewrite drop_drop. f_equal. lia.
Qed.

(** The loop over [i1]: the columns of one plane. *)
Lemma columns_sum (i0 : Z) (a0 : R) (cols : list Pair) (lo1 : Z) (s : WaveSum)
    (done2 rest2 : list Pair) :
  -1 <= wi s ->
  GArray.data (range2_ st) = done2 ++ cols ++ rest2 ->
  wr2 s = Z.of_nat (length done2) - 1 ->
  fullColumns cols ->
  tablesCover st rg (columnsWaves i0 lo1 cols) ->
  (length (columnsWaves i0 lo1 cols) <= length (gsFrom (wi s)))%nat ->
  (length (columnsWaves i0 lo1 cols) <= length (rhosFrom (wi s)))%nat ->
  a0 = (TwoPi * vx rg * IZR i0)%R ->
  for_upM (length cols) lo1 (forceLoop1 st (mkDCMPLX (cos a0) (sin a0)) i0) s
  = Ok (mkWaveSum (wr1 s) (wr2 s + Z.of_nat (length cols))
          (wi s + Z.of_nat (length (columnsWaves i0 lo1 cols)))
          (forceSum rg (columnsWaves i0 lo1 cols)
                    (gsFrom (wi s)) (rhosFrom (wi s)) (wfg s))).
Proof.
  intros Hi Hdata Hr2 Hfull Hcover Hg Hr Ha. revert lo1 s done2 Hi Hdata Hr2 Hcover Hg Hr.
  induction Hfull as [|c cols Hc Hfull IH]; intros lo1 s done2 Hi Hdata Hr2 Hcover Hg Hr.
  - simpl. destruct s. simpl. do 2 f_equal; lia.
  - simpl for_upM. unfold forceLoop1 at 1.
    assert (Hfirst : In (mkIntVector i0 lo1 (fst c)) (columnsWaves i0 lo1 (c :: cols))).
    { simpl. apply in_or_app. left. unfold columnWaves. apply in_map.
      apply In_Zrange. lia. }
    destruct (Hcover _ Hfirst) as (_ & Hf1 & _). simpl in Hf1.
    rewrite Hf1. simpl rbind. unfold phaseFactor at 1.
    rewrite product_of_phases.
    assert (Hget : GArray.get (range2_ st) (wr2 s + 1) = Ok c).
    { apply GArrayFacts.get_at; [lia|]. rewrite Hdata, Hr2.
      replace (Z.to_nat (Z.of_nat (length done2) - 1 + 1)) with (length done2) by lia.
      rewrite lookup_app_r by lia. rewrite Nat.sub_diag. reflexivity. }
    rewrite Hget. simpl rbind. unfold for_ZM.
    set (n := Z.to_nat (snd c + 1 - fst c)).
    simpl columnsWaves in Hg, Hr, Hcover |- *.
    rewrite length_app, length_columnWaves in Hg, Hr. fold n in Hg, Hr.
    rewrite (column_sum i0 lo1 _ n (fst c)); simpl wi; simpl wfg; simpl wr1;
      simpl wr2; try lia; try reflexivity.
    + simpl rbind.
      rewrite (IH (lo1 + 1) _ (done2 ++ [c])); simpl wi; simpl wfg; simpl wr1;
        simpl wr2.
      * f_equal. f_equal.
        -- simpl length. lia.
        -- rewrite length_app, length_columnWaves. fold n. lia.
        -- rewrite !gsFrom_next by lia.
           rewrite forceSum_app.
           ++ rewrite length_columnWaves. fold n. reflexivity.
           ++ rewrite length_columnWaves. fold n. lia.
           ++ rewrite length_columnWaves. fold n. lia.
      * lia.
      * rewrite Hdata, <- app_assoc. reflexivity.
      * rewrite length_app. simpl. lia.
      * intros k Hk. apply Hcover. apply in_or_app. right. exact Hk.
      * rewrite gsFrom_next by lia. rewrite length_drop. lia.
      * rewrite gsFrom_next by lia. rewrite length_drop. lia.
    + intros i2 Hi2.
      assert (Hin : In (mkIntVector i0 lo1 i2)
                       (columnWaves i0 lo1 c ++ columnsWaves i0 (lo1 + 1) cols)).
      { apply in_or_app. left. unfold columnWaves. apply in_map.
        apply In_Zrange. unfold n in Hi2. lia. }
      destruct (Hcover _ Hin) as (_ & _ & Hf2). exact Hf2.
    + rewrite Ha. reflexivity.
Qed.


Lemma layoutRange2_cons (p : Plane) (l : Layout) :
  layoutRange2 (p :: l) = snd p ++ layoutRange2 l.
Proof. reflexivity. Qed.

(** The loop over [i0]: the planes. *)
Lemma planes_sum (planes : Layout) (i0 : Z) (s : WaveSum)
    (done1 rest1 done2 rest2 : list Pair) :
  -1 <= wi s ->
  GArray.data (range1_ st) = done1 ++ layoutRange1 planes ++ rest1 ->
  GArray.data (range2_ st) = done2 ++ layoutRange2 planes ++ rest2 ->
  wr1 s = Z.of_nat (length done1) - 1 ->
  wr2 s = Z.of_nat (length done2) - 1 ->
  wellFormed planes ->
  tablesCover st rg (planesWaves i0 planes) ->
  (length (planesWaves i0 planes) <= length (gsFrom (wi s)))%nat ->
  (length (planesWaves i0 planes) <= length (rhosFrom (wi s)))%nat ->
  for_upM (length planes) i0 (forceLoop0 st) s
  = Ok (mkWaveSum (wr1 s + Z.of_nat (length planes))
          (wr2 s + Z.of_nat (length (layoutRange2 planes)))
          (wi s + Z.of_nat (length (planesWaves i0 planes)))
          (forceSum rg (planesWaves i0 planes)
                    (gsFrom (wi s)) (rhosFrom (wi s)) (wfg s))).
Proof.
  intros Hi H1 H2 R1 R2 Hwf. revert i0 s done1 done2 Hi H1 H2 R1 R2.
  induction Hwf as [|p planes [Hne Hfull] Hwf IH];
    intros i0 s done1 done2 Hi H1 H2 R1 R2 Hcover Hg Hr.
  - simpl. destruct s. simpl. do 2 f_equal; lia.
  - simpl for_upM. unfold forceLoop0 at 1.
    destruct p as [lo1 cols]. simpl in Hne, Hfull.
    destruct cols as [|c cols]; [contradiction|].
    assert (Hc : fst c <= snd c) by (inversion Hfull; assumption).
    assert (Hfirst : In (mkIntVector i0 lo1 (fst c))
                        (planesWaves i0 ((lo1, c :: cols) :: planes))).
    { simpl. apply in_or_app. left. apply in_or_app. left.
      unfold columnWaves. apply in_map. apply In_Zrange. lia. }
    destruct (Hcover _ Hfirst) as (Hf0 & _ & _). simpl in Hf0.
    rewrite Hf0. simpl rbind.
    assert (Hget : GArray.get (range1_ st) (wr1 s + 1)
                   = Ok (planeRange (lo1, c :: cols))).
    { apply GArrayFacts.get_at; [lia|]. rewrite H1, R1.
      replace (Z.to_nat (Z.of_nat (length done1) - 1 + 1)) with (length done1) by lia.
      rewrite lookup_app_r by lia. rewrite Nat.sub_diag. reflexivity. }
    rewrite Hget. simpl rbind. unfold for_ZM, planeRange. cbn [fst snd].
    match goal with
    | |- context [for_upM ?n lo1] =>
        replace n with (length (c :: cols)) by (simpl length; lia)
    end.
    cbn [planesWaves fst snd] in Hg, Hr, Hcover |- *.
    rewrite length_app in Hg, Hr.
    rewrite layoutRange2_cons in H2. cbn [snd] in H2.
    rewrite <- app_assoc in H2.
    unfold phaseFactor.
    rewrite (columns_sum i0 _ (c :: cols) lo1 _ done2
               (layoutRange2 planes ++ rest2));
      cbn [wi wfg wr1 wr2]; try lia; try reflexivity; try assumption.
    + simpl rbind.
      rewrite (IH (i0 + 1) _ (done1 ++ [(lo1, lo1 + Z.of_nat (length (c :: cols)) - 1)])
                 (done2 ++ c :: cols)); cbn [wi wfg wr1 wr2].
      * f_equal. f_equal.
        -- simpl length. lia.
        -- rewrite layoutRange2_cons, length_app. cbn [snd length]. lia.
        -- cbn [columnsWaves]. rewrite !length_app. lia.
        -- change (columnWaves i0 lo1 c ++ columnsWaves i0 (lo1 + 1) cols)
             with (columnsWaves i0 lo1 (c :: cols)).
           rewrite !gsFrom_next by lia.
           rewrite forceSum_app; [reflexivity|lia|lia].
      * lia.
      * rewrite H1. cbn [layoutRange1 map]. unfold planeRange. cbn [fst snd].
        rewrite <- app_assoc. reflexivity.
      * rewrite H2, <- app_assoc. reflexivity.
      * rewrite length_app. simpl. lia.
      * rewrite length_app. simpl length. lia.
      * intros k Hk. apply Hcover. apply in_or_app. right. exact Hk.
      * change (columnWaves i0 lo1 c ++ columnsWaves i0 (lo1 + 1) cols)
          with (columnsWaves i0 lo1 (c :: cols)).
        rewrite gsFrom_next by lia. rewrite length_drop. lia.
      * change (columnWaves i0 lo1 c ++ columnsWaves i0 (lo1 + 1) cols)
          with (columnsWaves i0 lo1 (c :: cols)).
        rewrite gsFrom_next by lia. rewrite length_drop. lia.
    + intros k Hk. apply Hcover. apply in_or_app. left. exact Hk.
Qed.

(** The generalized force on tables that cover the waves of a layout: the
    sum of the terms of these waves. *)
Lemma generalizedForce_sum (layout : Layout) :
  range0_ st = (0, Z.of_nat (length layout) - 1) ->
  GArray.data (range1_ st) = layoutRange1 layout ->
  GArray.data (range2_ st) = layoutRange2 layout ->
  wellFormed layout ->
  tablesCover st rg (planesWaves 0 layout) ->
  (length (planesWaves 0 layout) <= length (GArray.data (g_ st)))%nat ->
  (length (planesWaves 0 layout) <= length (GArray.data (rho_ st)))%nat ->
  generalizedForce st
  = Ok (forceSum rg (planesWaves 0 layout) (GArray.data (g_ st))
                 (GArray.data (rho_ st)) vzero).
Proof.
  intros H0 H1 H2 Hwf Hcover Hg Hr. unfold generalizedForce, for_ZM.
  rewrite H0. cbn [fst snd].
  replace (Z.to_nat (Z.of_nat (length layout) - 1 + 1 - 0)) with (length layout)
    by lia.
  rewrite (planes_sum layout 0 _ [] [] [] []); cbn [wi wfg wr1 wr2];
    try lia; try reflexivity; try assumption.
  - simpl. rewrite app_nil_r. exact H1.
  - simpl. rewrite app_nil_r. exact H2.
Qed.

End Loops.

End ForceSumFacts.

(** ** addKSpaceForces: the forces in closed form *)

Module EwaldForceFacts.
Import Space LoopFacts WaveSet FineEwaldCoulombPotential WaveLayout WaveLayoutFacts PhaseTables ForceSum ForceSumFacts ChargeDensity ChargeDensityFacts PhaseTableFacts StoredOrderFacts.
Import EwaldForce.

(** The loop that rewrites the elements: it returns when its body does, and
    relates each element to what replaces it. *)
Lemma mapM_total {A St : Type} (I : St -> Prop) (Q : A -> Prop)
    (R : A -> A -> Prop) (body : St -> A -> result (St * A)) (l : list A)
    (s : St) :
  (forall s a, I s -> Q a ->
     exists s' a', body s a = Ok (s', a') /\ I s' /\ R a a') ->
  List.Forall Q l -> I s ->
  exists s' l', mapM body s l = Ok (s', l') /\ I s' /\ List.Forall2 R l l'.
Proof.
  intros Hbody Hl. revert s. induction Hl as [|a l Ha Hl IH]; intros s Hs.
  - exists s, []. split; [reflexivity|]. split; [exact Hs|constructor].
  - destruct (Hbody s a Hs Ha) as (s1 & a1 & Hstep & Hs1 & Ra).
    destruct (IH s1 Hs1) as (s' & l' & Hrun & Hs' & Rl).
    exists s', (a1 :: l'). split; [|split; [exact Hs'|constructor; assumption]].
    simpl. rewrite Hstep. simpl. rewrite Hrun. reflexivity.
Qed.

(** The three tables of an atom cover every wave whose indices they have
    room for. *)
Lemma tabulateAll_cover (st s : t) (rg : Vector) (ws : list IntVector) :
  sameSizes st s -> ws <> [] ->
  (forall k, In k ws ->
     0 <= ix k - base0_ st < GArray.size (fexp0_ st) /\
     0 <= iy k - base1_ st < GArray.size (fexp1_ st) /\
     0 <= iz k - base2_ st < GArray.size (fexp2_ st)) ->
  exists s', tabulateAll s rg = Ok s' /\ sameSizes st s' /\ tablesCover s' rg ws.
Proof.
  intros (f0 & f1 & f2 & -> & S0 & S1 & S2) Hne Hfit.
  destruct ws as [|w ws']; [contradiction|].
  destruct (Hfit w ltac:(left; reflexivity)) as (W0 & W1 & W2).
  unfold tabulateAll. cbn [withFexp withArrays fexp0_ fexp1_ fexp2_ base0_ base1_ base2_].
  destruct (tabulate_phaseFactors (vget rg 0) (base0_ st) f0 ltac:(lia))
    as (g0 & -> & G0 & _ & E0).
  destruct (tabulate_phaseFactors (vget rg 1) (base1_ st) f1 ltac:(lia))
    as (g1 & -> & G1 & _ & E1).
  destruct (tabulate_phaseFactors (vget rg 2) (base2_ st) f2 ltac:(lia))
    as (g2 & -> & G2 & _ & E2).
  cbn [rbind]. eexists. split; [reflexivity|]. split.
  - exists g0, g1, g2. split; [reflexivity|]. lia.
  - intros k Hk. destruct (Hfit k Hk) as (K0 & K1 & K2).
    cbn [withFexp withArrays fexp0_ fexp1_ fexp2_ base0_ base1_ base2_].
    rewrite E0, E1, E2 by lia.
    replace (base0_ st + (ix k - base0_ st)) with (ix k) by lia.
    replace (base1_ st + (iy k - base1_ st)) with (iy k) by lia.
    replace (base2_ st + (iz k - base2_ st)) with (iz k) by lia.
    destruct rg. auto.
Qed.

(** The ranges makeWaves leaves on a gapless set of waves are those of a
    layout of the stored waves. *)
Lemma makeWaves_layout (st0 st : t) :
  emptyWithoutStorage st0 -> makeWaves st0 = Ok st ->
  GArray.data (waves_ st) <> [] -> gapless (GArray.data (waves_ st)) ->
  exists layout : Layout,
    wellFormed layout /\
    planesWaves 0 layout = GArray.data (waves_ st) /\
    range0_ st = (0, Z.of_nat (length layout) - 1) /\
    GArray.data (range1_ st) = layoutRange1 layout /\
    GArray.data (range2_ st) = layoutRange2 layout.
Proof.
  intros Hst Hrun Hne Hgap.
  destruct (MakeWavesFacts.wavesAndRanges_ok st0 Hst)
    as (st1 & a & rs & Hpre & Hst1 & Hw & _ & _ & Hcount).
  destruct (MakeWavesFacts.prepareArrays_data (maxKs st0) st0 Hst)
    as (_ & _ & _ & D4 & D5).
  unfold makeWaves in Hrun. rewrite Hpre in Hrun. simpl in Hrun.
  rewrite Hcount, Z.eqb_refl in Hrun. simpl in Hrun.
  injection Hrun as <-. simpl in Hne, Hgap |- *.
  pose proof Hpre as Hinv. apply CapacityFacts.wavesAndRanges_inv in Hinv.
  destruct Hinv as [_ Ha].
  assert (Hchain : chain (GArray.data (waves a))).
  { rewrite Hw. apply ConvexFacts.chain_kept. }
  rewrite <- Hst1 in D4, D5.
  destruct (findRanges_layout (maxKs st0) (GArray.data (waves a))
              (range1_ st1) (range2_ st1) D4 D5 Hne Hchain Hgap)
    as (rs' & last & Hfind & Hlaid).
  unfold wavesAndRanges in Hpre. rewrite <- Hst1, <- Ha, Hfind in Hpre.
  simpl in Hpre. injection Hpre as <-.
  destruct Hlaid as (front & lo1 & cols & lo2 & c1 & c2 & Hwf & Hfull & Hwaves
                     & Hix & Hiy & Hlo2 & R0 & R1 & R2 & _ & _).
  exists (front ++ [(lo1, cols ++ [(lo2, iz last)])]).
  split; [|split; [exact Hwaves|split; [|split]]].
  - apply List.Forall_app. split; [exact Hwf|]. constructor; [|constructor].
    simpl. split; [destruct cols; discriminate|].
    apply List.Forall_app. split; [exact Hfull|].
    constructor; [simpl; lia|constructor].
  - rewrite R0, Hix, length_app. simpl. f_equal. lia.
  - rewrite R1. simpl. rewrite layoutRange1_app. simpl. unfold planeRange.
    simpl. rewrite length_app. simpl. rewrite Hiy. do 3 f_equal. lia.
  - rewrite R2. cbn [GArray.data]. rewrite layoutRange2_app.
    f_equal. unfold layoutRange2. cbn [map concat snd].
    rewrite app_nil_r. reflexivity.
Qed.

Section Atoms.
Variables (st : t) (sys : System) (layout : Layout).

Abbreviation modes :=
  (GArray.mk (map (mode st (atomsOf sys)) (GArray.data (waves_ st)))
             (GArray.capacity (rho_ st))).

Hypotheses
  (Hwf : wellFormed layout)
  (Hwaves : planesWaves 0 layout = GArray.data (waves_ st))
  (H0 : range0_ st = (0, Z.of_nat (length layout) - 1))
  (H1 : GArray.data (range1_ st) = layoutRange1 layout)
  (H2 : GArray.data (range2_ st) = layoutRange2 layout)
  (Hne : GArray.data (waves_ st) <> [])
  (Hg : GArray.size (g_ st) = nWave st)
  (Hfit : forall k, In k (GArray.data (waves_ st)) ->
     0 <= ix k - base0_ st < GArray.size (fexp0_ st) /\
     0 <= iy k - base1_ st < GArray.size (fexp1_ st) /\
     0 <= iz k - base2_ st < GArray.size (fexp2_ st)).

(** The body of the loop over atoms, on tables of the right sizes. *)
Lemma atomForce_closed (s : t) (atom : Atom) :
  sameSizes (withRho st modes) s -> knownType st atom ->
  exists s' atom',
    atomForce (reciprocalBasisVector (boundary st))
              (-2.0 / (epsilon_ st * volume (boundary st)))%R s atom
    = Ok (s', atom') /\
    sameSizes (withRho st modes) s' /\ pushed st sys atom atom'.
Proof.
  intros Hs Hatom. pose proof Hs as (f0 & f1 & f2 & Es & _).
  unfold atomForce, pushed.
  assert (Hcharge : chargeOf s atom = Ok (chargeValue st atom)).
  { rewrite <- (chargeOf_chargeValue st atom Hatom). rewrite Es. reflexivity. }
  rewrite Hcharge. cbn [rbind].
  destruct (Rgtb (Rabs (chargeValue st atom)) EPS).
  - assert (Hb : boundary s = boundary st) by (rewrite Es; reflexivity).
    rewrite Hb.
    destruct (tabulateAll_cover (withRho st modes) s
                (transformCartToGen (boundary st) (position atom))
                (GArray.data (waves_ st)) Hs Hne Hfit)
      as (s' & -> & Hs' & Hcover).
    cbn [rbind]. pose proof Hs' as (g0 & g1 & g2 & Es' & _).
    rewrite (generalizedForce_sum s'
               (transformCartToGen (boundary st) (position atom)) layout).
    + cbn [rbind]. eexists. eexists. split; [reflexivity|].
      split; [exact Hs'|]. unfold ewaldForce. rewrite Hwaves, Es'.
      reflexivity.
    + rewrite Es'. exact H0.
    + rewrite Es'. exact H1.
    + rewrite Es'. exact H2.
    + exact Hwf.
    + rewrite Hwaves. exact Hcover.
    + rewrite Hwaves, Es'. cbn. unfold GArray.size, nWave, GArray.size in Hg. lia.
    + rewrite Hwaves, Es'. cbn. rewrite length_map. lia.
  - exists s, atom. split; [reflexivity|]. split; [exact Hs|].
    destruct atom. reflexivity.
Qed.

(** The loop over atoms, on a solver whose ranges describe its waves. *)
Lemma forces_on_layout :
  GArray.size (rho_ st) = nWave st -> knownTypes st sys ->
  exists st' sys',
    addKSpaceForces st sys = Ok (st', sys') /\
    List.Forall2 (List.Forall2 (List.Forall2 (pushed st sys))) sys sys'.
Proof.
  intros Hrho Hknown.
  assert (Hlen : length (GArray.data (rho_ st)) = length (GArray.data (waves_ st))).
  { unfold nWave, GArray.size in Hrho. lia. }
  unfold addKSpaceForces.
  rewrite (computeKSpaceCharge_modes st sys Hknown Hlen). cbn [rbind].
  set (st1 := withRho st _).
  change (boundary st1) with (boundary st).
  assert (Hst1 : sameSizes st1 st1).
  { exists (fexp0_ st), (fexp1_ st), (fexp2_ st). repeat split. }
  destruct (mapM_total (sameSizes st1)
              (List.Forall (List.Forall (knownType st)))
              (List.Forall2 (List.Forall2 (pushed st sys)))
              (mapM (mapM (atomForce (reciprocalBasisVector (boundary st))
                             (-2.0 / (epsilon_ st * volume (boundary st)))%R)))
              sys st1)
    as (st' & sys' & Hforces & _ & Hsys).
  - intros s species Hs Hspecies.
    apply (mapM_total (sameSizes st1) (List.Forall (knownType st)));
      [|exact Hspecies|exact Hs].
    intros s1 molecule Hs1 Hmolecule.
    apply (mapM_total (sameSizes st1) (knownType st));
      [|exact Hmolecule|exact Hs1].
    intros s2 atom Hs2 Hatom.
    apply atomForce_closed; assumption.
  - exact Hknown.
  - exact Hst1.
  - exists st', sys'. split; [exact Hforces|exact Hsys].
Qed.

End Atoms.

(** X20. The forces in closed form.  After makeWaves, when at least one wave is
    stored and the stored waves leave no gap (the first one lies in the plane
    [k0 = 0], each plane follows the one before, and so does each column
    within its plane), addKSpaceForces returns for every system of atoms of
    known types; an atom whose charge magnitude exceeds [EPS] receives the
    sum over the stored waves of
    [k g(k) (cos(phi) Im(rho(k)) - sin(phi) Re(rho(k)))], with
    [phi = 2 pi (rg . k)] and [rho(k)] the mode of the whole system, scaled
    by [charge * (-2/(epsilon*V))] and carried to Cartesian coordinates;
    every other atom is left as it is. *)
Theorem forces_are_the_closed_form_sum (st0 st : t) (sys : System) :
  emptyWithoutStorage st0 -> makeWaves st0 = Ok st ->
  GArray.data (waves_ st) <> [] -> gapless (GArray.data (waves_ st)) ->
  knownTypes st sys ->
  exists st' sys',
    addKSpaceForces st sys = Ok (st', sys') /\
    List.Forall2 (List.Forall2 (List.Forall2 (pushed st sys))) sys sys'.
Proof.
  intros Hst Hrun Hne Hgap Hknown.
  destruct (makeWaves_layout st0 st Hst Hrun Hne Hgap)
    as (layout & Hwf & Hwaves & H0 & H1 & H2).
  destruct (makeWaves_parallel st0 st Hst Hrun) as (_ & Hg & Hrho).
  apply (forces_on_layout st sys layout Hwf Hwaves H0 H1 H2 Hne Hg); try assumption.
  intros k. exact (makeWaves_reach st0 st k Hst Hrun).
Qed.

(** The two atoms on the cubic solver: the charged atom at the origin
    receives the closed-form force, the uncharged one is returned as it
    was. *)
Lemma forces_are_the_closed_form_sum_witness :
  exists st' a0,
    addKSpaceForces cubicWaves twoAtoms
    = Ok (st', [[[a0; mkAtom (mkVector 1 2 3) (mkVector 0 0 0) 1]]]) /\
    force a0
    = ewaldForce cubicWaves twoAtoms (mkAtom (mkVector 0 0 0) (mkVector 0 0 0) 0).
Proof.
  destruct (forces_are_the_closed_form_sum cubicSolver cubicWaves twoAtoms)
    as (st' & sys' & Hrun & Hsys).
  - apply MakeWavesFacts.initial_emptyWithoutStorage.
  - exact MakeWavesFacts.makeWaves_cubicSolver.
  - discriminate.
  - simpl. unfold gapless. simpl. lia.
  - repeat constructor; simpl; lia.
  - unfold twoAtoms in Hsys.
    apply Forall2_cons_inv_l in Hsys.
    destruct Hsys as (species' & rest1 & Hspecies & Hnil1 & ->).
    apply Forall2_nil_inv_l in Hnil1. subst rest1.
    apply Forall2_cons_inv_l in Hspecies.
    destruct Hspecies as (molecule' & rest2 & Hmolecule & Hnil2 & ->).
    apply Forall2_nil_inv_l in Hnil2. subst rest2.
    apply Forall2_cons_inv_l in Hmolecule.
    destruct Hmolecule as (a0 & rest3 & A0 & Hrest & ->).
    apply Forall2_cons_inv_l in Hrest.
    destruct Hrest as (a1 & rest4 & A1 & Hnil3 & ->).
    apply Forall2_nil_inv_l in Hnil3. subst rest4.
    unfold pushed in A0, A1. cbn [chargeValue atomTypes cubicWaves typeId
      position force lookup] in A0, A1.
    assert (Hbig : Rgtb (Rabs (chargeValue cubicWaves
                     (mkAtom (mkVector 0 0 0) (mkVector 0 0 0) 0))) EPS = true).
    { apply ForceFacts.Rgtb_true. unfold chargeValue. simpl.
      rewrite Rabs_R1. unfold EPS. lra. }
    assert (Hsmall : Rgtb (Rabs (chargeValue cubicWaves
                       (mkAtom (mkVector 1 2 3) (mkVector 0 0 0) 1))) EPS = false).
    { apply ForceFacts.Rgtb_false. unfold chargeValue. simpl.
      rewrite Rabs_R0. unfold EPS. lra. }
    rewrite Hbig in A0. rewrite Hsmall in A1. simpl in A1. subst a1.
    exists st', a0. split; [exact Hrun|]. rewrite A0. reflexivity.
Defined.

End EwaldForceFacts.

(** ** addKSpaceForces: waves without a first plane *)

Module MissingPlaneFacts.
Import Space LoopFacts WaveSet FineEwaldCoulombPotential ChargeDensity ChargeDensityFacts.
Import MissingPlane.

Lemma get_inv {A : Type} (a : GArray.t A) (i : Z) (x : A) :
  GArray.get a i = Ok x -> 0 <= i < GArray.size a.
Proof.
  unfold GArray.get, GArray.size, assert.
  destruct (Z.leb_spec 0 i) as [Hi|Hi]; simpl; [|discriminate].
  destruct (GArray.data a !! Z.to_nat i) eqn:Hx; [|discriminate].
  intros _. apply lookup_lt_Some in Hx. lia.
Qed.

(** The second pass opens a plane only when the first index grows: the
    planes it has opened, and the first indices it has skipped, are no more
    than the first indices up to the largest one. *)
Lemma rangeStep_planes (m : Z) (p1 p2 : Pair) (k : IntVector) (s s' : Ranges) :
  rangeStep p1 p2 k s = Ok s' ->
  fst (range0 s) = 0 /\
  GArray.size (range1 s) + m <= snd (range0 s) + 1 ->
  fst (range0 s') = 0 /\
  GArray.size (range1 s') + m <= snd (range0 s') + 1.
Proof.
  unfold rangeStep, GArray.size. intros Hrun [Hlo Hsize].
  destruct (Z.ltb_spec (snd (range0 s)) (ix k)) as [Hnew|Hold].
  - destruct (GArray.modify (GArray.append p1 (range1 s)) _ _) as [a1|] eqn:E1;
      simpl in Hrun; [|discriminate].
    destruct (GArray.modify a1 _ _) as [a2|] eqn:E2; simpl in Hrun; [|discriminate].
    destruct (GArray.modify (GArray.append p2 (range2 s)) _ _) as [a3|];
      simpl in Hrun; [|discriminate].
    destruct (GArray.modify a3 _ _) as [a4|]; simpl in Hrun; [|discriminate].
    injection Hrun as <-. simpl.
    apply modify_shape in E1, E2. destruct E1 as [E1 _], E2 as [E2 _].
    rewrite E2, E1. simpl. rewrite length_app. simpl. split; [exact Hlo|lia].
  - destruct (GArray.get (range1 s) (r1 s)) as [top|]; simpl in Hrun;
      [|discriminate].
    destruct (snd top <? iy k).
    + destruct (GArray.modify (range1 s) _ _) as [a1|] eqn:E1; simpl in Hrun;
        [|discriminate].
      destruct (GArray.modify (GArray.append p2 (range2 s)) _ _) as [a3|];
        simpl in Hrun; [|discriminate].
      destruct (GArray.modify a3 _ _) as [a4|]; simpl in Hrun; [|discriminate].
      injection Hrun as <-. simpl.
      apply modify_shape in E1. destruct E1 as [E1 _]. rewrite E1.
      split; [exact Hlo|lia].
    + destruct (GArray.modify (range2 s) _ _) as [a3|]; simpl in Hrun;
        [|discriminate].
      injection Hrun as <-. simpl. split; [exact Hlo|lia].
Qed.

Lemma findRanges_planes (maxK : IntVector) (w : IntVector)
    (rest : list IntVector) (rg1 rg2 : GArray.t Pair) (rs : Ranges) :
  GArray.data rg1 = [] -> 0 <= ix w ->
  findRanges maxK (w :: rest) rg1 rg2 = Ok rs ->
  fst (range0 rs) = 0 /\
  GArray.size (range1 rs) + ix w <= snd (range0 rs) + 1.
Proof.
  intros Hrg1 Hw. unfold findRanges. cbn [foldM].
  destruct (rangeStep _ _ w _) as [s1|] eqn:Hfirst; cbn [rbind]; [|discriminate].
  intros Hrun.
  apply (foldM_preserves
           (fun s => fst (range0 s) = 0 /\
                     GArray.size (range1 s) + ix w <= snd (range0 s) + 1)
           _ _ _ _ (rangeStep_planes (ix w) _ _) Hrun).
  revert Hfirst. unfold rangeStep. cbn [range0 range1 range2 r1 r2 snd].
  destruct (Z.ltb_spec (-1) (ix w)) as [_|Hneg]; [|lia].
  destruct (GArray.modify (GArray.append _ rg1) _ _) as [a1|] eqn:E1;
    cbn [rbind]; [|discriminate].
  destruct (GArray.modify a1 _ _) as [a2|] eqn:E2; cbn [rbind]; [|discriminate].
  destruct (GArray.modify (GArray.append _ rg2) _ _) as [a3|];
    cbn [rbind]; [|discriminate].
  destruct (GArray.modify a3 _ _) as [a4|]; cbn [rbind]; [|discriminate].
  intros H. injection H as <-. simpl. unfold GArray.size.
  apply modify_shape in E1, E2. destruct E1 as [E1 _], E2 as [E2 _].
  rewrite E2, E1. simpl. rewrite Hrg1. simpl. split; [reflexivity|lia].
Qed.

(** The loops over [i1] and [i2] leave [r1] alone. *)
Lemma forceLoop2_wr1 (st : t) (e1 : DCMPLX) (i0 i1 i2 : Z) (s s' : WaveSum) :
  forceLoop2 st e1 i0 i1 i2 s = Ok s' -> wr1 s' = wr1 s.
Proof.
  unfold forceLoop2.
  destruct (GArray.get (fexp2_ st) _); cbn [rbind]; [|discriminate].
  destruct (GArray.get (g_ st) _); cbn [rbind]; [|discriminate].
  destruct (GArray.get (rho_ st) _); cbn [rbind]; [|discriminate].
  intros H. injection H as <-. reflexivity.
Qed.

Lemma forceLoop1_wr1 (st : t) (e0 : DCMPLX) (i0 i1 : Z) (s s' : WaveSum) :
  forceLoop1 st e0 i0 i1 s = Ok s' -> wr1 s' = wr1 s.
Proof.
  unfold forceLoop1, for_ZM.
  destruct (GArray.get (fexp1_ st) _); cbn [rbind]; [|discriminate].
  destruct (GArray.get (range2_ st) _) as [p2|]; cbn [rbind]; [|discriminate].
  rewrite for_upM_fold. intros Hrun.
  apply (foldM_preserves (fun t => wr1 t = wr1 s) _ _ _ _) in Hrun;
    [exact Hrun| |reflexivity].
  intros i2 t t' Hstep Ht. rewrite <- Ht.
  exact (forceLoop2_wr1 _ _ _ _ _ _ _ Hstep).
Qed.

(** Each plane of the loop over [i0] reads the next element of [range1_]. *)
Lemma forceLoop0_reads (st : t) (i0 : Z) (s s' : WaveSum) :
  forceLoop0 st i0 s = Ok s' ->
  wr1 s' = wr1 s + 1 /\ wr1 s' < GArray.size (range1_ st).
Proof.
  unfold forceLoop0, for_ZM.
  destruct (GArray.get (fexp0_ st) _); cbn [rbind]; [|discriminate].
  destruct (GArray.get (range1_ st) _) as [p1|] eqn:Hget; cbn [rbind];
    [|discriminate].
  apply get_inv in Hget.
  rewrite for_upM_fold. intros Hrun.
  apply (foldM_preserves (fun t => wr1 t = wr1 s + 1) _ _ _ _) in Hrun;
    [split; [exact Hrun|lia]| |reflexivity].
  intros i1 t t' Hstep Ht. rewrite <- Ht.
  exact (forceLoop1_wr1 _ _ _ _ _ _ Hstep).
Qed.

Lemma forceLoop0_planes (st : t) (n : nat) (lo : Z) (s s' : WaveSum) :
  for_upM n lo (forceLoop0 st) s = Ok s' ->
  wr1 s' = wr1 s + Z.of_nat n /\
  (n = 0%nat \/ wr1 s' < GArray.size (range1_ st)).
Proof.
  revert lo s. induction n as [|n IH]; intros lo s; cbn [for_upM].
  - intros H. injection H as <-. split; [lia|left; reflexivity].
  - destruct (forceLoop0 st lo s) as [s1|] eqn:Hstep; cbn [rbind];
      [|discriminate].
    intros Hrun. apply forceLoop0_reads in Hstep.
    destruct (IH _ _ Hrun) as [Hr Hn]. split; [lia|]. right.
    destruct Hn as [->|Hn]; [|exact Hn].
    simpl in Hr. lia.
Qed.

(** A generalized force is returned only when [range1_] has an element for
    every first index from [range0_[0]] to [range0_[1]]. *)
Lemma generalizedForce_planes (st : t) (fg : Vector) :
  generalizedForce st = Ok fg ->
  snd (range0_ st) + 1 - fst (range0_ st) <= GArray.size (range1_ st).
Proof.
  unfold generalizedForce, for_ZM.
  destruct (for_upM _ _ _ _) as [s|] eqn:Hrun; cbn [rbind]; [|discriminate].
  intros _. apply forceLoop0_planes in Hrun. cbn [wr1] in Hrun.
  unfold GArray.size in *. lia.
Qed.

(** With one element of [range1_] too few, no atom with a charge gets
    through the loop over atoms. *)
Lemma atomForce_missing_plane (b : Z -> Vector) (prefactor : double)
    (st s s' : t) (atom atom' : Atom) :
  GArray.size (range1_ st) < snd (range0_ st) + 1 - fst (range0_ st) ->
  tablesOf st s -> atomForce b prefactor s atom = Ok (s', atom') ->
  tablesOf st s' /\ ~ charged st atom.
Proof.
  intros Hshort Hs Hrun. pose proof Hs as (f0 & f1 & f2 & Es).
  unfold atomForce in Hrun.
  assert (Hcharge : chargeOf s atom = chargeOf st atom) by (rewrite Es; reflexivity).
  rewrite Hcharge in Hrun.
  destruct (chargeOf st atom) as [q|] eqn:Hq; cbn [rbind] in Hrun; [|discriminate].
  destruct (Rgtb (Rabs q) EPS) eqn:Hbig.
  - exfalso.
    destruct (tabulateAll s _) as [s1|] eqn:Htab; cbn [rbind] in Hrun;
      [|discriminate].
    destruct (generalizedForce s1) as [fg|] eqn:Hfg; cbn [rbind] in Hrun;
      [|discriminate].
    destruct (ForceFacts.tabulateAll_tablesOf st s s1 _ Hs Htab)
      as (g0 & g1 & g2 & Es1).
    apply generalizedForce_planes in Hfg. rewrite Es1 in Hfg.
    cbn [withFexp withArrays range0_ range1_] in Hfg. lia.
  - injection Hrun as <- <-. split; [exact Hs|].
    intros (q' & Hq' & Hlarge). rewrite Hq in Hq'. injection Hq' as <-.
    apply ForceFacts.Rgtb_false in Hbig. lra.
Qed.

Lemma Forall2_not_Exists {A : Type} (P : A -> Prop) (l l' : list A) :
  List.Forall2 (fun a _ => ~ P a) l l' -> ~ List.Exists P l.
Proof.
  induction 1 as [|a a' l l' Ha Hl IH]; intros Hex; inversion Hex; subst; auto.
Qed.

(** X21. No forces without a wave in the first plane.  When the first wave that
    makeWaves has stored has a first index of 1 or more (no wave with
    [k0 = 0] lies within the cutoff), [range1_] has fewer elements than the
    loop over [i0] reads, and addKSpaceForces fails on every system with an
    atom whose charge magnitude exceeds [EPS]. *)
Theorem forces_need_a_wave_in_the_first_plane (st0 st : t) (sys : System)
    (w : IntVector) (rest : list IntVector) :
  emptyWithoutStorage st0 -> makeWaves st0 = Ok st ->
  GArray.data (waves_ st) = w :: rest -> 1 <= ix w ->
  someCharged st sys ->
  exists e, addKSpaceForces st sys = Fail e.
Proof.
  intros Hst Hrun Hwaves Hw Hsys.
  assert (Hshort : GArray.size (range1_ st)
                   < snd (range0_ st) + 1 - fst (range0_ st)).
  { destruct (MakeWavesFacts.wavesAndRanges_ok st0 Hst)
      as (st1 & a & rs & Hpre & Hst1 & _ & _ & _ & Hcount).
    destruct (MakeWavesFacts.prepareArrays_data (maxKs st0) st0 Hst)
      as (_ & _ & _ & D4 & _).
    unfold makeWaves in Hrun. rewrite Hpre in Hrun. simpl in Hrun.
    rewrite Hcount, Z.eqb_refl in Hrun. simpl in Hrun.
    injection Hrun as <-. simpl in Hwaves |- *.
    pose proof Hpre as Hinv. apply CapacityFacts.wavesAndRanges_inv in Hinv.
    destruct Hinv as [_ Ha].
    unfold wavesAndRanges in Hpre. rewrite <- Hst1, <- Ha, Hwaves in Hpre.
    destruct (findRanges _ _ _ _) as [rs'|] eqn:Hfind; simpl in Hpre;
      [|discriminate].
    injection Hpre as <-. rewrite <- Hst1 in D4.
    assert (Hpos : 0 <= ix w) by lia.
    destruct (findRanges_planes _ _ _ _ _ _ D4 Hpos Hfind). lia. }
  destruct (addKSpaceForces st sys) as [[st' sys']|e] eqn:Hforces;
    [exfalso|exists e; reflexivity].
  unfold addKSpaceForces in Hforces.
  destruct (computeKSpaceCharge st sys) as [st1|] eqn:Hcharge;
    cbn [rbind] in Hforces; [|discriminate].
  apply computeKSpaceCharge_shape in Hcharge.
  destruct Hcharge as (rho & -> & _).
  assert (Hstep : forall s atom s' atom',
            tablesOf (withRho st rho) s ->
            atomForce (reciprocalBasisVector (boundary (withRho st rho)))
              (-2.0 / (epsilon_ st * volume (boundary st)))%R s atom
            = Ok (s', atom') ->
            tablesOf (withRho st rho) s' /\ ~ charged st atom).
  { intros s atom s' atom' Hs Hatom.
    destruct (atomForce_missing_plane _ _ (withRho st rho) s s' atom atom'
                Hshort Hs Hatom) as [Hs' Hnot].
    split; [exact Hs'|]. exact Hnot. }
  apply (mapM_Forall2 _ (tablesOf (withRho st rho))
           (fun species _ =>
              ~ List.Exists (List.Exists (charged st)) species)) in Hforces.
  - destruct Hforces as [_ Hnone].
    exact (Forall2_not_Exists _ _ _ Hnone Hsys).
  - intros s species s' species' Hs Hspecies.
    apply (mapM_Forall2 _ (tablesOf (withRho st rho))
             (fun molecule _ => ~ List.Exists (charged st) molecule))
      in Hspecies.
    + destruct Hspecies as [Hs' Hnone]. split; [exact Hs'|].
      exact (Forall2_not_Exists _ _ _ Hnone).
    + intros s1 molecule s1' molecule' Hs1 Hmolecule.
      apply (mapM_Forall2 _ (tablesOf (withRho st rho))
               (fun atom _ => ~ charged st atom)) in Hmolecule.
      * destruct Hmolecule as [Hs1' Hnone]. split; [exact Hs1'|].
        exact (Forall2_not_Exists _ _ _ Hnone).
      * exact Hstep.
      * exact Hs1.
    + exact Hs.
  - exists (fexp0_ st), (fexp1_ st), (fexp2_ st). reflexivity.
Qed.

(** The slab solver: [maxK] is (1, 1, 1). *)
Lemma ceil_half : ceil (1 / 2) = 1.
Proof.
  assert (H : Int_part (Ropp (1 / 2)) = -1)
    by (symmetry; apply Int_part_spec; simpl; lra).
  unfold ceil. rewrite H. reflexivity.
Qed.

Lemma maxKs_slabSolver : maxKs slabSolver = mkIntVector 1 1 1.
Proof.
  assert (Hpi : (0 < PI)%R) by apply PI_RGT_0.
  assert (Hlong : sqrt ((2 * PI) * (2 * PI)) = (2 * PI)%R)
    by (apply sqrt_square; lra).
  assert (Hshort : sqrt (PI * PI) = PI) by (apply sqrt_square; lra).
  assert (Htwo : (2.0 = 2)%R) by lra.
  assert (Hone : (1 * (2 * PI) / (2.0 * PI))%R = 1%R)
    by (rewrite Htwo; field; lra).
  assert (Hhalf : (1 * PI / (2.0 * PI))%R = (1 / 2)%R)
    by (rewrite Htwo; field; lra).
  unfold maxKs, maxKof, vabs, vsquare, vdot. simpl.
  replace (1 * (2 * PI) * (1 * (2 * PI)) + 0 * (2 * PI) * (0 * (2 * PI))
           + 0 * (2 * PI) * (0 * (2 * PI)))%R
    with ((2 * PI) * (2 * PI))%R by ring.
  replace (0 * PI * (0 * PI) + 1 * PI * (1 * PI) + 0 * PI * (0 * PI))%R
    with (PI * PI)%R by ring.
  replace (0 * PI * (0 * PI) + 0 * PI * (0 * PI) + 1 * PI * (1 * PI))%R
    with (PI * PI)%R by ring.
  rewrite Hlong, Hshort, Hone, Hhalf, MakeWavesFacts.ceil_one, ceil_half.
  reflexivity.
Qed.

(** makeWaves on the slab solver. *)
Lemma makeWaves_slabSolver : makeWaves slabSolver = Ok slabWaves.
Proof.
  assert (Hksq : forall x y z : Z,
            ksqOf (vscale (unitVector 0) 1) (vscale (unitVector 1) 2)
                  (vscale (unitVector 2) 2) (mkIntVector x y z)
            = IZR (x * x + 4 * (y * y) + 4 * (z * z))).
  { intros x y z.
    unfold ksqOf, kdotb, vsquare, vdot, vadd, vscale. simpl.
    rewrite !plus_IZR, !mult_IZR. ring. }
  assert (Hkept : forall k,
            kept (vscale (unitVector 0) 1) (vscale (unitVector 1) 2)
                 (vscale (unitVector 2) 2) (1 * 1) k
            = (ix k * ix k + 4 * (iy k * iy k) + 4 * (iz k * iz k) <=? 1)).
  { intros [x y z]. unfold kept. rewrite Hksq. simpl. unfold Rleb.
    destruct (Rle_dec _ _) as [H|H].
    - symmetry. apply Z.leb_le. apply le_IZR. lra.
    - symmetry. apply Z.leb_gt. apply lt_IZR. lra. }
  unfold makeWaves, wavesAndRanges.
  rewrite AccumulateFacts.accumulateWaves_visits, maxKs_slabSolver.
  change (reciprocalBasisVector (boundary slabSolver) 0)
    with (vscale (unitVector 0) 1).
  change (reciprocalBasisVector (boundary slabSolver) 1)
    with (vscale (unitVector 1) 2).
  change (reciprocalBasisVector (boundary slabSolver) 2)
    with (vscale (unitVector 2) 2).
  change (kCutoff_ slabSolver * kCutoff_ slabSolver)%R with (1 * 1)%R.
  rewrite (MakeWavesFacts.visit_ext _ _ _ _ _ _ _ _ Hkept).
  simpl. rewrite !MakeWavesFacts.prefactor_weight, !Hksq.
  unfold slabWaves. f_equal.
Qed.

(** The slab solver stores the one wave (1,0,0), and the forces of the two
    atoms fail. *)
Lemma forces_need_a_wave_in_the_first_plane_witness :
  GArray.data (waves_ slabWaves) = [mkIntVector 1 0 0] /\
  exists e, addKSpaceForces slabWaves twoAtoms = Fail e.
Proof.
  split; [reflexivity|].
  apply (forces_need_a_wave_in_the_first_plane slabSolver slabWaves twoAtoms
           (mkIntVector 1 0 0) []).
  - apply MakeWavesFacts.initial_emptyWithoutStorage.
  - exact makeWaves_slabSolver.
  - reflexivity.
  - simpl. lia.
  - apply List.Exists_cons_hd, List.Exists_cons_hd, List.Exists_cons_hd.
    exists 1%R. split; [reflexivity|].
    rewrite Rabs_R1. unfold EPS. lra.
Defined.

End MissingPlaneFacts.

(** ** kspaceEnergy: the energy in closed form *)

Module EwaldEnergyFacts.
Import Space LoopFacts WaveSet FineEwaldCoulombPotential ChargeDensity ChargeDensityFacts.
Import EwaldEnergy.

Lemma energyTerms_map {A : Type} (f : A -> double) (g : A -> DCMPLX)
    (l : list A) :
  energyTerms (map f l) (map g l)
  = map (fun a => (f a * (real (g a) * real (g a) + imag (g a) * imag (g a)))%R) l.
Proof.
  unfold energyTerms. induction l as [|a l IH]; simpl; [reflexivity|].
  rewrite IH. reflexivity.
Qed.

(** The weights makeWaves stores, told with the parameters of the object
    it returns. *)
Lemma makeWaves_weights (st0 st : t) :
  emptyWithoutStorage st0 -> makeWaves st0 = Ok st ->
  GArray.data (g_ st)
  = map (fun k => weight (alpha_ st)
                    (ksqOf (reciprocalBasisVector (boundary st) 0)
                           (reciprocalBasisVector (boundary st) 1)
                           (reciprocalBasisVector (boundary st) 2) k))
        (GArray.data (waves_ st)) /\
  length (GArray.data (rho_ st)) = length (GArray.data (waves_ st)).
Proof.
  intros Hst Hrun.
  destruct (RebuildFacts.makeWaves_parameters st0 st Hrun)
    as (-> & _ & _ & -> & _).
  destruct (MakeWavesFacts.wavesAndRanges_ok st0 Hst)
    as (st1 & a & rs & Hpre & _ & Hw & _ & Hg & Hcount).
  unfold makeWaves in Hrun. rewrite Hpre in Hrun. simpl in Hrun.
  rewrite Hcount, Z.eqb_refl in Hrun. simpl in Hrun.
  injection Hrun as <-. simpl. rewrite Hg, Hw. split; [reflexivity|].
  rewrite length_app, length_take, length_replicate.
  unfold GArray.size. rewrite Hw. lia.
Qed.

(** X22. The reciprocal-space energy in closed form.  After makeWaves, for every
    system of atoms of known types, kspaceEnergy returns
    [1/(epsilon V)] times the sum over the stored waves of
    [exp(-ksq/(4 alpha^2))/ksq * |rho(k)|^2], where [rho(k)] is the sum of
    [charge * exp(i 2 pi (rg . k))] over the atoms; the object it leaves
    differs from the one before in the modes only. *)
Theorem energy_is_the_closed_form_sum (st0 st : t) (sys : System) :
  emptyWithoutStorage st0 -> makeWaves st0 = Ok st -> knownTypes st sys ->
  kspaceEnergy st sys
  = Ok (ewaldEnergy st sys,
        withRho st
          (GArray.mk (map (mode st (atomsOf sys)) (GArray.data (waves_ st)))
                     (GArray.capacity (rho_ st)))).
Proof.
  intros Hst Hrun Hknown.
  destruct (makeWaves_weights st0 st Hst Hrun) as [Hg Hlen].
  unfold kspaceEnergy.
  rewrite (computeKSpaceCharge_modes st sys Hknown Hlen). cbn [rbind].
  rewrite EnergyFacts.energySum_ok.
  - cbn [rbind]. f_equal. f_equal.
    cbn [withRho withArrays g_ rho_ epsilon_ boundary GArray.data].
    rewrite Hg, energyTerms_map. unfold ewaldEnergy.
    change (map _ (GArray.data (waves_ st)))
      with (map (waveEnergy st sys) (GArray.data (waves_ st))).
    unfold Rdiv.
    generalize (sumR (map (waveEnergy st sys) (GArray.data (waves_ st)))).
    generalize (/ (epsilon_ st * volume (boundary st)))%R.
    intros d x. lra.
  - split; simpl; [rewrite Hg|]; rewrite !length_map; reflexivity.
Qed.

(** The two atoms on the cubic solver. *)
Lemma energy_is_the_closed_form_sum_witness :
  exists st',
    kspaceEnergy cubicWaves twoAtoms = Ok (ewaldEnergy cubicWaves twoAtoms, st').
Proof.
  eexists.
  apply (energy_is_the_closed_form_sum cubicSolver cubicWaves twoAtoms).
  - apply MakeWavesFacts.initial_emptyWithoutStorage.
  - exact MakeWavesFacts.makeWaves_cubicSolver.
  - repeat constructor; simpl; lia.
Defined.

End EwaldEnergyFacts.

(** ** addKSpaceForces: the sum of the forces *)

Module TotalForceFacts.
Import Space LoopFacts WaveSet FineEwaldCoulombPotential WaveLayout WaveLayoutFacts PhaseTables ForceSum ForceSumFacts ChargeDensity ChargeDensityFacts PhaseTableFacts StoredOrderFacts EwaldForce EwaldForceFacts.
Import TotalForce.

Ltac componentwise :=
  unfold addCartesian, vadd, vscale, vzero, vget; simpl; f_equal; ring.

Lemma forceSum_shift (rg : Vector) (ws : list IntVector) (gs : list double)
    (rhos : list DCMPLX) (fg : Vector) :
  forceSum rg ws gs rhos fg = vadd fg (forceSum rg ws gs rhos vzero).
Proof.
  revert gs rhos fg. induction ws as [|k ws IH]; intros gs rhos fg.
  - destruct fg. componentwise.
  - destruct gs as [|g gs]; [destruct fg; componentwise|].
    destruct rhos as [|r rhos]; [destruct fg; componentwise|].
    simpl. rewrite IH. rewrite (IH _ _ (vadd vzero _)). componentwise.
Qed.

Lemma chargeSum_ext (st : t) (F G : Atom -> Vector) (l : list Atom) :
  (forall a, F a = G a) -> chargeSum st F l = chargeSum st G l.
Proof.
  intros H. induction l as [|a l IH]; simpl; [reflexivity|].
  rewrite H, IH. reflexivity.
Qed.

Lemma chargeSum_zero (st : t) (l : list Atom) :
  chargeSum st (fun _ => vzero) l = vzero.
Proof.
  induction l as [|a l IH]; simpl; [reflexivity|]. rewrite IH. componentwise.
Qed.

Lemma chargeSum_add (st : t) (F G : Atom -> Vector) (l : list Atom) :
  chargeSum st (fun a => vadd (F a) (G a)) l
  = vadd (chargeSum st F l) (chargeSum st G l).
Proof.
  induction l as [|a l IH]; simpl; [componentwise|]. rewrite IH. componentwise.
Qed.

(** The real and imaginary parts of a mode are the two sums. *)
Lemma mode_parts (st : t) (k : IntVector) (l : list Atom) :
  mode st l k = mkDCMPLX (cosSum st k l) (sinSum st k l).
Proof.
  unfold mode, cosSum, sinSum.
  assert (H : forall r0,
            fold_left (fun r atom => cadd r (atomTerm st atom k)) l r0
            = mkDCMPLX
                (real r0
                 + sumR (map (fun a => chargeValue st a * cos (phaseOf st a k)) l))%R
                (imag r0
                 + sumR (map (fun a => chargeValue st a * sin (phaseOf st a k)) l))%R).
  { induction l as [|a l IH]; intros r0; simpl.
    - destruct r0. simpl. f_equal; ring.
    - rewrite IH. unfold cadd, atomTerm. simpl. f_equal; ring. }
  rewrite H. unfold czero. simpl. f_equal; ring.
Qed.

(** The terms of one wave, added up over the atoms. *)
Lemma chargeSum_waveForce (st : t) (k : IntVector) (g : double) (r : DCMPLX)
    (l : list Atom) :
  chargeSum st
    (fun a => waveForce (transformCartToGen (boundary st) (position a)) k g r) l
  = vscale (waveVector k)
      (g * (cosSum st k l * imag r - sinSum st k l * real r))%R.
Proof.
  unfold cosSum, sinSum.
  induction l as [|a l IH]; simpl; [componentwise|].
  rewrite IH. unfold waveForce, phaseOf, waveVector. componentwise.
Qed.

(** The generalized forces of all atoms, each times its charge, add up to
    zero: the term of a wave is odd under the exchange of the two sums that
    make up its mode. *)
Lemma chargeSum_forceSum (st : t) (l : list Atom) (ws : list IntVector)
    (gs : list double) :
  chargeSum st
    (fun a => forceSum (transformCartToGen (boundary st) (position a)) ws gs
                (map (mode st l) ws) vzero) l
  = vzero.
Proof.
  revert gs. induction ws as [|k ws IH]; intros gs.
  - simpl. apply chargeSum_zero.
  - destruct gs as [|g gs]; [simpl; apply chargeSum_zero|].
    cbn [map forceSum].
    rewrite (chargeSum_ext st _
               (fun a =>
                  vadd (waveForce (transformCartToGen (boundary st) (position a))
                          k g (mode st l k))
                       (forceSum (transformCartToGen (boundary st) (position a))
                          ws gs (map (mode st l) ws) vzero))).
    + rewrite chargeSum_add, IH, chargeSum_waveForce, mode_parts.
      componentwise.
    + intros a. rewrite forceSum_shift. componentwise.
Qed.

Lemma vsum_cons (v : Vector) (l : list Vector) :
  vsum (v :: l) = vadd v (vsum l).
Proof. reflexivity. Qed.

Lemma chargeSum_cons (st : t) (F : Atom -> Vector) (a : Atom) (l : list Atom) :
  chargeSum st F (a :: l)
  = vadd (vscale (F a) (chargeValue st a)) (chargeSum st F l).
Proof. reflexivity. Qed.

(** The forces after the call, added up. *)
Lemma vsum_pushed (st : t) (sys : System) (l l' : list Atom) :
  List.Forall
    (fun atom => chargeValue st atom = 0%R \/ (Rabs (chargeValue st atom) > EPS)%R) l ->
  List.Forall2 (pushed st sys) l l' ->
  vsum (map force l')
  = addCartesian (reciprocalBasisVector (boundary st)) 1
      (-2.0 / (epsilon_ st * volume (boundary st)))%R
      (chargeSum st
         (fun a => forceSum (transformCartToGen (boundary st) (position a))
                     (GArray.data (waves_ st)) (GArray.data (g_ st))
                     (map (mode st (atomsOf sys)) (GArray.data (waves_ st)))
                     vzero) l)
      (vsum (map force l)).
Proof.
  intros Hl Hpushed. induction Hpushed as [|a a' l l' Ha Hrest IH].
  - simpl. componentwise.
  - inversion Hl as [|? ? Hq Hl']; subst.
    rewrite !map_cons, !vsum_cons, chargeSum_cons, (IH Hl'). clear IH.
    unfold pushed in Ha. rewrite Ha. cbn [force].
    match goal with
    | |- context [chargeSum st ?F l] => generalize (chargeSum st F l)
    end.
    generalize (vsum (map force l)). intros X T.
    destruct Hq as [Hzero|Hbig].
    + replace (Rgtb (Rabs (chargeValue st a)) EPS) with false.
      * rewrite Hzero. destruct (force a). componentwise.
      * symmetry. apply ForceFacts.Rgtb_false. rewrite Hzero, Rabs_R0.
        unfold EPS. lra.
    + replace (Rgtb (Rabs (chargeValue st a)) EPS) with true
        by (symmetry; apply ForceFacts.Rgtb_true; exact Hbig).
      unfold ewaldForce. componentwise.
Qed.

(** X23. The reciprocal-space forces add up to zero.  After makeWaves, on a
    gapless set of stored waves, for a system of atoms of known types in
    which every charge is 0 or exceeds [EPS] in magnitude, addKSpaceForces
    returns and leaves the sum of the forces on all atoms as it was. *)
Theorem forces_add_up_to_zero (st0 st : t) (sys : System) :
  emptyWithoutStorage st0 -> makeWaves st0 = Ok st ->
  GArray.data (waves_ st) <> [] -> gapless (GArray.data (waves_ st)) ->
  knownTypes st sys -> noTinyCharge st sys ->
  exists st' sys',
    addKSpaceForces st sys = Ok (st', sys') /\
    totalForce sys' = totalForce sys.
Proof.
  intros Hst Hrun Hne Hgap Hknown Hcharges.
  destruct (makeWaves_layout st0 st Hst Hrun Hne Hgap)
    as (layout & Hwf & Hwaves & H0 & H1 & H2).
  destruct (makeWaves_parallel st0 st Hst Hrun) as (_ & Hg & Hrho).
  destruct (forces_on_layout st sys layout Hwf Hwaves H0 H1 H2 Hne Hg
              (fun k => makeWaves_reach st0 st k Hst Hrun) Hrho Hknown)
    as (st' & sys' & Hforces & Hsys).
  exists st', sys'. split; [exact Hforces|].
  unfold totalForce.
  rewrite (vsum_pushed st sys (atomsOf sys) (atomsOf sys') Hcharges).
  - rewrite chargeSum_forceSum. destruct (vsum _). componentwise.
  - unfold atomsOf. apply Forall2_concat, Forall2_concat. exact Hsys.
Qed.

(** The two atoms on the cubic solver, of charge 1 and 0. *)
Lemma forces_add_up_to_zero_witness :
  exists st' sys',
    addKSpaceForces cubicWaves twoAtoms = Ok (st', sys') /\
    totalForce sys' = totalForce twoAtoms.
Proof.
  apply (forces_add_up_to_zero cubicSolver cubicWaves twoAtoms).
  - apply MakeWavesFacts.initial_emptyWithoutStorage.
  - exact MakeWavesFacts.makeWaves_cubicSolver.
  - discriminate.
  - simpl. unfold gapless. simpl. lia.
  - repeat constructor; simpl; lia.
  - unfold noTinyCharge, twoAtoms, atomsOf. simpl.
    constructor; [|constructor; [|constructor]].
    + right. unfold chargeValue. simpl. rewrite Rabs_R1. unfold EPS. lra.
    + left. reflexivity.
Defined.

End TotalForceFacts.

(** ** kspaceEnergy: moving all atoms *)

Module TranslationFacts.
Import Space LoopFacts WaveSet FineEwaldCoulombPotential ChargeDensity ChargeDensityFacts TotalForce TotalForceFacts.
Import Translation.

(** Moving all atoms by [d] turns the mode of a wave by the phase
    [2 pi (d . k)]. *)
Lemma sums_translated (st : t) (d : Vector) (k : IntVector) (l l' : list Atom) :
  List.Forall2 (translated st d) l l' ->
  let delta := (vdot d (mkVector (IZR (ix k)) (IZR (iy k)) (IZR (iz k))) * TwoPi)%R in
  cosSum st k l' = (cos delta * cosSum st k l - sin delta * sinSum st k l)%R /\
  sinSum st k l' = (sin delta * cosSum st k l + cos delta * sinSum st k l)%R.
Proof.
  intros Hl delta. unfold cosSum, sinSum.
  induction Hl as [|a a' l l' [Htype Hpos] Hrest [IHc IHs]]; simpl.
  - split; ring.
  - rewrite IHc, IHs.
    assert (Hq : chargeValue st a' = chargeValue st a)
      by (unfold chargeValue; rewrite Htype; reflexivity).
    assert (Hphase : phaseOf st a' k = (phaseOf st a k + delta)%R).
    { unfold phaseOf, delta. rewrite Hpos. unfold vdot, vadd. simpl. ring. }
    rewrite Hq, Hphase, cos_plus, sin_plus. split; ring.
Qed.

Lemma norm2_translated (st : t) (d : Vector) (k : IntVector) (l l' : list Atom) :
  List.Forall2 (translated st d) l l' ->
  norm2 (mode st l' k) = norm2 (mode st l k).
Proof.
  intros Hl. destruct (sums_translated st d k l l' Hl) as [Hc Hs].
  rewrite !mode_parts. unfold norm2. simpl. rewrite Hc, Hs.
  set (delta := (vdot d _ * TwoPi)%R).
  pose proof (sin2_cos2 delta) as Hone. unfold Rsqr in Hone.
  generalize (cosSum st k l), (sinSum st k l). intros C S.
  replace ((cos delta * C - sin delta * S) * (cos delta * C - sin delta * S)
           + (sin delta * C + cos delta * S) * (sin delta * C + cos delta * S))%R
    with ((C * C + S * S) * (sin delta * sin delta + cos delta * cos delta))%R
    by ring.
  rewrite Hone. ring.
Qed.

Lemma energyTerms_norm2 (gs : list double) (f f' : IntVector -> DCMPLX)
    (ws : list IntVector) :
  (forall k, norm2 (f' k) = norm2 (f k)) ->
  energyTerms gs (map f' ws) = energyTerms gs (map f ws).
Proof.
  intros H. unfold energyTerms. revert gs.
  induction ws as [|k ws IH]; intros [|g gs]; simpl; try reflexivity.
  rewrite IH. f_equal. f_equal. apply H.
Qed.

Lemma knownTypes_translated (st : t) (d : Vector) (sys sys' : System) :
  List.Forall2 (List.Forall2 (List.Forall2 (translated st d))) sys sys' ->
  knownTypes st sys -> knownTypes st sys'.
Proof.
  unfold knownTypes. intros Hsys.
  induction Hsys as [|sp sp' sys sys' Hsp Hsys IH]; intros Hk; [constructor|].
  inversion Hk as [|? ? Hk1 Hk2]; subst. constructor; [|apply IH; exact Hk2].
  clear IH Hk Hk2 Hsys. induction Hsp as [|m m' sp sp' Hm Hsp IH];
    [constructor|].
  inversion Hk1 as [|? ? Hm1 Hm2]; subst. constructor; [|apply IH; exact Hm2].
  clear IH Hk1 Hm2 Hsp. induction Hm as [|a a' m m' [Htype _] Hm IH];
    [constructor|].
  inversion Hm1 as [|? ? Ha1 Ha2]; subst. constructor; [|apply IH; exact Ha2].
  unfold knownType in *. rewrite Htype. exact Ha1.
Qed.

(** X24. The energy does not depend on where the origin is.  When all atoms are
    moved by the same vector in generalized coordinates, kspaceEnergy
    returns the same energy: every mode is turned by a phase, which its
    squared magnitude does not see. *)
Theorem energy_is_translation_invariant (st : t) (d : Vector)
    (sys sys' : System) :
  parallelArrays st -> knownTypes st sys ->
  List.Forall2 (List.Forall2 (List.Forall2 (translated st d))) sys sys' ->
  exists energy st1 st2,
    kspaceEnergy st sys = Ok (energy, st1) /\
    kspaceEnergy st sys' = Ok (energy, st2).
Proof.
  intros [Hg Hrho] Hknown Hsys.
  pose proof (knownTypes_translated st d sys sys' Hsys Hknown) as Hknown'.
  assert (Hatoms : List.Forall2 (translated st d) (atomsOf sys) (atomsOf sys'))
    by (unfold atomsOf; apply Forall2_concat, Forall2_concat; exact Hsys).
  unfold kspaceEnergy.
  rewrite (computeKSpaceCharge_modes st sys Hknown Hrho),
          (computeKSpaceCharge_modes st sys' Hknown' Hrho).
  cbn [rbind].
  rewrite !EnergyFacts.energySum_ok
    by (split; simpl; [exact Hg|rewrite length_map; reflexivity]).
  cbn [rbind]. eexists. eexists. eexists. split; [reflexivity|].
  f_equal. f_equal. f_equal. f_equal. f_equal. simpl.
  apply energyTerms_norm2. intros k.
  exact (norm2_translated st d k _ _ Hatoms).
Qed.

(** The two atoms on the cubic solver, moved by a quarter of the edge along
    the first axis. *)
Lemma energy_is_translation_invariant_witness :
  exists energy st1 st2,
    kspaceEnergy cubicWaves twoAtoms = Ok (energy, st1) /\
    kspaceEnergy cubicWaves
      [[[mkAtom (mkVector (PI / 2) 0 0) (mkVector 0 0 0) 0;
         mkAtom (mkVector (1 + PI / 2) 2 3) (mkVector 0 0 0) 1]]]
    = Ok (energy, st2).
Proof.
  apply (energy_is_translation_invariant cubicWaves (mkVector (1 / 4) 0 0)).
  - split; reflexivity.
  - repeat constructor; simpl; lia.
  - assert (Hpi : (0 < PI)%R) by apply PI_RGT_0.
    constructor; [|constructor]. constructor; [|constructor].
    constructor; [|constructor; [|constructor]].
    + split; [reflexivity|].
      simpl. unfold vadd, vscale. simpl. f_equal; field; lra.
    + split; [reflexivity|].
      simpl. unfold vadd, vscale. simpl. f_equal; field; lra.
Defined.

End TranslationFacts.
